(** * The page-state engine of the s3fs cache (fdcache_page.cpp) and the
      dispatch entry points of its worker pool (threadpoolman.cpp)

    A shallow embedding of [PageList] and of the helpers it is built from.

    Conventions.
    - [off_t] is modelled as [Z].  Signed overflow is undefined behaviour in
      C++, so the model describes the executions in which no [off_t]
      computation leaves the 64-bit range.  The sums and the product that
      the arguments of a call enter are written without wrap-around:
      [start + size] in [SetPageLoadedStatus], [IsPageLoaded],
      [GetTotalUnloadedPageSize] and [GetUnloadedPages], and
      [max_partsize * 2] in [parse_partsize_fdpage_list].  A statement
      that holds only while they stay in the range of [off_t] carries
      that range as a hypothesis: [start + size < 2 ^ 63],
      [max_partsize < 2 ^ 62].
    - A [std::vector<fdpage>] is a [list fdpage]; [push_back] is [++ [x]].
    - A method that updates the object takes the old [PageList] and returns
      the new one, next to its C++ return value where that value can differ
      from [true]. *)

From Stdlib Require Import ZArith List Bool Lia Ascii String.
From Stdlib Require Import DecimalString DecimalZ DecimalPos.
Import ListNotations.

Local Open Scope Z_scope.

(* ================================================================== *)
(** ** Data model *)
(* ================================================================== *)

(** Modelled from the spec: [struct fdpage] of fdcache_page.h, which is not
    among the sources.  A page is a byte range with the four fields of the
    spec's page record (offset, length, loaded, modified). *)
Record fdpage : Type := mkpage {
  offset   : Z;
  bytes    : Z;
  loaded   : bool;
  modified : bool
}.

(** Modelled from the spec: [fdpage::next()], the first offset after the
    page ("pages[i].offset + pages[i].length = pages[i+1].offset"). *)
Definition next (p : fdpage) : Z := offset p + bytes p.

(** Modelled from the spec: [fdpage::end()] of fdcache_page.h, the offset of
    the last byte of the page, and 0 for a page without bytes. *)
Definition end_ (p : fdpage) : Z :=
  if 0 <? bytes p then offset p + bytes p - 1 else 0.

Definition set_bytes (p : fdpage) (b : Z) : fdpage :=
  mkpage (offset p) b (loaded p) (modified p).

Definition set_flags (p : fdpage) (l m : bool) : fdpage :=
  mkpage (offset p) (bytes p) l m.

(** Modelled from the spec: [PageList::page_status] of fdcache_page.h
    ("status is one of NOT_LOAD_NOT_MODIFIED, LOADED, MODIFIED,
    LOAD_MODIFIED"); the source spells the first one NOT_LOAD_MODIFIED. *)
Inductive page_status : Type :=
| NOT_LOAD_MODIFIED
| LOADED
| MODIFIED
| LOAD_MODIFIED.

(** The object state: the page vector and the shrunk flag. *)
Record PageList : Type := mkPageList {
  pages     : list fdpage;
  is_shrink : bool
}.

(* ================================================================== *)
(** ** PageList methods *)
(* ================================================================== *)

Module PL.

(** [PageList::Clear] *)
Definition Clear (pl : PageList) : PageList :=
  mkPageList [] false.

(** [PageList::Init] (always returns true) *)
Definition Init (size : Z) (is_loaded is_modified : bool) (pl : PageList)
  : PageList :=
  let pl := Clear pl in
  if 0 <=? size
  then mkPageList (pages pl ++ [mkpage 0 size is_loaded is_modified])
                  (is_shrink pl)
  else pl.

(** [PageList::Size] *)
Definition size_of (l : list fdpage) : Z :=
  match l with
  | [] => 0
  | _ => next (last l (mkpage 0 0 false false))
  end.

Definition Size (pl : PageList) : Z := size_of (pages pl).

(** The loop of [PageList::Compress], from the moment [lastpage] is set:
    [lastpage] is the page being grown, [rest] the pages from [iter] on.
    The pages before [lastpage] are final and are emitted in order. *)
Fixpoint compress_from (lastpage : fdpage) (rest : list fdpage)
  : list fdpage :=
  match rest with
  | [] => [lastpage]
  | cur :: rest' =>
      (* check page continuity *)
      let '(done, lastpage) :=
        if negb (next lastpage =? offset cur) then
          if loaded lastpage || modified lastpage then
            (* insert new page before current pos *)
            ([lastpage],
             mkpage (next lastpage) (offset cur - next lastpage) false false)
          else
            (* expand last area *)
            ([], set_bytes lastpage (offset cur - offset lastpage))
        else ([], lastpage) in
      (* check current page *)
      if Bool.eqb (loaded lastpage) (loaded cur)
         && Bool.eqb (modified lastpage) (modified cur)
      then done ++ compress_from
                     (set_bytes lastpage (bytes lastpage + bytes cur)) rest'
      else done ++ lastpage :: compress_from cur rest'
  end.

Definition compress_pages (l : list fdpage) : list fdpage :=
  match l with
  | [] => []
  | first :: rest => compress_from first rest
  end.

(** [PageList::Compress] (always returns true) *)
Definition Compress (pl : PageList) : PageList :=
  mkPageList (compress_pages (pages pl)) (is_shrink pl).

(** The loop of [PageList::Parse]; [None] is the [return false] after the
    loop, which leaves the vector as it was. *)
Fixpoint parse_pages (new_pos : Z) (l : list fdpage)
  : option (list fdpage) :=
  match l with
  | [] => None
  | p :: ps =>
      if new_pos =? offset p then Some l
      else if (offset p <? new_pos) && (new_pos <? next p) then
        Some (mkpage (offset p) (new_pos - offset p) (loaded p) (modified p)
              :: mkpage new_pos (bytes p - (new_pos - offset p))
                        (loaded p) (modified p)
              :: ps)
      else option_map (cons p) (parse_pages new_pos ps)
  end.

(** [PageList::Parse] *)
Definition Parse (new_pos : Z) (pl : PageList) : bool * PageList :=
  match parse_pages new_pos (pages pl) with
  | Some l => (true, mkPageList l (is_shrink pl))
  | None => (false, pl)
  end.

(** The "cut area" loop of [PageList::Resize].  A page cut short ends at
    [size], so the next turn of the loop steps over it. *)
Fixpoint cut_pages (size : Z) (l : list fdpage) : list fdpage :=
  match l with
  | [] => []
  | p :: ps =>
      if next p <=? size then p :: cut_pages size ps
      else if size <=? offset p then cut_pages size ps
      else set_bytes p (size - offset p) :: cut_pages size ps
  end.

(** [PageList::Resize] (returns what [Compress] returns: true) *)
Definition Resize (size : Z) (is_loaded is_modified : bool) (pl : PageList)
  : PageList :=
  let total := Size pl in
  let pl :=
    if total =? 0 then
      let backup_is_shrink := is_shrink pl in
      let pl := Init size is_loaded is_modified pl in
      mkPageList (pages pl) backup_is_shrink
    else if total <? size then
      mkPageList (pages pl ++ [mkpage total (size - total)
                                      is_loaded is_modified])
                 (is_shrink pl)
    else if size <? total then
      mkPageList (cut_pages size (pages pl))
                 (if is_modified then true else is_shrink pl)
    else pl in
  Compress pl.

Definition status_loaded (pstatus : page_status) : bool :=
  match pstatus with
  | LOAD_MODIFIED | LOADED => true
  | _ => false
  end.

Definition status_modified (pstatus : page_status) : bool :=
  match pstatus with
  | LOAD_MODIFIED | MODIFIED => true
  | _ => false
  end.

(** The "set loaded flag" loop of [PageList::SetPageLoadedStatus], with
    the same sum [start + size]. *)
Fixpoint mark_pages (start size : Z) (is_loaded is_modified : bool)
         (l : list fdpage) : list fdpage :=
  match l with
  | [] => []
  | p :: ps =>
      if end_ p <? start then
        p :: mark_pages start size is_loaded is_modified ps
      else if start + size <=? offset p then l
      else set_flags p is_loaded is_modified
           :: mark_pages start size is_loaded is_modified ps
  end.

(** [PageList::SetPageLoadedStatus] (always returns true).  [start + size]
    is the sum of the source as long as it is below 2^63. *)
Definition SetPageLoadedStatus (start size : Z) (pstatus : page_status)
           (is_compress : bool) (pl : PageList) : PageList :=
  let now_size := Size pl in
  let is_loaded := status_loaded pstatus in
  let is_modified := status_modified pstatus in
  let pl :=
    if now_size <=? start then
      let pl := if now_size <? start
                then Resize start false is_modified pl
                else pl in
      Resize (start + size) is_loaded is_modified pl
    else if now_size <=? start + size then
      let pl := Resize start false false pl in
      Resize (start + size) is_loaded is_modified pl
    else
      let pl := snd (Parse start pl) in
      let pl := snd (Parse (start + size) pl) in
      mkPageList (mark_pages start size is_loaded is_modified (pages pl))
                 (is_shrink pl) in
  if is_compress then Compress pl else pl.

(** [PageList::ClearAllModified] (returns what [Compress] returns: true) *)
Definition ClearAllModified (pl : PageList) : PageList :=
  Compress
    (mkPageList
       (map (fun p => if modified p then set_flags p (loaded p) false else p)
            (pages pl))
       false).

(** [PageList::GetTotalUnloadedPageSize]: the loop, with [restsize] as
    accumulator.  [next_] is [start + size], the sum of the source as
    long as it is below 2^63. *)
Fixpoint total_unloaded_loop (start next_ limit_size restsize : Z)
         (l : list fdpage) : Z :=
  match l with
  | [] => restsize
  | p :: ps =>
      if next p <=? start then
        total_unloaded_loop start next_ limit_size restsize ps
      else if next_ <=? offset p then restsize
      else if loaded p || modified p then
        total_unloaded_loop start next_ limit_size restsize ps
      else
        let tmpsize :=
          if offset p <=? start then
            if next p <=? next_ then next p - start else next_ - start
          else
            if next p <=? next_ then next p - offset p
            else next_ - offset p in
        let restsize :=
          if (limit_size =? 0) || (tmpsize <? limit_size)
          then restsize + tmpsize else restsize in
        total_unloaded_loop start next_ limit_size restsize ps
  end.

Definition GetTotalUnloadedPageSize (start size limit_size : Z)
           (pl : PageList) : Z :=
  let size :=
    if size =? 0 then
      if start <? Size pl then Size pl - start else size
    else size in
  let next_ := start + size in
  total_unloaded_loop start next_ limit_size 0 (pages pl).

(** [PageList::IsPageLoaded]: the loop.  [start + size] is the sum of
    the source as long as it is below 2^63. *)
Fixpoint is_page_loaded_loop (start size : Z) (l : list fdpage) : bool :=
  match l with
  | [] => true
  | p :: ps =>
      if end_ p <? start then is_page_loaded_loop start size ps
      else if negb (loaded p) then false
      else if negb (size =? 0) && (start + size <=? next p) then true
      else is_page_loaded_loop start size ps
  end.

Definition IsPageLoaded (start size : Z) (pl : PageList) : bool :=
  is_page_loaded_loop start size (pages pl).

(** [PageList::FindUnloadedPage]: [Some (resstart, ressize)] when it
    returns true, [None] when it returns false. *)
Fixpoint find_unloaded_loop (start : Z) (l : list fdpage)
  : option (Z * Z) :=
  match l with
  | [] => None
  | p :: ps =>
      if (start <=? end_ p) && (negb (loaded p) && negb (modified p))
      then Some (offset p, bytes p)
      else find_unloaded_loop start ps
  end.

Definition FindUnloadedPage (start : Z) (pl : PageList) : option (Z * Z) :=
  find_unloaded_loop start (pages pl).

(** The "add list" step of [PageList::GetUnloadedPages]: the area is
    merged into the last page of [unloaded_list] when it starts where that
    page ends, and pushed otherwise. *)
Definition add_unloaded (unloaded_list : list fdpage)
           (page_start page_size : Z) : list fdpage :=
  match rev unloaded_list with
  | lastpage :: before =>
      if next lastpage =? page_start
      then rev before ++ [set_bytes lastpage (bytes lastpage + page_size)]
      else unloaded_list ++ [mkpage page_start page_size false false]
  | [] => unloaded_list ++ [mkpage page_start page_size false false]
  end.

(** [PageList::GetUnloadedPages]: the loop.  [next_] is [start + size],
    the sum of the source as long as it is below 2^63. *)
Fixpoint get_unloaded_loop (start next_ : Z) (unloaded_list : list fdpage)
         (l : list fdpage) : list fdpage :=
  match l with
  | [] => unloaded_list
  | p :: ps =>
      if next p <=? start then get_unloaded_loop start next_ unloaded_list ps
      else if next_ <=? offset p then unloaded_list
      else if loaded p || modified p then
        get_unloaded_loop start next_ unloaded_list ps
      else
        let page_start := Z.max (offset p) start in
        let page_next := Z.min (next p) next_ in
        let page_size := page_next - page_start in
        get_unloaded_loop start next_
          (add_unloaded unloaded_list page_start page_size) ps
  end.

(** [PageList::GetUnloadedPages]: the list left in [unloaded_list]; the
    return value is its length. *)
Definition GetUnloadedPages (unloaded_list : list fdpage) (start size : Z)
           (pl : PageList) : list fdpage :=
  let size :=
    if size =? 0 then
      if start <? Size pl then Size pl - start else size
    else size in
  let next_ := start + size in
  get_unloaded_loop start next_ unloaded_list (pages pl).

(** [PageList::BytesModified] *)
Definition BytesModified (pl : PageList) : Z :=
  fold_left (fun total p => if modified p then total + bytes p else total)
            (pages pl) 0.

(** [PageList::IsModified] *)
Definition IsModified (pl : PageList) : bool :=
  if is_shrink pl then true
  else existsb modified (pages pl).

End PL.

(* ================================================================== *)
(** ** fdpage_list_t utilities *)
(* ================================================================== *)

(** The list under construction in [raw_compress_fdpage_list], seen through
    the [lastpage] pointer: [None] while [lastpage] is null, [Some (done,
    lastpage)] when [compressed_pages] is [done ++ [lastpage]] ([lastpage]
    always points at [compressed_pages.back()]). *)
Definition compress_state : Type := option (list fdpage * fdpage).

Definition compressed_list (st : compress_state) : list fdpage :=
  match st with
  | None => []
  | Some (done, lastpage) => done ++ [lastpage]
  end.

(** [raw_add_compress_fdpage_list]: a page is pushed only when it has
    bytes.  When nothing is pushed, [back()] is the page it was.  (For a
    first page of negative length the source takes [back()] of an empty
    list, which is undefined; the model leaves [lastpage] null there.) *)
Definition raw_add_compress_fdpage_list (st : compress_state)
           (orgpage : fdpage)
           (ignore_load ignore_modify default_load default_modify : bool)
  : compress_state :=
  if 0 <? bytes orgpage then
    let page := mkpage (offset orgpage) (bytes orgpage)
                       (if ignore_load then default_load
                        else loaded orgpage)
                       (if ignore_modify then default_modify
                        else modified orgpage) in
    Some (compressed_list st, page)
  else st.

(** One turn of the loop of [raw_compress_fdpage_list]. *)
Definition raw_compress_step
           (ignore_load ignore_modify default_load default_modify : bool)
           (st : compress_state) (cur : fdpage) : compress_state :=
  if bytes cur =? 0 then st
  else
    match st with
    | None =>
        (* first item *)
        raw_add_compress_fdpage_list st cur ignore_load ignore_modify
                                     default_load default_modify
    | Some (done, lastpage) =>
        (* check page continuity *)
        let st1 :=
          if negb (next lastpage =? offset cur) then
            if (negb ignore_load && loaded lastpage)
               || (negb ignore_modify && modified lastpage)
            then
              raw_add_compress_fdpage_list
                st (mkpage (next lastpage) (offset cur - next lastpage)
                           false false)
                ignore_load ignore_modify default_load default_modify
            else
              Some (done, set_bytes lastpage (offset cur - offset lastpage))
          else st in
        (* add current page *)
        match st1 with
        | None => None
        | Some (done, lastpage) =>
            if (negb ignore_load
                && negb (Bool.eqb (loaded lastpage) (loaded cur)))
               || (negb ignore_modify
                   && negb (Bool.eqb (modified lastpage) (modified cur)))
            then
              raw_add_compress_fdpage_list st1 cur ignore_load ignore_modify
                                           default_load default_modify
            else
              Some (done, set_bytes lastpage (bytes lastpage + bytes cur))
        end
    end.

(** [raw_compress_fdpage_list]: the value left in [compressed_pages]. *)
Definition raw_compress_fdpage_list (pages : list fdpage)
           (ignore_load ignore_modify default_load default_modify : bool)
  : list fdpage :=
  compressed_list
    (fold_left (raw_compress_step ignore_load ignore_modify
                                  default_load default_modify)
               pages None).

Definition compress_fdpage_list_ignore_modify (pages : list fdpage)
           (default_modify : bool) : list fdpage :=
  raw_compress_fdpage_list pages false true false default_modify.

Definition compress_fdpage_list_ignore_load (pages : list fdpage)
           (default_load : bool) : list fdpage :=
  raw_compress_fdpage_list pages true false default_load false.

Definition compress_fdpage_list (pages : list fdpage) : list fdpage :=
  raw_compress_fdpage_list pages false false false false.

(** The inner loop of [parse_partsize_fdpage_list] on one modified page.
    With [max_partsize <= 0] the source loop never ends; the model counts
    the turns and answers [None] when [fuel] is used up.
    [max_partsize * 2] is the product of the source as long as
    [max_partsize] is below 2^62. *)
Fixpoint split_modified_page (fuel : nat) (tmppage : fdpage)
         (max_partsize start rest_bytes : Z) : option (list fdpage) :=
  if 0 <? rest_bytes then
    match fuel with
    | O => None
    | S fuel' =>
        if max_partsize * 2 <? rest_bytes then
          (* do parse *)
          option_map
            (cons (mkpage start max_partsize
                          (loaded tmppage) (modified tmppage)))
            (split_modified_page fuel' tmppage max_partsize
                                 (start + max_partsize)
                                 (rest_bytes - max_partsize))
        else
          (* the area at the end is not divided *)
          Some [mkpage start rest_bytes (loaded tmppage) (modified tmppage)]
    end
  else Some [].

(** [parse_partsize_fdpage_list].  A page of [n] bytes takes at most [n]
    turns of the inner loop when [0 < max_partsize]. *)
Fixpoint parse_partsize_fdpage_list (pages : list fdpage)
         (max_partsize : Z) : option (list fdpage) :=
  match pages with
  | [] => Some []
  | p :: ps =>
      let parsed :=
        if modified p then
          split_modified_page (Z.to_nat (bytes p)) p max_partsize
                              (offset p) (bytes p)
        else Some [p] in
      match parsed, parse_partsize_fdpage_list ps max_partsize with
      | Some l1, Some l2 => Some (l1 ++ l2)
      | _, _ => None
      end
  end.

(* ================================================================== *)
(** ** The multipart upload planner *)
(* ================================================================== *)

Section Planner.

(** [MIN_MULTIPART_SIZE] comes from common.h, which is not among the
    sources; the planner is modelled for any value of it. *)
Variable MIN_MULTIPART_SIZE : Z.

(** The variables of the walk over [modified_pages]. *)
Record walk_state : Type := mkwalk {
  prev_page       : fdpage;
  download_pages  : list fdpage;
  mixupload_pages : list fdpage
}.

Definition walk_init : walk_state :=
  mkwalk (mkpage 0 0 false false) [] [].

(** One turn of the loop of [GetPageListsForMultipartUpload]. *)
Definition walk_step (st : walk_state) (cur : fdpage) : walk_state :=
  let prev := prev_page st in
  if modified cur then
    (* current is modified area *)
    if negb (modified prev) then
      if bytes prev <? MIN_MULTIPART_SIZE then
        let prev' := set_flags prev (loaded prev) true in
        mkwalk cur (download_pages st ++ [prev])
               (mixupload_pages st ++ [prev'])
      else
        let prev' := set_flags prev (loaded prev) false in
        mkwalk cur (download_pages st) (mixupload_pages st ++ [prev'])
    else
      mkwalk (set_bytes prev (bytes prev + bytes cur))
             (download_pages st) (mixupload_pages st)
  else
    (* current is not modified area *)
    if negb (modified prev) then
      mkwalk (set_bytes prev (bytes prev + bytes cur))
             (download_pages st) (mixupload_pages st)
    else
      if bytes prev <? MIN_MULTIPART_SIZE then
        let missing_bytes := MIN_MULTIPART_SIZE - bytes prev in
        if missing_bytes + MIN_MULTIPART_SIZE <? bytes cur then
          let missing_page := mkpage (offset cur) missing_bytes false false in
          let prev' := set_bytes prev MIN_MULTIPART_SIZE in
          mkwalk (mkpage (offset cur + missing_bytes)
                         (bytes cur - missing_bytes)
                         (loaded cur) (modified cur))
                 (download_pages st ++ [missing_page])
                 (mixupload_pages st ++ [prev'])
        else
          mkwalk (set_bytes prev (bytes prev + bytes cur))
                 (download_pages st ++ [cur]) (mixupload_pages st)
      else
        mkwalk cur (download_pages st) (mixupload_pages st ++ [prev])
  .

(** After the loop: the last area. *)
Definition walk_finish (st : walk_state) : walk_state :=
  if 0 <? bytes (prev_page st)
  then mkwalk (prev_page st) (download_pages st)
              (mixupload_pages st ++ [prev_page st])
  else st.

(** [PageList::GetPageListsForMultipartUpload].  The object is compressed
    on the way; the result is [(dlpages, mixuppages)], or [None] when
    [parse_partsize_fdpage_list] does not return. *)
Definition GetPageListsForMultipartUpload (max_partsize : Z) (pl : PageList)
  : PageList * option (list fdpage * list fdpage) :=
  let pl := PL.Compress pl in
  let modified_pages := compress_fdpage_list_ignore_load (pages pl) false in
  let st := walk_finish (fold_left walk_step modified_pages walk_init) in
  let dlpages :=
    compress_fdpage_list_ignore_modify (download_pages st) false in
  let mixuppages :=
    compress_fdpage_list_ignore_load (mixupload_pages st) false in
  (pl,
   match parse_partsize_fdpage_list dlpages max_partsize,
         parse_partsize_fdpage_list mixuppages max_partsize with
   | Some dl, Some mix => Some (dl, mix)
   | _, _ => None
   end).

End Planner.

(* ================================================================== *)
(** ** The sparse-file probe and the reconciliation *)
(* ================================================================== *)

Inductive whence : Type := SEEK_HOLE | SEEK_DATA.

(** The open cache file, as far as the probe uses it: [lseek] with
    SEEK_HOLE / SEEK_DATA (-1 on failure) and [pread] ([None] for -1,
    otherwise the bytes that were read, at most [count] of them). *)
Record cache_fd : Type := mkfd {
  lseek : Z -> whence -> Z;
  pread : Z (* count *) -> Z (* offset *) -> option (list Byte.byte)
}.

Definition CHECK_CACHEFILE_PART_SIZE : Z := 1024 * 16.

(** [static_cast<size_t>] of an [off_t]. *)
Definition to_size_t (z : Z) : Z := z mod 2 ^ 64.

(** The probing loop of [PageList::GetSparseFilePages].  The loop ends when
    [lseek] answers -1; the model gives [None] when [fuel] turns were not
    enough. *)
Fixpoint sparse_loop (fuel : nat) (fd : cache_fd) (file_size : Z)
         (cur_pos : Z) (is_hole : bool) (sparse_list : list fdpage)
  : option (list fdpage) :=
  if 0 <=? cur_pos then
    match fuel with
    | O => None
    | S fuel' =>
        let next_pos :=
          lseek fd cur_pos (if is_hole then SEEK_DATA else SEEK_HOLE) in
        let page :=
          mkpage cur_pos
                 (if next_pos =? -1 then file_size - cur_pos
                  else next_pos - cur_pos)
                 (negb is_hole) false in
        sparse_loop fuel' fd file_size next_pos (negb is_hole)
                    (sparse_list ++ [page])
    end
  else Some sparse_list.

(** [PageList::GetSparseFilePages]: the return value and [sparse_list]. *)
Definition GetSparseFilePages (fuel : nat) (fd : cache_fd) (file_size : Z)
           (sparse_list : list fdpage) : option (bool * list fdpage) :=
  if file_size =? 0 then Some (true, sparse_list)
  else
    let hole_pos := lseek fd 0 SEEK_HOLE in
    let data_pos := lseek fd 0 SEEK_DATA in
    if (hole_pos =? -1) && (data_pos =? -1) then Some (false, sparse_list)
    else
      let is_hole :=
        if hole_pos =? -1 then false
        else if data_pos =? -1 then true
        else if hole_pos <? data_pos then true
        else false in
      option_map (fun l => (true, l))
                 (sparse_loop fuel fd file_size 0 is_hole sparse_list).

Definition all_zero (buf : list Byte.byte) : bool :=
  forallb (fun b => Byte.eqb b Byte.x00) buf.

(** The loop of [PageList::CheckZeroAreaInFile].  A [pread] that delivers
    no byte leaves [comp_bytes] where it was. *)
Fixpoint check_zero_loop (fuel : nat) (fd : cache_fd) (start bytes_ : Z)
         (comp_bytes : Z) : option bool :=
  if comp_bytes <? bytes_ then
    match fuel with
    | O => None
    | S fuel' =>
        let check_bytes :=
          if CHECK_CACHEFILE_PART_SIZE <? bytes_ - comp_bytes
          then CHECK_CACHEFILE_PART_SIZE
          else bytes_ - comp_bytes in
        match pread fd check_bytes (start + comp_bytes) with
        | None => Some false
        | Some readbuff =>
            if all_zero readbuff
            then check_zero_loop fuel' fd start bytes_
                   (comp_bytes + Z.of_nat (List.length readbuff))
            else Some false
        end
    end
  else Some true.

(** [PageList::CheckZeroAreaInFile].  Every turn that reads a byte moves
    [comp_bytes] forward, so [bytes] turns are enough unless a [pread]
    delivers nothing, in which case the source loop does not end
    ([None]). *)
Definition CheckZeroAreaInFile (fd : cache_fd) (start bytes_ : Z)
  : option bool :=
  check_zero_loop (Z.to_nat bytes_) fd start bytes_ 0.

(** The result of the reconciliation: the return value and the two area
    lists. *)
Record compare_result : Type := mkcmp {
  cmp_result     : bool;
  err_area_list  : list fdpage;
  warn_area_list : list fdpage
}.

(** The area of [checkpage] that one sparse segment is matched with, as
    [CheckAreaInSparseFile] computes it in its cases 2 to 5. *)
Definition check_area (checkpage seg : fdpage) : Z * Z :=
  if (offset seg <? offset checkpage) && (next seg <? next checkpage) then
    (* case 2 *)
    (offset checkpage, bytes seg - (offset checkpage - offset seg))
  else if next checkpage <? next seg then
    (* case 3 *)
    (offset seg, bytes checkpage - (offset seg - offset checkpage))
  else if (offset checkpage <? offset seg)
          && (next seg <? next checkpage) then
    (* case 4 *)
    (offset seg, bytes seg)
  else
    (* case 5 *)
    (offset checkpage, bytes checkpage).

(** The loop of [PageList::CheckAreaInSparseFile]. *)
Fixpoint check_area_loop (checkpage : fdpage) (fd : cache_fd)
         (sparse_list : list fdpage) (acc : compare_result)
  : option compare_result :=
  match sparse_list with
  | [] => Some acc
  | seg :: rest =>
      if offset seg + bytes seg <=? offset checkpage then
        (* case 0 *)
        check_area_loop checkpage fd rest acc
      else if offset checkpage + bytes checkpage <=? offset seg then
        (* case 1 *)
        Some acc
      else
        let '(check_start, check_bytes) := check_area checkpage seg in
        if loaded checkpage || modified checkpage then
          if negb (loaded seg) then
            check_area_loop checkpage fd rest
              (mkcmp false
                     (err_area_list acc
                      ++ [mkpage check_start check_bytes false false])
                     (warn_area_list acc))
          else check_area_loop checkpage fd rest acc
        else
          if loaded seg then
            match CheckZeroAreaInFile fd check_start
                                      (to_size_t check_bytes) with
            | None => None
            | Some true => check_area_loop checkpage fd rest acc
            | Some false =>
                check_area_loop checkpage fd rest
                  (mkcmp false (err_area_list acc)
                         (warn_area_list acc
                          ++ [mkpage check_start check_bytes true false]))
            end
          else check_area_loop checkpage fd rest acc
  end.

(** [PageList::CheckAreaInSparseFile]: [result] starts as true; the two
    lists are the caller's. *)
Definition CheckAreaInSparseFile (checkpage : fdpage)
           (sparse_list : list fdpage) (fd : cache_fd)
           (err warn : list fdpage) : option compare_result :=
  check_area_loop checkpage fd sparse_list (mkcmp true err warn).

(** The loop of [PageList::CompareSparseFile] over the stored pages. *)
Fixpoint compare_loop (l : list fdpage) (sparse_list : list fdpage)
         (fd : cache_fd) (acc : compare_result) : option compare_result :=
  match l with
  | [] => Some acc
  | p :: ps =>
      match CheckAreaInSparseFile p sparse_list fd
                                  (err_area_list acc) (warn_area_list acc)
      with
      | None => None
      | Some r =>
          compare_loop ps sparse_list fd
            (mkcmp (if negb (cmp_result r) then false else cmp_result acc)
                   (err_area_list r) (warn_area_list r))
      end
  end.

(** [PageList::CompareSparseFile] *)
Definition CompareSparseFile (fuel : nat) (fd : cache_fd) (file_size : Z)
           (pl : PageList) : option compare_result :=
  match GetSparseFilePages fuel fd file_size [] with
  | None => None
  | Some (false, _) =>
      Some (mkcmp false [mkpage 0 file_size false false] [])
  | Some (true, sparse_list) =>
      match sparse_list, pages pl with
      | [], [] => Some (mkcmp true [] [])
      | _, _ => compare_loop (pages pl) sparse_list fd (mkcmp true [] [])
      end
  end.

(* ================================================================== *)
(** ** Stats persistence *)
(* ================================================================== *)

(** Modelled from the spec: [CacheFileStat] of fdcache_stat.h, which is not
    among the sources.  The stats file is a text file; the record holds
    its text, and whether the system calls on it ([Open], [fstat],
    [ftruncate], [pread], [pwrite]) succeed. *)
Record CacheFileStat : Type := mkstat {
  io_ok   : bool;
  content : string
}.

Definition LF : ascii := "010"%char.
Definition COLON : ascii := ":"%char.
Definition NUL : ascii := "000"%char.

(** [ostream << n] for an integer: its decimal digits, with a minus sign
    for a negative number. *)
Definition dec (z : Z) : string := NilZero.string_of_int (Z.to_int z).

(** Modelled from the spec: [cvt_strtoofft] of string_util.cpp, which is
    not among the sources.  The fields of the stats file are "decimal
    signed 64-bit"; a text that is not such a number reads as 0. *)
Definition cvt_strtoofft (s : string) : Z :=
  match NilZero.int_of_string s with
  | Some d =>
      let z := Z.of_int d in
      if (- 2 ^ 63 <=? z) && (z <? 2 ^ 63) then z else 0
  | None => 0
  end.

(** [static_cast<ino_t>] of an [off_t]. *)
Definition to_ino_t (z : Z) : Z := z mod 2 ^ 64.

(** The text a [std::istringstream] built from a C string holds: the
    characters before the first NUL. *)
Fixpoint c_str (s : string) : string :=
  match s with
  | EmptyString => EmptyString
  | String c s' => if Ascii.eqb c NUL then EmptyString
                   else String c (c_str s')
  end.

(** One [getline(stream, line, delim)] on a stream whose unread text is
    [s]: it fails on an exhausted stream, otherwise it delivers the text
    before the first [delim] and leaves what follows that [delim]. *)
Fixpoint split_delim (delim : ascii) (s : string) : string * string :=
  match s with
  | EmptyString => (EmptyString, EmptyString)
  | String c s' =>
      if Ascii.eqb c delim then (EmptyString, s')
      else let '(l, r) := split_delim delim s' in (String c l, r)
  end.

Definition getline (delim : ascii) (s : string) : option (string * string) :=
  match s with
  | EmptyString => None
  | _ => Some (split_delim delim s)
  end.

(** The lines that successive [getline] calls deliver until one fails
    (see [getlines_getline]). *)
Fixpoint getlines (delim : ascii) (s : string) : list string :=
  match s with
  | EmptyString => []
  | String c s' =>
      if Ascii.eqb c delim then EmptyString :: getlines delim s'
      else match getlines delim s' with
           | [] => [String c EmptyString]
           | l :: ls => String c l :: ls
           end
  end.

Definition flag_text (b : bool) : string :=
  if b then "1"%string else "0"%string.

(** What [Serialize] writes for one page after the line feed. *)
Definition page_body (p : fdpage) : string :=
  (dec (offset p)
   ++ String COLON (dec (bytes p)
   ++ String COLON (flag_text (loaded p)
   ++ String COLON (flag_text (modified p)))))%string.

(** The text of the loop over the pages: a line feed and the page, for
    each page. *)
Fixpoint pages_text (l : list fdpage) : string :=
  match l with
  | [] => EmptyString
  | p :: ps => String LF (page_body p ++ pages_text ps)
  end.

(** [PageList::Serialize]: the return value and the stats file.  With
    [io_ok] false the model stands for an [Open] or an [ftruncate] that
    fails, which return false and leave the file as it was.  A [pwrite]
    that fails after the file was truncated is modelled only where it
    writes no byte; the properties below are about the calls that
    succeed. *)
Definition Serialize (file : CacheFileStat) (inode : Z) (pl : PageList)
  : bool * CacheFileStat :=
  if negb (io_ok file) then (false, file)
  else
    let strall :=
      (dec inode ++ String COLON (dec (PL.Size pl)
       ++ pages_text (pages pl)))%string in
    (* ftruncate to 0, then pwrite, which must write at least a byte *)
    if Z.of_nat (String.length strall) <=? 0
    then (false, mkstat (io_ok file) EmptyString)
    else (true, mkstat (io_ok file) strall).

Definition status_of_flags (is_loaded is_modified : bool) : page_status :=
  if is_loaded then
    if is_modified then LOAD_MODIFIED else LOADED
  else
    if is_modified then MODIFIED else NOT_LOAD_MODIFIED.

(** The "load each part" loop of [PageList::Deserialize]: [is_err] and the
    object after the loop. *)
Fixpoint load_parts (lines : list string) (pl : PageList)
  : bool * PageList :=
  match lines with
  | [] => (false, pl)
  | oneline :: rest =>
      match getlines COLON oneline with
      | part_offset :: part_size :: part_loaded :: more =>
          let offset_ := cvt_strtoofft part_offset in
          let size := cvt_strtoofft part_size in
          let is_loaded := cvt_strtoofft part_loaded =? 1 in
          let is_modified :=
            match more with
            | [] => false
            | part_modified :: _ => cvt_strtoofft part_modified =? 1
            end in
          load_parts rest
            (PL.SetPageLoadedStatus offset_ size
               (status_of_flags is_loaded is_modified) true pl)
      | _ => (true, pl)
      end
  end.

(** The head line of the stats file: [(total, cache_inode)], with
    [cache_inode = 0] for the old format, or [None] where the source
    returns false. *)
Definition parse_head (oneline : string) : option (Z * Z) :=
  match getlines COLON oneline with
  | [] => None
  | [strhead1] => Some (cvt_strtoofft strhead1, 0)
  | strhead1 :: strhead2 :: _ =>
      let cache_inode := to_ino_t (cvt_strtoofft strhead1) in
      if cache_inode =? 0 then None
      else Some (cvt_strtoofft strhead2, cache_inode)
  end.

(** [PageList::Deserialize]: the return value and the object. *)
Definition Deserialize (file : CacheFileStat) (inode : Z) (pl : PageList)
  : bool * PageList :=
  if negb (io_ok file) then (false, pl)
  else if Z.of_nat (String.length (content file)) <=? 0 then
    (true, PL.Init 0 false false pl)
  else
    let pl := PL.Clear pl in
    match getlines LF (c_str (content file)) with
    | [] => (false, pl)
    | oneline :: body =>
        match parse_head oneline with
        | None => (false, pl)
        | Some (total, cache_inode) =>
            (* check inode number *)
            if negb (cache_inode =? 0) && negb (cache_inode =? inode)
            then (false, pl)
            else
              let '(is_err, pl) := load_parts body pl in
              if is_err then (false, PL.Clear pl)
              else if negb (total =? PL.Size pl) then (false, PL.Clear pl)
              else (true, pl)
        end
    end.

(* ================================================================== *)
(** ** The worker pool: the dispatch entry points *)
(* ================================================================== *)

Module ThreadPoolMan.

(** Modelled from the spec: [thpoolman_param] of threadpoolman.h, which is
    not among the sources ("an opaque argument bundle, a function pointer
    ..., and an optional completion semaphore").  The bundle and the
    function are opaque here; [psem] is [None] for a null pointer. *)
Record thpoolman_param : Type := mkparam {
  args  : nat;
  psem  : option nat;
  pfunc : nat
}.

(** Modelled from the spec: the members of [ThreadPoolMan] that
    threadpoolman.cpp uses (the class is declared in threadpoolman.h): the
    exit flag, the count of the dispatch semaphore, the job queue and the
    number of worker threads. *)
Record pool : Type := mkpool {
  is_exit          : bool;
  thpoolman_sem    : nat;
  instruction_list : list thpoolman_param;
  thread_list      : nat
}.

(** The class variables. *)
Record world : Type := mkworld {
  worker_count : Z;
  singleton    : option pool
}.

(** What a call does to its caller. *)
Inductive outcome (A : Type) : Type :=
| Returned (v : A) (w : world)
    (* the call returns [v] *)
| Waiting (sem : nat) (v : A) (w : world)
    (* the caller is parked on [sem.acquire()]; it returns [v] once a
       worker has released [sem] *)
| Aborted.
    (* abort() *)

Arguments Returned {A} v w.
Arguments Waiting {A} sem v w.
Arguments Aborted {A}.

(** Before [Initialize]: the default worker count, no singleton. *)
Definition initial : world := mkworld 10 None.

(** [ThreadPoolMan::SetWorkerCount] *)
Definition SetWorkerCount (count : Z) (w : world) : Z * world :=
  if 0 >=? count then (-1, w)
  else if count =? worker_count w then (worker_count w, w)
  else (worker_count w, mkworld count (singleton w)).

(** [ThreadPoolMan::Initialize]; the constructor starts [count] threads
    with an empty queue. *)
Definition Initialize (count : Z) (w : world) : outcome bool :=
  match singleton w with
  | Some _ => Aborted
  | None =>
      let w := if negb (count =? -1) then snd (SetWorkerCount count w)
               else w in
      if worker_count w <? 1 then Aborted
      else Returned true
             (mkworld (worker_count w)
                      (Some (mkpool false 0 []
                                    (Z.to_nat (worker_count w)))))
  end.

(** [ThreadPoolMan::Destroy] *)
Definition Destroy (w : world) : world :=
  mkworld (worker_count w) None.

(** [ThreadPoolMan::SetInstruction] *)
Definition SetInstruction (param : thpoolman_param) (p : pool) : pool :=
  mkpool (is_exit p) (S (thpoolman_sem p))
         (instruction_list p ++ [param]) (thread_list p).

(** [ThreadPoolMan::Instruct] *)
Definition Instruct (param : thpoolman_param) (w : world) : outcome bool :=
  match singleton w with
  | None => Returned false w
  | Some p =>
      match psem param with
      | None => Returned false w
      | Some _ =>
          Returned true
                   (mkworld (worker_count w) (Some (SetInstruction param p)))
      end
  end.

(** [ThreadPoolMan::AwaitInstruct]; [await_sem] names the local
    semaphore. *)
Definition AwaitInstruct (await_sem : nat) (param : thpoolman_param)
           (w : world) : outcome bool :=
  match singleton w with
  | None => Returned false w
  | Some p =>
      match psem param with
      | Some _ => Returned false w
      | None =>
          let local_param :=
            mkparam (args param) (Some await_sem) (pfunc param) in
          Waiting await_sem true
                  (mkworld (worker_count w)
                           (Some (SetInstruction local_param p)))
      end
  end.

(** The jobs waiting in the queue, none when there is no pool. *)
Definition queued (w : world) : list thpoolman_param :=
  match singleton w with
  | None => []
  | Some p => instruction_list p
  end.

End ThreadPoolMan.

(* ================================================================== *)
(** ** Vocabulary of the properties *)
(* ================================================================== *)

(** [chain_end lo l = Some hi]: the pages of [l], in order, are a gap-free
    and overlap-free partition of [[lo, hi)] into pages that have bytes. *)
Fixpoint chain_end (lo : Z) (l : list fdpage) : option Z :=
  match l with
  | [] => Some lo
  | p :: ps =>
      if (offset p =? lo) && (0 <? bytes p) then chain_end (next p) ps
      else None
  end.

Definition is_partition (lo hi : Z) (l : list fdpage) : Prop :=
  chain_end lo l = Some hi.

(** The invariants I1 and I2 of a page list: a partition of [[0, Size())]
    into pages that have bytes, or the single empty page of an empty
    file. *)
Definition wf_pages (l : list fdpage) : bool :=
  match l with
  | [p] => (offset p =? 0) && (0 <=? bytes p)
  | _ => match chain_end 0 l with
         | Some _ => true
         | None => false
         end
  end.

(** The same invariant as a proposition (see [wf_pages_WF]). *)
Definition WF (l : list fdpage) : Prop :=
  (exists hi, chain_end 0 l = Some hi) \/
  (exists a b, l = [mkpage 0 0 a b]).

(** The public operations that change a page list. *)
Inductive operation : Type :=
| OpInit (size : Z) (is_loaded is_modified : bool)
| OpResize (size : Z) (is_loaded is_modified : bool)
| OpParse (new_pos : Z)
| OpSetPageLoadedStatus (start size : Z) (pstatus : page_status)
                        (is_compress : bool)
| OpCompress
| OpClearAllModified.

Definition apply_op (pl : PageList) (o : operation) : PageList :=
  match o with
  | OpInit size l m => PL.Init size l m pl
  | OpResize size l m => PL.Resize size l m pl
  | OpParse new_pos => snd (PL.Parse new_pos pl)
  | OpSetPageLoadedStatus start size pstatus c =>
      PL.SetPageLoadedStatus start size pstatus c pl
  | OpCompress => PL.Compress pl
  | OpClearAllModified => PL.ClearAllModified pl
  end.

Definition run (ops : list operation) (pl : PageList) : PageList :=
  fold_left apply_op ops pl.

(** The flags of the page that holds the byte at [pos]. *)
Fixpoint flags_at (pos : Z) (l : list fdpage) : option (bool * bool) :=
  match l with
  | [] => None
  | p :: ps =>
      if (offset p <=? pos) && (pos <? next p)
      then Some (loaded p, modified p)
      else flags_at pos ps
  end.

(** The number of bytes that page [p] shares with [[lo, hi)]. *)
Definition intersection_length (p : fdpage) (lo hi : Z) : Z :=
  Z.max 0 (Z.min (next p) hi - Z.max (offset p) lo).

(** The effective end of the range of [GetTotalUnloadedPageSize] and
    [GetUnloadedPages]: a size of 0 means "to the end of the list". *)
Definition range_end (start size total : Z) : Z :=
  if size =? 0 then (if start <? total then total else start)
  else start + size.

(** C6 as the spec words it: the sum, over the unloaded and unmodified
    pages, of the bytes they share with the range, leaving out (when
    [0 < limit]) every page whose total length reaches [limit]. *)
Definition unloaded_total_claimed (start size limit : Z)
           (l : list fdpage) : Z :=
  let hi := range_end start size (PL.size_of l) in
  fold_right
    (fun p acc =>
       (if loaded p || modified p then 0
        else if (0 <? limit) && (limit <=? bytes p) then 0
        else intersection_length p start hi) + acc)
    0 l.

(** The share of one page under the exclusion rule of the source: a share
    is left out when [limit] is not 0 and the share itself reaches
    [limit]. *)
Definition unloaded_share (start hi limit : Z) (p : fdpage) : Z :=
  if loaded p || modified p then 0
  else if (limit =? 0) || (intersection_length p start hi <? limit)
       then intersection_length p start hi
       else 0.

Definition unloaded_total_by_share (start size limit : Z)
           (l : list fdpage) : Z :=
  let hi := range_end start size (PL.size_of l) in
  fold_right (fun p acc => unloaded_share start hi limit p + acc) 0 l.

(** [wchain_end lo l = Some hi]: the pages of [l] follow one another from
    [lo] to [hi] without gap or overlap; pages without bytes are
    allowed. *)
Fixpoint wchain_end (lo : Z) (l : list fdpage) : option Z :=
  match l with
  | [] => Some lo
  | p :: ps =>
      if (offset p =? lo) && (0 <=? bytes p) then wchain_end (next p) ps
      else None
  end.

(** The parts emitted so far, followed by the area carried in
    [prev_page], follow one another from offset 0 up to the page the walk
    has reached. *)
Definition walk_covers (st : walk_state) (pos : Z) : Prop :=
  wchain_end 0 (mixupload_pages st ++ [prev_page st]) = Some pos.

(** The bytes that a stored page and a sparse segment share, as
    [(start, length)]. *)
Definition intersection_area (checkpage seg : fdpage) : Z * Z :=
  (Z.max (offset checkpage) (offset seg),
   Z.min (next checkpage) (next seg)
   - Z.max (offset checkpage) (offset seg)).

(** A cache file of 16384 bytes whose first half is data and whose second
    half is a hole: SEEK_HOLE from a data offset finds 8192, SEEK_DATA
    from the hole finds nothing. *)
Definition half_hole_file : cache_fd :=
  mkfd (fun pos w =>
          match w with
          | SEEK_HOLE => if pos <? 0 then -1
                         else if pos <? 8192 then 8192
                         else if pos <? 16384 then pos else -1
          | SEEK_DATA => if pos <? 0 then -1
                         else if pos <? 8192 then pos else -1
          end)
       (fun count pos =>
          Some (repeat Byte.x00 (Z.to_nat (Z.min count (16384 - pos))))).

(** [no_char c s]: the character [c] does not occur in [s]. *)
Fixpoint no_char (c : ascii) (s : string) : bool :=
  match s with
  | EmptyString => true
  | String a s' => negb (Ascii.eqb a c) && no_char c s'
  end.

(** The characters of a printed integer. *)
Definition is_dec_char (c : ascii) : bool :=
  existsb (Ascii.eqb c)
          ["0"; "1"; "2"; "3"; "4"; "5"; "6"; "7"; "8"; "9"; "-"]%char.

(** The invariant I3: no two neighbours have the same pair of flags. *)
Fixpoint no_equal_neighbours (l : list fdpage) : bool :=
  match l with
  | p :: (q :: _) as tl =>
      negb (Bool.eqb (loaded p) (loaded q)
            && Bool.eqb (modified p) (modified q))
      && no_equal_neighbours tl
  | _ => true
  end.

(** The number of bytes of a list of areas. *)
Definition total_bytes (l : list fdpage) : Z :=
  fold_right (fun p acc => bytes p + acc) 0 l.

(** [covered pos l]: some area of [l] holds the byte at [pos]. *)
Definition covered (pos : Z) (l : list fdpage) : bool :=
  existsb (fun p => (offset p <=? pos) && (pos <? next p)) l.

(** [unloaded_at pos l]: the byte at [pos] lies in a page of [l] that is
    neither loaded nor modified. *)
Definition unloaded_at (pos : Z) (l : list fdpage) : bool :=
  match flags_at pos l with
  | Some (false, false) => true
  | _ => false
  end.

(** The bytes of the modified pages of a list. *)
Definition modified_bytes (l : list fdpage) : Z :=
  fold_right (fun p acc => (if modified p then bytes p else 0) + acc) 0 l.

(** [alt_chain lo ld l]: the segments of [l] follow one another from
    offset [lo], none is modified, and their [loaded] flags alternate,
    starting with [ld]; the answer is the offset after the last segment
    and the flag a further segment would have. *)
Fixpoint alt_chain (lo : Z) (ld : bool) (l : list fdpage)
  : option (Z * bool) :=
  match l with
  | [] => Some (lo, ld)
  | p :: ps =>
      if (offset p =? lo) && Bool.eqb (loaded p) ld && negb (modified p)
      then alt_chain (next p) (negb ld) ps
      else None
  end.

(** The [n] bytes of a file from offset [off], for a file whose byte at
    [pos] is [f pos]. *)
Definition file_bytes (f : Z -> Byte.byte) (off : Z) (n : nat)
  : list Byte.byte :=
  map (fun i => f (off + Z.of_nat i)) (seq 0 n).

(** A stored page claims to hold data when it is loaded or modified. *)
Definition claims_data (p : fdpage) : bool := loaded p || modified p.

(** [in_modified pos l]: the byte at [pos] lies in a modified page of
    [l]. *)
Definition in_modified (pos : Z) (l : list fdpage) : bool :=
  existsb (fun p => (offset p <=? pos) && (pos <? next p) && modified p) l.

(** [gapped_end lo l = Some hi]: the areas of [l] are in ascending order
    from [lo] on and do not overlap (gaps and empty areas are allowed);
    [hi] is the end of the last one. *)
Fixpoint gapped_end (lo : Z) (l : list fdpage) : option Z :=
  match l with
  | [] => Some lo
  | p :: ps =>
      if (lo <=? offset p) && (0 <=? bytes p) then gapped_end (next p) ps
      else None
  end.

(** Every part but the last has at least [n] bytes. *)
Fixpoint all_but_last_ge (n : Z) (l : list fdpage) : bool :=
  match l with
  | p :: (_ :: _) as tl => (n <=? bytes p) && all_but_last_ge n tl
  | _ => true
  end.

(** The flags that [raw_compress_fdpage_list] gives to a page with the
    flags [f]. *)
Definition compressed_flags (ignore_load ignore_modify
                             default_load default_modify : bool)
           (f : bool * bool) : bool * bool :=
  (if ignore_load then default_load else fst f,
   if ignore_modify then default_modify else snd f).

(** The state of [compress_fdpage_list_ignore_modify] on areas that are
    not loaded: nothing yet, or one single area. *)
Definition single_unloaded (st : compress_state) : Prop :=
  st = None \/
  exists lastpage, st = Some ([], lastpage) /\
                   loaded lastpage = false /\ modified lastpage = false.

(** A page as [raw_compress_fdpage_list] leaves it: an ignored flag
    carries its default. *)
Definition normal_page (ignore_load ignore_modify
                        default_load default_modify : bool)
           (q : fdpage) : Prop :=
  (ignore_load = true -> loaded q = default_load) /\
  (ignore_modify = true -> modified q = default_modify).

(** What the walk of the planner keeps true, for the areas [seen] so
    far: the parts and the carried area tile the file up to [pos]; the
    areas to download are in ascending order and lie before the carried
    area when that area is not modified; every modified byte seen is in a
    part to upload; and every byte of a part to upload was modified or is
    in an area to download. *)
Definition walk_sound (st : walk_state) (pos : Z) (seen : list fdpage)
  : Prop :=
  walk_covers st pos /\
  (exists e, gapped_end 0 (download_pages st) = Some e /\ e <= pos /\
             (modified (prev_page st) = false ->
              e <= offset (prev_page st))) /\
  forall x,
    (in_modified x seen = true ->
     in_modified x (mixupload_pages st ++ [prev_page st]) = true) /\
    (in_modified x (mixupload_pages st ++ [prev_page st]) = true ->
     in_modified x seen = true \/ covered x (download_pages st) = true).

(** [long_or_same n p q]: the area [p] has at least [n] bytes, or the
    area [q] after it has the same [modified] flag (and will be merged
    with it). *)
Definition long_or_same (n : Z) (p q : fdpage) : bool :=
  Bool.eqb (modified p) (modified q) || (n <=? bytes p).

(** [ready n l]: every area of [l] that is followed by an area with the
    other [modified] flag has at least [n] bytes. *)
Fixpoint ready (n : Z) (l : list fdpage) : bool :=
  match l with
  | p :: (q :: _) as tl => long_or_same n p q && ready n tl
  | _ => true
  end.

(** The same for a list given from its last area to its first. *)
Fixpoint ready_rev (n : Z) (l : list fdpage) : bool :=
  match l with
  | q :: (p :: _) as tl => long_or_same n p q && ready_rev n tl
  | _ => true
  end.

(** What the walk of the planner keeps true about the length of the
    parts: the parts emitted so far and the carried area are [ready], and
    a carried area that is not modified follows a part of at least [n]
    bytes. *)
Definition walk_ready (n : Z) (st : walk_state) : Prop :=
  ready_rev n (prev_page st :: rev (mixupload_pages st)) = true /\
  (modified (prev_page st) = false ->
   match rev (mixupload_pages st) with
   | z :: _ => n <= bytes z
   | [] => True
   end).

(** The state of [compress_fdpage_list_ignore_load] on a [ready] list:
    the pages that are complete have at least [n] bytes, and the page
    under construction ends with an input page [q] that is [ready] for
    the rest [l] of the input. *)
Definition parts_state (n : Z) (st : compress_state) (mid : Z)
           (l : list fdpage) : Prop :=
  match st with
  | None => ready n l = true
  | Some (done, lastpage) =>
      Forall (fun q => n <= bytes q) done /\
      next lastpage = mid /\ 0 <= bytes lastpage /\
      exists q, modified q = modified lastpage /\
                bytes q <= bytes lastpage /\
                ready n (q :: l) = true
  end.

(** Two pages differ in a flag that [raw_compress_fdpage_list]
    compares. *)
Definition flags_differ (ignore_load ignore_modify : bool)
           (p q : fdpage) : bool :=
  (negb ignore_load && negb (Bool.eqb (loaded p) (loaded q)))
  || (negb ignore_modify && negb (Bool.eqb (modified p) (modified q))).

(** No two neighbours agree in all the flags that are compared. *)
Fixpoint neighbours_differ (ignore_load ignore_modify : bool)
         (l : list fdpage) : bool :=
  match l with
  | p :: (q :: _) as tl =>
      flags_differ ignore_load ignore_modify p q
      && neighbours_differ ignore_load ignore_modify tl
  | _ => true
  end.

(** ** The worker pool: calls and worker threads *)

(** The public calls of [ThreadPoolMan]. *)
Inductive pool_call : Type :=
| CallSetWorkerCount (count : Z)
| CallInitialize (count : Z)
| CallDestroy
| CallInstruct (param : ThreadPoolMan.thpoolman_param)
| CallAwaitInstruct (await_sem : nat)
                    (param : ThreadPoolMan.thpoolman_param).

(** The class variables after a call, [None] when the call aborts. *)
Definition world_after {A : Type} (o : ThreadPoolMan.outcome A)
  : option ThreadPoolMan.world :=
  match o with
  | ThreadPoolMan.Returned _ w => Some w
  | ThreadPoolMan.Waiting _ _ w => Some w
  | ThreadPoolMan.Aborted => None
  end.

Definition run_call (c : pool_call) (w : ThreadPoolMan.world)
  : option ThreadPoolMan.world :=
  match c with
  | CallSetWorkerCount count =>
      Some (snd (ThreadPoolMan.SetWorkerCount count w))
  | CallInitialize count => world_after (ThreadPoolMan.Initialize count w)
  | CallDestroy => Some (ThreadPoolMan.Destroy w)
  | CallInstruct param => world_after (ThreadPoolMan.Instruct param w)
  | CallAwaitInstruct await_sem param =>
      world_after (ThreadPoolMan.AwaitInstruct await_sem param w)
  end.

Fixpoint run_calls (cs : list pool_call) (w : ThreadPoolMan.world)
  : option ThreadPoolMan.world :=
  match cs with
  | [] => Some w
  | c :: cs' =>
      match run_call c w with
      | Some w' => run_calls cs' w'
      | None => None
      end
  end.

(** Where a worker thread stands in [ThreadPoolMan::Worker]. *)
Inductive worker_pc : Type :=
| AtLoopTest
    (* at [while(!psingleton->IsExit())] *)
| AtAcquire
    (* in [thpoolman_sem.acquire()] *)
| AfterAcquire
    (* the semaphore is taken; before the second [IsExit()] test *)
| Running (param : ThreadPoolMan.thpoolman_param)
    (* the instruction is taken from the list; in [param.pfunc] *)
| Finished.
    (* after the loop *)

(** A pool at work: its members, its worker threads, the instructions
    that were set and those that workers took (both in order), and the
    completion semaphores that were released. *)
Record pool_run : Type := mkrun {
  members    : ThreadPoolMan.pool;
  workers    : list worker_pc;
  dispatched : list ThreadPoolMan.thpoolman_param;
  taken      : list ThreadPoolMan.thpoolman_param;
  released   : list nat
}.

(** The pool that the constructor leaves: [count] workers at the top of
    their loop, nothing queued. *)
Definition pool_started (count : nat) : pool_run :=
  mkrun (ThreadPoolMan.mkpool false 0 [] count)
        (repeat AtLoopTest count) [] [] [].

Definition set_worker (i : nat) (pc : worker_pc) (s : pool_run)
  : list worker_pc :=
  firstn i (workers s) ++ pc :: skipn (S i) (workers s).

(** One atomic step of the pool at work: [SetInstruction] by a caller of
    [Instruct] or [AwaitInstruct], or one step of worker [i].  The
    instruction list is read and changed under [thread_list_lock]; the
    semaphore operations are atomic.  No step sets the exit flag: the
    steps are those of a pool that is not being stopped ([StopThreads] is
    not among them), with both outcomes of each test of the flag and of
    [CreateCurlHandle]. *)
Inductive pool_step : pool_run -> pool_run -> Prop :=
| StepSetInstruction s param :
    pool_step s
      (mkrun (ThreadPoolMan.SetInstruction param (members s))
             (workers s) (dispatched s ++ [param]) (taken s) (released s))
| StepLoopTest s i :
    nth_error (workers s) i = Some AtLoopTest ->
    pool_step s
      (mkrun (members s)
             (set_worker i (if ThreadPoolMan.is_exit (members s)
                            then Finished else AtAcquire) s)
             (dispatched s) (taken s) (released s))
| StepAcquire s i n :
    nth_error (workers s) i = Some AtAcquire ->
    ThreadPoolMan.thpoolman_sem (members s) = S n ->
    pool_step s
      (mkrun (ThreadPoolMan.mkpool
                (ThreadPoolMan.is_exit (members s)) n
                (ThreadPoolMan.instruction_list (members s))
                (ThreadPoolMan.thread_list (members s)))
             (set_worker i AfterAcquire s)
             (dispatched s) (taken s) (released s))
| StepExit s i :
    nth_error (workers s) i = Some AfterAcquire ->
    ThreadPoolMan.is_exit (members s) = true ->
    pool_step s
      (mkrun (members s) (set_worker i Finished s)
             (dispatched s) (taken s) (released s))
| StepCurlHandleFails s i :
    nth_error (workers s) i = Some AfterAcquire ->
    ThreadPoolMan.is_exit (members s) = false ->
    pool_step s
      (mkrun (members s) (set_worker i Finished s)
             (dispatched s) (taken s) (released s))
| StepListEmpty s i :
    nth_error (workers s) i = Some AfterAcquire ->
    ThreadPoolMan.is_exit (members s) = false ->
    ThreadPoolMan.instruction_list (members s) = [] ->
    pool_step s
      (mkrun (members s) (set_worker i AtLoopTest s)
             (dispatched s) (taken s) (released s))
| StepTake s i param rest :
    nth_error (workers s) i = Some AfterAcquire ->
    ThreadPoolMan.is_exit (members s) = false ->
    ThreadPoolMan.instruction_list (members s) = param :: rest ->
    pool_step s
      (mkrun (ThreadPoolMan.mkpool
                (ThreadPoolMan.is_exit (members s))
                (ThreadPoolMan.thpoolman_sem (members s)) rest
                (ThreadPoolMan.thread_list (members s)))
             (set_worker i (Running param) s)
             (dispatched s) (taken s ++ [param]) (released s))
| StepRun s i param :
    nth_error (workers s) i = Some (Running param) ->
    pool_step s
      (mkrun (members s) (set_worker i AtLoopTest s)
             (dispatched s) (taken s)
             (released s ++ match ThreadPoolMan.psem param with
                            | Some sem => [sem]
                            | None => []
                            end)).

(** The states that a started pool reaches. *)
Inductive pool_reaches (count : nat) : pool_run -> Prop :=
| ReachesStart : pool_reaches count (pool_started count)
| ReachesStep s s' :
    pool_reaches count s -> pool_step s s' -> pool_reaches count s'.

(** The workers that hold a unit of the semaphore and have not yet looked
    at the instruction list. *)
Definition holding (l : list worker_pc) : nat :=
  List.length (filter (fun pc => match pc with
                                 | AfterAcquire => true
                                 | _ => false
                                 end) l).

(** ** Areas without data *)

(** The conversion of an unsigned 64-bit value to [off_t]. *)
Definition to_off_t (z : Z) : Z :=
  let m := z mod 2 ^ 64 in
  if m <? 2 ^ 63 then m else m - 2 ^ 64.

(** The loop of [PageList::GetNoDataPageLists]: the value of
    [tmp_pagelist]. *)
Fixpoint nodata_loop (start stop_pos : Z) (l : list fdpage)
  : list fdpage :=
  match l with
  | [] => []
  | p :: ps =>
      if offset p + bytes p <? start then nodata_loop start stop_pos ps
      else if negb (stop_pos =? -1) && (stop_pos <=? offset p) then []
      else if modified p then nodata_loop start stop_pos ps
      else
        let tmp_offset := Z.max (offset p) start in
        mkpage tmp_offset
               (if stop_pos =? -1 then bytes p
                else Z.min (bytes p) (stop_pos - tmp_offset))
               (loaded p) (modified p)
        :: nodata_loop start stop_pos ps
  end.

(** [PageList::GetNoDataPageLists]: the object (compressed on the way),
    the return value and [nodata_pages].  The sum [start + size] is
    computed in [size_t] and converted to [off_t]. *)
Definition GetNoDataPageLists (start size : Z) (pl : PageList)
  : PageList * (bool * list fdpage) :=
  let pl := PL.Compress pl in
  let stop_pos := if size =? 0 then -1 else to_off_t (start + size) in
  let tmp_pagelist := nodata_loop start stop_pos (pages pl) in
  (pl, (true, match tmp_pagelist with
              | [] => []
              | _ => compress_fdpage_list tmp_pagelist
              end)).

(** In a list of upload parts, a modified part that is directly followed
    by another modified part has exactly [n] bytes: of the pieces that
    one modified area is split into, only the last may have another
    length. *)
Fixpoint inner_pieces_are (n : Z) (l : list fdpage) : bool :=
  match l with
  | p :: (q :: _) as tl =>
      (negb (modified p && modified q) || (bytes p =? n))
      && inner_pieces_are n tl
  | _ => true
  end.


(** What [lseek] with SEEK_HOLE or SEEK_DATA answers on a file of
    [file_size] bytes: -1, or an offset that is not before [pos] and not
    beyond the end of the file; from the end of the file on it finds
    nothing; and no offset is at once where the data and where a hole
    begins. *)
Definition seeks_forward (fd : cache_fd) (file_size : Z) : Prop :=
  (forall pos w, 0 <= pos ->
     lseek fd pos w = -1 \/
     (pos <= lseek fd pos w <= file_size /\ pos < file_size)) /\
  (forall pos, 0 <= pos ->
     ~ (lseek fd pos SEEK_DATA = pos /\ lseek fd pos SEEK_HOLE = pos)).

(** What [pread] answers inside a file of [file_size] bytes when asked
    for at least one byte: it fails, or it delivers at least one byte. *)
Definition reads_forward (fd : cache_fd) (file_size : Z) : Prop :=
  forall count pos, 0 < count -> 0 <= pos < file_size ->
    match pread fd count pos with
    | Some readbuff => readbuff <> []
    | None => True
    end.

(** An area that lies inside a file of [file_size] bytes. *)
Definition in_file (file_size : Z) (p : fdpage) : Prop :=
  0 <= offset p /\ 0 <= bytes p /\ next p <= file_size.

(* ================================================================== *)
(** * Properties *)
(* ================================================================== *)

(** ** Partitions *)

Lemma chain_end_cons lo hi p ps :
  chain_end lo (p :: ps) = Some hi <->
  offset p = lo /\ 0 < bytes p /\ chain_end (next p) ps = Some hi.
Proof.
  simpl. destruct (offset p =? lo) eqn:E1; destruct (0 <? bytes p) eqn:E2;
    simpl; split; intros H;
    try discriminate; try (repeat split; try lia; assumption);
    destruct H as (H1 & H2 & H3); try lia; assumption.
Qed.

Lemma chain_end_app lo l1 l2 :
  chain_end lo (l1 ++ l2) =
  match chain_end lo l1 with
  | Some mid => chain_end mid l2
  | None => None
  end.
Proof.
  revert lo. induction l1 as [|p ps IH]; intros lo; simpl; [reflexivity|].
  destruct ((offset p =? lo) && (0 <? bytes p)); [apply IH | reflexivity].
Qed.

Lemma chain_end_le lo hi l :
  chain_end lo l = Some hi -> lo <= hi.
Proof.
  revert lo. induction l as [|p ps IH]; intros lo H.
  - simpl in H. injection H as <-. lia.
  - apply chain_end_cons in H. destruct H as (H1 & H2 & H3).
    apply IH in H3. unfold next in H3. lia.
Qed.

Lemma chain_end_lt lo hi p ps :
  chain_end lo (p :: ps) = Some hi -> lo < hi.
Proof.
  intros H. apply chain_end_cons in H. destruct H as (H1 & H2 & H3).
  apply chain_end_le in H3. unfold next in H3. lia.
Qed.

Lemma size_of_cons_cons p q l :
  PL.size_of (p :: q :: l) = PL.size_of (q :: l).
Proof. reflexivity. Qed.

Lemma chain_end_size lo hi p ps :
  chain_end lo (p :: ps) = Some hi -> PL.size_of (p :: ps) = hi.
Proof.
  revert lo p. induction ps as [|q qs IH]; intros lo p H.
  - apply chain_end_cons in H. destruct H as (_ & _ & H).
    simpl in H. injection H as <-. reflexivity.
  - rewrite size_of_cons_cons. apply chain_end_cons in H.
    destruct H as (_ & _ & H). eapply IH; eassumption.
Qed.

Lemma chain_end_nth lo hi l i p q :
  chain_end lo l = Some hi ->
  nth_error l i = Some p -> nth_error l (S i) = Some q ->
  next p = offset q.
Proof.
  revert lo i. induction l as [|a l IH]; intros lo i H Hp Hq.
  - destruct i; discriminate.
  - apply chain_end_cons in H. destruct H as (H1 & H2 & H3).
    destruct i as [|i].
    + simpl in Hp. injection Hp as ->. simpl in Hq.
      destruct l as [|b l]; [discriminate|].
      simpl in Hq. injection Hq as ->.
      apply chain_end_cons in H3. destruct H3 as (H3 & _). congruence.
    + simpl in Hp. eapply IH; eauto.
Qed.

(** ** The invariant as a proposition *)

Lemma wf_pages_WF l : wf_pages l = true <-> WF l.
Proof.
  unfold WF. split.
  - intros H. destruct l as [|p [|q l]].
    + left. exists 0. reflexivity.
    + simpl in H. apply andb_true_iff in H. destruct H as [H1 H2].
      apply Z.eqb_eq in H1. apply Z.leb_le in H2.
      destruct (Z.eq_dec (bytes p) 0) as [E|E].
      * right. destruct p as [o b a m]. simpl in *. subst. eauto.
      * left. exists (next p). apply chain_end_cons. simpl. repeat split; lia.
    + unfold wf_pages in H.
      destruct (chain_end 0 (p :: q :: l)) as [hi|] eqn:E;
        [left; eauto | discriminate].
  - intros [[hi H]|(a & b & ->)]; [|reflexivity].
    destruct l as [|p [|q l]]; [reflexivity| |].
    + apply chain_end_cons in H. destruct H as (H1 & H2 & _).
      simpl. apply andb_true_iff. split; [apply Z.eqb_eq | apply Z.leb_le]; lia.
    + unfold wf_pages. rewrite H. reflexivity.
Qed.

(** ** The operations keep the invariant *)

Lemma compress_from_chain rest : forall lastpage hi,
  0 < bytes lastpage ->
  chain_end (next lastpage) rest = Some hi ->
  chain_end (offset lastpage) (PL.compress_from lastpage rest) = Some hi.
Proof.
  induction rest as [|cur rest IH]; intros lastpage hi Hpos H.
  - simpl in H. injection H as <-. apply chain_end_cons. simpl. auto.
  - apply chain_end_cons in H. destruct H as (H1 & H2 & H3).
    simpl. rewrite H1, Z.eqb_refl. simpl.
    destruct (Bool.eqb (loaded lastpage) (loaded cur)
              && Bool.eqb (modified lastpage) (modified cur)).
    + apply (IH (set_bytes lastpage (bytes lastpage + bytes cur))).
      * simpl. lia.
      * unfold next in *. simpl. rewrite <- H3. f_equal. lia.
    + simpl. apply chain_end_cons. repeat split; auto.
      rewrite <- H1. apply IH; assumption.
Qed.

Lemma WF_compress l : WF l -> WF (PL.compress_pages l).
Proof.
  intros [[hi H]|(a & b & ->)].
  - destruct l as [|p ps]; [left; exists 0; reflexivity|].
    apply chain_end_cons in H. destruct H as (H1 & H2 & H3).
    left. exists hi. simpl. rewrite <- H1.
    apply compress_from_chain; assumption.
  - right. simpl. eauto.
Qed.

Lemma WF_single size a b : 0 <= size -> WF [mkpage 0 size a b].
Proof.
  intros H. apply wf_pages_WF. simpl. apply Z.leb_le. exact H.
Qed.

Lemma WF_nil : WF [].
Proof. left. exists 0. reflexivity. Qed.

Lemma WF_Init size a b pl : WF (pages (PL.Init size a b pl)).
Proof.
  unfold PL.Init. destruct (0 <=? size) eqn:E; simpl.
  - apply WF_single. apply Z.leb_le. exact E.
  - apply WF_nil.
Qed.

Lemma WF_size_nonzero l :
  WF l -> PL.size_of l <> 0 -> chain_end 0 l = Some (PL.size_of l).
Proof.
  intros [[hi H]|(a & b & ->)] Hne.
  - destruct l as [|p ps]; [exfalso; apply Hne; reflexivity|].
    rewrite (chain_end_size _ _ _ _ H). exact H.
  - exfalso. apply Hne. reflexivity.
Qed.

Lemma cut_pages_nil size l : forall lo hi,
  chain_end lo l = Some hi -> size <= lo -> PL.cut_pages size l = [].
Proof.
  induction l as [|p ps IH]; intros lo hi H Hle; [reflexivity|].
  apply chain_end_cons in H. destruct H as (H1 & H2 & H3). simpl.
  destruct (next p <=? size) eqn:E1.
  - apply Z.leb_le in E1. unfold next in E1. lia.
  - destruct (size <=? offset p) eqn:E2.
    + eapply IH; [eassumption|]. unfold next. lia.
    + apply Z.leb_gt in E2. lia.
Qed.

Lemma cut_pages_chain size l : forall lo hi,
  chain_end lo l = Some hi ->
  chain_end lo (PL.cut_pages size l)
  = Some (if size <=? lo then lo else Z.min size hi).
Proof.
  induction l as [|p ps IH]; intros lo hi H.
  - simpl in *. injection H as <-.
    destruct (size <=? lo) eqn:E; [reflexivity|].
    apply Z.leb_gt in E. f_equal. lia.
  - pose proof (chain_end_lt _ _ _ _ H) as Hlt.
    apply chain_end_cons in H. destruct H as (H1 & H2 & H3). simpl.
    pose proof (chain_end_le _ _ _ H3) as Hle.
    destruct (next p <=? size) eqn:E1.
    + apply Z.leb_le in E1. apply chain_end_cons. repeat split; auto.
      rewrite (IH _ _ H3).
      assert ((size <=? lo) = false) as ->
          by (apply Z.leb_gt; unfold next in *; lia).
      destruct (size <=? next p) eqn:E3; [|reflexivity].
      apply Z.leb_le in E3. f_equal. lia.
    + apply Z.leb_gt in E1. destruct (size <=? offset p) eqn:E2.
      * apply Z.leb_le in E2.
        rewrite (cut_pages_nil size ps _ _ H3) by (unfold next; lia).
        simpl. assert ((size <=? lo) = true) as -> by (apply Z.leb_le; lia).
        reflexivity.
      * apply Z.leb_gt in E2.
        rewrite (cut_pages_nil size ps _ _ H3) by lia.
        assert ((size <=? lo) = false) as -> by (apply Z.leb_gt; lia).
        apply chain_end_cons. simpl. repeat split; try lia.
        unfold next. simpl. f_equal. lia.
Qed.

Lemma WF_Resize size a b pl :
  WF (pages pl) -> WF (pages (PL.Resize size a b pl)).
Proof.
  intros H. unfold PL.Resize, PL.Compress. cbn [pages].
  apply WF_compress.
  destruct (PL.Size pl =? 0) eqn:E0; cbn [pages]; [apply WF_Init|].
  apply Z.eqb_neq in E0. pose proof (WF_size_nonzero _ H E0) as Hc.
  destruct (PL.Size pl <? size) eqn:E1; cbn [pages].
  - apply Z.ltb_lt in E1. left. exists size.
    rewrite chain_end_app. unfold PL.Size in *. rewrite Hc.
    apply chain_end_cons. simpl. repeat split; try lia.
    unfold next. simpl. f_equal. lia.
  - destruct (size <? PL.Size pl); cbn [pages]; [|exact H].
    left. eexists. apply cut_pages_chain. exact Hc.
Qed.

Lemma parse_pages_chain new_pos l : forall lo hi l',
  chain_end lo l = Some hi ->
  PL.parse_pages new_pos l = Some l' ->
  chain_end lo l' = Some hi.
Proof.
  induction l as [|p ps IH]; intros lo hi l' H Hp; [discriminate|].
  simpl in Hp. destruct (new_pos =? offset p).
  - injection Hp as <-. exact H.
  - apply chain_end_cons in H. destruct H as (H1 & H2 & H3).
    destruct ((offset p <? new_pos) && (new_pos <? next p)) eqn:E.
    + injection Hp as <-. apply andb_true_iff in E. destruct E as [E1 E2].
      apply Z.ltb_lt in E1, E2. unfold next in *.
      apply chain_end_cons. cbn [offset bytes]. split; [lia|split; [lia|]].
      apply chain_end_cons. unfold next. cbn [offset bytes].
      split; [lia|split; [lia|]]. rewrite <- H3. f_equal. lia.
    + destruct (PL.parse_pages new_pos ps) as [l''|] eqn:E'; [|discriminate].
      simpl in Hp. injection Hp as <-.
      apply chain_end_cons. split; [assumption|split; [assumption|]].
      apply IH; [assumption|reflexivity].
Qed.

Lemma parse_pages_zero new_pos a b :
  PL.parse_pages new_pos [mkpage 0 0 a b] = None \/
  PL.parse_pages new_pos [mkpage 0 0 a b] = Some [mkpage 0 0 a b].
Proof.
  simpl. destruct (new_pos =? 0); [right; reflexivity|].
  unfold next. simpl.
  destruct ((0 <? new_pos) && (new_pos <? 0)) eqn:E; [|left; reflexivity].
  apply andb_true_iff in E. destruct E as [E1 E2].
  apply Z.ltb_lt in E1, E2. lia.
Qed.

Lemma WF_Parse new_pos pl :
  WF (pages pl) -> WF (pages (snd (PL.Parse new_pos pl))).
Proof.
  intros H. unfold PL.Parse.
  destruct (PL.parse_pages new_pos (pages pl)) as [l'|] eqn:E; [|exact H].
  cbn [snd pages]. destruct H as [[hi H]|(a & b & Hz)].
  - left. exists hi. eapply parse_pages_chain; eauto.
  - rewrite Hz in E. destruct (parse_pages_zero new_pos a b) as [E'|E'];
      rewrite E' in E; [discriminate|]. injection E as <-. right. eauto.
Qed.

(** A map that keeps offsets and lengths keeps partitions. *)
Lemma chain_end_same_ranges l : forall l' lo,
  Forall2 (fun p q => offset p = offset q /\ bytes p = bytes q) l l' ->
  chain_end lo l' = chain_end lo l.
Proof.
  induction l as [|p ps IH]; intros l' lo H; inversion H; subst;
    [reflexivity|].
  simpl. destruct H2 as [E1 E2]. unfold next. rewrite E1, E2.
  destruct ((offset y =? lo) && (0 <? bytes y)); [|reflexivity].
  apply IH. assumption.
Qed.

Lemma WF_same_ranges l l' :
  Forall2 (fun p q => offset p = offset q /\ bytes p = bytes q) l l' ->
  WF l -> WF l'.
Proof.
  intros HF [[hi H]|(a & b & ->)].
  - left. exists hi. rewrite (chain_end_same_ranges _ _ _ HF). exact H.
  - right. inversion HF as [|? q ? ? [H1 H2] HN]; subst.
    inversion HN; subst. destruct q as [o n x y]. simpl in *. subst. eauto.
Qed.

Lemma Forall2_same_refl (l : list fdpage) :
  Forall2 (fun p q => offset p = offset q /\ bytes p = bytes q) l l.
Proof. induction l; constructor; auto. Qed.

Lemma mark_pages_ranges start size a b l :
  Forall2 (fun p q => offset p = offset q /\ bytes p = bytes q)
          l (PL.mark_pages start size a b l).
Proof.
  induction l as [|p ps IH]; simpl; [constructor|].
  destruct (end_ p <? start); [constructor; auto|].
  destruct (start + size <=? offset p);
    [apply Forall2_same_refl | constructor; auto].
Qed.

Lemma WF_SetPageLoadedStatus start size st c pl :
  WF (pages pl) -> WF (pages (PL.SetPageLoadedStatus start size st c pl)).
Proof.
  intros H. unfold PL.SetPageLoadedStatus.
  assert (WF (pages
    (if PL.Size pl <=? start
     then PL.Resize (start + size) (PL.status_loaded st)
            (PL.status_modified st)
            (if PL.Size pl <? start
             then PL.Resize start false (PL.status_modified st) pl else pl)
     else if PL.Size pl <=? start + size
          then PL.Resize (start + size) (PL.status_loaded st)
                 (PL.status_modified st) (PL.Resize start false false pl)
          else {| pages := PL.mark_pages start size (PL.status_loaded st)
                             (PL.status_modified st)
                             (pages (snd (PL.Parse (start + size)
                                            (snd (PL.Parse start pl)))));
                  is_shrink := is_shrink (snd (PL.Parse (start + size)
                                            (snd (PL.Parse start pl)))) |})))
    as HW.
  { destruct (PL.Size pl <=? start).
    - apply WF_Resize. destruct (PL.Size pl <? start); [apply WF_Resize|];
        exact H.
    - destruct (PL.Size pl <=? start + size).
      + do 2 apply WF_Resize. exact H.
      + cbn [pages]. eapply WF_same_ranges; [apply mark_pages_ranges|].
        do 2 apply WF_Parse. exact H. }
  destruct c; [apply WF_compress|]; exact HW.
Qed.

Lemma WF_ClearAllModified pl :
  WF (pages pl) -> WF (pages (PL.ClearAllModified pl)).
Proof.
  intros H. unfold PL.ClearAllModified, PL.Compress. cbn [pages].
  apply WF_compress. eapply WF_same_ranges; [|exact H].
  clear H. induction (pages pl) as [|p ps IH]; simpl; constructor;
    [destruct (modified p); split; reflexivity | exact IH].
Qed.

Lemma WF_apply_op pl o : WF (pages pl) -> WF (pages (apply_op pl o)).
Proof.
  intros H. destruct o; simpl.
  - apply WF_Init.
  - apply WF_Resize, H.
  - apply WF_Parse, H.
  - apply WF_SetPageLoadedStatus, H.
  - apply WF_compress, H.
  - apply WF_ClearAllModified, H.
Qed.

Lemma WF_run ops : forall pl, WF (pages pl) -> WF (pages (run ops pl)).
Proof.
  induction ops as [|o ops IH]; intros pl H; [exact H|].
  simpl. apply IH. apply WF_apply_op. exact H.
Qed.

(** ** C1: coverage after every history of operations *)

Lemma WF_head l p : WF l -> nth_error l 0 = Some p -> offset p = 0.
Proof.
  intros [[hi H]|(a & b & ->)] Hp.
  - destruct l as [|q l]; [discriminate|]. simpl in Hp. injection Hp as ->.
    apply chain_end_cons in H. tauto.
  - simpl in Hp. injection Hp as <-. reflexivity.
Qed.

Lemma WF_adjacent l i p q :
  WF l -> nth_error l i = Some p -> nth_error l (S i) = Some q ->
  offset p + bytes p = offset q.
Proof.
  intros [[hi H]|(a & b & ->)] Hp Hq.
  - exact (chain_end_nth _ _ _ _ _ _ H Hp Hq).
  - destruct i; discriminate.
Qed.

(** C1.  Whatever sequence of Init, Resize, Parse, SetPageLoadedStatus,
    Compress and ClearAllModified calls (with any arguments) follows an
    Init, the page list that results, when it has a page, starts at offset
    0, has every page end where the next one starts, and has Size() equal
    to the end of its last page. *)
Theorem C1_coverage_after_operations :
  forall (size : Z) (is_loaded is_modified : bool) (ops : list operation)
         (pl0 : PageList),
    pages (run ops (PL.Init size is_loaded is_modified pl0)) <> [] ->
    (exists first,
        nth_error (pages (run ops (PL.Init size is_loaded is_modified pl0))) 0
        = Some first /\ offset first = 0) /\
    (forall i p q,
        nth_error (pages (run ops (PL.Init size is_loaded is_modified pl0))) i
        = Some p ->
        nth_error (pages (run ops (PL.Init size is_loaded is_modified pl0)))
                  (S i) = Some q ->
        offset p + bytes p = offset q) /\
    (exists lastpage,
        nth_error (pages (run ops (PL.Init size is_loaded is_modified pl0)))
                  (pred (List.length
                     (pages (run ops
                               (PL.Init size is_loaded is_modified pl0)))))
        = Some lastpage /\
        PL.Size (run ops (PL.Init size is_loaded is_modified pl0))
        = offset lastpage + bytes lastpage).
Proof.
  intros size a b ops pl0.
  pose proof (WF_run ops _ (WF_Init size a b pl0)) as HW.
  unfold PL.Size. generalize dependent (pages (run ops (PL.Init size a b pl0))).
  intros l HW Hne. split; [|split].
  - destruct l as [|p l]; [contradiction|]. exists p. split; [reflexivity|].
    eapply WF_head; [exact HW|reflexivity].
  - intros i p q. apply WF_adjacent, HW.
  - exists (last l (mkpage 0 0 false false)). split.
    + clear HW. induction l as [|p [|q l] IH]; [contradiction|reflexivity|].
      apply IH. discriminate.
    + destruct l; [contradiction|reflexivity].
Qed.

Lemma C1_coverage_after_operations_witness :
  pages (run [OpSetPageLoadedStatus 100 50 MODIFIED true;
              OpResize 120 false true; OpParse 30]
             (PL.Init 1000 true false (mkPageList [] false)))
  = [mkpage 0 30 true false; mkpage 30 70 true false;
     mkpage 100 20 false true] /\
  (forall i p q,
      nth_error
        (pages (run [OpSetPageLoadedStatus 100 50 MODIFIED true;
                     OpResize 120 false true; OpParse 30]
                    (PL.Init 1000 true false (mkPageList [] false)))) i
      = Some p ->
      nth_error
        (pages (run [OpSetPageLoadedStatus 100 50 MODIFIED true;
                     OpResize 120 false true; OpParse 30]
                    (PL.Init 1000 true false (mkPageList [] false)))) (S i)
      = Some q ->
      offset p + bytes p = offset q).
Proof.
  split; [reflexivity|].
  apply (C1_coverage_after_operations 1000 true false
           [OpSetPageLoadedStatus 100 50 MODIFIED true;
            OpResize 120 false true; OpParse 30] (mkPageList [] false)).
  vm_compute. discriminate.
Defined.

(** Case analysis on the integer comparisons of the goal. *)
Ltac zbool :=
  repeat match goal with
         | |- context [?a <=? ?b] => destruct (Z.leb_spec a b)
         | |- context [?a <? ?b] => destruct (Z.ltb_spec a b)
         | |- context [?a =? ?b] => destruct (Z.eqb_spec a b)
         end;
  cbn [andb orb negb]; try reflexivity;
  try (unfold next, set_bytes, set_flags in *;
       cbn [offset bytes loaded modified] in *; lia).

(** ** Flags by position *)

Lemma flags_at_below lo hi l pos :
  chain_end lo l = Some hi -> pos < lo -> flags_at pos l = None.
Proof.
  revert lo. induction l as [|p ps IH]; intros lo H Hlt; [reflexivity|].
  apply chain_end_cons in H. destruct H as (H1 & H2 & H3). simpl.
  assert ((offset p <=? pos) = false) as -> by (apply Z.leb_gt; lia).
  simpl. eapply IH; [eassumption|]. unfold next. lia.
Qed.

Lemma flags_at_above lo hi l pos :
  chain_end lo l = Some hi -> hi <= pos -> flags_at pos l = None.
Proof.
  revert lo. induction l as [|p ps IH]; intros lo H Hle; [reflexivity|].
  apply chain_end_cons in H. destruct H as (H1 & H2 & H3). simpl.
  pose proof (chain_end_le _ _ _ H3) as Hn.
  assert ((pos <? next p) = false) as -> by (apply Z.ltb_ge; lia).
  rewrite andb_false_r. eapply IH; eassumption.
Qed.

Lemma flags_at_app lo hi l l2 pos :
  chain_end lo l = Some hi ->
  flags_at pos (l ++ l2) = if (lo <=? pos) && (pos <? hi) then flags_at pos l
                           else flags_at pos l2.
Proof.
  revert lo. induction l as [|p ps IH]; intros lo H.
  - simpl in *. injection H as <-.
    destruct (lo <=? pos) eqn:E1; destruct (pos <? lo) eqn:E2;
      try reflexivity.
    apply Z.leb_le in E1. apply Z.ltb_lt in E2. lia.
  - pose proof (chain_end_lt _ _ _ _ H) as Hlt.
    apply chain_end_cons in H. destruct H as (H1 & H2 & H3).
    pose proof (chain_end_le _ _ _ H3) as Hle.
    simpl. rewrite (IH _ H3). rewrite H1. unfold next in *. rewrite H1 in *.
    zbool.
Qed.

(** Merging neighbours with equal flags does not change the flags of any
    byte. *)
Lemma flags_at_compress_from rest : forall lastpage hi pos,
  0 < bytes lastpage ->
  chain_end (next lastpage) rest = Some hi ->
  flags_at pos (PL.compress_from lastpage rest)
  = flags_at pos (lastpage :: rest).
Proof.
  induction rest as [|cur rest IH]; intros lastpage hi pos Hpos H;
    [reflexivity|].
  apply chain_end_cons in H. destruct H as (H1 & H2 & H3).
  cbn [PL.compress_from]. rewrite H1, Z.eqb_refl. cbn [negb app].
  destruct (Bool.eqb (loaded lastpage) (loaded cur)) eqn:El;
    [destruct (Bool.eqb (modified lastpage) (modified cur)) eqn:Em|];
    cbn [andb].
  - apply eqb_prop in El, Em.
    rewrite (IH (set_bytes lastpage (bytes lastpage + bytes cur)) hi).
    + unfold next in *.
      cbn [flags_at set_bytes offset bytes loaded modified]. unfold next.
      cbn [offset bytes]. rewrite <- El, <- Em, H1. zbool.
    + simpl. lia.
    + unfold next in *. simpl. rewrite <- H3. f_equal. lia.
  - cbn [flags_at]. rewrite (IH cur hi pos H2 H3). reflexivity.
  - cbn [flags_at]. rewrite (IH cur hi pos H2 H3). reflexivity.
Qed.

Lemma flags_at_compress l pos :
  WF l -> flags_at pos (PL.compress_pages l) = flags_at pos l.
Proof.
  intros [[hi H]|(a & b & ->)]; [|reflexivity].
  destruct l as [|p ps]; [reflexivity|].
  apply chain_end_cons in H. destruct H as (H1 & H2 & H3).
  eapply flags_at_compress_from; eassumption.
Qed.

Lemma WF_size_nonneg l : WF l -> 0 <= PL.size_of l.
Proof.
  intros [[hi H]|(a & b & ->)]; [|simpl; unfold next; simpl; lia].
  destruct l as [|p ps]; [simpl; lia|].
  rewrite (chain_end_size _ _ _ _ H). apply chain_end_le in H. exact H.
Qed.

Lemma WF_flags_outside l pos :
  WF l -> pos < 0 \/ PL.size_of l <= pos -> flags_at pos l = None.
Proof.
  intros [[hi H]|(a & b & ->)] Hpos.
  - destruct Hpos as [Hpos|Hpos].
    + eapply flags_at_below; eassumption.
    + destruct l as [|p ps]; [reflexivity|].
      rewrite (chain_end_size _ _ _ _ H) in Hpos.
      eapply flags_at_above; eassumption.
  - simpl. unfold next. simpl. zbool.
Qed.

Lemma WF_chain_compress l hi :
  chain_end 0 l = Some hi -> chain_end 0 (PL.compress_pages l) = Some hi.
Proof.
  intros H. destruct l as [|p ps]; [exact H|].
  apply chain_end_cons in H. destruct H as (H1 & H2 & H3).
  simpl. rewrite <- H1. apply compress_from_chain; assumption.
Qed.

(** [Resize] to a larger size: the list becomes a partition of
    [[0, size)], the old bytes keep their flags and the new ones get the
    flags passed. *)
Lemma Resize_grow pl size a b :
  WF (pages pl) -> PL.Size pl < size ->
  chain_end 0 (pages (PL.Resize size a b pl)) = Some size /\
  forall pos,
    flags_at pos (pages (PL.Resize size a b pl))
    = if pos <? PL.Size pl then flags_at pos (pages pl)
      else if pos <? size then Some (a, b) else None.
Proof.
  intros HW Hlt. pose proof (WF_size_nonneg _ HW) as Hnn.
  unfold PL.Resize, PL.Compress, PL.Size in *. cbn [pages].
  destruct (PL.size_of (pages pl) =? 0) eqn:E0.
  - apply Z.eqb_eq in E0. unfold PL.Init.
    assert ((0 <=? size) = true) as -> by (apply Z.leb_le; lia).
    cbn. split.
    + assert ((0 <? size) = true) as -> by (apply Z.ltb_lt; lia).
      unfold next. simpl. reflexivity.
    + intros pos. unfold next. cbn [offset bytes]. rewrite E0.
      destruct (pos <? 0) eqn:E1.
      * apply Z.ltb_lt in E1. rewrite WF_flags_outside by (auto; lia).
        zbool.
      * zbool.
  - apply Z.eqb_neq in E0. pose proof (WF_size_nonzero _ HW E0) as Hc.
    assert ((PL.size_of (pages pl) <? size) = true) as ->
        by (apply Z.ltb_lt; lia).
    cbn [pages].
    assert (chain_end 0 (pages pl ++ [mkpage (PL.size_of (pages pl))
                                        (size - PL.size_of (pages pl)) a b])
            = Some size) as Hc'.
    { rewrite chain_end_app, Hc. apply chain_end_cons. cbn [offset bytes].
      split; [reflexivity|split; [lia|]]. unfold next. simpl. f_equal. lia. }
    split; [apply WF_chain_compress; exact Hc'|].
    intros pos. rewrite flags_at_compress by (left; eauto).
    rewrite (flags_at_app _ _ _ _ _ Hc). cbn [flags_at]. unfold next.
    cbn [offset bytes loaded modified].
    destruct (pos <? 0) eqn:E1.
    + apply Z.ltb_lt in E1.
      rewrite (WF_flags_outside (pages pl) pos HW) by lia. zbool.
    + apply Z.ltb_ge in E1. zbool.
Qed.

(** ** C5: a status set beyond the end of the list *)

(** C5, as the code has it.  For a page list of size S that satisfies the
    invariants, SetPageLoadedStatus(start, length, status) with S < start,
    0 <= length and start + length below 2^63 (the sum is an off_t)
    expands the list to start + length; the bytes of the
    prefix [S, start) get loaded = false and the MODIFIED flag of the
    status (not false), the bytes of [start, start + length) get both
    flags of the status, and the bytes below S keep their flags. *)
Theorem C5_status_beyond_end :
  forall (pl : PageList) (start size : Z) (pstatus : page_status)
         (is_compress : bool),
    wf_pages (pages pl) = true ->
    PL.Size pl < start -> 0 <= size -> start + size < 2 ^ 63 ->
    PL.Size (PL.SetPageLoadedStatus start size pstatus is_compress pl)
    = start + size /\
    (forall pos, PL.Size pl <= pos < start ->
       flags_at pos
         (pages (PL.SetPageLoadedStatus start size pstatus is_compress pl))
       = Some (false, PL.status_modified pstatus)) /\
    (forall pos, start <= pos < start + size ->
       flags_at pos
         (pages (PL.SetPageLoadedStatus start size pstatus is_compress pl))
       = Some (PL.status_loaded pstatus, PL.status_modified pstatus)) /\
    (forall pos, pos < PL.Size pl ->
       flags_at pos
         (pages (PL.SetPageLoadedStatus start size pstatus is_compress pl))
       = flags_at pos (pages pl)).
Proof.
  intros pl start size st c HW Hlt Hsz _. apply wf_pages_WF in HW.
  pose proof (WF_size_nonneg _ HW) as Hnn. fold (PL.Size pl) in Hnn.
  unfold PL.SetPageLoadedStatus.
  assert ((PL.Size pl <=? start) = true) as -> by (apply Z.leb_le; lia).
  assert ((PL.Size pl <? start) = true) as -> by (apply Z.ltb_lt; lia).
  destruct (Resize_grow pl start false (PL.status_modified st) HW Hlt)
    as [Hc1 Hf1].
  set (pl1 := PL.Resize start false (PL.status_modified st) pl) in *.
  assert (WF (pages pl1)) as HW1 by (left; eauto).
  assert (PL.Size pl1 = start) as Hs1.
  { unfold PL.Size. destruct (pages pl1) as [|p ps] eqn:E.
    - simpl in Hc1. injection Hc1 as Hc1. lia.
    - apply (chain_end_size _ _ _ _ Hc1). }
  set (pl2 := PL.Resize (start + size) (PL.status_loaded st)
                        (PL.status_modified st) pl1).
  assert (chain_end 0 (pages pl2) = Some (start + size) /\
          forall pos, flags_at pos (pages pl2)
                      = if pos <? start then flags_at pos (pages pl1)
                        else if pos <? start + size
                             then Some (PL.status_loaded st,
                                        PL.status_modified st)
                             else None) as [Hc2 Hf2].
  { destruct (Z.eq_dec size 0) as [->|Hne].
    - unfold pl2, PL.Resize. rewrite Hs1, Z.add_0_r.
      assert ((start =? 0) = false) as -> by (apply Z.eqb_neq; lia).
      rewrite Z.ltb_irrefl. unfold PL.Compress. cbn [pages]. split.
      + apply WF_chain_compress. exact Hc1.
      + intros pos. rewrite flags_at_compress by exact HW1.
        destruct (pos <? start) eqn:E; [reflexivity|].
        apply Z.ltb_ge in E. apply WF_flags_outside; [exact HW1|].
        right. fold (PL.Size pl1). lia.
    - assert (PL.Size pl1 < start + size) as Hlt2 by lia.
      pose proof (Resize_grow pl1 (start + size) (PL.status_loaded st)
                    (PL.status_modified st) HW1 Hlt2) as R.
      rewrite Hs1 in R. exact R. }
  assert (forall l, chain_end 0 l = Some (start + size) ->
                    PL.size_of l = start + size) as Hsize.
  { intros l Hl. destruct l as [|p ps].
    - simpl in Hl. injection Hl as Hl. simpl. lia.
    - apply (chain_end_size _ _ _ _ Hl). }
  assert (forall pos,
             flags_at pos (pages (if c then PL.Compress pl2 else pl2))
             = flags_at pos (pages pl2)) as Hfc.
  { intros pos. destruct c; [|reflexivity].
    apply flags_at_compress. left; eauto. }
  split; [|split; [|split]].
  - unfold PL.Size. apply Hsize. destruct c; [|exact Hc2].
    apply WF_chain_compress. exact Hc2.
  - intros pos Hpos. rewrite Hfc, Hf2, Hf1. zbool.
  - intros pos Hpos. rewrite Hfc, Hf2. zbool.
  - intros pos Hpos. rewrite Hfc, Hf2, Hf1. zbool.
Qed.

Lemma C5_status_beyond_end_witness :
  flags_at 15
    (pages (PL.SetPageLoadedStatus 20 5 LOAD_MODIFIED true
              (mkPageList [mkpage 0 10 true false] false)))
  = Some (false, true).
Proof.
  apply (C5_status_beyond_end (mkPageList [mkpage 0 10 true false] false)
           20 5 LOAD_MODIFIED true);
    try reflexivity; unfold PL.Size; simpl; unfold next; simpl; lia.
Defined.

(** C5 as stated fails: after Init(10, true, false), the call
    SetPageLoadedStatus(20, 5, MODIFIED) leaves the prefix [10, 20) with
    flags (false, true), not (false, false). *)
Lemma C5_prefix_not_unmodified :
  ~ (forall (pl : PageList) (start size : Z) (pstatus : page_status),
        wf_pages (pages pl) = true -> PL.Size pl < start -> 0 < size ->
        forall pos, PL.Size pl <= pos < start ->
          flags_at pos
            (pages (PL.SetPageLoadedStatus start size pstatus true pl))
          = Some (false, false)).
Proof.
  intros H.
  assert (flags_at 15
            (pages (PL.SetPageLoadedStatus 20 5 MODIFIED true
                      (PL.Init 10 true false (mkPageList [] false))))
          = Some (false, false)) as E.
  { apply (H (PL.Init 10 true false (mkPageList [] false)) 20 5 MODIFIED);
      try reflexivity. unfold PL.Size; simpl; unfold next; simpl; lia. }
  vm_compute in E. discriminate E.
Qed.

(** ** C6: the total of the unloaded bytes in a range *)

Section UnloadedTotal.

Variables start hi limit : Z.
Hypothesis range_ordered : start <= hi.

Lemma share_sum_past l : forall lo end_pos,
  chain_end lo l = Some end_pos -> hi <= lo ->
  fold_right (fun p acc => unloaded_share start hi limit p + acc) 0 l = 0.
Proof.
  induction l as [|p ps IH]; intros lo end_pos H Hle; [reflexivity|].
  apply chain_end_cons in H. destruct H as (H1 & H2 & H3).
  cbn [fold_right]. rewrite (IH _ _ H3) by (unfold next; lia).
  unfold unloaded_share, intersection_length, next.
  destruct (loaded p || modified p); [reflexivity|]. zbool.
Qed.

Lemma total_unloaded_loop_share l : forall lo end_pos restsize,
  chain_end lo l = Some end_pos ->
  PL.total_unloaded_loop start hi limit restsize l
  = restsize
    + fold_right (fun p acc => unloaded_share start hi limit p + acc) 0 l.
Proof.
  induction l as [|p ps IH]; intros lo end_pos restsize H;
    [simpl; lia|].
  pose proof H as Hall.
  apply chain_end_cons in H. destruct H as (H1 & H2 & H3).
  cbn [PL.total_unloaded_loop fold_right].
  destruct (next p <=? start) eqn:E1.
  - rewrite (IH _ _ _ H3). apply Z.leb_le in E1.
    unfold unloaded_share, intersection_length.
    destruct (loaded p || modified p); [lia|]. zbool.
  - apply Z.leb_gt in E1. destruct (hi <=? offset p) eqn:E2.
    + apply Z.leb_le in E2.
      change (unloaded_share start hi limit p
              + fold_right
                  (fun p acc => unloaded_share start hi limit p + acc) 0 ps)
        with (fold_right
                (fun p acc => unloaded_share start hi limit p + acc) 0
                (p :: ps)).
      rewrite (share_sum_past _ _ _ Hall) by lia. lia.
    + apply Z.leb_gt in E2. unfold unloaded_share at 1.
      destruct (loaded p || modified p); [rewrite (IH _ _ _ H3); lia|].
      rewrite (IH _ _ _ H3).
      assert ((if offset p <=? start
               then if next p <=? hi then next p - start else hi - start
               else if next p <=? hi then next p - offset p
                    else hi - offset p)
              = intersection_length p start hi) as ->.
      { unfold intersection_length. unfold next in *. zbool. }
      destruct ((limit =? 0) || (intersection_length p start hi <? limit));
        lia.
Qed.

End UnloadedTotal.

Lemma range_end_ordered start size total :
  0 <= size -> start <= range_end start size total.
Proof. intros H. unfold range_end. zbool. Qed.

(** C6, as the code has it.  For a page list that satisfies the invariants
    and a length that is not negative (0 meaning "to the end of the
    list"), with start + length below 2^63 (the sum is an off_t),
    GetTotalUnloadedPageSize(start, length, limit) is the sum, over
    the unloaded and unmodified pages, of the bytes each shares with the
    range, where a share is left out when limit is not 0 and the share
    itself (not the page) is at least limit bytes long. *)
Theorem C6_total_unloaded_by_share :
  forall (pl : PageList) (start size limit : Z),
    wf_pages (pages pl) = true -> 0 <= size -> start + size < 2 ^ 63 ->
    PL.GetTotalUnloadedPageSize start size limit pl
    = unloaded_total_by_share start size limit (pages pl).
Proof.
  intros pl start size limit HW Hsz _. apply wf_pages_WF in HW.
  unfold PL.GetTotalUnloadedPageSize, unloaded_total_by_share, PL.Size.
  assert (start + (if size =? 0
                   then if start <? PL.size_of (pages pl)
                        then PL.size_of (pages pl) - start else size
                   else size)
          = range_end start size (PL.size_of (pages pl))) as ->.
  { unfold range_end. zbool. }
  pose proof (range_end_ordered start size (PL.size_of (pages pl)) Hsz) as Ho.
  destruct HW as [[e H]|(a & b & ->)].
  - rewrite (total_unloaded_loop_share _ _ limit Ho _ _ _ 0 H). lia.
  - clear Ho. generalize (range_end start size
                            (PL.size_of [mkpage 0 0 a b])).
    intros hi. cbn. unfold unloaded_share. unfold intersection_length, next.
    cbn [offset bytes loaded modified].
    destruct (a || b); [zbool|]. zbool.
Qed.

Lemma C6_total_unloaded_by_share_witness :
  PL.GetTotalUnloadedPageSize 0 10 50
    (mkPageList [mkpage 0 100 false false; mkpage 100 20 true false] false)
  = 10.
Proof.
  rewrite (C6_total_unloaded_by_share
             (mkPageList [mkpage 0 100 false false; mkpage 100 20 true false]
                         false) 0 10 50);
    [reflexivity | reflexivity | lia | lia].
Defined.

(** C6 as stated fails: with the single unloaded page (0, 100) and limit
    50, the range [0, 10) counts 10 bytes, although the page is 100 bytes
    long and the claim leaves out pages of at least limit bytes. *)
Lemma C6_page_length_not_compared :
  PL.GetTotalUnloadedPageSize 0 10 50
    (mkPageList [mkpage 0 100 false false] false)
  <> unloaded_total_claimed 0 10 50 [mkpage 0 100 false false].
Proof. vm_compute. discriminate. Qed.

(** ** The planner: partitions through the helpers *)

Lemma wchain_end_cons lo hi p ps :
  wchain_end lo (p :: ps) = Some hi <->
  offset p = lo /\ 0 <= bytes p /\ wchain_end (next p) ps = Some hi.
Proof.
  simpl. destruct (Z.eqb_spec (offset p) lo) as [E1|E1];
    destruct (Z.leb_spec 0 (bytes p)) as [E2|E2]; simpl; split; intros H;
    try discriminate; try (repeat split; try lia; assumption);
    destruct H as (H1 & H2 & H3); try lia; assumption.
Qed.

Lemma wchain_end_app lo l1 l2 :
  wchain_end lo (l1 ++ l2) =
  match wchain_end lo l1 with
  | Some mid => wchain_end mid l2
  | None => None
  end.
Proof.
  revert lo. induction l1 as [|p ps IH]; intros lo; simpl; [reflexivity|].
  destruct ((offset p =? lo) && (0 <=? bytes p)); [apply IH | reflexivity].
Qed.

Lemma chain_wchain lo hi l :
  chain_end lo l = Some hi -> wchain_end lo l = Some hi.
Proof.
  revert lo. induction l as [|p ps IH]; intros lo H; [exact H|].
  apply chain_end_cons in H. destruct H as (H1 & H2 & H3).
  apply wchain_end_cons. repeat split; auto. lia.
Qed.

Lemma WF_wchain l : WF l -> wchain_end 0 l = Some (PL.size_of l).
Proof.
  intros [[hi H]|(a & b & ->)]; [|reflexivity].
  apply chain_wchain. destruct l as [|p ps]; [reflexivity|].
  rewrite (chain_end_size _ _ _ _ H). exact H.
Qed.

(** A partition with one more page at its end. *)
Lemma chain_end_snoc lo done lastpage hi :
  chain_end lo (done ++ [lastpage]) = Some hi <->
  chain_end lo done = Some (offset lastpage) /\ 0 < bytes lastpage /\
  next lastpage = hi.
Proof.
  rewrite chain_end_app. split.
  - destruct (chain_end lo done) as [mid|]; [|discriminate].
    intros H. apply chain_end_cons in H. destruct H as (H1 & H2 & H3).
    simpl in H3. injection H3 as H3. subst. auto.
  - intros (H1 & H2 & H3). rewrite H1. apply chain_end_cons.
    repeat split; auto. simpl. congruence.
Qed.

Section RawCompress.

Variables ignore_load ignore_modify default_load default_modify : bool.

Lemma raw_add_chain lo mid st p :
  chain_end lo (compressed_list st) = Some mid ->
  offset p = mid -> 0 < bytes p ->
  chain_end lo (compressed_list
                  (raw_add_compress_fdpage_list
                     st p ignore_load ignore_modify
                     default_load default_modify))
  = Some (next p).
Proof.
  intros H Ho Hb. unfold raw_add_compress_fdpage_list.
  assert ((0 <? bytes p) = true) as -> by (apply Z.ltb_lt; exact Hb).
  cbn [compressed_list]. apply chain_end_snoc. cbn [offset bytes].
  split; [rewrite Ho; exact H|split; [exact Hb|reflexivity]].
Qed.

Lemma raw_compress_step_chain lo mid st p :
  chain_end lo (compressed_list st) = Some mid ->
  offset p = mid -> 0 <= bytes p ->
  chain_end lo (compressed_list
                  (raw_compress_step ignore_load ignore_modify
                                     default_load default_modify st p))
  = Some (next p).
Proof.
  intros H Ho Hb. unfold raw_compress_step.
  destruct (Z.eqb_spec (bytes p) 0) as [E|E].
  - rewrite H. f_equal. unfold next. lia.
  - assert (0 < bytes p) as Hpos by lia.
    destruct st as [[done lastpage]|].
    + pose proof H as H'. cbn [compressed_list] in H'.
      apply chain_end_snoc in H'. destruct H' as (H1 & H2 & H3).
      assert ((next lastpage =? offset p) = true) as ->
          by (apply Z.eqb_eq; congruence).
      cbn [negb].
      destruct ((negb ignore_load
                 && negb (Bool.eqb (loaded lastpage) (loaded p)))
                || (negb ignore_modify
                    && negb (Bool.eqb (modified lastpage) (modified p)))).
      * apply raw_add_chain with (mid := mid); assumption.
      * cbn [compressed_list]. apply chain_end_snoc.
        unfold next in *. cbn [set_bytes offset bytes].
        repeat split; auto; lia.
    + apply raw_add_chain with (mid := mid); assumption.
Qed.

Lemma raw_compress_fold_chain l : forall lo mid hi st,
  chain_end lo (compressed_list st) = Some mid ->
  wchain_end mid l = Some hi ->
  chain_end lo (compressed_list
                  (fold_left (raw_compress_step ignore_load ignore_modify
                                                default_load default_modify)
                             l st))
  = Some hi.
Proof.
  induction l as [|p ps IH]; intros lo mid hi st H Hl.
  - simpl in *. congruence.
  - apply wchain_end_cons in Hl. destruct Hl as (H1 & H2 & H3).
    cbn [fold_left]. eapply IH; [|exact H3].
    eapply raw_compress_step_chain; eassumption.
Qed.

(** Compressing pages that follow one another gives a partition of the
    same range, whatever flags are ignored. *)
Lemma raw_compress_chain l lo hi :
  wchain_end lo l = Some hi ->
  chain_end lo (raw_compress_fdpage_list l ignore_load ignore_modify
                                         default_load default_modify)
  = Some hi.
Proof.
  intros H. unfold raw_compress_fdpage_list.
  eapply raw_compress_fold_chain; [reflexivity | exact H].
Qed.

End RawCompress.

(** ** The planner: splitting by the maximum part size *)

Lemma split_modified_page_spec fuel : forall tmppage max_partsize start rest,
  0 < max_partsize -> (Z.to_nat rest <= fuel)%nat ->
  exists l,
    split_modified_page fuel tmppage max_partsize start rest = Some l /\
    chain_end start l = Some (start + Z.max 0 rest) /\
    Forall (fun q => bytes q <= 2 * max_partsize
                     /\ modified q = modified tmppage) l.
Proof.
  induction fuel as [|fuel IH]; intros tmppage mx start rest Hmx Hfuel.
  - assert (rest <= 0) as Hr by lia. simpl.
    assert ((0 <? rest) = false) as -> by (apply Z.ltb_ge; exact Hr).
    exists []. repeat split; [|constructor]. simpl. f_equal. lia.
  - cbn [split_modified_page]. destruct (Z.ltb_spec 0 rest) as [Hr|Hr].
    + destruct (Z.ltb_spec (mx * 2) rest) as [Hs|Hs].
      * destruct (IH tmppage mx (start + mx) (rest - mx) Hmx)
          as (l & E & C & F);
          [lia|].
        rewrite E. cbn [option_map]. eexists. split; [reflexivity|]. split.
        -- apply chain_end_cons. cbn [offset bytes]. unfold next.
           cbn [offset bytes]. repeat split; auto. rewrite C. f_equal. lia.
        -- constructor; [|exact F]. cbn [bytes modified]. split; [lia|auto].
      * eexists. split; [reflexivity|]. split.
        -- apply chain_end_cons. cbn [offset bytes]. unfold next.
           cbn [offset bytes]. repeat split; auto. simpl. f_equal. lia.
        -- constructor; [|constructor]. cbn [bytes modified].
           split; [lia|auto].
    + exists []. repeat split; [|constructor]. simpl. f_equal. lia.
Qed.

(** With a positive maximum, [parse_partsize_fdpage_list] returns, and no
    modified page of its result is longer than twice the maximum. *)
Lemma parse_partsize_bound l max_partsize :
  0 < max_partsize ->
  exists l',
    parse_partsize_fdpage_list l max_partsize = Some l' /\
    Forall (fun q => modified q = true -> bytes q <= 2 * max_partsize) l'.
Proof.
  intros Hmx. induction l as [|p ps (l2 & E2 & F2)].
  - exists []. split; [reflexivity|constructor].
  - cbn [parse_partsize_fdpage_list]. rewrite E2.
    destruct (modified p) eqn:Em.
    + destruct (split_modified_page_spec (Z.to_nat (bytes p)) p max_partsize
                  (offset p) (bytes p) Hmx (Nat.le_refl _))
        as (l1 & E1 & _ & F1).
      rewrite E1. eexists. split; [reflexivity|].
      apply Forall_app. split; [|exact F2].
      eapply Forall_impl; [|exact F1]. cbn beta. intros q [Hq _] _. exact Hq.
    + eexists. split; [reflexivity|]. constructor; [|exact F2]. congruence.
Qed.

(** It also keeps partitions. *)
Lemma parse_partsize_chain l max_partsize : forall lo hi,
  0 < max_partsize ->
  chain_end lo l = Some hi ->
  exists l',
    parse_partsize_fdpage_list l max_partsize = Some l' /\
    chain_end lo l' = Some hi.
Proof.
  induction l as [|p ps IH]; intros lo hi Hmx H.
  - exists []. split; [reflexivity|exact H].
  - apply chain_end_cons in H. destruct H as (H1 & H2 & H3).
    destruct (IH _ _ Hmx H3) as (l2 & E2 & C2).
    cbn [parse_partsize_fdpage_list]. rewrite E2.
    destruct (modified p) eqn:Em.
    + destruct (split_modified_page_spec (Z.to_nat (bytes p)) p max_partsize
                  (offset p) (bytes p) Hmx (Nat.le_refl _))
        as (l1 & E1 & C1 & _).
      rewrite E1. eexists. split; [reflexivity|].
      rewrite chain_end_app, <- H1, C1.
      replace (offset p + Z.max 0 (bytes p)) with (next p)
        by (unfold next; lia).
      exact C2.
    + eexists. split; [reflexivity|]. apply chain_end_cons. auto.
Qed.

(** ** The planner: the walk *)

Lemma wchain_end_snoc lo done lastpage hi :
  wchain_end lo (done ++ [lastpage]) = Some hi <->
  wchain_end lo done = Some (offset lastpage) /\ 0 <= bytes lastpage /\
  next lastpage = hi.
Proof.
  rewrite wchain_end_app. split.
  - destruct (wchain_end lo done) as [mid|]; [|discriminate].
    intros H. apply wchain_end_cons in H. destruct H as (H1 & H2 & H3).
    simpl in H3. injection H3 as H3. subst. auto.
  - intros (H1 & H2 & H3). rewrite H1. apply wchain_end_cons.
    repeat split; auto. simpl. congruence.
Qed.

Section Walk.

Variable MIN : Z.

Lemma walk_step_covers st cur pos :
  walk_covers st pos -> offset cur = pos -> 0 <= bytes cur ->
  walk_covers (walk_step MIN st cur) (next cur).
Proof.
  unfold walk_covers. intros H Ho Hb.
  apply wchain_end_snoc in H. destruct H as (H1 & H2 & H3).
  unfold walk_step.
  destruct (modified cur); destruct (modified (prev_page st)); cbn [negb];
    repeat match goal with
           | |- context [if ?a <? ?b then _ else _] =>
               destruct (Z.ltb_spec a b)
           end;
    cbn [mixupload_pages prev_page];
    repeat (apply wchain_end_snoc; split; [|split]);
    unfold next in *; cbn [set_bytes set_flags offset bytes];
    try assumption; try lia.
Qed.

Lemma walk_fold_covers l : forall st pos hi,
  walk_covers st pos -> wchain_end pos l = Some hi ->
  walk_covers (fold_left (walk_step MIN) l st) hi.
Proof.
  induction l as [|p ps IH]; intros st pos hi H Hl.
  - simpl in *. injection Hl as <-. exact H.
  - apply wchain_end_cons in Hl. destruct Hl as (H1 & H2 & H3).
    cbn [fold_left]. eapply IH; [|exact H3].
    eapply walk_step_covers; eassumption.
Qed.

Lemma walk_finish_covers st pos :
  walk_covers st pos ->
  wchain_end 0 (mixupload_pages (walk_finish st)) = Some pos.
Proof.
  unfold walk_covers, walk_finish. intros H.
  destruct (Z.ltb_spec 0 (bytes (prev_page st))) as [E|E];
    cbn [mixupload_pages]; [exact H|].
  apply wchain_end_snoc in H. destruct H as (H1 & H2 & H3).
  rewrite H1. f_equal. unfold next in H3. lia.
Qed.

End Walk.

Lemma WF_wchain_compress l :
  WF l -> wchain_end 0 (PL.compress_pages l) = Some (PL.size_of l).
Proof.
  intros [[hi H]|(a & b & ->)]; [|reflexivity].
  apply chain_wchain. apply WF_chain_compress.
  destruct l as [|p ps]; [reflexivity|].
  rewrite (chain_end_size _ _ _ _ H). exact H.
Qed.

(** ** C2: the upload parts partition the file *)

(** C2.  For a page list that satisfies the invariants, MIN > 0 and
    MAX >= 2 MIN, with MAX below 2^62 so that the product
    max_partsize * 2 of parse_partsize_fdpage_list is the product of the
    off_t arithmetic, GetPageListsForMultipartUpload returns, and its
    mixuppages list is, in order, a partition of [0, Size()) without gap
    or overlap. *)
Theorem C2_mixuppages_partition :
  forall (MIN MAX : Z) (pl : PageList),
    wf_pages (pages pl) = true -> 0 < MIN -> 2 * MIN <= MAX ->
    MAX < 2 ^ 62 ->
    exists dlpages mixuppages,
      snd (GetPageListsForMultipartUpload MIN MAX pl)
      = Some (dlpages, mixuppages) /\
      is_partition 0 (PL.Size pl) mixuppages.
Proof.
  intros MIN MAX pl HW Hmin Hmax _. apply wf_pages_WF in HW.
  assert (0 < MAX) as Hmx by lia.
  unfold GetPageListsForMultipartUpload, PL.Compress, is_partition, PL.Size.
  cbn [snd pages].
  set (modified_pages :=
         compress_fdpage_list_ignore_load (PL.compress_pages (pages pl))
                                          false).
  assert (chain_end 0 modified_pages = Some (PL.size_of (pages pl))) as Hm.
  { apply raw_compress_chain. apply WF_wchain_compress. exact HW. }
  set (st := walk_finish (fold_left (walk_step MIN) modified_pages walk_init)).
  assert (wchain_end 0 (mixupload_pages st) = Some (PL.size_of (pages pl)))
    as Hw.
  { apply walk_finish_covers.
    apply walk_fold_covers with (pos := 0);
      [reflexivity | apply chain_wchain; exact Hm]. }
  destruct (parse_partsize_bound
              (compress_fdpage_list_ignore_modify (download_pages st) false)
              MAX Hmx) as (dl & Edl & _).
  destruct (parse_partsize_chain
              (compress_fdpage_list_ignore_load (mixupload_pages st) false)
              MAX 0 (PL.size_of (pages pl)) Hmx
              (raw_compress_chain _ _ _ _ _ _ _ Hw)) as (mix & Emix & Cmix).
  exists dl, mix. rewrite Edl, Emix. split; [reflexivity|exact Cmix].
Qed.

Lemma C2_mixuppages_partition_witness :
  exists dlpages mixuppages,
    snd (GetPageListsForMultipartUpload 5 10
           (mkPageList [mkpage 0 3 false false; mkpage 3 1 false true;
                        mkpage 4 30 true false; mkpage 34 1 true true;
                        mkpage 35 2 false false] false))
    = Some (dlpages, mixuppages) /\
    is_partition 0 37 mixuppages.
Proof.
  apply (C2_mixuppages_partition 5 10
           (mkPageList [mkpage 0 3 false false; mkpage 3 1 false true;
                        mkpage 4 30 true false; mkpage 34 1 true true;
                        mkpage 35 2 false false] false));
    [reflexivity | lia | lia | lia].
Defined.

(** ** C4: padding a short modified area from the area that follows *)

(** C4, as the code has it.  When the area carried in prev is modified
    and shorter than MIN, the current area is not modified, and
    missing + MIN < current.length with missing = MIN - prev.length, the
    walk appends (current.offset, missing, false, false) to the download
    list, appends prev grown to exactly MIN bytes (still modified: a PUT
    part) to the upload list, and carries the rest of the current area,
    (current.offset + missing, current.length - missing), with the flags
    of the current area, so with modified = false. *)
Theorem C4_short_modified_area_padded :
  forall (MIN : Z) (st : walk_state) (cur : fdpage),
    modified (prev_page st) = true ->
    bytes (prev_page st) < MIN ->
    modified cur = false ->
    (MIN - bytes (prev_page st)) + MIN < bytes cur ->
    walk_step MIN st cur
    = mkwalk (mkpage (offset cur + (MIN - bytes (prev_page st)))
                     (bytes cur - (MIN - bytes (prev_page st)))
                     (loaded cur) false)
             (download_pages st
              ++ [mkpage (offset cur) (MIN - bytes (prev_page st))
                         false false])
             (mixupload_pages st
              ++ [mkpage (offset (prev_page st)) MIN
                         (loaded (prev_page st)) true]).
Proof.
  intros MIN st cur Hp Hlt Hc Hm. unfold walk_step.
  rewrite Hc, Hp. cbn [negb].
  assert ((bytes (prev_page st) <? MIN) = true) as ->
      by (apply Z.ltb_lt; exact Hlt).
  assert ((MIN - bytes (prev_page st) + MIN <? bytes cur) = true) as ->
      by (apply Z.ltb_lt; exact Hm).
  unfold set_bytes. rewrite Hp. reflexivity.
Qed.

Lemma C4_short_modified_area_padded_witness :
  walk_step 5 (mkwalk (mkpage 10 1 false true) [] []) (mkpage 11 20 false false)
  = mkwalk (mkpage 15 16 false false)
           [mkpage 11 4 false false]
           [mkpage 10 5 false true].
Proof.
  apply (C4_short_modified_area_padded 5
           (mkwalk (mkpage 10 1 false true) [] [])
           (mkpage 11 20 false false));
    try reflexivity; simpl; lia.
Defined.

(** C4 as stated fails: with MIN = 5, prev = (10, 1) modified and the
    unmodified current area (11, 20), the remainder carried on is
    (15, 16) with modified = false. *)
Lemma C4_remainder_not_modified :
  ~ (forall (MIN : Z) (st : walk_state) (cur : fdpage),
        modified (prev_page st) = true ->
        bytes (prev_page st) < MIN ->
        modified cur = false ->
        (MIN - bytes (prev_page st)) + MIN < bytes cur ->
        modified (prev_page (walk_step MIN st cur)) = true).
Proof.
  intros H.
  assert (modified (prev_page
            (walk_step 5 (mkwalk (mkpage 10 1 false true) [] [])
                       (mkpage 11 20 false false))) = true) as E.
  { apply H; try reflexivity; simpl; lia. }
  vm_compute in E. discriminate E.
Qed.

(** ** C9: the reconciliation *)

(** What one pass of [CheckAreaInSparseFile] adds: the lists only grow,
    and the flag stays true exactly when nothing was added. *)
Lemma check_area_loop_grows checkpage fd sparse_list : forall acc r,
  check_area_loop checkpage fd sparse_list acc = Some r ->
  exists e w,
    err_area_list r = err_area_list acc ++ e /\
    warn_area_list r = warn_area_list acc ++ w /\
    (cmp_result r = true <->
     cmp_result acc = true /\ e = [] /\ w = []).
Proof.
  assert (forall acc, exists e w : list fdpage,
             err_area_list acc = err_area_list acc ++ e /\
             warn_area_list acc = warn_area_list acc ++ w /\
             (cmp_result acc = true <->
              cmp_result acc = true /\ e = [] /\ w = [])) as Hsame.
  { intros acc. exists [], []. rewrite !app_nil_r. tauto. }
  assert (forall (acc : compare_result) e0 w0 r,
             (exists e w : list fdpage,
                 err_area_list r = (err_area_list acc ++ e0) ++ e /\
                 warn_area_list r = (warn_area_list acc ++ w0) ++ w /\
                 (cmp_result r = true <-> false = true /\ e = [] /\ w = []))
             -> e0 ++ w0 <> [] ->
             exists e w : list fdpage,
               err_area_list r = err_area_list acc ++ e /\
               warn_area_list r = warn_area_list acc ++ w /\
               (cmp_result r = true <->
                cmp_result acc = true /\ e = [] /\ w = [])) as Hadd.
  { intros acc e0 w0 r (e & w & He & Hw & Hr) Hne.
    exists (e0 ++ e), (w0 ++ w). rewrite !app_assoc.
    split; [exact He|split; [exact Hw|split]].
    - intros H. apply Hr in H. destruct H as [H _]. discriminate.
    - intros (_ & H1 & H2). exfalso. apply Hne.
      apply app_eq_nil in H1, H2. destruct H1 as [-> _], H2 as [-> _].
      reflexivity. }
  induction sparse_list as [|seg rest IH]; intros acc r H.
  - simpl in H. injection H as <-. apply Hsame.
  - cbn [check_area_loop] in H.
    destruct (offset seg + bytes seg <=? offset checkpage); [auto|].
    destruct (offset checkpage + bytes checkpage <=? offset seg).
    { injection H as <-. apply Hsame. }
    destruct (check_area checkpage seg) as [check_start check_bytes].
    destruct (loaded checkpage || modified checkpage).
    + destruct (negb (loaded seg)); [|auto].
      apply IH in H. cbn [err_area_list warn_area_list cmp_result] in H.
      apply (Hadd acc [mkpage check_start check_bytes false false] []).
      * rewrite app_nil_r. exact H.
      * discriminate.
    + destruct (loaded seg); [|auto].
      destruct (CheckZeroAreaInFile fd check_start (to_size_t check_bytes))
        as [[|]|]; [auto| |discriminate].
      apply IH in H. cbn [err_area_list warn_area_list cmp_result] in H.
      apply (Hadd acc [] [mkpage check_start check_bytes true false]).
      * rewrite app_nil_r. exact H.
      * discriminate.
Qed.

Lemma compare_loop_result l sparse_list fd : forall acc r,
  (cmp_result acc = true <->
   err_area_list acc = [] /\ warn_area_list acc = []) ->
  compare_loop l sparse_list fd acc = Some r ->
  (cmp_result r = true <-> err_area_list r = [] /\ warn_area_list r = []).
Proof.
  induction l as [|p ps IH]; intros acc r Hacc H.
  - simpl in H. injection H as <-. exact Hacc.
  - cbn [compare_loop] in H. unfold CheckAreaInSparseFile in H.
    destruct (check_area_loop p fd sparse_list
                (mkcmp true (err_area_list acc) (warn_area_list acc)))
      as [r1|] eqn:E1; [|discriminate].
    apply check_area_loop_grows in E1.
    cbn [err_area_list warn_area_list cmp_result] in E1.
    destruct E1 as (e & w & He & Hw & Hr).
    apply IH in H; [exact H|].
    cbn [err_area_list warn_area_list cmp_result]. rewrite He, Hw.
    destruct (cmp_result r1) eqn:Er; cbn [negb].
    + destruct Hr as [Hr _]. destruct (Hr eq_refl) as (_ & -> & ->).
      rewrite !app_nil_r. exact Hacc.
    + split; [discriminate|]. intros [H1 H2].
      apply app_eq_nil in H1, H2. destruct H1 as [_ ->], H2 as [_ ->].
      destruct Hr as [_ Hr]. apply Hr. auto.
Qed.

(** The part of C9 that holds: whenever [CompareSparseFile] returns, it
    returns false exactly when one of the two lists is not empty, and a
    failed probe gives the single error page (0, file_size). *)
Lemma CompareSparseFile_false_iff fuel fd file_size pl r :
  CompareSparseFile fuel fd file_size pl = Some r ->
  (cmp_result r = false <->
   err_area_list r <> [] \/ warn_area_list r <> []) /\
  (forall l, GetSparseFilePages fuel fd file_size [] = Some (false, l) ->
             r = mkcmp false [mkpage 0 file_size false false] []).
Proof.
  unfold CompareSparseFile. intros H.
  destruct (GetSparseFilePages fuel fd file_size [])
    as [[[|] sparse_list]|]; [| |discriminate].
  - split; [|discriminate].
    assert (cmp_result r = true <->
            err_area_list r = [] /\ warn_area_list r = []) as Hr.
    { destruct sparse_list as [|s sl]; [destruct (pages pl) as [|p ps]|].
      - injection H as <-. simpl. tauto.
      - eapply compare_loop_result; [|exact H]. simpl. tauto.
      - eapply compare_loop_result; [|exact H]. simpl. tauto. }
    destruct (cmp_result r), (err_area_list r), (warn_area_list r);
      split; intros X; try discriminate; try reflexivity;
      try (left; discriminate); try (right; discriminate);
      try (destruct X as [X|X]; contradiction);
      try (destruct Hr as [Hr _]; destruct (Hr eq_refl); discriminate);
      try (destruct Hr as [_ Hr]; discriminate Hr; auto).
  - injection H as <-. split; [|reflexivity].
    simpl. split; [left; discriminate | reflexivity].
Qed.

(** C9, at the input where it fails.  The cache file of 16384 bytes has
    data in [0, 8192) and a hole in [8192, 16384); the stored list claims
    the single loaded page (0, 16384).  The probe finds the two segments;
    the page and the hole share (8192, 8192), but the area appended to
    err_area_list is the whole page (0, 16384): the segment ends where the
    page ends, so the tests of cases 2, 3 and 4 fail and case 5 takes the
    area of the page. *)
Theorem C9_error_area_is_not_the_intersection :
  GetSparseFilePages 4 half_hole_file 16384 []
  = Some (true, [mkpage 0 8192 true false; mkpage 8192 8192 false false]) /\
  CompareSparseFile 4 half_hole_file 16384
    (mkPageList [mkpage 0 16384 true false] false)
  = Some (mkcmp false [mkpage 0 16384 false false] []) /\
  intersection_area (mkpage 0 16384 true false) (mkpage 8192 8192 false false)
  = (8192, 8192).
Proof. repeat split; vm_compute; reflexivity. Qed.

(** ** C10: dispatch without a pool *)

Lemma singleton_initial :
  ThreadPoolMan.singleton ThreadPoolMan.initial = None.
Proof. reflexivity. Qed.

Lemma singleton_Destroy w :
  ThreadPoolMan.singleton (ThreadPoolMan.Destroy w) = None.
Proof. reflexivity. Qed.

(** C10.  While there is no singleton (before Initialize, after Destroy),
    Instruct and AwaitInstruct return false: the call neither parks the
    caller on a semaphore nor aborts, and the state, which holds no queue,
    is the one it was. *)
Theorem C10_dispatch_without_pool :
  forall (w : ThreadPoolMan.world) (param : ThreadPoolMan.thpoolman_param)
         (await_sem : nat),
    ThreadPoolMan.singleton w = None ->
    ThreadPoolMan.Instruct param w = ThreadPoolMan.Returned false w /\
    ThreadPoolMan.AwaitInstruct await_sem param w
    = ThreadPoolMan.Returned false w /\
    ThreadPoolMan.queued w = [].
Proof.
  intros w param await_sem H.
  unfold ThreadPoolMan.Instruct, ThreadPoolMan.AwaitInstruct,
    ThreadPoolMan.queued.
  rewrite H. auto.
Qed.

Lemma C10_dispatch_without_pool_witness :
  ThreadPoolMan.Instruct (ThreadPoolMan.mkparam 1 (Some 7%nat) 2)
    (ThreadPoolMan.Destroy
       (ThreadPoolMan.mkworld 3
          (Some (ThreadPoolMan.mkpool false 0 [] 3))))
  = ThreadPoolMan.Returned false
      (ThreadPoolMan.Destroy
         (ThreadPoolMan.mkworld 3
            (Some (ThreadPoolMan.mkpool false 0 [] 3)))).
Proof.
  apply (C10_dispatch_without_pool
           (ThreadPoolMan.Destroy
              (ThreadPoolMan.mkworld 3
                 (Some (ThreadPoolMan.mkpool false 0 [] 3))))
           (ThreadPoolMan.mkparam 1 (Some 7%nat) 2) 0%nat).
  reflexivity.
Defined.

(** ** Text: lines and fields *)

Local Open Scope string_scope.

(** [getlines] is [getline] called until it fails. *)
Lemma getlines_getline delim s :
  getlines delim s =
  match getline delim s with
  | None => []
  | Some (l, rest) => l :: getlines delim rest
  end.
Proof.
  induction s as [|c s IH]; [reflexivity|].
  cbn [getlines getline split_delim].
  destruct (Ascii.eqb c delim); [reflexivity|].
  rewrite IH. destruct s as [|c' s']; [reflexivity|].
  cbn [getline]. destruct (split_delim delim (String c' s')) as [l r].
  reflexivity.
Qed.

Lemma string_app_assoc (a b c : string) : (a ++ b) ++ c = a ++ (b ++ c).
Proof. induction a as [|x a IH]; simpl; [reflexivity|f_equal; exact IH]. Qed.

Lemma no_char_app c s1 s2 :
  no_char c (s1 ++ s2) = no_char c s1 && no_char c s2.
Proof.
  induction s1 as [|a s1 IH]; [reflexivity|].
  simpl. rewrite IH. apply andb_assoc.
Qed.

Lemma getlines_app_delim delim a rest :
  no_char delim a = true ->
  getlines delim (a ++ String delim rest) = a :: getlines delim rest.
Proof.
  induction a as [|c a IH]; intros H.
  - simpl. rewrite Ascii.eqb_refl. reflexivity.
  - simpl in H. apply andb_true_iff in H. destruct H as [H1 H2].
    apply negb_true_iff in H1. simpl. rewrite H1, (IH H2). reflexivity.
Qed.

Lemma getlines_no_delim delim a :
  no_char delim a = true -> a <> "" -> getlines delim a = [a].
Proof.
  induction a as [|c a IH]; intros H Hne; [contradiction|].
  simpl in H. apply andb_true_iff in H. destruct H as [H1 H2].
  apply negb_true_iff in H1. simpl. rewrite H1.
  destruct a as [|c' a']; [reflexivity|].
  rewrite (IH H2); [reflexivity | discriminate].
Qed.

Lemma c_str_no_nul s : no_char NUL s = true -> c_str s = s.
Proof.
  induction s as [|c s IH]; intros H; [reflexivity|].
  simpl in H. apply andb_true_iff in H. destruct H as [H1 H2].
  apply negb_true_iff in H1. simpl. rewrite H1, (IH H2). reflexivity.
Qed.

(** ** Text: printed integers *)

Lemma no_char_cons c a s :
  no_char c (String a s) = negb (Ascii.eqb a c) && no_char c s.
Proof. reflexivity. Qed.

Lemma is_dec_char_false c a :
  is_dec_char c = false ->
  In a ["0"; "1"; "2"; "3"; "4"; "5"; "6"; "7"; "8"; "9"; "-"]%char ->
  negb (Ascii.eqb a c) = true.
Proof.
  intros H Hin. apply negb_true_iff. rewrite Ascii.eqb_sym.
  unfold is_dec_char in H.
  destruct (Ascii.eqb c a) eqn:E; [|reflexivity].
  rewrite <- H. symmetry. apply existsb_exists. exists a. auto.
Qed.

Lemma no_char_uint c d :
  is_dec_char c = false -> no_char c (NilEmpty.string_of_uint d) = true.
Proof.
  intros H.
  induction d as [|d IH|d IH|d IH|d IH|d IH|d IH|d IH|d IH|d IH|d IH];
    [reflexivity|..];
    cbn [NilEmpty.string_of_uint]; rewrite no_char_cons, IH, andb_true_r;
    apply (is_dec_char_false c _ H); cbn [In]; tauto.
Qed.

Lemma no_char_dec c z : is_dec_char c = false -> no_char c (dec z) = true.
Proof.
  intros H. unfold dec.
  assert (forall d, no_char c (NilZero.string_of_uint d) = true) as Hu.
  { intros d. pose proof (no_char_uint c d H) as Hd.
    destruct d; try exact Hd.
    unfold NilZero.string_of_uint.
    rewrite no_char_cons, andb_true_r.
    apply (is_dec_char_false c _ H); cbn [In]; tauto. }
  destruct (Z.to_int z) as [d|d]; cbn [NilZero.string_of_int]; [apply Hu|].
  rewrite no_char_cons, Hu, andb_true_r.
  apply (is_dec_char_false c _ H); cbn [In]; tauto.
Qed.

Lemma dec_nonempty z : dec z <> "".
Proof.
  unfold dec. destruct (Z.to_int z) as [d|d];
    cbn [NilZero.string_of_int]; [|discriminate].
  destruct d; discriminate.
Qed.

(** A printed 64-bit integer reads back as itself. *)
Lemma cvt_strtoofft_dec z :
  - 2 ^ 63 <= z < 2 ^ 63 -> cvt_strtoofft (dec z) = z.
Proof.
  intros Hz. unfold cvt_strtoofft, dec.
  rewrite NilZero.isi.
  - rewrite DecimalZ.of_to.
    destruct (Z.leb_spec (- 2 ^ 63) z); [|lia].
    destruct (Z.ltb_spec z (2 ^ 63)); [reflexivity|lia].
  - destruct z; simpl; try discriminate.
    intros [= E]. exact (Unsigned.to_uint_nonnil _ E).
  - destruct z; simpl; try discriminate.
    intros [= E]. exact (Unsigned.to_uint_nonnil _ E).
Qed.

Local Close Scope string_scope.

(** ** Compress on partitions *)

Lemma compress_from_next lastpage cur rest :
  next lastpage = offset cur ->
  PL.compress_from lastpage (cur :: rest)
  = if Bool.eqb (loaded lastpage) (loaded cur)
       && Bool.eqb (modified lastpage) (modified cur)
    then PL.compress_from
           (set_bytes lastpage (bytes lastpage + bytes cur)) rest
    else lastpage :: PL.compress_from cur rest.
Proof.
  intros H. cbn [PL.compress_from]. rewrite H, Z.eqb_refl. cbn [negb].
  destruct (Bool.eqb (loaded lastpage) (loaded cur)
            && Bool.eqb (modified lastpage) (modified cur)); reflexivity.
Qed.

(** The first page of the result starts where [lastpage] starts and has
    its flags. *)
Lemma compress_from_head rest : forall lastpage,
  exists hd tl,
    PL.compress_from lastpage rest = hd :: tl /\
    offset hd = offset lastpage /\
    loaded hd = loaded lastpage /\ modified hd = modified lastpage.
Proof.
  induction rest as [|cur rest IH]; intros lastpage.
  - exists lastpage, []. auto.
  - cbn [PL.compress_from].
    destruct (negb (next lastpage =? offset cur));
      [destruct (loaded lastpage || modified lastpage)|];
      match goal with
      | |- context [if ?c then _ else _] => destruct c
      end; cbn [app];
      try (eexists _, _; split; [reflexivity|]; auto; fail);
      match goal with
      | |- context [PL.compress_from ?q rest] =>
          destruct (IH q) as (hd & tl & E & H1 & H2 & H3);
          rewrite E; exists hd, tl; auto
      end.
Qed.

Lemma compress_from_idem rest : forall lastpage hi,
  chain_end (next lastpage) rest = Some hi ->
  PL.compress_pages (PL.compress_from lastpage rest)
  = PL.compress_from lastpage rest.
Proof.
  induction rest as [|cur rest IH]; intros lastpage hi H; [reflexivity|].
  apply chain_end_cons in H. destruct H as (H1 & H2 & H3).
  rewrite (compress_from_next lastpage cur rest) by congruence.
  destruct (Bool.eqb (loaded lastpage) (loaded cur)
            && Bool.eqb (modified lastpage) (modified cur)) eqn:Ef.
  - apply (IH _ hi). unfold next in *. cbn [set_bytes offset bytes].
    rewrite <- H3. f_equal. lia.
  - destruct (compress_from_head rest cur) as (hd & tl & E & Ho & Hl & Hm).
    pose proof (IH cur hi H3) as IHc. rewrite E in *.
    cbn [PL.compress_pages] in *.
    rewrite compress_from_next by congruence.
    rewrite Hl, Hm, Ef. rewrite IHc. reflexivity.
Qed.

Lemma compress_pages_idem l :
  WF l -> PL.compress_pages (PL.compress_pages l) = PL.compress_pages l.
Proof.
  intros [[hi H]|(a & b & ->)]; [|reflexivity].
  destruct l as [|p ps]; [reflexivity|].
  apply chain_end_cons in H. destruct H as (H1 & H2 & H3).
  apply (compress_from_idem ps p hi H3).
Qed.

(** Compressing after every page gives what compressing once at the end
    gives. *)
Lemma compress_from_snoc rest : forall lastpage hi p,
  chain_end (next lastpage) rest = Some hi ->
  PL.compress_from lastpage (rest ++ [p])
  = PL.compress_pages (PL.compress_from lastpage rest ++ [p]).
Proof.
  induction rest as [|cur rest IH]; intros lastpage hi p H; [reflexivity|].
  apply chain_end_cons in H. destruct H as (H1 & H2 & H3).
  cbn [app].
  rewrite (compress_from_next lastpage cur (rest ++ [p])) by congruence.
  rewrite (compress_from_next lastpage cur rest) by congruence.
  destruct (Bool.eqb (loaded lastpage) (loaded cur)
            && Bool.eqb (modified lastpage) (modified cur)) eqn:Ef.
  - apply (IH _ hi). unfold next in *. cbn [set_bytes offset bytes].
    rewrite <- H3. f_equal. lia.
  - rewrite (IH cur hi p H3).
    destruct (compress_from_head rest cur) as (hd & tl & E & Ho & Hl & Hm).
    rewrite E. cbn [app PL.compress_pages].
    rewrite compress_from_next by congruence.
    rewrite Hl, Hm, Ef. reflexivity.
Qed.

Lemma compress_pages_snoc prefix p hi :
  chain_end 0 prefix = Some hi ->
  PL.compress_pages (PL.compress_pages prefix ++ [p])
  = PL.compress_pages (prefix ++ [p]).
Proof.
  intros H. destruct prefix as [|q qs]; [reflexivity|].
  apply chain_end_cons in H. destruct H as (H1 & H2 & H3).
  cbn [PL.compress_pages app]. symmetry.
  apply (compress_from_snoc qs q hi p H3).
Qed.

Lemma size_of_chain l hi :
  chain_end 0 l = Some hi -> PL.size_of l = hi.
Proof.
  intros H. destruct l as [|p ps].
  - simpl in H. injection H as <-. reflexivity.
  - apply (chain_end_size _ _ _ _ H).
Qed.

Lemma size_of_compress l :
  WF l -> PL.size_of (PL.compress_pages l) = PL.size_of l.
Proof.
  intros [[hi H]|(a & b & ->)]; [|reflexivity].
  rewrite (size_of_chain _ _ H).
  apply size_of_chain. apply WF_chain_compress. exact H.
Qed.

(** ** Rebuilding a list page by page *)

Lemma status_of_flags_loaded a b :
  PL.status_loaded (status_of_flags a b) = a.
Proof. destruct a, b; reflexivity. Qed.

Lemma status_of_flags_modified a b :
  PL.status_modified (status_of_flags a b) = b.
Proof. destruct a, b; reflexivity. Qed.

(** What [Deserialize] does with the line of page [p] when the lines of
    the pages before it have been loaded. *)
Lemma rebuild_step prefix p hi sh :
  chain_end 0 (prefix ++ [p]) = Some hi ->
  PL.SetPageLoadedStatus (offset p) (bytes p)
    (status_of_flags (loaded p) (modified p)) true
    (mkPageList (PL.compress_pages prefix) sh)
  = mkPageList (PL.compress_pages (prefix ++ [p])) sh.
Proof.
  intros H. apply chain_end_snoc in H. destruct H as (H1 & H2 & H3).
  pose proof (WF_chain_compress _ _ H1) as Hc.
  pose proof (size_of_chain _ _ Hc) as Hs.
  unfold PL.SetPageLoadedStatus, PL.Size. cbn [pages]. rewrite Hs.
  rewrite Z.leb_refl, Z.ltb_irrefl.
  rewrite status_of_flags_loaded, status_of_flags_modified.
  unfold PL.Resize, PL.Size. cbn [pages is_shrink]. rewrite Hs.
  destruct (Z.eqb_spec (offset p) 0) as [E0|E0].
  - destruct prefix as [|q qs].
    + unfold PL.Init, PL.Compress. cbn [PL.Clear pages is_shrink].
      assert ((0 <=? offset p + bytes p) = true) as -> by (apply Z.leb_le; lia).
      cbn [pages is_shrink app PL.compress_pages PL.compress_from].
      destruct p as [o b l m]. cbn [offset bytes loaded modified] in *.
      subst o. reflexivity.
    + pose proof (chain_end_lt _ _ _ _ H1). lia.
  - assert ((offset p <? offset p + bytes p) = true) as ->
        by (apply Z.ltb_lt; lia).
    unfold PL.Compress. cbn [pages is_shrink].
    replace (offset p + bytes p - offset p) with (bytes p) by lia.
    replace (mkpage (offset p) (bytes p) (loaded p) (modified p)) with p
      by (destruct p; reflexivity).
    rewrite (compress_pages_snoc _ _ _ H1).
    rewrite compress_pages_idem; [reflexivity|].
    left. exists hi. apply chain_end_snoc. auto.
Qed.

(** ** The text of a serialized list *)

Lemma flag_text_no_char c b :
  is_dec_char c = false -> no_char c (flag_text b) = true.
Proof.
  intros H. destruct b; unfold flag_text; rewrite no_char_cons;
    cbn [no_char]; rewrite andb_true_r;
    apply (is_dec_char_false c _ H); cbn [In]; tauto.
Qed.

Lemma page_body_no_char c p :
  is_dec_char c = false -> Ascii.eqb COLON c = false ->
  no_char c (page_body p) = true.
Proof.
  intros H Hc. unfold page_body.
  repeat (rewrite no_char_app || rewrite no_char_cons).
  rewrite !no_char_dec, !flag_text_no_char, Hc by exact H. reflexivity.
Qed.

Lemma page_body_nonempty p : page_body p <> EmptyString.
Proof.
  unfold page_body. pose proof (dec_nonempty (offset p)) as H.
  destruct (dec (offset p)); [contradiction|discriminate].
Qed.

Lemma pages_text_no_char c l :
  is_dec_char c = false -> Ascii.eqb COLON c = false ->
  Ascii.eqb LF c = false ->
  no_char c (pages_text l) = true.
Proof.
  intros H Hc Hl. induction l as [|p ps IH]; [reflexivity|].
  cbn [pages_text]. rewrite no_char_cons, no_char_app, Hl.
  rewrite page_body_no_char, IH by assumption. reflexivity.
Qed.

(** The fields of the line of a page. *)
Lemma getlines_page_body p :
  getlines COLON (page_body p)
  = [dec (offset p); dec (bytes p);
     flag_text (loaded p); flag_text (modified p)].
Proof.
  unfold page_body.
  rewrite getlines_app_delim by (apply no_char_dec; reflexivity).
  rewrite getlines_app_delim by (apply no_char_dec; reflexivity).
  rewrite getlines_app_delim by (apply flag_text_no_char; reflexivity).
  rewrite getlines_no_delim;
    [reflexivity | apply flag_text_no_char; reflexivity
     | destruct (modified p); discriminate].
Qed.

(** The lines of a head line followed by the text of the pages. *)
Lemma getlines_pages_text l : forall head,
  no_char LF head = true -> head <> EmptyString ->
  getlines LF (head ++ pages_text l) = head :: map page_body l.
Proof.
  induction l as [|p ps IH]; intros head H Hne.
  - cbn [pages_text map].
    replace (head ++ EmptyString)%string with head
      by (clear; induction head as [|x head IH]; simpl; congruence).
    apply getlines_no_delim; assumption.
  - cbn [pages_text map]. rewrite getlines_app_delim by exact H.
    f_equal. apply IH; [|apply page_body_nonempty].
    apply page_body_no_char; reflexivity.
Qed.

Lemma cvt_flag_text b : (cvt_strtoofft (flag_text b) =? 1) = b.
Proof. destruct b; reflexivity. Qed.

Lemma chain_end_last_bounds prefix p hi :
  chain_end 0 (prefix ++ [p]) = Some hi ->
  0 <= offset p /\ 0 < bytes p /\ offset p + bytes p = hi.
Proof.
  intros H. apply chain_end_snoc in H. destruct H as (H1 & H2 & H3).
  apply chain_end_le in H1. unfold next in H3. auto.
Qed.

(** Loading the lines of the pages of a partition, after the lines of the
    pages before them, gives the compressed partition. *)
Lemma load_parts_rebuild suffix : forall prefix hi sh,
  chain_end 0 (prefix ++ suffix) = Some hi -> hi < 2 ^ 63 ->
  load_parts (map page_body suffix)
             (mkPageList (PL.compress_pages prefix) sh)
  = (false, mkPageList (PL.compress_pages (prefix ++ suffix)) sh).
Proof.
  induction suffix as [|p ps IH]; intros prefix hi sh H Hhi.
  - rewrite app_nil_r. reflexivity.
  - cbn [map load_parts]. rewrite getlines_page_body.
    assert (exists mid, chain_end 0 (prefix ++ [p]) = Some mid /\ mid <= hi)
      as (mid & Hmid & Hle).
    { replace (prefix ++ p :: ps) with ((prefix ++ [p]) ++ ps) in H
        by (rewrite <- app_assoc; reflexivity).
      rewrite chain_end_app in H.
      destruct (chain_end 0 (prefix ++ [p])) as [mid|]; [|discriminate].
      exists mid. split; [reflexivity|]. eapply chain_end_le; eassumption. }
    destruct (chain_end_last_bounds _ _ _ Hmid) as (B1 & B2 & B3).
    rewrite !cvt_strtoofft_dec by lia. rewrite !cvt_flag_text.
    rewrite (rebuild_step _ _ _ sh Hmid).
    replace (prefix ++ p :: ps) with ((prefix ++ [p]) ++ ps)
      by (rewrite <- app_assoc; reflexivity).
    apply (IH (prefix ++ [p]) hi sh); [|exact Hhi].
    rewrite <- app_assoc. exact H.
Qed.

Lemma string_length_app_pos (a b : string) :
  a <> EmptyString -> (Z.of_nat (String.length (a ++ b)) <=? 0) = false.
Proof.
  intros H. destruct a as [|c a]; [contradiction|].
  apply Z.leb_gt. simpl. lia.
Qed.

(** ** C8: Serialize, then Deserialize *)

(** C8, as the code has it.  For a page list that satisfies the
    invariants (with a size that fits an off_t), a stats file whose
    system calls succeed, and an inode that is not 0 (and that the signed
    64-bit reader of the head line can read), Serialize followed by
    Deserialize with the same inode succeeds, and the pages it produces
    are those of the original list after Compress, so that the two lists
    are equal after Compress.  The shrunk flag is not written and comes
    back false. *)
Theorem C8_serialize_deserialize :
  forall (file : CacheFileStat) (inode : Z) (pl pl0 : PageList),
    io_ok file = true ->
    wf_pages (pages pl) = true -> PL.Size pl < 2 ^ 63 ->
    0 < inode < 2 ^ 63 ->
    fst (Serialize file inode pl) = true /\
    exists pl',
      Deserialize (snd (Serialize file inode pl)) inode pl0 = (true, pl') /\
      pages pl' = PL.compress_pages (pages pl) /\
      PL.compress_pages (pages pl') = PL.compress_pages (pages pl) /\
      is_shrink pl' = false.
Proof.
  intros file inode pl pl0 Hio HW Hsz Hino. apply wf_pages_WF in HW.
  pose proof (WF_size_nonneg _ HW) as Hnn. unfold PL.Size in *.
  unfold Serialize, PL.Size. rewrite Hio. cbn [negb].
  rewrite string_length_app_pos by apply dec_nonempty.
  cbn [fst snd]. split; [reflexivity|].
  unfold Deserialize. cbn [io_ok content negb]. unfold PL.Size.
  rewrite string_length_app_pos by apply dec_nonempty.
  set (head :=
         (dec inode ++ String COLON (dec (PL.size_of (pages pl))))%string).
  replace (dec inode ++ String COLON (dec (PL.size_of (pages pl))
           ++ pages_text (pages pl)))%string
    with (head ++ pages_text (pages pl))%string
    by (unfold head; rewrite string_app_assoc; reflexivity).
  assert (forall c, is_dec_char c = false -> Ascii.eqb COLON c = false ->
                    no_char c head = true) as Hhead.
  { intros c H1 H2. unfold head. rewrite no_char_app, no_char_cons, H2.
    rewrite !no_char_dec by exact H1. reflexivity. }
  rewrite c_str_no_nul.
  2:{ rewrite no_char_app, (Hhead NUL eq_refl eq_refl).
      rewrite pages_text_no_char by reflexivity. reflexivity. }
  rewrite getlines_pages_text.
  2:{ apply Hhead; reflexivity. }
  2:{ unfold head. pose proof (dec_nonempty inode) as Hd.
      destruct (dec inode); [contradiction|discriminate]. }
  unfold parse_head, head.
  rewrite getlines_app_delim by (apply no_char_dec; reflexivity).
  rewrite getlines_no_delim
    by (apply no_char_dec || apply dec_nonempty; reflexivity).
  rewrite !cvt_strtoofft_dec by lia.
  assert (to_ino_t inode = inode) as ->
      by (unfold to_ino_t; apply Z.mod_small; lia).
  assert ((inode =? 0) = false) as -> by (apply Z.eqb_neq; lia).
  rewrite Z.eqb_refl. cbn [negb andb].
  destruct HW as [[hi H]|(a & b & E)].
  - pose proof (size_of_chain _ _ H) as Hs.
    change (PL.Clear pl0) with (mkPageList (PL.compress_pages []) false).
    rewrite (load_parts_rebuild (pages pl) [] hi false) by (simpl; auto; lia).
    cbn [app PL.Size pages]. rewrite size_of_compress by (left; eauto).
    rewrite Z.eqb_refl, andb_false_r. cbn [negb]. eexists.
    split; [reflexivity|].
    cbn [pages is_shrink]. split; [reflexivity|]. split; [|reflexivity].
    apply compress_pages_idem. left; eauto.
  - rewrite E. cbn [map load_parts]. rewrite getlines_page_body.
    cbn [offset bytes loaded modified].
    rewrite !cvt_strtoofft_dec, !cvt_flag_text by (cbn; lia).
    rewrite andb_false_r.
    exists (mkPageList [mkpage 0 0 a b] false).
    destruct a, b; repeat split.
Qed.

Lemma C8_serialize_deserialize_witness :
  fst (Serialize (mkstat true EmptyString) 42
         (mkPageList [mkpage 0 100 true false; mkpage 100 50 true false;
                      mkpage 150 10 false true] true)) = true /\
  exists pl',
    Deserialize
      (snd (Serialize (mkstat true EmptyString) 42
              (mkPageList [mkpage 0 100 true false; mkpage 100 50 true false;
                           mkpage 150 10 false true] true)))
      42 (mkPageList [] false) = (true, pl') /\
    pages pl' = PL.compress_pages
                  [mkpage 0 100 true false; mkpage 100 50 true false;
                   mkpage 150 10 false true] /\
    PL.compress_pages (pages pl')
    = PL.compress_pages
        [mkpage 0 100 true false; mkpage 100 50 true false;
         mkpage 150 10 false true] /\
    is_shrink pl' = false.
Proof.
  apply (C8_serialize_deserialize (mkstat true EmptyString) 42
           (mkPageList [mkpage 0 100 true false; mkpage 100 50 true false;
                        mkpage 150 10 false true] true)
           (mkPageList [] false));
    try reflexivity; split; reflexivity.
Defined.

(** C8 as stated fails for inode 0: the head line "0:10" reads as a head
    line with a wrong inode number, and Deserialize returns false. *)
Lemma C8_inode_zero_rejected :
  fst (Serialize (mkstat true EmptyString) 0
         (mkPageList [mkpage 0 10 true false] false)) = true /\
  content (snd (Serialize (mkstat true EmptyString) 0
                  (mkPageList [mkpage 0 10 true false] false)))
  = String "0" (String ":" (String "1" (String "0" (String LF
      (String "0" (String ":" (String "1" (String "0" (String ":"
      (String "1" (String ":" (String "0" EmptyString)))))))))))) /\
  fst (Deserialize
         (snd (Serialize (mkstat true EmptyString) 0
                 (mkPageList [mkpage 0 10 true false] false)))
         0 (mkPageList [] false)) = false.
Proof. repeat split. Qed.

(** ** C7: the checks of Deserialize *)



(** A stats file with a head line of the old format is loaded whatever
    the inode of the caller is. *)
Lemma Deserialize_legacy_head :
  forall inode,
    Deserialize (mkstat true ("100" ++ String LF "0:100:1")%string) inode
                (mkPageList [] false)
    = (true, mkPageList [mkpage 0 100 true false] false).
Proof. intros inode. reflexivity. Qed.

(** ** The model on the scenarios of the test plan *)

(** Empty file: one page without bytes, size 0. *)
Example scenario_empty_file :
  PL.Init 0 false false (mkPageList [mkpage 0 7 true true] true)
  = mkPageList [mkpage 0 0 false false] false /\
  PL.Size (PL.Init 0 false false (mkPageList [] false)) = 0.
Proof. split; reflexivity. Qed.

(** A write beyond the end of an empty file: the whole file becomes one
    modified page, the prefix included. *)
Example scenario_single_write :
  PL.SetPageLoadedStatus 100 50 MODIFIED true
    (PL.Init 0 false false (mkPageList [] false))
  = mkPageList [mkpage 0 150 false true] false.
Proof. reflexivity. Qed.

(** Truncation: the tail is dropped and the shrunk flag is set. *)
Example scenario_truncation :
  PL.Resize 400 false true (PL.Init 1000 true false (mkPageList [] false))
  = mkPageList [mkpage 0 400 true false] true.
Proof. reflexivity. Qed.

(** The planner on a modified MiB in the middle of 20 MiB, with MIN =
    5 MiB and MAX = 10 MiB: the 9 MiB that follow are downloaded and
    joined to the modified area. *)
Example scenario_planner :
  snd (GetPageListsForMultipartUpload (5 * 1048576) (10 * 1048576)
         (PL.SetPageLoadedStatus (10 * 1048576) 1048576 MODIFIED true
            (PL.Init (20 * 1048576) true false (mkPageList [] false))))
  = Some ([mkpage (11 * 1048576) (9 * 1048576) false false],
          [mkpage 0 (10 * 1048576) false false;
           mkpage (10 * 1048576) (10 * 1048576) false true]).
Proof. vm_compute. reflexivity. Qed.

(** A hole inside a page that is claimed loaded is reported as it is. *)
Example scenario_hole_inside_page :
  CheckAreaInSparseFile (mkpage 0 16384 true false)
    [mkpage 0 4096 true false; mkpage 4096 4096 false false;
     mkpage 8192 8192 true false]
    half_hole_file [] []
  = Some (mkcmp false [mkpage 4096 4096 false false] []).
Proof. reflexivity. Qed.

(* ================================================================== *)
(** * Further properties of the page list *)
(* ================================================================== *)

(** ** Compress *)

Lemma no_equal_neighbours_cons p q l :
  no_equal_neighbours (p :: q :: l)
  = negb (Bool.eqb (loaded p) (loaded q)
          && Bool.eqb (modified p) (modified q))
    && no_equal_neighbours (q :: l).
Proof. reflexivity. Qed.

Lemma compress_from_no_equal rest : forall lastpage hi,
  chain_end (next lastpage) rest = Some hi ->
  no_equal_neighbours (PL.compress_from lastpage rest) = true.
Proof.
  induction rest as [|cur rest IH]; intros lastpage hi H; [reflexivity|].
  apply chain_end_cons in H. destruct H as (H1 & H2 & H3).
  rewrite (compress_from_next lastpage cur rest) by congruence.
  destruct (Bool.eqb (loaded lastpage) (loaded cur)
            && Bool.eqb (modified lastpage) (modified cur)) eqn:Ef.
  - apply (IH _ hi). unfold next in *. cbn [set_bytes offset bytes].
    rewrite <- H3. f_equal. lia.
  - pose proof (IH cur hi H3) as IHc.
    destruct (compress_from_head rest cur) as (hd & tl & E & Ho & Hl & Hm).
    rewrite E in *. rewrite no_equal_neighbours_cons.
    rewrite Hl, Hm, Ef. cbn [negb andb]. exact IHc.
Qed.

Lemma compress_pages_no_equal l :
  WF l -> no_equal_neighbours (PL.compress_pages l) = true.
Proof.
  intros [[hi H]|(a & b & ->)]; [|reflexivity].
  destruct l as [|p ps]; [reflexivity|].
  apply chain_end_cons in H. destruct H as (H1 & H2 & H3).
  apply (compress_from_no_equal ps p hi H3).
Qed.

(** X1.  On a page list that satisfies the invariants, Compress gives a
    list that satisfies them too, in which no two neighbours have the same
    flags; the size and the flags of every byte are what they were, the
    shrunk flag is untouched, and a second Compress changes nothing. *)
Theorem X1_compress_canonical :
  forall pl : PageList,
    wf_pages (pages pl) = true ->
    wf_pages (pages (PL.Compress pl)) = true /\
    no_equal_neighbours (pages (PL.Compress pl)) = true /\
    PL.Size (PL.Compress pl) = PL.Size pl /\
    (forall pos, flags_at pos (pages (PL.Compress pl))
                 = flags_at pos (pages pl)) /\
    is_shrink (PL.Compress pl) = is_shrink pl /\
    PL.Compress (PL.Compress pl) = PL.Compress pl.
Proof.
  intros pl HW. apply wf_pages_WF in HW. unfold PL.Compress, PL.Size.
  cbn [pages is_shrink]. repeat split.
  - apply wf_pages_WF, WF_compress, HW.
  - apply compress_pages_no_equal, HW.
  - apply size_of_compress, HW.
  - intros pos. apply flags_at_compress, HW.
  - rewrite compress_pages_idem by exact HW. reflexivity.
Qed.

Lemma X1_compress_canonical_witness :
  pages (PL.Compress
           (mkPageList [mkpage 0 10 true false; mkpage 10 5 true false;
                        mkpage 15 5 false true; mkpage 20 1 false true]
                       true))
  = [mkpage 0 15 true false; mkpage 15 6 false true] /\
  PL.Size (PL.Compress
             (mkPageList [mkpage 0 10 true false; mkpage 10 5 true false;
                          mkpage 15 5 false true; mkpage 20 1 false true]
                         true)) = 21.
Proof.
  split; [reflexivity|].
  rewrite (proj1 (proj2 (proj2 (X1_compress_canonical
             (mkPageList [mkpage 0 10 true false; mkpage 10 5 true false;
                          mkpage 15 5 false true; mkpage 20 1 false true]
                         true) eq_refl)))).
  reflexivity.
Defined.

(** ** The list helper and the method agree *)

Lemma raw_compress_fold_plain l : forall done lastpage hi,
  chain_end (next lastpage) l = Some hi ->
  compressed_list
    (fold_left (raw_compress_step false false false false) l
               (Some (done, lastpage)))
  = done ++ PL.compress_from lastpage l.
Proof.
  induction l as [|p ps IH]; intros done lastpage hi H; [reflexivity|].
  apply chain_end_cons in H. destruct H as (H1 & H2 & H3).
  cbn [fold_left]. rewrite (compress_from_next lastpage p ps) by congruence.
  unfold raw_compress_step.
  assert ((bytes p =? 0) = false) as -> by (apply Z.eqb_neq; lia).
  assert ((next lastpage =? offset p) = true) as ->
      by (apply Z.eqb_eq; congruence).
  cbn [negb andb].
  unfold raw_add_compress_fdpage_list.
  assert ((0 <? bytes p) = true) as -> by (apply Z.ltb_lt; exact H2).
  replace (mkpage (offset p) (bytes p) (loaded p) (modified p)) with p
    by (destruct p; reflexivity).
  destruct (Bool.eqb (loaded lastpage) (loaded p));
    destruct (Bool.eqb (modified lastpage) (modified p));
    cbn [negb andb orb compressed_list].
  - rewrite (IH done _ hi); [reflexivity|].
    unfold next in *. cbn [set_bytes offset bytes]. rewrite <- H3.
    f_equal. lia.
  - rewrite (IH _ p hi H3). rewrite <- app_assoc. reflexivity.
  - rewrite (IH _ p hi H3). rewrite <- app_assoc. reflexivity.
  - rewrite (IH _ p hi H3). rewrite <- app_assoc. reflexivity.
Qed.

(** X2.  On a partition (pages with bytes that follow one another), the
    helper compress_fdpage_list, which builds a new list, gives the list
    that the method Compress leaves in place. *)
Theorem X2_compress_fdpage_list_is_compress :
  forall (l : list fdpage) (lo hi : Z),
    is_partition lo hi l ->
    compress_fdpage_list l = PL.compress_pages l.
Proof.
  intros l lo hi H. unfold is_partition in H.
  destruct l as [|p ps]; [reflexivity|].
  apply chain_end_cons in H. destruct H as (H1 & H2 & H3).
  unfold compress_fdpage_list, raw_compress_fdpage_list.
  cbn [fold_left PL.compress_pages]. unfold raw_compress_step at 2.
  assert ((bytes p =? 0) = false) as -> by (apply Z.eqb_neq; lia).
  unfold raw_add_compress_fdpage_list.
  assert ((0 <? bytes p) = true) as -> by (apply Z.ltb_lt; exact H2).
  replace (mkpage (offset p) (bytes p) (loaded p) (modified p)) with p
    by (destruct p; reflexivity).
  cbn [compressed_list]. apply (raw_compress_fold_plain ps [] p hi H3).
Qed.

Lemma X2_compress_fdpage_list_is_compress_witness :
  compress_fdpage_list
    [mkpage 4 10 true false; mkpage 14 5 true false; mkpage 19 5 false true]
  = [mkpage 4 15 true false; mkpage 19 5 false true].
Proof.
  rewrite (X2_compress_fdpage_list_is_compress
             [mkpage 4 10 true false; mkpage 14 5 true false;
              mkpage 19 5 false true] 4 24); reflexivity.
Defined.

(** ** Parse *)

Lemma parse_pages_found new_pos l : forall lo hi,
  chain_end lo l = Some hi ->
  (PL.parse_pages new_pos l <> None <-> lo <= new_pos < hi).
Proof.
  induction l as [|p ps IH]; intros lo hi H.
  - simpl in H. injection H as <-. simpl. split; [congruence|lia].
  - pose proof (chain_end_lt _ _ _ _ H) as Hlt.
    apply chain_end_cons in H. destruct H as (H1 & H2 & H3).
    pose proof (chain_end_le _ _ _ H3) as Hle.
    specialize (IH _ _ H3).
    cbn [PL.parse_pages]. unfold next in *.
    destruct (Z.eqb_spec new_pos (offset p)) as [E|E].
    { split; [intros _; lia|discriminate]. }
    destruct ((offset p <? new_pos) && (new_pos <? offset p + bytes p))
      eqn:Ein.
    { apply andb_true_iff in Ein. destruct Ein as [E1 E2].
      apply Z.ltb_lt in E1, E2. split; [intros _; lia|discriminate]. }
    assert (~ (offset p < new_pos < offset p + bytes p)) as Hout.
    { intros [X1 X2]. apply Z.ltb_lt in X1, X2. rewrite X1, X2 in Ein.
      discriminate. }
    split.
    + intros X.
      assert (PL.parse_pages new_pos ps <> None) as Y.
      { intros Y. apply X. rewrite Y. reflexivity. }
      apply IH in Y. lia.
    + intros X. assert (offset p + bytes p <= new_pos < hi) as Y by lia.
      apply IH in Y. destruct (PL.parse_pages new_pos ps); [|congruence].
      discriminate.
Qed.

Lemma parse_pages_flags new_pos l : forall l' pos,
  PL.parse_pages new_pos l = Some l' -> flags_at pos l' = flags_at pos l.
Proof.
  induction l as [|p ps IH]; intros l' pos H; [discriminate|].
  cbn [PL.parse_pages] in H. destruct (new_pos =? offset p).
  - injection H as <-. reflexivity.
  - destruct (Z.ltb_spec (offset p) new_pos) as [E1|E1];
      destruct (Z.ltb_spec new_pos (next p)) as [E2|E2]; cbn [andb] in H;
      try (destruct (PL.parse_pages new_pos ps) as [l2|] eqn:E;
           [|discriminate]; cbn [option_map] in H; injection H as <-;
           cbn [flags_at]; rewrite (IH l2 pos eq_refl); reflexivity).
    injection H as <-. cbn [flags_at]. unfold next in *.
    cbn [offset bytes loaded modified]. zbool.
Qed.

Lemma parse_pages_boundary new_pos l : forall l',
  PL.parse_pages new_pos l = Some l' ->
  exists p, In p l' /\ offset p = new_pos.
Proof.
  induction l as [|p ps IH]; intros l' H; [discriminate|].
  cbn [PL.parse_pages] in H. destruct (Z.eqb_spec new_pos (offset p)).
  - injection H as <-. exists p. split; [left; reflexivity|congruence].
  - destruct ((offset p <? new_pos) && (new_pos <? next p)).
    + injection H as <-. eexists. split; [right; left; reflexivity|].
      reflexivity.
    + destruct (PL.parse_pages new_pos ps) as [l2|]; [|discriminate].
      cbn [option_map] in H. injection H as <-.
      destruct (IH l2 eq_refl) as (q & Hq & Ho).
      exists q. split; [right; exact Hq|exact Ho].
Qed.

Lemma parse_pages_again new_pos l : forall l',
  PL.parse_pages new_pos l = Some l' ->
  PL.parse_pages new_pos l' = Some l'.
Proof.
  induction l as [|p ps IH]; intros l' H; [discriminate|].
  cbn [PL.parse_pages] in H.
  destruct (Z.eqb_spec new_pos (offset p)) as [E|E].
  - injection H as <-. cbn [PL.parse_pages]. rewrite E, Z.eqb_refl.
    reflexivity.
  - destruct ((offset p <? new_pos) && (new_pos <? next p)) eqn:Ein.
    + injection H as <-. apply andb_true_iff in Ein. destruct Ein as [E1 E2].
      apply Z.ltb_lt in E1, E2. cbn [PL.parse_pages offset bytes].
      unfold next. cbn [offset bytes].
      assert ((new_pos =? offset p) = false) as -> by (apply Z.eqb_neq; lia).
      assert ((new_pos <? offset p + (new_pos - offset p)) = false) as ->
          by (apply Z.ltb_ge; lia).
      rewrite andb_false_r, Z.eqb_refl. reflexivity.
    + destruct (PL.parse_pages new_pos ps) as [l2|] eqn:E2; [|discriminate].
      cbn [option_map] in H. injection H as <-. cbn [PL.parse_pages].
      assert ((new_pos =? offset p) = false) as -> by (apply Z.eqb_neq; lia).
      rewrite Ein, (IH l2 eq_refl). reflexivity.
Qed.

(** X3.  On a partition of [0, hi), Parse(pos) returns true exactly when
    0 <= pos < hi (so it returns false for pos = Size()); whatever it
    returns, the list is still a partition of [0, hi), every byte has the
    flags it had, and the shrunk flag is untouched; when it returns true a
    page starts at pos, and a second Parse(pos) changes nothing more. *)
Theorem X3_parse_splits_at_position :
  forall (pl : PageList) (new_pos hi : Z),
    is_partition 0 hi (pages pl) ->
    (fst (PL.Parse new_pos pl) = true <-> 0 <= new_pos < hi) /\
    is_partition 0 hi (pages (snd (PL.Parse new_pos pl))) /\
    (forall pos, flags_at pos (pages (snd (PL.Parse new_pos pl)))
                 = flags_at pos (pages pl)) /\
    is_shrink (snd (PL.Parse new_pos pl)) = is_shrink pl /\
    (fst (PL.Parse new_pos pl) = true ->
     exists p, In p (pages (snd (PL.Parse new_pos pl)))
               /\ offset p = new_pos) /\
    snd (PL.Parse new_pos (snd (PL.Parse new_pos pl)))
    = snd (PL.Parse new_pos pl).
Proof.
  intros pl new_pos hi H. unfold is_partition in *.
  pose proof (parse_pages_found new_pos (pages pl) 0 hi H) as Hf.
  unfold PL.Parse.
  destruct (PL.parse_pages new_pos (pages pl)) as [l'|] eqn:E;
    cbn [fst snd pages is_shrink].
  - split; [|split; [|split; [|split; [|split]]]].
    + split; [intros _; apply Hf; discriminate|reflexivity].
    + eapply parse_pages_chain; eassumption.
    + intros pos. eapply parse_pages_flags; eassumption.
    + reflexivity.
    + intros _. eapply parse_pages_boundary; eassumption.
    + rewrite (parse_pages_again _ _ _ E). reflexivity.
  - split; [|split; [|split; [|split; [|split]]]].
    + split; [discriminate|]. intros X. apply Hf in X. congruence.
    + exact H.
    + reflexivity.
    + reflexivity.
    + discriminate.
    + rewrite E. reflexivity.
Qed.

Lemma X3_parse_splits_at_position_witness :
  PL.Parse 30 (mkPageList [mkpage 0 100 true false; mkpage 100 20 false true]
                          false)
  = (true, mkPageList [mkpage 0 30 true false; mkpage 30 70 true false;
                       mkpage 100 20 false true] false) /\
  (fst (PL.Parse 120
          (mkPageList [mkpage 0 100 true false; mkpage 100 20 false true]
                      false)) = true <-> 0 <= 120 < 120).
Proof.
  split; [reflexivity|].
  apply (X3_parse_splits_at_position
           (mkPageList [mkpage 0 100 true false; mkpage 100 20 false true]
                       false) 120 120).
  reflexivity.
Defined.

(** ** Resize *)

Lemma flags_at_cut size l : forall lo hi pos,
  chain_end lo l = Some hi ->
  flags_at pos (PL.cut_pages size l)
  = if pos <? size then flags_at pos l else None.
Proof.
  induction l as [|p ps IH]; intros lo hi pos H.
  - simpl. destruct (pos <? size); reflexivity.
  - apply chain_end_cons in H. destruct H as (H1 & H2 & H3).
    pose proof (chain_end_le _ _ _ H3) as Hle.
    cbn [PL.cut_pages]. destruct (Z.leb_spec (next p) size) as [E1|E1].
    + cbn [flags_at]. rewrite (IH _ _ pos H3). unfold next in *. zbool.
    + destruct (Z.leb_spec size (offset p)) as [E2|E2].
      * rewrite (cut_pages_nil size ps _ _ H3) by (unfold next; lia).
        cbn [flags_at].
        destruct (Z.ltb_spec pos size) as [E3|E3]; [|reflexivity].
        assert ((offset p <=? pos) = false) as -> by (apply Z.leb_gt; lia).
        cbn [andb]. symmetry. eapply flags_at_below; [exact H3|].
        unfold next. lia.
      * rewrite (cut_pages_nil size ps _ _ H3) by lia.
        cbn [flags_at]. unfold next in *.
        cbn [set_bytes offset bytes loaded modified].
        destruct (Z.ltb_spec pos size) as [E3|E3].
        -- destruct (Z.leb_spec (offset p) pos) as [E4|E4]; cbn [andb].
           ++ assert ((pos <? offset p + (size - offset p)) = true) as ->
                  by (apply Z.ltb_lt; lia).
              assert ((pos <? offset p + bytes p) = true) as ->
                  by (apply Z.ltb_lt; lia).
              reflexivity.
           ++ symmetry. eapply flags_at_below; [exact H3|]. lia.
        -- assert ((pos <? offset p + (size - offset p)) = false) as ->
               by (apply Z.ltb_ge; lia).
           rewrite andb_false_r. reflexivity.
Qed.

(** What Resize does to the size, the flags of the bytes and the shrunk
    flag. *)
Lemma Resize_spec :
  forall (pl : PageList) (size : Z) (is_loaded is_modified : bool),
    wf_pages (pages pl) = true ->
    wf_pages (pages (PL.Resize size is_loaded is_modified pl)) = true /\
    PL.Size (PL.Resize size is_loaded is_modified pl) = Z.max 0 size /\
    (forall pos,
        flags_at pos (pages (PL.Resize size is_loaded is_modified pl))
        = if pos <? Z.min size (PL.Size pl) then flags_at pos (pages pl)
          else if pos <? size then Some (is_loaded, is_modified)
               else None) /\
    is_shrink (PL.Resize size is_loaded is_modified pl)
    = (is_shrink pl
       || (is_modified && negb (PL.Size pl =? 0) && (size <? PL.Size pl))).
Proof.
  intros pl size a b HW. apply wf_pages_WF in HW.
  pose proof (WF_size_nonneg _ HW) as Hnn. fold (PL.Size pl) in Hnn.
  split; [apply wf_pages_WF, WF_Resize, HW|].
  split; [|split].
  - destruct (Z.lt_ge_cases (PL.Size pl) size) as [Hlt|Hge].
    + destruct (Resize_grow pl size a b HW Hlt) as [Hc _].
      unfold PL.Size at 1. rewrite (size_of_chain _ _ Hc). lia.
    + unfold PL.Resize, PL.Compress, PL.Size in *. cbn [pages].
      rewrite size_of_compress.
      * destruct (Z.eqb_spec (PL.size_of (pages pl)) 0) as [E0|E0].
        -- unfold PL.Init. destruct (Z.leb_spec 0 size); cbn; [|lia].
           unfold next. cbn. lia.
        -- assert ((PL.size_of (pages pl) <? size) = false) as ->
               by (apply Z.ltb_ge; lia).
           pose proof (WF_size_nonzero _ HW E0) as Hc.
           destruct (Z.ltb_spec size (PL.size_of (pages pl))); cbn [pages];
             [|lia].
           rewrite (size_of_chain _ _ (cut_pages_chain size _ _ _ Hc)).
           zbool.
      * destruct (Z.eqb_spec (PL.size_of (pages pl)) 0) as [E0|E0];
          [apply WF_Init|].
        assert ((PL.size_of (pages pl) <? size) = false) as ->
            by (apply Z.ltb_ge; lia).
        destruct (Z.ltb_spec size (PL.size_of (pages pl))); cbn [pages];
          [|exact HW].
        left. eexists. apply cut_pages_chain.
        apply (WF_size_nonzero _ HW E0).
  - intros pos.
    destruct (Z.lt_ge_cases (PL.Size pl) size) as [Hlt|Hge].
    + destruct (Resize_grow pl size a b HW Hlt) as [_ Hf].
      rewrite Hf. rewrite Z.min_r by lia. reflexivity.
    + rewrite Z.min_l by lia.
      unfold PL.Resize, PL.Compress, PL.Size in *. cbn [pages].
      destruct (Z.eqb_spec (PL.size_of (pages pl)) 0) as [E0|E0].
      * rewrite flags_at_compress by apply WF_Init.
        unfold PL.Init. destruct (Z.leb_spec 0 size); cbn [pages PL.Clear].
        -- assert (size = 0) as -> by lia. cbn. unfold next. cbn.
           destruct (Z.ltb_spec pos 0) as [E|E]; [|zbool].
           rewrite WF_flags_outside by (auto; lia). zbool.
        -- cbn. destruct (Z.ltb_spec pos size) as [E|E]; [|reflexivity].
           symmetry. apply WF_flags_outside; [exact HW|lia].
      * assert ((PL.size_of (pages pl) <? size) = false) as ->
            by (apply Z.ltb_ge; lia).
        pose proof (WF_size_nonzero _ HW E0) as Hc.
        destruct (Z.ltb_spec size (PL.size_of (pages pl))) as [E1|E1];
          cbn [pages].
        -- rewrite flags_at_compress
             by (left; eexists; apply cut_pages_chain; exact Hc).
           rewrite (flags_at_cut size _ _ _ pos Hc).
           destruct (pos <? size); reflexivity.
        -- rewrite flags_at_compress by exact HW.
           destruct (Z.ltb_spec pos size) as [E|E]; [reflexivity|].
           apply WF_flags_outside; [exact HW|lia].
  - unfold PL.Resize, PL.Compress. cbn [is_shrink].
    destruct (Z.eqb_spec (PL.Size pl) 0) as [E0|E0]; cbn [is_shrink negb].
    + rewrite andb_false_r, orb_false_r. reflexivity.
    + destruct (Z.ltb_spec (PL.Size pl) size) as [E1|E1]; cbn [is_shrink].
      * assert ((size <? PL.Size pl) = false) as -> by (apply Z.ltb_ge; lia).
        rewrite !andb_false_r, orb_false_r. reflexivity.
      * destruct (size <? PL.Size pl); cbn [is_shrink];
          destruct b, (is_shrink pl); reflexivity.
Qed.

(** X4.  On a page list that satisfies the invariants, Resize(size, l, m)
    leaves a list of size max(0, size) that satisfies them; the bytes
    below both the old and the new size keep their flags, the bytes added
    get (l, m); and the shrunk flag is set when the list had bytes, lost
    some and m was passed true (otherwise it is what it was). *)
Theorem X4_resize :
  forall (pl : PageList) (size : Z) (is_loaded is_modified : bool),
    wf_pages (pages pl) = true ->
    wf_pages (pages (PL.Resize size is_loaded is_modified pl)) = true /\
    PL.Size (PL.Resize size is_loaded is_modified pl) = Z.max 0 size /\
    (forall pos,
        flags_at pos (pages (PL.Resize size is_loaded is_modified pl))
        = if pos <? Z.min size (PL.Size pl) then flags_at pos (pages pl)
          else if pos <? size then Some (is_loaded, is_modified)
               else None) /\
    is_shrink (PL.Resize size is_loaded is_modified pl)
    = (is_shrink pl
       || (is_modified && negb (PL.Size pl =? 0) && (size <? PL.Size pl))).
Proof.
  intros pl size is_loaded is_modified HW.
  exact (Resize_spec pl size is_loaded is_modified HW).
Qed.

Lemma X4_resize_witness :
  PL.Size (PL.Resize (-5) true true
             (mkPageList [mkpage 0 100 true false; mkpage 100 20 false true]
                         false)) = 0 /\
  is_shrink (PL.Resize (-5) true true
               (mkPageList [mkpage 0 100 true false;
                            mkpage 100 20 false true] false)) = true.
Proof.
  split.
  - rewrite (proj1 (proj2 (X4_resize
       (mkPageList [mkpage 0 100 true false; mkpage 100 20 false true] false)
       (-5) true true eq_refl))). reflexivity.
  - rewrite (proj2 (proj2 (proj2 (X4_resize
       (mkPageList [mkpage 0 100 true false; mkpage 100 20 false true] false)
       (-5) true true eq_refl)))). reflexivity.
Defined.

(** ** IsPageLoaded *)

Lemma is_page_loaded_loop_spec start size l : forall lo hi,
  chain_end lo l = Some hi -> 0 <= size ->
  size = 0 \/ lo < start + size ->
  (PL.is_page_loaded_loop start size l = true <->
   forall pos a b,
     start <= pos -> size = 0 \/ pos < start + size ->
     flags_at pos l = Some (a, b) -> a = true).
Proof.
  induction l as [|p ps IH]; intros lo hi H Hsz Hlo.
  - simpl. split; [discriminate|reflexivity].
  - apply chain_end_cons in H. destruct H as (H1 & H2 & H3).
    cbn [PL.is_page_loaded_loop]. unfold end_.
    assert ((0 <? bytes p) = true) as -> by (apply Z.ltb_lt; exact H2).
    destruct (Z.ltb_spec (offset p + bytes p - 1) start) as [E1|E1].
    { (* the page ends before the range *)
      rewrite (IH _ _ H3 Hsz) by (unfold next; lia).
      split; intros X pos a b Hs Hr Hf.
      - cbn [flags_at] in Hf. unfold next in Hf.
        assert ((pos <? offset p + bytes p) = false) as E
            by (apply Z.ltb_ge; lia).
        rewrite E, andb_false_r in Hf. eapply X; eassumption.
      - apply (X pos a b Hs Hr). cbn [flags_at]. unfold next.
        assert ((pos <? offset p + bytes p) = false) as ->
            by (apply Z.ltb_ge; lia).
        rewrite andb_false_r. exact Hf. }
    destruct (loaded p) eqn:El; cbn [negb].
    2:{ (* a byte of the range lies in a page that is not loaded *)
      split; [discriminate|]. intros X.
      assert (false = true) as F; [|discriminate F].
      apply (X (Z.max (offset p) start) false (modified p)); [lia|lia|].
      cbn [flags_at]. unfold next. rewrite El.
      assert ((offset p <=? Z.max (offset p) start) = true) as ->
          by (apply Z.leb_le; lia).
      assert ((Z.max (offset p) start <? offset p + bytes p) = true) as ->
          by (apply Z.ltb_lt; lia).
      reflexivity. }
    destruct (Z.eqb_spec size 0) as [E0|E0]; cbn [negb andb].
    { (* to the end of the list *)
      rewrite (IH _ _ H3 Hsz) by (left; exact E0).
      split; intros X pos a b Hs Hr Hf.
      - cbn [flags_at] in Hf.
        destruct ((offset p <=? pos) && (pos <? next p));
          [injection Hf as <- _; exact El|]. eapply X; eassumption.
      - apply (X pos a b Hs Hr). cbn [flags_at]. unfold next.
        assert ((pos <? offset p + bytes p) = false) as ->.
        { apply Z.ltb_ge.
          destruct (Z.lt_ge_cases pos (offset p + bytes p)) as [Y|Y];
            [|exact Y].
          rewrite (flags_at_below _ _ _ pos H3) in Hf
            by (unfold next; exact Y). discriminate. }
        rewrite andb_false_r. exact Hf. }
    destruct (Z.leb_spec (start + size) (next p)) as [E2|E2].
    { (* the range ends in this page *)
      split; [|reflexivity]. intros _ pos a b Hs Hr Hf.
      cbn [flags_at] in Hf. unfold next in *.
      destruct (Z.leb_spec (offset p) pos) as [E3|E3]; cbn [andb] in Hf.
      - assert ((pos <? offset p + bytes p) = true) as E
            by (apply Z.ltb_lt; lia).
        rewrite E in Hf. injection Hf as <- _. exact El.
      - rewrite (flags_at_below _ _ _ pos H3) in Hf by (unfold next; lia).
        discriminate. }
    rewrite (IH _ _ H3 Hsz) by (right; exact E2).
    split; intros X pos a b Hs Hr Hf.
    + cbn [flags_at] in Hf.
      destruct ((offset p <=? pos) && (pos <? next p));
        [injection Hf as <- _; exact El|]. eapply X; eassumption.
    + apply (X pos a b Hs Hr). cbn [flags_at]. unfold next.
      assert ((pos <? offset p + bytes p) = false) as ->.
      { apply Z.ltb_ge.
        destruct (Z.lt_ge_cases pos (offset p + bytes p)) as [Y|Y];
          [|exact Y].
        rewrite (flags_at_below _ _ _ pos H3) in Hf
          by (unfold next; exact Y). discriminate. }
      rewrite andb_false_r. exact Hf.
Qed.

(** X5.  On a partition of [0, hi), with 0 <= start, 0 <= size and
    start + size below 2^63 (the sum is an off_t),
    IsPageLoaded(start, size) is true exactly when every byte of the list
    from start on, and before start + size unless size is 0 (0 meaning
    "to the end of the list"), lies in a loaded page.  A range beyond the
    end of the list holds no such byte, so the answer is true there. *)
Theorem X5_is_page_loaded :
  forall (pl : PageList) (start size hi : Z),
    is_partition 0 hi (pages pl) -> 0 <= start -> 0 <= size ->
    start + size < 2 ^ 63 ->
    (PL.IsPageLoaded start size pl = true <->
     forall pos a b,
       start <= pos -> size = 0 \/ pos < start + size ->
       flags_at pos (pages pl) = Some (a, b) -> a = true).
Proof.
  intros pl start size hi H Hs Hsz _. unfold PL.IsPageLoaded.
  apply (is_page_loaded_loop_spec start size (pages pl) 0 hi H Hsz). lia.
Qed.

Lemma X5_is_page_loaded_witness :
  PL.IsPageLoaded 10 20
    (mkPageList [mkpage 0 50 true false; mkpage 50 50 false false] false)
  = true.
Proof.
  apply (X5_is_page_loaded
           (mkPageList [mkpage 0 50 true false; mkpage 50 50 false false]
                       false) 10 20 100); [reflexivity | lia | lia | lia |].
  intros pos a b Hs [Hr|Hr] Hf; [discriminate|].
  cbn in Hf. unfold next in Hf. cbn in Hf.
  destruct (Z.leb_spec 0 pos); destruct (Z.ltb_spec pos 50);
    cbn in Hf; try lia. congruence.
Defined.

(** ** FindUnloadedPage *)

Lemma chain_flags_in_page lo hi l p pos :
  chain_end lo l = Some hi -> In p l ->
  offset p <= pos < next p ->
  flags_at pos l = Some (loaded p, modified p).
Proof.
  revert lo. induction l as [|q qs IH]; intros lo H Hin Hpos;
    [contradiction|].
  apply chain_end_cons in H. destruct H as (H1 & H2 & H3).
  cbn [flags_at]. destruct Hin as [->|Hin].
  - assert ((offset p <=? pos) = true) as -> by (apply Z.leb_le; lia).
    assert ((pos <? next p) = true) as -> by (apply Z.ltb_lt; lia).
    reflexivity.
  - assert (next q <= offset p) as Hq.
    { clear IH Hpos. revert H3 Hin. generalize (next q).
      induction qs as [|r rs IHr]; intros z H3 Hin; [contradiction|].
      apply chain_end_cons in H3. destruct H3 as (R1 & R2 & R3).
      destruct Hin as [->|Hin]; [lia|].
      specialize (IHr _ R3 Hin). unfold next in IHr. lia. }
    assert ((pos <? next q) = false) as -> by (apply Z.ltb_ge; lia).
    rewrite andb_false_r. eapply IH; eassumption.
Qed.

Lemma find_unloaded_loop_spec start l : forall lo hi,
  chain_end lo l = Some hi ->
  match PL.find_unloaded_loop start l with
  | Some (resstart, ressize) =>
      In (mkpage resstart ressize false false) l /\
      start < resstart + ressize /\
      (forall pos, start <= pos < resstart -> unloaded_at pos l = false)
  | None => forall pos, start <= pos -> unloaded_at pos l = false
  end.
Proof.
  induction l as [|p ps IH]; intros lo hi H.
  - simpl. intros pos _. reflexivity.
  - apply chain_end_cons in H. destruct H as (H1 & H2 & H3).
    specialize (IH _ _ H3). cbn [PL.find_unloaded_loop]. unfold end_.
    assert ((0 <? bytes p) = true) as -> by (apply Z.ltb_lt; exact H2).
    destruct (Z.leb_spec start (offset p + bytes p - 1)) as [E1|E1];
      cbn [andb].
    + destruct (loaded p) eqn:El; [|destruct (modified p) eqn:Em];
        cbn [negb andb].
      * (* a loaded page: look further *)
        destruct (PL.find_unloaded_loop start ps) as [[rs sz]|].
        -- destruct IH as (I1 & I2 & I3).
           split; [right; exact I1|split; [exact I2|]].
           intros pos Hpos. unfold unloaded_at. cbn [flags_at]. rewrite El.
           destruct ((offset p <=? pos) && (pos <? next p)); [reflexivity|].
           apply I3. exact Hpos.
        -- intros pos Hpos. unfold unloaded_at. cbn [flags_at]. rewrite El.
           destruct ((offset p <=? pos) && (pos <? next p)); [reflexivity|].
           apply IH. exact Hpos.
      * (* a modified page: look further *)
        destruct (PL.find_unloaded_loop start ps) as [[rs sz]|].
        -- destruct IH as (I1 & I2 & I3).
           split; [right; exact I1|split; [exact I2|]].
           intros pos Hpos. unfold unloaded_at. cbn [flags_at].
           rewrite El, Em.
           destruct ((offset p <=? pos) && (pos <? next p)); [reflexivity|].
           apply I3. exact Hpos.
        -- intros pos Hpos. unfold unloaded_at. cbn [flags_at].
           rewrite El, Em.
           destruct ((offset p <=? pos) && (pos <? next p)); [reflexivity|].
           apply IH. exact Hpos.
      * (* found *)
        split; [|split].
        -- left. destruct p; cbn in *; subst; reflexivity.
        -- lia.
        -- intros pos Hpos. unfold unloaded_at. cbn [flags_at].
           assert ((offset p <=? pos) = false) as ->
               by (apply Z.leb_gt; lia).
           cbn [andb].
           rewrite (flags_at_below _ _ _ pos H3) by (unfold next; lia).
           reflexivity.
    + (* the page ends before start *)
      assert (forall pos, start <= pos ->
                unloaded_at pos (p :: ps) = unloaded_at pos ps) as Hskip.
      { intros pos Hpos. unfold unloaded_at. cbn [flags_at]. unfold next.
        assert ((pos <? offset p + bytes p) = false) as ->
            by (apply Z.ltb_ge; lia).
        rewrite andb_false_r. reflexivity. }
      destruct (PL.find_unloaded_loop start ps) as [[rs sz]|].
      * destruct IH as (I1 & I2 & I3).
           split; [right; exact I1|split; [exact I2|]].
        intros pos Hpos. rewrite Hskip by lia. apply I3. exact Hpos.
      * intros pos Hpos. rewrite Hskip by lia. apply IH. exact Hpos.
Qed.

(** X6.  On a partition of [0, hi), FindUnloadedPage(start) answers with
    the first page that ends after start and is neither loaded nor
    modified: the page it names is a page of the list with both flags
    false and with a byte at or after start, and no byte between start
    and that page is unloaded-and-unmodified.  When it answers false, no
    byte from start on is unloaded-and-unmodified. *)
Theorem X6_find_unloaded_page :
  forall (pl : PageList) (start hi : Z),
    is_partition 0 hi (pages pl) ->
    match PL.FindUnloadedPage start pl with
    | Some (resstart, ressize) =>
        In (mkpage resstart ressize false false) (pages pl) /\
        start < resstart + ressize /\
        (forall pos, start <= pos < resstart ->
                     unloaded_at pos (pages pl) = false)
    | None =>
        forall pos, start <= pos -> unloaded_at pos (pages pl) = false
    end.
Proof.
  intros pl start hi H. unfold PL.FindUnloadedPage.
  apply (find_unloaded_loop_spec start (pages pl) 0 hi H).
Qed.

Lemma X6_find_unloaded_page_witness :
  PL.FindUnloadedPage 60
    (mkPageList [mkpage 0 50 false false; mkpage 50 20 true false;
                 mkpage 70 10 false true; mkpage 80 20 false false] false)
  = Some (80, 20) /\
  unloaded_at 75
    [mkpage 0 50 false false; mkpage 50 20 true false;
     mkpage 70 10 false true; mkpage 80 20 false false] = false.
Proof.
  split; [reflexivity|].
  pose proof (X6_find_unloaded_page
                (mkPageList [mkpage 0 50 false false; mkpage 50 20 true false;
                             mkpage 70 10 false true;
                             mkpage 80 20 false false] false)
                60 100 eq_refl) as H.
  cbn [PL.FindUnloadedPage PL.find_unloaded_loop pages] in H.
  cbv [end_ offset bytes loaded modified] in H. cbn in H.
  destruct H as (_ & _ & H). apply H. lia.
Defined.

(** ** GetUnloadedPages *)

Lemma total_bytes_app l1 l2 :
  total_bytes (l1 ++ l2) = total_bytes l1 + total_bytes l2.
Proof.
  induction l1 as [|p ps IH]; simpl; [reflexivity|].
  unfold total_bytes in *. simpl. rewrite IH. lia.
Qed.

Lemma add_unloaded_cases unloaded_list page_start page_size :
  PL.add_unloaded unloaded_list page_start page_size
  = unloaded_list ++ [mkpage page_start page_size false false] \/
  exists before lastpage,
    unloaded_list = before ++ [lastpage] /\
    next lastpage = page_start /\
    PL.add_unloaded unloaded_list page_start page_size
    = before ++ [set_bytes lastpage (bytes lastpage + page_size)].
Proof.
  unfold PL.add_unloaded.
  destruct (rev unloaded_list) as [|lastpage before] eqn:E; [left; auto|].
  destruct (Z.eqb_spec (next lastpage) page_start) as [En|En]; [|left; auto].
  right. exists (rev before), lastpage. split; [|split; auto].
  rewrite <- (rev_involutive unloaded_list), E. reflexivity.
Qed.

Lemma total_bytes_add_unloaded unloaded_list page_start page_size :
  total_bytes (PL.add_unloaded unloaded_list page_start page_size)
  = total_bytes unloaded_list + page_size.
Proof.
  destruct (add_unloaded_cases unloaded_list page_start page_size)
    as [->|(before & lastpage & -> & _ & ->)];
    rewrite !total_bytes_app; unfold total_bytes; simpl; lia.
Qed.

Lemma get_unloaded_loop_total start next_ l : forall unloaded_list,
  total_bytes (PL.get_unloaded_loop start next_ unloaded_list l)
  = PL.total_unloaded_loop start next_ 0 (total_bytes unloaded_list) l.
Proof.
  induction l as [|p ps IH]; intros unloaded_list; [reflexivity|].
  cbn [PL.get_unloaded_loop PL.total_unloaded_loop].
  destruct (next p <=? start); [apply IH|].
  destruct (next_ <=? offset p); [reflexivity|].
  destruct (loaded p || modified p); [apply IH|].
  rewrite IH, total_bytes_add_unloaded. cbn [Z.eqb orb]. f_equal. f_equal.
  zbool.
Qed.

Lemma flags_add_unloaded unloaded_list page_start page_size :
  Forall (fun p => loaded p = false /\ modified p = false) unloaded_list ->
  Forall (fun p => loaded p = false /\ modified p = false)
         (PL.add_unloaded unloaded_list page_start page_size).
Proof.
  intros H.
  destruct (add_unloaded_cases unloaded_list page_start page_size)
    as [->|(before & lastpage & -> & _ & ->)].
  - apply Forall_app. split; [exact H|]. repeat constructor.
  - apply Forall_app in H. destruct H as [H1 H2].
    apply Forall_app. split; [exact H1|].
    inversion H2; subst. repeat constructor; cbn; tauto.
Qed.

Lemma get_unloaded_loop_flags start next_ l : forall unloaded_list,
  Forall (fun p => loaded p = false /\ modified p = false) unloaded_list ->
  Forall (fun p => loaded p = false /\ modified p = false)
         (PL.get_unloaded_loop start next_ unloaded_list l).
Proof.
  induction l as [|p ps IH]; intros unloaded_list H; [exact H|].
  cbn [PL.get_unloaded_loop].
  destruct (next p <=? start); [apply IH, H|].
  destruct (next_ <=? offset p); [exact H|].
  destruct (loaded p || modified p); [apply IH, H|].
  apply IH, flags_add_unloaded, H.
Qed.

Lemma covered_app pos l1 l2 :
  covered pos (l1 ++ l2) = covered pos l1 || covered pos l2.
Proof. apply existsb_app. Qed.

Lemma covered_add_unloaded pos unloaded_list page_start page_size :
  Forall (fun p => 0 <= bytes p) unloaded_list -> 0 <= page_size ->
  Forall (fun p => 0 <= bytes p)
         (PL.add_unloaded unloaded_list page_start page_size) /\
  covered pos (PL.add_unloaded unloaded_list page_start page_size)
  = covered pos unloaded_list
    || ((page_start <=? pos) && (pos <? page_start + page_size)).
Proof.
  intros H Hsz.
  destruct (add_unloaded_cases unloaded_list page_start page_size)
    as [->|(before & lastpage & -> & Hn & ->)].
  - split.
    + apply Forall_app. split; [exact H|]. repeat constructor. exact Hsz.
    + rewrite covered_app. unfold covered at 2. cbn [existsb]. unfold next.
      cbn [offset bytes]. rewrite orb_false_r. reflexivity.
  - apply Forall_app in H. destruct H as [H1 H2].
    inversion H2 as [|? ? Hb _]; subst. split.
    + apply Forall_app. split; [exact H1|]. repeat constructor. cbn. lia.
    + rewrite !covered_app. unfold covered at 2 4. cbn [existsb].
      unfold next in *. cbn [set_bytes offset bytes].
      rewrite !orb_false_r, <- orb_assoc. f_equal. zbool.
Qed.

Lemma unloaded_at_cons lo hi p ps pos :
  chain_end lo (p :: ps) = Some hi ->
  unloaded_at pos (p :: ps)
  = if (offset p <=? pos) && (pos <? next p)
    then negb (loaded p || modified p)
    else unloaded_at pos ps.
Proof.
  intros _. unfold unloaded_at. cbn [flags_at].
  destruct ((offset p <=? pos) && (pos <? next p)); [|reflexivity].
  destruct (loaded p), (modified p); reflexivity.
Qed.

Lemma unloaded_at_below lo hi l pos :
  chain_end lo l = Some hi -> pos < lo -> unloaded_at pos l = false.
Proof.
  intros H Hlt. unfold unloaded_at.
  rewrite (flags_at_below _ _ _ _ H Hlt). reflexivity.
Qed.

Lemma get_unloaded_loop_covered start next_ pos l :
  forall lo hi unloaded_list,
    chain_end lo l = Some hi -> start <= next_ ->
    Forall (fun p => 0 <= bytes p) unloaded_list ->
    covered pos (PL.get_unloaded_loop start next_ unloaded_list l)
    = covered pos unloaded_list
      || ((start <=? pos) && (pos <? next_) && unloaded_at pos l).
Proof.
  induction l as [|p ps IH]; intros lo hi unloaded_list H Hr Hul.
  - cbn. rewrite andb_false_r, orb_false_r. reflexivity.
  - rewrite (unloaded_at_cons _ _ _ _ pos H).
    apply chain_end_cons in H. destruct H as (H1 & H2 & H3).
    pose proof (unloaded_at_below _ _ ps pos H3) as Hbelow.
    cbn [PL.get_unloaded_loop]. unfold next in *.
    destruct (Z.leb_spec (offset p + bytes p) start) as [E1|E1].
    { rewrite (IH _ _ _ H3 Hr Hul). f_equal.
      destruct (Z.leb_spec start pos); cbn [andb]; [|reflexivity].
      assert ((pos <? offset p + bytes p) = false) as ->
          by (apply Z.ltb_ge; lia).
      rewrite andb_false_r. reflexivity. }
    destruct (Z.leb_spec next_ (offset p)) as [E2|E2].
    { destruct (Z.leb_spec start pos); cbn [andb];
        [|rewrite orb_false_r; reflexivity].
      destruct (Z.ltb_spec pos next_); cbn [andb];
        [|rewrite orb_false_r; reflexivity].
      assert ((offset p <=? pos) = false) as -> by (apply Z.leb_gt; lia).
      cbn [andb]. rewrite Hbelow by lia. rewrite orb_false_r. reflexivity. }
    destruct (loaded p || modified p) eqn:Ef; cbn [negb].
    { rewrite (IH _ _ _ H3 Hr Hul). f_equal.
      destruct ((offset p <=? pos) && (pos <? offset p + bytes p)) eqn:Ein;
        [|reflexivity].
      apply andb_true_iff in Ein. destruct Ein as [_ Ein].
      apply Z.ltb_lt in Ein. rewrite Hbelow by lia.
      rewrite !andb_false_r. reflexivity. }
    destruct (covered_add_unloaded pos unloaded_list
                (Z.max (offset p) start)
                (Z.min (offset p + bytes p) next_ - Z.max (offset p) start)
                Hul) as [Hul' Hc]; [lia|].
    rewrite (IH _ _ _ H3 Hr Hul'), Hc, <- orb_assoc. f_equal.
    destruct (Z.leb_spec (offset p) pos) as [E3|E3];
      destruct (Z.ltb_spec pos (offset p + bytes p)) as [E4|E4];
      cbn [andb].
    + rewrite Hbelow by lia. rewrite !andb_false_r, orb_false_r.
      rewrite andb_true_r. zbool.
    + assert ((pos <? Z.max (offset p) start
                      + (Z.min (offset p + bytes p) next_
                         - Z.max (offset p) start)) = false) as ->
          by (apply Z.ltb_ge; lia).
      rewrite andb_false_r. reflexivity.
    + assert ((Z.max (offset p) start <=? pos) = false) as ->
          by (apply Z.leb_gt; lia).
      reflexivity.
    + lia.
Qed.

(** X7.  GetUnloadedPages, called with an empty output list, gives pages
    with both flags false whose lengths add up to what
    GetTotalUnloadedPageSize gives for the same range with limit 0, and
    their bytes are exactly the bytes of the range that lie in a page of
    the list that is neither loaded nor modified (size 0 standing for "to
    the end of the list"); this on a partition of [0, hi), for a size
    that is not negative and start + size below 2^63 (the sum is an
    off_t). *)
Theorem X7_get_unloaded_pages :
  forall (pl : PageList) (start size hi : Z),
    is_partition 0 hi (pages pl) -> 0 <= size -> start + size < 2 ^ 63 ->
    total_bytes (PL.GetUnloadedPages [] start size pl)
    = PL.GetTotalUnloadedPageSize start size 0 pl /\
    Forall (fun p => loaded p = false /\ modified p = false)
           (PL.GetUnloadedPages [] start size pl) /\
    (forall pos,
        covered pos (PL.GetUnloadedPages [] start size pl)
        = (start <=? pos) && (pos <? range_end start size (PL.Size pl))
          && unloaded_at pos (pages pl)).
Proof.
  intros pl start size hi H Hsz _.
  unfold PL.GetUnloadedPages, PL.GetTotalUnloadedPageSize.
  split; [apply get_unloaded_loop_total|].
  split; [apply get_unloaded_loop_flags; constructor|].
  intros pos.
  assert (start + (if size =? 0
                   then if start <? PL.Size pl
                        then PL.Size pl - start else size
                   else size)
          = range_end start size (PL.Size pl)) as ->.
  { unfold range_end. zbool. }
  rewrite (get_unloaded_loop_covered start _ pos (pages pl) 0 hi [] H).
  - reflexivity.
  - apply range_end_ordered. exact Hsz.
  - constructor.
Qed.

Lemma X7_get_unloaded_pages_witness :
  PL.GetUnloadedPages [] 10 0
    (mkPageList [mkpage 0 20 false false; mkpage 20 5 false false;
                 mkpage 25 5 true false; mkpage 30 10 false false] false)
  = [mkpage 10 15 false false; mkpage 30 10 false false] /\
  total_bytes
    (PL.GetUnloadedPages [] 10 0
       (mkPageList [mkpage 0 20 false false; mkpage 20 5 false false;
                    mkpage 25 5 true false; mkpage 30 10 false false] false))
  = 25.
Proof.
  split; [reflexivity|].
  rewrite (proj1 (X7_get_unloaded_pages
             (mkPageList [mkpage 0 20 false false; mkpage 20 5 false false;
                          mkpage 25 5 true false; mkpage 30 10 false false]
                         false) 10 0 40 eq_refl ltac:(lia) ltac:(lia))).
  reflexivity.
Defined.

(** ** BytesModified, IsModified and ClearAllModified *)

Lemma BytesModified_sum pl : PL.BytesModified pl = modified_bytes (pages pl).
Proof.
  unfold PL.BytesModified, modified_bytes.
  assert (forall l total,
             fold_left (fun t p => if modified p then t + bytes p else t)
                       l total
             = total + fold_right
                         (fun p acc => (if modified p then bytes p else 0)
                                       + acc) 0 l) as H.
  { induction l as [|p ps IH]; intros total; simpl; [lia|].
    rewrite IH. destruct (modified p); lia. }
  rewrite H. lia.
Qed.

Lemma modified_bytes_compress_from rest : forall lastpage hi,
  chain_end (next lastpage) rest = Some hi ->
  modified_bytes (PL.compress_from lastpage rest)
  = modified_bytes (lastpage :: rest).
Proof.
  induction rest as [|cur rest IH]; intros lastpage hi H; [reflexivity|].
  apply chain_end_cons in H. destruct H as (H1 & H2 & H3).
  rewrite (compress_from_next lastpage cur rest) by congruence.
  destruct (Bool.eqb (loaded lastpage) (loaded cur)) eqn:El;
    [destruct (Bool.eqb (modified lastpage) (modified cur)) eqn:Em|];
    cbn [andb].
  - rewrite (IH _ hi).
    + apply eqb_prop in Em. unfold modified_bytes. cbn. rewrite <- Em.
      destruct (modified lastpage); lia.
    + unfold next in *. cbn [set_bytes offset bytes]. rewrite <- H3.
      f_equal. lia.
  - unfold modified_bytes in *. cbn [fold_right]. rewrite (IH cur hi H3).
    reflexivity.
  - unfold modified_bytes in *. cbn [fold_right]. rewrite (IH cur hi H3).
    reflexivity.
Qed.

Lemma modified_bytes_bounds l : forall lo hi,
  chain_end lo l = Some hi -> 0 <= modified_bytes l <= hi - lo.
Proof.
  induction l as [|p ps IH]; intros lo hi H.
  - simpl in H. injection H as <-. unfold modified_bytes. simpl. lia.
  - apply chain_end_cons in H. destruct H as (H1 & H2 & H3).
    specialize (IH _ _ H3). unfold modified_bytes in *. cbn [fold_right].
    unfold next in IH. destruct (modified p); lia.
Qed.

Lemma modified_bytes_positive l : forall lo hi,
  chain_end lo l = Some hi ->
  existsb modified l = (0 <? modified_bytes l).
Proof.
  induction l as [|p ps IH]; intros lo hi H; [reflexivity|].
  apply chain_end_cons in H. destruct H as (H1 & H2 & H3).
  pose proof (modified_bytes_bounds _ _ _ H3) as Hb.
  specialize (IH _ _ H3). unfold modified_bytes in *.
  cbn [existsb fold_right]. rewrite IH.
  destruct (modified p); cbn [orb]; zbool.
Qed.

(** X8.  On a partition of [0, hi), BytesModified is between 0 and the
    size of the list, IsModified is true exactly when the shrunk flag is
    set or BytesModified is positive, and Compress changes neither
    answer. *)
Theorem X8_bytes_modified :
  forall (pl : PageList) (hi : Z),
    is_partition 0 hi (pages pl) ->
    0 <= PL.BytesModified pl <= PL.Size pl /\
    PL.IsModified pl = (is_shrink pl || (0 <? PL.BytesModified pl)) /\
    PL.BytesModified (PL.Compress pl) = PL.BytesModified pl /\
    PL.IsModified (PL.Compress pl) = PL.IsModified pl.
Proof.
  intros pl hi H. unfold is_partition in H.
  assert (modified_bytes (PL.compress_pages (pages pl))
          = modified_bytes (pages pl)) as Hc.
  { destruct (pages pl) as [|p ps]; [reflexivity|].
    apply chain_end_cons in H. destruct H as (H1 & H2 & H3).
    apply (modified_bytes_compress_from ps p hi H3). }
  rewrite !BytesModified_sum. unfold PL.IsModified, PL.Size, PL.Compress.
  cbn [pages is_shrink].
  rewrite (modified_bytes_positive _ _ _ H).
  rewrite (modified_bytes_positive _ _ _ (WF_chain_compress _ _ H)).
  rewrite Hc, (size_of_chain _ _ H).
  pose proof (modified_bytes_bounds _ _ _ H) as Hb.
  split; [lia|]. split; [|split; [reflexivity|]];
    destruct (is_shrink pl); reflexivity.
Qed.

Lemma X8_bytes_modified_witness :
  PL.BytesModified
    (mkPageList [mkpage 0 10 true false; mkpage 10 5 true true;
                 mkpage 15 5 false true] false) = 10 /\
  PL.IsModified
    (mkPageList [mkpage 0 10 true false; mkpage 10 5 true true;
                 mkpage 15 5 false true] false)
  = (false || (0 <? PL.BytesModified
                      (mkPageList [mkpage 0 10 true false;
                                   mkpage 10 5 true true;
                                   mkpage 15 5 false true] false))).
Proof.
  split; [reflexivity|].
  apply (X8_bytes_modified
           (mkPageList [mkpage 0 10 true false; mkpage 10 5 true true;
                        mkpage 15 5 false true] false) 20 eq_refl).
Defined.

Lemma flags_at_clear_modified pos l :
  flags_at pos
    (map (fun p => if modified p then set_flags p (loaded p) false else p) l)
  = option_map (fun f => (fst f, false)) (flags_at pos l).
Proof.
  induction l as [|p ps IH]; [reflexivity|].
  cbn [map flags_at]. rewrite IH.
  destruct (modified p) eqn:Em; unfold next; cbn [set_flags offset bytes];
    destruct ((offset p <=? pos) && (pos <? offset p + bytes p));
    cbn [option_map fst loaded modified]; try reflexivity.
  rewrite Em. reflexivity.
Qed.

Lemma compress_from_unmodified rest : forall lastpage,
  modified lastpage = false ->
  Forall (fun p => modified p = false) rest ->
  Forall (fun p => modified p = false) (PL.compress_from lastpage rest).
Proof.
  induction rest as [|cur rest IH]; intros lastpage Hl Hr.
  - repeat constructor. exact Hl.
  - inversion Hr as [|? ? Hc Hr']; subst. cbn [PL.compress_from].
    destruct (negb (next lastpage =? offset cur));
      [destruct (loaded lastpage || modified lastpage)|];
      match goal with
      | |- context [if ?c then _ else _] => destruct c
      end; cbn [app];
      repeat (constructor; [assumption|]);
      try (constructor; [reflexivity|]);
      apply IH; auto.
Qed.

Lemma clear_modified_ranges l :
  Forall2 (fun p q => offset p = offset q /\ bytes p = bytes q) l
          (map (fun p => if modified p then set_flags p (loaded p) false
                         else p) l).
Proof.
  induction l as [|p ps IH]; simpl; constructor;
    [destruct (modified p); split; reflexivity | exact IH].
Qed.

(** X9.  On a page list that satisfies the invariants, ClearAllModified
    leaves a list that satisfies them, has no equal neighbours and has the
    same size; no page is modified any more, so IsModified is false (the
    shrunk flag is cleared too) and BytesModified is 0; and every byte
    keeps its loaded flag. *)
Theorem X9_clear_all_modified :
  forall pl : PageList,
    wf_pages (pages pl) = true ->
    wf_pages (pages (PL.ClearAllModified pl)) = true /\
    no_equal_neighbours (pages (PL.ClearAllModified pl)) = true /\
    PL.Size (PL.ClearAllModified pl) = PL.Size pl /\
    PL.IsModified (PL.ClearAllModified pl) = false /\
    PL.BytesModified (PL.ClearAllModified pl) = 0 /\
    (forall pos,
        flags_at pos (pages (PL.ClearAllModified pl))
        = option_map (fun f => (fst f, false)) (flags_at pos (pages pl))).
Proof.
  intros pl HW. apply wf_pages_WF in HW.
  set (cleared := map (fun p => if modified p
                                then set_flags p (loaded p) false else p)
                      (pages pl)).
  assert (WF cleared) as HWc
      by (eapply WF_same_ranges; [apply clear_modified_ranges|exact HW]).
  assert (Forall (fun p => modified p = false) cleared) as Hun.
  { unfold cleared. clear. induction (pages pl) as [|p ps IH];
      simpl; constructor; [|exact IH].
    destruct (modified p) eqn:E; [reflexivity|exact E]. }
  assert (Forall (fun p => modified p = false) (PL.compress_pages cleared))
    as Hun'.
  { destruct cleared as [|p ps]; [constructor|].
    inversion Hun; subst. apply compress_from_unmodified; assumption. }
  unfold PL.ClearAllModified, PL.Compress, PL.Size, PL.IsModified.
  cbn [pages is_shrink]. fold cleared.
  split; [apply wf_pages_WF, WF_compress, HWc|].
  split; [apply compress_pages_no_equal, HWc|].
  split; [|split; [|split]].
  - rewrite size_of_compress by exact HWc.
    destruct HW as [[hi H]|(a & b & E)].
    + rewrite (size_of_chain _ _ H). apply size_of_chain.
      unfold cleared.
      rewrite (chain_end_same_ranges _ _ 0 (clear_modified_ranges _)).
      exact H.
    + unfold cleared. rewrite E. destruct b; reflexivity.
  - induction Hun' as [|p ps Hp _ IH]; [reflexivity|].
    cbn [existsb]. rewrite Hp, IH. reflexivity.
  - rewrite BytesModified_sum. cbn [pages]. unfold modified_bytes.
    induction Hun' as [|p ps Hp _ IH]; [reflexivity|].
    cbn [fold_right]. rewrite Hp, IH. reflexivity.
  - intros pos. rewrite flags_at_compress by exact HWc.
    apply flags_at_clear_modified.
Qed.

Lemma X9_clear_all_modified_witness :
  PL.ClearAllModified
    (mkPageList [mkpage 0 10 true false; mkpage 10 5 true true;
                 mkpage 15 5 false true] true)
  = mkPageList [mkpage 0 15 true false; mkpage 15 5 false false] false /\
  PL.BytesModified
    (PL.ClearAllModified
       (mkPageList [mkpage 0 10 true false; mkpage 10 5 true true;
                    mkpage 15 5 false true] true)) = 0.
Proof.
  split; [reflexivity|].
  apply (X9_clear_all_modified
           (mkPageList [mkpage 0 10 true false; mkpage 10 5 true true;
                        mkpage 15 5 false true] true) eq_refl).
Defined.

(** ** SetPageLoadedStatus *)

Lemma chain_no_straddle_outside x l : forall lo hi,
  chain_end lo l = Some hi -> x <= lo \/ hi <= x ->
  Forall (fun p => next p <= x \/ x <= offset p) l.
Proof.
  induction l as [|p ps IH]; intros lo hi H Hx; [constructor|].
  pose proof (chain_end_lt _ _ _ _ H) as Hlt.
  apply chain_end_cons in H. destruct H as (H1 & H2 & H3).
  pose proof (chain_end_le _ _ _ H3) as Hle. constructor.
  - unfold next in *. lia.
  - apply (IH _ _ H3). unfold next. lia.
Qed.

Lemma parse_pages_no_straddle x l : forall lo hi l',
  chain_end lo l = Some hi ->
  PL.parse_pages x l = Some l' ->
  Forall (fun p => next p <= x \/ x <= offset p) l'.
Proof.
  induction l as [|p ps IH]; intros lo hi l' H Hp; [discriminate|].
  apply chain_end_cons in H. destruct H as (H1 & H2 & H3).
  cbn [PL.parse_pages] in Hp.
  destruct (Z.eqb_spec x (offset p)) as [E|E].
  - injection Hp as <-. constructor; [lia|].
    apply (chain_no_straddle_outside x ps _ _ H3). unfold next. lia.
  - destruct (Z.ltb_spec (offset p) x) as [E1|E1];
      destruct (Z.ltb_spec x (next p)) as [E2|E2]; cbn [andb] in Hp;
      try (destruct (PL.parse_pages x ps) as [l2|] eqn:E';
           [|discriminate]; cbn [option_map] in Hp; injection Hp as <-;
           constructor; [lia|]; apply (IH _ _ l2 H3 eq_refl)).
    injection Hp as <-. constructor; [|constructor].
    + left. unfold next. cbn. lia.
    + right. cbn. lia.
    + apply (chain_no_straddle_outside x ps _ _ H3). lia.
Qed.

Lemma parse_pages_keeps_no_straddle x y l : forall l',
  Forall (fun p => next p <= x \/ x <= offset p) l ->
  PL.parse_pages y l = Some l' ->
  Forall (fun p => next p <= x \/ x <= offset p) l'.
Proof.
  induction l as [|p ps IH]; intros l' H Hp; [discriminate|].
  inversion H as [|? ? Hx Hr]; subst. cbn [PL.parse_pages] in Hp.
  destruct (y =? offset p).
  - injection Hp as <-. exact H.
  - destruct (Z.ltb_spec (offset p) y) as [E1|E1];
      destruct (Z.ltb_spec y (next p)) as [E2|E2]; cbn [andb] in Hp;
      try (destruct (PL.parse_pages y ps) as [l2|] eqn:E';
           [|discriminate]; cbn [option_map] in Hp; injection Hp as <-;
           constructor; [exact Hx|]; apply (IH l2 Hr eq_refl)).
    injection Hp as <-. unfold next in *. constructor; [|constructor].
    + cbn. lia.
    + cbn. lia.
    + exact Hr.
Qed.

Lemma Parse_no_straddle x pl hi :
  chain_end 0 (pages pl) = Some hi ->
  Forall (fun p => next p <= x \/ x <= offset p)
         (pages (snd (PL.Parse x pl))).
Proof.
  intros H. unfold PL.Parse.
  destruct (PL.parse_pages x (pages pl)) as [l'|] eqn:E; cbn [snd pages].
  - eapply parse_pages_no_straddle; eassumption.
  - apply (chain_no_straddle_outside x _ _ _ H).
    destruct (Z.lt_ge_cases x 0); [lia|].
    destruct (Z.lt_ge_cases x hi); [|lia].
    exfalso. assert (PL.parse_pages x (pages pl) <> None) as X
        by (apply (parse_pages_found x _ 0 hi H); lia).
    contradiction.
Qed.

Lemma Parse_keeps pl x y hi :
  chain_end 0 (pages pl) = Some hi ->
  Forall (fun p => next p <= x \/ x <= offset p) (pages pl) ->
  chain_end 0 (pages (snd (PL.Parse y pl))) = Some hi /\
  (forall pos, flags_at pos (pages (snd (PL.Parse y pl)))
               = flags_at pos (pages pl)) /\
  Forall (fun p => next p <= x \/ x <= offset p)
         (pages (snd (PL.Parse y pl))) /\
  is_shrink (snd (PL.Parse y pl)) = is_shrink pl.
Proof.
  intros H Hx. unfold PL.Parse.
  destruct (PL.parse_pages y (pages pl)) as [l'|] eqn:E;
    cbn [snd pages is_shrink].
  - split; [eapply parse_pages_chain; eassumption|].
    split; [intros pos; eapply parse_pages_flags; eassumption|].
    split; [eapply parse_pages_keeps_no_straddle; eassumption|reflexivity].
  - auto.
Qed.

Lemma flags_at_inside lo hi l pos :
  chain_end lo l = Some hi -> lo <= pos < hi ->
  exists f, flags_at pos l = Some f.
Proof.
  revert lo. induction l as [|p ps IH]; intros lo H Hpos.
  - simpl in H. injection H as <-. lia.
  - apply chain_end_cons in H. destruct H as (H1 & H2 & H3).
    cbn [flags_at]. unfold next in *.
    destruct (Z.ltb_spec pos (offset p + bytes p)) as [E|E].
    + assert ((offset p <=? pos) = true) as -> by (apply Z.leb_le; lia).
      cbn [andb]. eexists. reflexivity.
    + rewrite andb_false_r. apply (IH _ H3). unfold next. lia.
Qed.

(** The marking loop on a list that has page boundaries at both ends of
    the range. *)
Lemma mark_pages_flags start size a b pos l : forall lo hi,
  chain_end lo l = Some hi -> 0 <= size ->
  Forall (fun p => next p <= start \/ start <= offset p) l ->
  Forall (fun p => next p <= start + size \/ start + size <= offset p) l ->
  flags_at pos (PL.mark_pages start size a b l)
  = if (start <=? pos) && (pos <? start + size)
    then option_map (fun _ => (a, b)) (flags_at pos l)
    else flags_at pos l.
Proof.
  induction l as [|p ps IH]; intros lo hi H Hsz Hs He.
  - simpl. destruct ((start <=? pos) && (pos <? start + size)); reflexivity.
  - inversion Hs as [|? ? Hs1 Hs2]; inversion He as [|? ? He1 He2]; subst.
    apply chain_end_cons in H. destruct H as (H1 & H2 & H3).
    specialize (IH _ _ H3 Hsz Hs2 He2).
    cbn [PL.mark_pages]. unfold end_.
    assert ((0 <? bytes p) = true) as -> by (apply Z.ltb_lt; exact H2).
    unfold next in *.
    destruct (Z.ltb_spec (offset p + bytes p - 1) start) as [E1|E1].
    { cbn [flags_at]. rewrite IH. unfold next.
      destruct (Z.leb_spec start pos); cbn [andb]; [|reflexivity].
      assert ((pos <? offset p + bytes p) = false) as ->
          by (apply Z.ltb_ge; lia).
      rewrite andb_false_r. reflexivity. }
    destruct (Z.leb_spec (start + size) (offset p)) as [E2|E2].
    { destruct (Z.leb_spec start pos); cbn [andb]; [|reflexivity].
      destruct (Z.ltb_spec pos (start + size)); [|reflexivity].
      rewrite (flags_at_below lo hi (p :: ps) pos); [reflexivity| |lia].
      apply chain_end_cons. auto. }
    cbn [flags_at]. rewrite IH. unfold next.
    cbn [set_flags offset bytes loaded modified].
    destruct (Z.leb_spec (offset p) pos) as [E3|E3];
      destruct (Z.ltb_spec pos (offset p + bytes p)) as [E4|E4];
      cbn [andb]; try reflexivity.
    assert ((start <=? pos) = true) as -> by (apply Z.leb_le; lia).
    assert ((pos <? start + size) = true) as -> by (apply Z.ltb_lt; lia).
    reflexivity.
Qed.

(** What SetPageLoadedStatus does, in each of its three cases. *)
Lemma SetPageLoadedStatus_spec pl start size pstatus is_compress :
  WF (pages pl) -> 0 <= start -> 0 <= size ->
  WF (pages (PL.SetPageLoadedStatus start size pstatus is_compress pl)) /\
  PL.Size (PL.SetPageLoadedStatus start size pstatus is_compress pl)
  = Z.max (PL.Size pl) (start + size) /\
  (forall pos,
      flags_at pos
        (pages (PL.SetPageLoadedStatus start size pstatus is_compress pl))
      = if (start <=? pos) && (pos <? start + size)
        then Some (PL.status_loaded pstatus, PL.status_modified pstatus)
        else if pos <? PL.Size pl then flags_at pos (pages pl)
             else if pos <? start
                  then Some (false, PL.status_modified pstatus)
                  else None) /\
  is_shrink (PL.SetPageLoadedStatus start size pstatus is_compress pl)
  = is_shrink pl.
Proof.
  intros HW Hs Hsz.
  pose proof (WF_size_nonneg _ HW) as Hnn. fold (PL.Size pl) in Hnn.
  set (a := PL.status_loaded pstatus). set (b := PL.status_modified pstatus).
  (* the list before the final Compress *)
  assert (exists mid,
             PL.SetPageLoadedStatus start size pstatus is_compress pl
             = (if is_compress then PL.Compress mid else mid) /\
             WF (pages mid) /\
             PL.Size mid = Z.max (PL.Size pl) (start + size) /\
             (forall pos,
                 flags_at pos (pages mid)
                 = if (start <=? pos) && (pos <? start + size)
                   then Some (a, b)
                   else if pos <? PL.Size pl then flags_at pos (pages pl)
                        else if pos <? start then Some (false, b)
                             else None) /\
             is_shrink mid = is_shrink pl) as (mid & -> & HWm & Hsm & Hfm & Hshm).
  { unfold PL.SetPageLoadedStatus. fold a b.
    destruct (Z.leb_spec (PL.Size pl) start) as [E1|E1].
    - (* the range starts at or beyond the end *)
      set (pl1 := if PL.Size pl <? start then PL.Resize start false b pl
                  else pl).
      assert (WF (pages pl1) /\ PL.Size pl1 = start /\
              (forall pos, flags_at pos (pages pl1)
                           = if pos <? PL.Size pl then flags_at pos (pages pl)
                             else if pos <? start then Some (false, b)
                                  else None) /\
              is_shrink pl1 = is_shrink pl) as (HW1 & Hs1 & Hf1 & Hsh1).
      { unfold pl1. destruct (Z.ltb_spec (PL.Size pl) start) as [E|E].
        - destruct (Resize_spec pl start false b
                      (proj2 (wf_pages_WF _) HW)) as (R1 & R2 & R3 & R4).
          split; [apply wf_pages_WF, R1|]. split; [lia|]. split.
          + intros pos. rewrite R3, Z.min_r by lia. reflexivity.
          + rewrite R4.
            assert ((start <? PL.Size pl) = false) as ->
                by (apply Z.ltb_ge; lia).
            rewrite andb_false_r, orb_false_r. reflexivity.
        - split; [exact HW|]. split; [lia|]. split; [|reflexivity].
          intros pos. destruct (Z.ltb_spec pos (PL.Size pl)); [reflexivity|].
          assert ((pos <? start) = false) as -> by (apply Z.ltb_ge; lia).
          apply WF_flags_outside; [exact HW|]. right. assumption. }
      destruct (Resize_spec pl1 (start + size) a b
                  (proj2 (wf_pages_WF _) HW1)) as (R1 & R2 & R3 & R4).
      eexists. split; [reflexivity|].
      split; [apply wf_pages_WF, R1|]. split; [lia|]. split.
      + intros pos. rewrite R3, Hs1, Z.min_r, Hf1 by lia. zbool.
      + rewrite R4, Hs1, Hsh1.
        assert ((start + size <? start) = false) as ->
            by (apply Z.ltb_ge; lia).
        rewrite andb_false_r, orb_false_r. reflexivity.
    - destruct (Z.leb_spec (PL.Size pl) (start + size)) as [E2|E2].
      + (* the range reaches the end: cut, then add *)
        destruct (Resize_spec pl start false false
                    (proj2 (wf_pages_WF _) HW)) as (R1 & R2 & R3 & R4).
        set (pl1 := PL.Resize start false false pl) in *.
        apply wf_pages_WF in R1.
        destruct (Resize_spec pl1 (start + size) a b
                    (proj2 (wf_pages_WF _) R1)) as (Q1 & Q2 & Q3 & Q4).
        eexists. split; [reflexivity|].
        split; [apply wf_pages_WF, Q1|]. split; [lia|]. split.
        * intros pos. rewrite Q3, R2, R3. zbool.
        * rewrite Q4, R4, R2. cbn [andb].
          assert ((Z.max 0 start + 0 <? Z.max 0 start) = false) as X
              by (apply Z.ltb_ge; lia).
          assert ((start + size <? Z.max 0 start) = false) as ->
              by (apply Z.ltb_ge; lia).
          rewrite andb_false_r, !orb_false_r. reflexivity.
      + (* the range lies inside the list *)
        assert (PL.size_of (pages pl) <> 0) as Hne
            by (fold (PL.Size pl); lia).
        pose proof (WF_size_nonzero _ HW Hne) as Hc.
        fold (PL.Size pl) in Hc.
        pose proof (Parse_no_straddle start pl _ Hc) as N1.
        destruct (Parse_keeps pl 0 start _ Hc
                    (chain_no_straddle_outside 0 _ _ _ Hc
                       (or_introl (Z.le_refl 0))))
          as (P1 & P2 & _ & P4).
        set (pl1 := snd (PL.Parse start pl)) in *.
        pose proof (Parse_no_straddle (start + size) pl1 _ P1) as N2.
        destruct (Parse_keeps pl1 start (start + size) _ P1 N1)
          as (Q1 & Q2 & Q3 & Q4).
        set (pl2 := snd (PL.Parse (start + size) pl1)) in *.
        eexists. split; [reflexivity|]. cbn [pages is_shrink].
        split; [|split; [|split]].
        * eapply WF_same_ranges; [apply mark_pages_ranges|].
          left. eauto.
        * unfold PL.Size at 1. cbn [pages]. rewrite Z.max_l by lia.
          apply size_of_chain.
          rewrite (chain_end_same_ranges _ _ 0 (mark_pages_ranges _ _ _ _ _)).
          exact Q1.
        * intros pos.
          rewrite (mark_pages_flags start size a b pos _ 0 _ Q1 Hsz Q3 N2).
          rewrite Q2, P2.
          destruct (Z.leb_spec start pos) as [X1|X1];
            destruct (Z.ltb_spec pos (start + size)) as [X2|X2]; cbn [andb].
          -- destruct (flags_at_inside _ _ _ pos Hc) as [f ->]; [lia|].
             reflexivity.
          -- destruct (Z.ltb_spec pos (PL.Size pl)); [reflexivity|].
             assert ((pos <? start) = false) as -> by (apply Z.ltb_ge; lia).
             apply (flags_at_above _ _ _ _ Hc). assumption.
          -- assert ((pos <? PL.Size pl) = true) as ->
                 by (apply Z.ltb_lt; lia). reflexivity.
          -- lia.
        * rewrite Q4, P4. reflexivity. }
  split; [destruct is_compress; [apply WF_compress|]; exact HWm|].
  split.
  { rewrite <- Hsm. destruct is_compress; [|reflexivity].
    unfold PL.Size, PL.Compress. cbn [pages].
    apply size_of_compress, HWm. }
  split.
  { intros pos. rewrite <- Hfm. destruct is_compress; [|reflexivity].
    apply flags_at_compress, HWm. }
  rewrite <- Hshm. destruct is_compress; reflexivity.
Qed.

(** X10.  On a page list that satisfies the invariants, with 0 <= start,
    0 <= size and start + size below 2^63 (the sum is an off_t),
    SetPageLoadedStatus(start, size, status) (with or without the final
    Compress) leaves a list that satisfies them, of size
    max(Size(), start + size); the bytes of [start, start + size) have the
    flags of the status, every other byte that the list had keeps its
    flags, and the bytes added between the old end and start are
    (false, m) with m the modified flag of the status.  The shrunk flag is
    untouched, even when the call cuts the list at start first. *)
Theorem X10_set_page_loaded_status :
  forall (pl : PageList) (start size : Z) (pstatus : page_status)
         (is_compress : bool),
    wf_pages (pages pl) = true -> 0 <= start -> 0 <= size ->
    start + size < 2 ^ 63 ->
    wf_pages
      (pages (PL.SetPageLoadedStatus start size pstatus is_compress pl))
    = true /\
    PL.Size (PL.SetPageLoadedStatus start size pstatus is_compress pl)
    = Z.max (PL.Size pl) (start + size) /\
    (forall pos,
        flags_at pos
          (pages (PL.SetPageLoadedStatus start size pstatus is_compress pl))
        = if (start <=? pos) && (pos <? start + size)
          then Some (PL.status_loaded pstatus, PL.status_modified pstatus)
          else if pos <? PL.Size pl then flags_at pos (pages pl)
               else if pos <? start
                    then Some (false, PL.status_modified pstatus)
                    else None) /\
    is_shrink (PL.SetPageLoadedStatus start size pstatus is_compress pl)
    = is_shrink pl.
Proof.
  intros pl start size pstatus is_compress HW Hs Hsz _.
  apply wf_pages_WF in HW.
  destruct (SetPageLoadedStatus_spec pl start size pstatus is_compress
              HW Hs Hsz) as (R1 & R2 & R3 & R4).
  split; [apply wf_pages_WF; exact R1|]. auto.
Qed.

Lemma X10_set_page_loaded_status_witness :
  PL.SetPageLoadedStatus 30 40 LOADED true
    (mkPageList [mkpage 0 50 false false; mkpage 50 50 false true] false)
  = mkPageList [mkpage 0 30 false false; mkpage 30 40 true false;
                mkpage 70 30 false true] false /\
  PL.Size
    (PL.SetPageLoadedStatus 30 40 LOADED true
       (mkPageList [mkpage 0 50 false false; mkpage 50 50 false true] false))
  = Z.max 100 70.
Proof.
  split; [reflexivity|].
  apply (X10_set_page_loaded_status
           (mkPageList [mkpage 0 50 false false; mkpage 50 50 false true]
                       false) 30 40 LOADED true);
    [reflexivity | lia | lia | lia].
Defined.


(** ** Compressed partitions are determined by the flags of their bytes *)

Lemma canonical_head_bytes lo hi1 hi2 p ps q qs :
  chain_end lo (p :: ps) = Some hi1 ->
  chain_end lo (q :: qs) = Some hi2 ->
  no_equal_neighbours (p :: ps) = true ->
  (forall pos, flags_at pos (p :: ps) = flags_at pos (q :: qs)) ->
  loaded p = loaded q -> modified p = modified q ->
  ~ bytes p < bytes q.
Proof.
  intros H1 H2 Hn Hf El Em Hlt.
  apply chain_end_cons in H1. destruct H1 as (A1 & A2 & A3).
  apply chain_end_cons in H2. destruct H2 as (B1 & B2 & B3).
  specialize (Hf (next p)). cbn [flags_at] in Hf. unfold next in *.
  assert ((offset p + bytes p <? offset p + bytes p) = false) as E1
      by apply Z.ltb_irrefl.
  rewrite E1, andb_false_r in Hf.
  assert ((offset q <=? offset p + bytes p) = true) as E2
      by (apply Z.leb_le; lia).
  assert ((offset p + bytes p <? offset q + bytes q) = true) as E3
      by (apply Z.ltb_lt; lia).
  rewrite E2, E3 in Hf. cbn [andb] in Hf.
  destruct ps as [|r rs]; [discriminate|].
  apply chain_end_cons in A3. destruct A3 as (C1 & C2 & C3).
  cbn [flags_at] in Hf. unfold next in *.
  assert ((offset r <=? offset p + bytes p) = true) as E4
      by (apply Z.leb_le; lia).
  assert ((offset p + bytes p <? offset r + bytes r) = true) as E5
      by (apply Z.ltb_lt; lia).
  rewrite E4, E5 in Hf. cbn [andb] in Hf. injection Hf as F1 F2.
  rewrite no_equal_neighbours_cons in Hn.
  rewrite El, Em, F1, F2, !eqb_reflx in Hn. discriminate.
Qed.

Lemma canonical_unique l1 : forall l2 lo hi1 hi2,
  chain_end lo l1 = Some hi1 -> chain_end lo l2 = Some hi2 ->
  no_equal_neighbours l1 = true -> no_equal_neighbours l2 = true ->
  (forall pos, flags_at pos l1 = flags_at pos l2) ->
  l1 = l2.
Proof.
  induction l1 as [|p ps IH]; intros l2 lo hi1 hi2 H1 H2 N1 N2 Hf.
  - destruct l2 as [|q qs]; [reflexivity|]. exfalso.
    apply chain_end_cons in H2. destruct H2 as (B1 & B2 & B3).
    specialize (Hf lo). cbn [flags_at] in Hf. unfold next in Hf.
    assert ((offset q <=? lo) = true) as E1 by (apply Z.leb_le; lia).
    assert ((lo <? offset q + bytes q) = true) as E2
        by (apply Z.ltb_lt; lia).
    rewrite E1, E2 in Hf. discriminate.
  - destruct l2 as [|q qs].
    { exfalso. apply chain_end_cons in H1. destruct H1 as (A1 & A2 & A3).
      specialize (Hf lo). cbn [flags_at] in Hf. unfold next in Hf.
      assert ((offset p <=? lo) = true) as E1 by (apply Z.leb_le; lia).
      assert ((lo <? offset p + bytes p) = true) as E2
          by (apply Z.ltb_lt; lia).
      rewrite E1, E2 in Hf. discriminate. }
    pose proof H1 as H1'. pose proof H2 as H2'.
    apply chain_end_cons in H1. destruct H1 as (A1 & A2 & A3).
    apply chain_end_cons in H2. destruct H2 as (B1 & B2 & B3).
    assert (loaded p = loaded q /\ modified p = modified q) as [El Em].
    { pose proof (Hf lo) as F. cbn [flags_at] in F. unfold next in F.
      assert ((offset p <=? lo) = true) as E1 by (apply Z.leb_le; lia).
      assert ((lo <? offset p + bytes p) = true) as E2
          by (apply Z.ltb_lt; lia).
      assert ((offset q <=? lo) = true) as E3 by (apply Z.leb_le; lia).
      assert ((lo <? offset q + bytes q) = true) as E4
          by (apply Z.ltb_lt; lia).
      rewrite E1, E2, E3, E4 in F. injection F as F1 F2. auto. }
    assert (bytes p = bytes q) as Eb.
    { pose proof (canonical_head_bytes _ _ _ _ _ _ _ H1' H2' N1 Hf El Em).
      pose proof (canonical_head_bytes _ _ _ _ _ _ _ H2' H1' N2
                    (fun pos => eq_sym (Hf pos)) (eq_sym El) (eq_sym Em)).
      lia. }
    assert (p = q) as ->.
    { destruct p, q; cbn in *; subst; reflexivity. }
    f_equal. apply (IH qs (next q) hi1 hi2 A3 B3).
    + destruct ps; [reflexivity|]. rewrite no_equal_neighbours_cons in N1.
      apply andb_true_iff in N1. tauto.
    + destruct qs; [reflexivity|]. rewrite no_equal_neighbours_cons in N2.
      apply andb_true_iff in N2. tauto.
    + intros pos. destruct (Z.lt_ge_cases pos (next q)) as [E|E].
      * rewrite (flags_at_below _ _ _ _ A3 E).
        rewrite (flags_at_below _ _ _ _ B3 E). reflexivity.
      * specialize (Hf pos). cbn [flags_at] in Hf.
        assert ((pos <? next q) = false) as X by (apply Z.ltb_ge; exact E).
        rewrite X, andb_false_r in Hf. exact Hf.
Qed.

(** X11.  On a page list that satisfies the invariants, with 0 <= start
    and 0 < size, calling SetPageLoadedStatus(start, size, status) with
    its final Compress a second time changes nothing. *)
Theorem X11_set_page_loaded_status_twice :
  forall (pl : PageList) (start size : Z) (pstatus : page_status),
    wf_pages (pages pl) = true -> 0 <= start -> 0 < size ->
    PL.SetPageLoadedStatus start size pstatus true
      (PL.SetPageLoadedStatus start size pstatus true pl)
    = PL.SetPageLoadedStatus start size pstatus true pl.
Proof.
  intros pl start size st HW Hs Hsz. apply wf_pages_WF in HW.
  assert (forall x, WF (pages x) ->
            let y := PL.SetPageLoadedStatus start size st true x in
            chain_end 0 (pages y) = Some (Z.max (PL.Size x) (start + size))
            /\ no_equal_neighbours (pages y) = true) as Hcanon.
  { intros x Hx y.
    destruct (SetPageLoadedStatus_spec x start size st true Hx Hs)
      as (R1 & R2 & _); [lia|]. fold y in R1, R2.
    pose proof (WF_size_nonneg _ Hx) as Hn. fold (PL.Size x) in Hn.
    split.
    - rewrite <- R2. apply WF_size_nonzero; [exact R1|].
      fold (PL.Size y). lia.
    - destruct (SetPageLoadedStatus_spec x start size st false Hx Hs)
        as (F1 & _); [lia|].
      change (pages y) with
        (PL.compress_pages
           (pages (PL.SetPageLoadedStatus start size st false x))).
      apply compress_pages_no_equal. exact F1. }
  destruct (SetPageLoadedStatus_spec pl start size st true HW Hs)
    as (R1 & R2 & R3 & R4); [lia|].
  set (pl1 := PL.SetPageLoadedStatus start size st true pl) in *.
  destruct (SetPageLoadedStatus_spec pl1 start size st true R1 Hs)
    as (Q1 & Q2 & Q3 & Q4); [lia|].
  destruct (Hcanon pl HW) as [C1 N1]. fold pl1 in C1, N1.
  destruct (Hcanon pl1 R1) as [C2 N2].
  set (pl2 := PL.SetPageLoadedStatus start size st true pl1) in *.
  assert (pages pl2 = pages pl1) as Ep.
  { apply (canonical_unique _ _ 0 _ _ C2 C1 N2 N1).
    intros pos. rewrite Q3, R3, R2.
    pose proof (WF_size_nonneg _ HW) as Hn. fold (PL.Size pl) in Hn.
    zbool. }
  destruct pl2 as [pg2 sh2], pl1 as [pg1 sh1]. cbn in *. congruence.
Qed.

Lemma X11_set_page_loaded_status_twice_witness :
  PL.SetPageLoadedStatus 30 100 MODIFIED true
    (PL.SetPageLoadedStatus 30 100 MODIFIED true
       (mkPageList [mkpage 0 50 true false; mkpage 50 50 false false] true))
  = mkPageList [mkpage 0 30 true false; mkpage 30 100 false true] true.
Proof.
  rewrite (X11_set_page_loaded_status_twice
             (mkPageList [mkpage 0 50 true false; mkpage 50 50 false false]
                         true) 30 100 MODIFIED);
    [reflexivity | reflexivity | lia | lia].
Defined.

(* ================================================================== *)
(** * Further properties of the stats file *)
(* ================================================================== *)

Lemma load_parts_WF lines : forall pl,
  WF (pages pl) -> WF (pages (snd (load_parts lines pl))).
Proof.
  induction lines as [|line rest IH]; intros pl H; [exact H|].
  cbn [load_parts].
  destruct (getlines COLON line) as [|f1 [|f2 [|f3 more]]]; try exact H.
  apply IH. apply WF_SetPageLoadedStatus. exact H.
Qed.

Lemma load_parts_error lines : forall pl,
  fst (load_parts lines pl) = true <->
  exists line, In line lines
               /\ (List.length (getlines COLON line) < 3)%nat.
Proof.
  induction lines as [|line rest IH]; intros pl.
  - simpl. split; [discriminate|]. intros (l & [] & _).
  - cbn [load_parts].
    destruct (getlines COLON line) as [|f1 [|f2 [|f3 more]]] eqn:E.
    + split; [|reflexivity]. intros _. exists line.
      split; [left; reflexivity|]. rewrite E. simpl. lia.
    + split; [|reflexivity]. intros _. exists line.
      split; [left; reflexivity|]. rewrite E. simpl. lia.
    + split; [|reflexivity]. intros _. exists line.
      split; [left; reflexivity|]. rewrite E. simpl. lia.
    + rewrite IH. split.
      * intros (l & Hin & Hl). exists l. split; [right; exact Hin|exact Hl].
      * intros (l & [<-|Hin] & Hl).
        -- rewrite E in Hl. simpl in Hl. lia.
        -- exists l. split; assumption.
Qed.

(** The steps of Deserialize on a file that can be read and is not empty. *)
Lemma Deserialize_unfold file inode pl :
  io_ok file = true -> content file <> EmptyString ->
  Deserialize file inode pl
  = match getlines LF (c_str (content file)) with
    | [] => (false, PL.Clear pl)
    | oneline :: body =>
        match parse_head oneline with
        | None => (false, PL.Clear pl)
        | Some (total, cache_inode) =>
            if negb (cache_inode =? 0) && negb (cache_inode =? inode)
            then (false, PL.Clear pl)
            else
              let '(is_err, pl1) := load_parts body (PL.Clear pl) in
              if is_err then (false, PL.Clear pl1)
              else if negb (total =? PL.Size pl1)
                   then (false, PL.Clear pl1)
                   else (true, pl1)
        end
    end.
Proof.
  intros Hio Hne. unfold Deserialize. rewrite Hio. cbn [negb].
  destruct (content file) as [|c s]; [contradiction|].
  assert ((Z.of_nat (String.length (String c s)) <=? 0) = false) as ->
      by (apply Z.leb_gt; simpl; lia).
  reflexivity.
Qed.

(** X12.  Deserialize leaves the object alone when the stats file cannot
    be read.  When it can be read, whatever text it holds, a Deserialize
    that succeeds leaves a page list that satisfies the invariants (the
    empty page of Init(0) for an empty file), and a Deserialize that fails
    leaves the empty list with the shrunk flag off: never a list loaded in
    part. *)
Theorem X12_deserialize_all_or_nothing :
  forall (file : CacheFileStat) (inode : Z) (pl : PageList),
    (io_ok file = false -> Deserialize file inode pl = (false, pl)) /\
    (io_ok file = true ->
     (fst (Deserialize file inode pl) = true ->
      wf_pages (pages (snd (Deserialize file inode pl))) = true) /\
     (fst (Deserialize file inode pl) = false ->
      snd (Deserialize file inode pl) = mkPageList [] false) /\
     (content file = EmptyString ->
      Deserialize file inode pl
      = (true, mkPageList [mkpage 0 0 false false] false))).
Proof.
  intros file inode pl. split.
  - intros H. unfold Deserialize. rewrite H. reflexivity.
  - intros Hio.
    destruct (content file) as [|c s] eqn:Ec.
    + unfold Deserialize. rewrite Hio, Ec. cbn.
      split; [reflexivity|]. split; [discriminate|reflexivity].
    + assert (content file <> EmptyString) as Hne by (rewrite Ec; discriminate).
      rewrite (Deserialize_unfold file inode pl Hio Hne).
      split; [|split; [|discriminate]].
      * destruct (getlines LF (c_str (content file))) as [|oneline body];
          [discriminate|].
        destruct (parse_head oneline) as [[total ci]|]; [|discriminate].
        destruct (negb (ci =? 0) && negb (ci =? inode)); [discriminate|].
        pose proof (load_parts_WF body (PL.Clear pl) WF_nil) as HW.
        destruct (load_parts body (PL.Clear pl)) as [[|] pl1];
          [discriminate|].
        destruct (negb (total =? PL.Size pl1)); [discriminate|].
        intros _. apply wf_pages_WF. exact HW.
      * destruct (getlines LF (c_str (content file))) as [|oneline body];
          [reflexivity|].
        destruct (parse_head oneline) as [[total ci]|]; [|reflexivity].
        destruct (negb (ci =? 0) && negb (ci =? inode)); [reflexivity|].
        destruct (load_parts body (PL.Clear pl)) as [[|] pl1];
          [reflexivity|].
        destruct (negb (total =? PL.Size pl1)); [reflexivity|discriminate].
Qed.

Lemma X12_deserialize_all_or_nothing_witness :
  Deserialize (mkstat true ("7:100" ++ String LF "0:90:1:0")%string) 7
              (mkPageList [mkpage 0 5 true true] true)
  = (false, mkPageList [] false) /\
  snd (Deserialize (mkstat true ("7:100" ++ String LF "0:90:1:0")%string) 7
                   (mkPageList [mkpage 0 5 true true] true))
  = mkPageList [] false.
Proof.
  split; [reflexivity|].
  apply (proj2 (X12_deserialize_all_or_nothing
                  (mkstat true ("7:100" ++ String LF "0:90:1:0")%string) 7
                  (mkPageList [mkpage 0 5 true true] true)));
    reflexivity.
Defined.

(** X13.  On a stats file that can be read, whose head line is accepted
    for the caller's inode, Deserialize fails as soon as one of the page
    lines has fewer than three fields, whatever the other lines say. *)
Theorem X13_deserialize_short_line :
  forall (file : CacheFileStat) (inode : Z) (pl : PageList)
         (oneline : string) (body : list string) (total cache_inode : Z)
         (line : string),
    io_ok file = true -> content file <> EmptyString ->
    getlines LF (c_str (content file)) = oneline :: body ->
    parse_head oneline = Some (total, cache_inode) ->
    cache_inode = 0 \/ cache_inode = inode ->
    In line body -> (List.length (getlines COLON line) < 3)%nat ->
    Deserialize file inode pl = (false, mkPageList [] false).
Proof.
  intros file inode pl oneline body total ci line Hio Hne Hl Hp Hci Hin Hlen.
  rewrite (Deserialize_unfold file inode pl Hio Hne), Hl, Hp.
  assert (negb (ci =? 0) && negb (ci =? inode) = false) as ->.
  { destruct Hci as [->| ->]; [reflexivity|].
    rewrite Z.eqb_refl. apply andb_false_r. }
  assert (fst (load_parts body (PL.Clear pl)) = true) as He
      by (apply load_parts_error; eauto).
  destruct (load_parts body (PL.Clear pl)) as [[|] pl1];
    [reflexivity|discriminate].
Qed.

Lemma X13_deserialize_short_line_witness :
  Deserialize
    (mkstat true ("7:100" ++ String LF ("0:50:1:0" ++ String LF
                    ("50:50" ++ String LF "50:50:1:0")))%string) 7
    (mkPageList [mkpage 0 5 true true] true)
  = (false, mkPageList [] false).
Proof.
  apply (X13_deserialize_short_line
           (mkstat true ("7:100" ++ String LF ("0:50:1:0" ++ String LF
                           ("50:50" ++ String LF "50:50:1:0")))%string) 7
           (mkPageList [mkpage 0 5 true true] true)
           "7:100"%string
           ["0:50:1:0"; "50:50"; "50:50:1:0"]%string 100 7 "50:50"%string);
    try reflexivity.
  - discriminate.
  - right. reflexivity.
  - right. left. reflexivity.
  - simpl. lia.
Defined.

(** X14.  When the system calls on the stats file succeed (Open,
    ftruncate and pwrite), Serialize succeeds for every page list and
    every inode, and the text it writes has no NUL character and reads
    back, line by line, as the head line "<inode>:<size>" followed by one
    line per page, in order; the line of a page has the four fields
    offset, length, loaded and modified. *)
Theorem X14_serialize_format :
  forall (file : CacheFileStat) (inode : Z) (pl : PageList),
    io_ok file = true ->
    fst (Serialize file inode pl) = true /\
    no_char NUL (content (snd (Serialize file inode pl))) = true /\
    getlines LF (content (snd (Serialize file inode pl)))
    = (dec inode ++ String COLON (dec (PL.Size pl)))%string
      :: map page_body (pages pl) /\
    (forall p, In p (pages pl) ->
       getlines COLON (page_body p)
       = [dec (offset p); dec (bytes p);
          flag_text (loaded p); flag_text (modified p)]).
Proof.
  intros file inode pl Hio. unfold Serialize. rewrite Hio. cbn [negb].
  rewrite string_length_app_pos by apply dec_nonempty.
  cbn [fst snd content].
  replace (dec inode ++ String COLON (dec (PL.Size pl)
           ++ pages_text (pages pl)))%string
    with ((dec inode ++ String COLON (dec (PL.Size pl)))
          ++ pages_text (pages pl))%string
    by (rewrite string_app_assoc; reflexivity).
  assert (forall c, is_dec_char c = false -> Ascii.eqb COLON c = false ->
            no_char c (dec inode ++ String COLON (dec (PL.Size pl)))
            = true) as Hhead.
  { intros c H1 H2. rewrite no_char_app, no_char_cons, H2.
    rewrite !no_char_dec by exact H1. reflexivity. }
  split; [reflexivity|]. split; [|split].
  - rewrite no_char_app, (Hhead NUL eq_refl eq_refl).
    rewrite pages_text_no_char by reflexivity. reflexivity.
  - apply getlines_pages_text; [apply Hhead; reflexivity|].
    pose proof (dec_nonempty inode) as Hd.
    destruct (dec inode); [contradiction|discriminate].
  - intros p _. apply getlines_page_body.
Qed.

Lemma X14_serialize_format_witness :
  getlines LF
    (content (snd (Serialize (mkstat true EmptyString) 42
                     (mkPageList [mkpage 0 10 true false;
                                  mkpage 10 5 false true] false))))
  = ["42:15"; "0:10:1:0"; "10:5:0:1"]%string.
Proof.
  rewrite (proj1 (proj2 (proj2 (X14_serialize_format
             (mkstat true EmptyString) 42
             (mkPageList [mkpage 0 10 true false; mkpage 10 5 false true]
                         false) eq_refl)))).
  reflexivity.
Defined.

(* ================================================================== *)
(** * Further properties of the sparse file check *)
(* ================================================================== *)

Lemma alt_chain_snoc l : forall lo ld c b p,
  alt_chain lo ld l = Some (c, b) ->
  offset p = c -> loaded p = b -> modified p = false ->
  alt_chain lo ld (l ++ [p]) = Some (next p, negb b).
Proof.
  induction l as [|q qs IH]; intros lo ld c b p H Ho Hl Hm.
  - injection H as <- <-. cbn [app alt_chain].
    rewrite Ho, Hl, Hm, Z.eqb_refl, Bool.eqb_reflx. reflexivity.
  - cbn [app alt_chain] in *.
    destruct ((offset q =? lo) && Bool.eqb (loaded q) ld && negb (modified q));
      [|discriminate].
    eapply IH; eassumption.
Qed.

Lemma sparse_loop_shape fd file_size ld0 :
  (forall pos w, 0 <= pos -> -1 <= lseek fd pos w) ->
  forall fuel cur_pos is_hole acc l,
    0 <= cur_pos ->
    alt_chain 0 ld0 acc = Some (cur_pos, negb is_hole) ->
    sparse_loop fuel fd file_size cur_pos is_hole acc = Some l ->
    l <> [] /\ exists b, alt_chain 0 ld0 l = Some (file_size, b).
Proof.
  intros Hseek. induction fuel as [|fuel IH];
    intros cur_pos is_hole acc l Hc Hacc H; cbn [sparse_loop] in H.
  - apply Z.leb_le in Hc. rewrite Hc in H. discriminate.
  - pose proof Hc as Hc'. apply Z.leb_le in Hc'. rewrite Hc' in H.
    cbv zeta in H.
    set (next_pos := lseek fd cur_pos (if is_hole then SEEK_DATA
                                       else SEEK_HOLE)) in *.
    set (page := mkpage cur_pos (if next_pos =? -1 then file_size - cur_pos
                                 else next_pos - cur_pos)
                        (negb is_hole) false) in *.
    assert (alt_chain 0 ld0 (acc ++ [page])
            = Some (next page, negb (negb is_hole))) as Hstep
        by (apply (alt_chain_snoc acc 0 ld0 cur_pos); auto).
    assert (-1 <= next_pos) as Hn by (apply Hseek; exact Hc).
    destruct (Z.eqb_spec next_pos (-1)) as [E|E].
    + rewrite E in H. destruct fuel; cbn in H; injection H as <-.
      * split; [destruct acc; discriminate|].
        exists (negb (negb is_hole)). rewrite Hstep. unfold next, page.
        cbn [offset bytes]. f_equal. f_equal. lia.
      * split; [destruct acc; discriminate|].
        exists (negb (negb is_hole)). rewrite Hstep. unfold next, page.
        cbn [offset bytes]. f_equal. f_equal. lia.
    + apply (IH next_pos (negb is_hole) (acc ++ [page]) l); [lia| |exact H].
      rewrite Hstep. unfold next, page. cbn [offset bytes].
      f_equal. f_equal. lia.
Qed.

Lemma sparse_loop_stops fuel fd file_size cur_pos is_hole acc :
  cur_pos < 0 ->
  sparse_loop fuel fd file_size cur_pos is_hole acc = Some acc.
Proof.
  intros H. apply Z.leb_gt in H.
  destruct fuel; cbn [sparse_loop]; rewrite H; reflexivity.
Qed.

Section SparseProbe.

Variable fd : cache_fd.
Variable file_size : Z.
Hypothesis Hseek : seeks_forward fd file_size.

Lemma seeks_not_below pos w : 0 <= pos -> -1 <= lseek fd pos w.
Proof.
  intros H. destruct Hseek as [Hp _].
  destruct (Hp pos w H) as [E|[E _]]; lia.
Qed.

(** The probing loop ends: two turns at most leave the offset where it
    was, and no turn moves it back. *)
Lemma sparse_loop_returns :
  forall (fuel : nat) (cur_pos : Z) (is_hole : bool) (acc : list fdpage),
  0 <= cur_pos <= file_size ->
  2 * (file_size - cur_pos)
  + (if lseek fd cur_pos (if is_hole then SEEK_DATA else SEEK_HOLE)
        =? cur_pos then 1 else 0) < Z.of_nat fuel ->
  exists l, sparse_loop fuel fd file_size cur_pos is_hole acc = Some l.
Proof.
  destruct Hseek as [Hp Hx].
  induction fuel as [|fuel IH]; intros cur is_hole acc Hc Hm.
  - exfalso.
    destruct (lseek fd cur (if is_hole then SEEK_DATA else SEEK_HOLE)
              =? cur); lia.
  - cbn [sparse_loop].
    assert ((0 <=? cur) = true) as -> by (apply Z.leb_le; lia).
    cbv zeta.
    destruct (Hp cur (if is_hole then SEEK_DATA else SEEK_HOLE))
      as [E|[E1 E2]]; [lia| |].
    + rewrite E. eexists. apply sparse_loop_stops. lia.
    + apply IH; [lia|].
      destruct (Z.eqb_spec
                  (lseek fd cur (if is_hole then SEEK_DATA else SEEK_HOLE))
                  cur) as [E3|E3].
      * rewrite E3.
        assert (lseek fd cur (if negb is_hole then SEEK_DATA
                              else SEEK_HOLE) <> cur) as Hne.
        { intros E4. apply (Hx cur); [lia|].
          destruct is_hole; cbn [negb] in E4; split; assumption. }
        apply Z.eqb_neq in Hne. rewrite Hne. lia.
      * destruct (lseek fd
                    (lseek fd cur (if is_hole then SEEK_DATA
                                   else SEEK_HOLE))
                    (if negb is_hole then SEEK_DATA else SEEK_HOLE)
                  =? lseek fd cur (if is_hole then SEEK_DATA
                                   else SEEK_HOLE)); lia.
Qed.

(** Every segment of the probe lies inside the file. *)
Lemma sparse_loop_within :
  forall (fuel : nat) (cur_pos : Z) (is_hole : bool)
         (acc l : list fdpage),
  0 <= cur_pos <= file_size ->
  Forall (in_file file_size) acc ->
  sparse_loop fuel fd file_size cur_pos is_hole acc = Some l ->
  Forall (in_file file_size) l.
Proof.
  destruct Hseek as [Hp _].
  induction fuel as [|fuel IH]; intros cur is_hole acc l Hc Ha H;
    cbn [sparse_loop] in H.
  - destruct (0 <=? cur); [discriminate|]. injection H as <-. exact Ha.
  - assert ((0 <=? cur) = true) as E0 by (apply Z.leb_le; lia).
    rewrite E0 in H. cbv zeta in H.
    destruct (Hp cur (if is_hole then SEEK_DATA else SEEK_HOLE))
      as [E|[E1 E2]]; [lia| |].
    + rewrite E in H. rewrite sparse_loop_stops in H by lia.
      injection H as <-. apply Forall_app. split; [exact Ha|].
      constructor; [|constructor].
      unfold in_file, next. cbn [offset bytes]. lia.
    + refine (IH _ _ _ _ _ _ H); [lia|].
      apply Forall_app. split; [exact Ha|].
      constructor; [|constructor].
      unfold in_file, next. cbn [offset bytes].
      destruct (Z.eqb_spec
                  (lseek fd cur (if is_hole then SEEK_DATA else SEEK_HOLE))
                  (-1)); lia.
Qed.

(** [GetSparseFilePages] returns when [fuel] allows two turns for every
    byte of the file; what it returns. *)
Lemma GetSparseFilePages_returns fuel :
  0 < file_size -> 2 * file_size + 2 <= Z.of_nat fuel ->
  exists ok l,
    GetSparseFilePages fuel fd file_size [] = Some (ok, l) /\
    (ok = false <->
     lseek fd 0 SEEK_HOLE = -1 /\ lseek fd 0 SEEK_DATA = -1) /\
    (ok = true ->
     l <> [] /\
     (exists first_loaded b,
        alt_chain 0 first_loaded l = Some (file_size, b)) /\
     Forall (in_file file_size) l).
Proof.
  intros Hpos Hfuel. unfold GetSparseFilePages.
  assert ((file_size =? 0) = false) as -> by (apply Z.eqb_neq; lia).
  cbv zeta.
  destruct (Z.eqb_spec (lseek fd 0 SEEK_HOLE) (-1)) as [Eh|Eh];
    destruct (Z.eqb_spec (lseek fd 0 SEEK_DATA) (-1)) as [Ed|Ed];
    cbn [andb];
    try (exists false, []; split; [reflexivity|];
         split; [tauto|discriminate]);
    match goal with
    | |- context [sparse_loop fuel fd file_size 0 ?h []] =>
        destruct (sparse_loop_returns fuel 0 h []) as [l E];
          [lia
          |destruct (lseek fd 0 (if h then SEEK_DATA else SEEK_HOLE) =? 0);
           lia
          |rewrite E; cbn [option_map]; exists true, l;
           split; [reflexivity|];
           split; [split; [discriminate|tauto]|];
           intros _;
           destruct (sparse_loop_shape fd file_size (negb h)
                       seeks_not_below fuel 0 h [] l
                       (Z.le_refl 0) eq_refl E) as (H1 & b & H2);
           split; [exact H1|];
           split; [exists (negb h), b; exact H2|];
           apply (sparse_loop_within fuel 0 h [] l);
           [lia|constructor|exact E]]
    end.
Qed.

End SparseProbe.


Lemma half_hole_file_seeks : seeks_forward half_hole_file 16384.
Proof.
  split.
  - intros pos w Hp. destruct w; cbn [lseek half_hole_file];
      repeat match goal with
             | |- context [?a <? ?b] => destruct (Z.ltb_spec a b)
             end; lia.
  - intros pos Hp. cbn [lseek half_hole_file].
    repeat match goal with
           | |- context [?a <? ?b] => destruct (Z.ltb_spec a b)
           end; lia.
Defined.


(** X16.  For a stored page and a segment of positive length that share
    bytes, the area that CheckAreaInSparseFile takes is the area they
    share, except in three positions of the segment: it reaches beyond
    the page on both sides, it ends with the page but starts inside it,
    or it starts with the page but ends inside it. *)
Theorem X16_check_area_and_intersection :
  forall (checkpage seg : fdpage),
    0 < bytes checkpage -> 0 < bytes seg ->
    offset checkpage < next seg -> offset seg < next checkpage ->
    (check_area checkpage seg = intersection_area checkpage seg <->
     ~ ((offset seg < offset checkpage /\ next checkpage < next seg) \/
        (next seg = next checkpage /\ offset checkpage < offset seg) \/
        (offset seg = offset checkpage /\ next seg < next checkpage))).
Proof.
  intros cp seg Hc Hs Ho1 Ho2.
  unfold check_area, intersection_area, next in *.
  destruct (Z.ltb_spec (offset seg) (offset cp));
    destruct (Z.ltb_spec (offset seg + bytes seg) (offset cp + bytes cp));
    destruct (Z.ltb_spec (offset cp + bytes cp) (offset seg + bytes seg));
    destruct (Z.ltb_spec (offset cp) (offset seg));
    cbn [andb]; try lia;
    (split;
     [ intros E; injection E as E1 E2; lia
     | intros N;
       try (f_equal; lia);
       exfalso; apply N; lia ]).
Qed.

Lemma X16_check_area_and_intersection_witness :
  check_area (mkpage 100 50 true false) (mkpage 120 60 false false)
  = intersection_area (mkpage 100 50 true false) (mkpage 120 60 false false)
  <->
  ~ ((120 < 100 /\ next (mkpage 100 50 true false)
                   < next (mkpage 120 60 false false)) \/
     (next (mkpage 120 60 false false) = next (mkpage 100 50 true false)
      /\ 100 < 120) \/
     (120 = 100 /\ next (mkpage 120 60 false false)
                   < next (mkpage 100 50 true false))).
Proof.
  apply (X16_check_area_and_intersection
           (mkpage 100 50 true false) (mkpage 120 60 false false));
    unfold next; simpl; lia.
Defined.

(** The areas that one pass of [CheckAreaInSparseFile] adds: error areas
    carry the flags (false, false) and are added only for a page that
    claims data, warning areas carry (true, false) and are added only
    for a page that claims none. *)
Lemma check_area_loop_areas checkpage fd sparse_list : forall acc r,
  check_area_loop checkpage fd sparse_list acc = Some r ->
  exists e w,
    err_area_list r = err_area_list acc ++ e /\
    warn_area_list r = warn_area_list acc ++ w /\
    Forall (fun a => loaded a = false /\ modified a = false) e /\
    Forall (fun a => loaded a = true /\ modified a = false) w /\
    (claims_data checkpage = true -> w = []) /\
    (claims_data checkpage = false -> e = []).
Proof.
  unfold claims_data.
  induction sparse_list as [|seg rest IH]; intros acc r H.
  - simpl in H. injection H as <-. exists [], []. rewrite !app_nil_r.
    split; [reflexivity|]. split; [reflexivity|]. split; [constructor|].
    split; [constructor|]. split; intros; reflexivity.
  - cbn [check_area_loop] in H.
    destruct (offset seg + bytes seg <=? offset checkpage); [auto|].
    destruct (offset checkpage + bytes checkpage <=? offset seg).
    { injection H as <-. exists [], []. rewrite !app_nil_r.
    split; [reflexivity|]. split; [reflexivity|]. split; [constructor|].
    split; [constructor|]. split; intros; reflexivity. }
    destruct (check_area checkpage seg) as [check_start check_bytes].
    destruct (loaded checkpage || modified checkpage) eqn:Ec.
    + destruct (negb (loaded seg)); [|auto].
      apply IH in H. cbn [err_area_list warn_area_list] in H.
      destruct H as (e & w & He & Hw & Fe & Fw & C1 & C2).
      exists (mkpage check_start check_bytes false false :: e), w.
      rewrite He, <- app_assoc. cbn [app].
      split; [reflexivity|]. split; [exact Hw|].
      split; [constructor; [split; reflexivity|exact Fe]|].
      split; [exact Fw|]. split; [exact C1|discriminate].
    + destruct (loaded seg); [|auto].
      destruct (CheckZeroAreaInFile fd check_start (to_size_t check_bytes))
        as [[|]|]; [auto| |discriminate].
      apply IH in H. cbn [err_area_list warn_area_list] in H.
      destruct H as (e & w & He & Hw & Fe & Fw & C1 & C2).
      exists e, (mkpage check_start check_bytes true false :: w).
      rewrite Hw, <- app_assoc. cbn [app].
      split; [exact He|]. split; [reflexivity|].
      split; [exact Fe|].
      split; [constructor; [split; reflexivity|exact Fw]|].
      split; [discriminate|exact C2].
Qed.

Lemma compare_loop_areas l sparse_list fd : forall acc r,
  compare_loop l sparse_list fd acc = Some r ->
  exists e w,
    err_area_list r = err_area_list acc ++ e /\
    warn_area_list r = warn_area_list acc ++ w /\
    Forall (fun a => loaded a = false /\ modified a = false) e /\
    Forall (fun a => loaded a = true /\ modified a = false) w /\
    (forallb claims_data l = true -> w = []) /\
    (existsb claims_data l = false -> e = []).
Proof.
  induction l as [|p ps IH]; intros acc r H.
  - simpl in H. injection H as <-. exists [], []. rewrite !app_nil_r.
    split; [reflexivity|]. split; [reflexivity|]. split; [constructor|].
    split; [constructor|]. split; intros; reflexivity.
  - cbn [compare_loop] in H. unfold CheckAreaInSparseFile in H.
    destruct (check_area_loop p fd sparse_list
                (mkcmp true (err_area_list acc) (warn_area_list acc)))
      as [r1|] eqn:E1; [|discriminate].
    apply check_area_loop_areas in E1.
    cbn [err_area_list warn_area_list] in E1.
    destruct E1 as (e1 & w1 & He1 & Hw1 & Fe1 & Fw1 & C1 & C2).
    apply IH in H. cbn [err_area_list warn_area_list] in H.
    destruct H as (e & w & He & Hw & Fe & Fw & D1 & D2).
    exists (e1 ++ e), (w1 ++ w).
    rewrite He, Hw, He1, Hw1, <- !app_assoc.
    split; [reflexivity|]. split; [reflexivity|].
    split; [apply Forall_app; auto|]. split; [apply Forall_app; auto|].
    cbn [forallb existsb]. split.
    + intros X. apply andb_true_iff in X. destruct X as [X1 X2].
      rewrite (C1 X1), (D1 X2). reflexivity.
    + intros X. apply orb_false_iff in X. destruct X as [X1 X2].
      rewrite (C2 X1), (D2 X2). reflexivity.
Qed.

Section SparseCompare.

Variable fd : cache_fd.
Variable file_size : Z.
Hypothesis Hread : reads_forward fd file_size.

(** The loop of CheckZeroAreaInFile ends on an area inside the file:
    every turn fails or moves on by one byte at least. *)
Lemma check_zero_loop_returns start bytes_ :
  0 <= start -> start + bytes_ <= file_size ->
  forall fuel comp_bytes,
    0 <= comp_bytes -> bytes_ - comp_bytes <= Z.of_nat fuel ->
    exists b, check_zero_loop fuel fd start bytes_ comp_bytes = Some b.
Proof.
  intros Hs He. induction fuel as [|fuel IH]; intros comp Hc Hf;
    cbn [check_zero_loop].
  - destruct (Z.ltb_spec comp bytes_); [lia|]. exists true. reflexivity.
  - destruct (Z.ltb_spec comp bytes_) as [Hlt|Hge];
      [|exists true; reflexivity].
    cbv zeta.
    set (check_bytes := if CHECK_CACHEFILE_PART_SIZE <? bytes_ - comp
                        then CHECK_CACHEFILE_PART_SIZE
                        else bytes_ - comp).
    assert (0 < check_bytes) as Hcb.
    { unfold check_bytes, CHECK_CACHEFILE_PART_SIZE.
      destruct (Z.ltb_spec (1024 * 16) (bytes_ - comp)); lia. }
    pose proof (Hread check_bytes (start + comp) Hcb ltac:(lia)) as Hr.
    destruct (pread fd check_bytes (start + comp)) as [readbuff|];
      [|exists false; reflexivity].
    destruct (all_zero readbuff); [|exists false; reflexivity].
    apply IH; [lia|].
    destruct readbuff as [|c readbuff]; [contradiction|].
    cbn [List.length]. lia.
Qed.

Lemma CheckZeroAreaInFile_returns start bytes_ :
  0 <= start -> start + bytes_ <= file_size ->
  exists b, CheckZeroAreaInFile fd start bytes_ = Some b.
Proof.
  intros Hs He. unfold CheckZeroAreaInFile.
  apply check_zero_loop_returns; [exact Hs|exact He|lia|lia].
Qed.

(** The area that is checked lies inside the file when the page and the
    segment do and share a byte. *)
Lemma check_area_in_file checkpage seg check_start check_bytes :
  in_file file_size checkpage -> in_file file_size seg ->
  offset checkpage < offset seg + bytes seg ->
  offset seg < offset checkpage + bytes checkpage ->
  check_area checkpage seg = (check_start, check_bytes) ->
  0 <= check_start /\ 0 <= check_bytes /\
  check_start + check_bytes <= file_size.
Proof.
  unfold in_file, check_area, next. intros (P1 & P2 & P3) (S1 & S2 & S3) O1 O2.
  destruct (Z.ltb_spec (offset seg) (offset checkpage));
    destruct (Z.ltb_spec (offset seg + bytes seg)
                         (offset checkpage + bytes checkpage));
    destruct (Z.ltb_spec (offset checkpage + bytes checkpage)
                         (offset seg + bytes seg));
    destruct (Z.ltb_spec (offset checkpage) (offset seg));
    cbn [andb]; intros E; injection E as <- <-; lia.
Qed.

Lemma check_area_loop_returns checkpage sparse_list :
  in_file file_size checkpage ->
  Forall (in_file file_size) sparse_list ->
  forall acc, exists r,
    check_area_loop checkpage fd sparse_list acc = Some r.
Proof.
  intros Hp. induction sparse_list as [|seg rest IH]; intros F acc.
  - exists acc. reflexivity.
  - inversion F as [|? ? Hs Hrest]; subst. specialize (IH Hrest).
    cbn [check_area_loop].
    destruct (Z.leb_spec (offset seg + bytes seg) (offset checkpage));
      [apply IH|].
    destruct (Z.leb_spec (offset checkpage + bytes checkpage) (offset seg));
      [exists acc; reflexivity|].
    destruct (check_area checkpage seg) as [check_start check_bytes] eqn:Ea.
    destruct (check_area_in_file checkpage seg check_start check_bytes
                Hp Hs ltac:(lia) ltac:(lia) Ea) as (A1 & A2 & A3).
    destruct (loaded checkpage || modified checkpage).
    + destruct (negb (loaded seg)); apply IH.
    + destruct (loaded seg); [|apply IH].
      destruct (CheckZeroAreaInFile_returns check_start
                  (to_size_t check_bytes)) as [b Eb]; [exact A1| |].
      * unfold to_size_t.
        pose proof (Z.mod_le check_bytes (2 ^ 64) A2 ltac:(lia)). lia.
      * rewrite Eb. destruct b; apply IH.
Qed.

Lemma compare_loop_returns l sparse_list :
  Forall (in_file file_size) l ->
  Forall (in_file file_size) sparse_list ->
  forall acc, exists r, compare_loop l sparse_list fd acc = Some r.
Proof.
  intros Fl Fs. induction l as [|p ps IH]; intros acc.
  - exists acc. reflexivity.
  - inversion Fl as [|? ? Hp Hps]; subst. cbn [compare_loop].
    unfold CheckAreaInSparseFile.
    destruct (check_area_loop_returns p sparse_list Hp Fs
                (mkcmp true (err_area_list acc) (warn_area_list acc)))
      as [r ->].
    apply (IH Hps).
Qed.

Hypothesis Hseek : seeks_forward fd file_size.

Lemma CompareSparseFile_returns fuel pl :
  0 < file_size -> 2 * file_size + 2 <= Z.of_nat fuel ->
  Forall (in_file file_size) (pages pl) ->
  exists r, CompareSparseFile fuel fd file_size pl = Some r.
Proof.
  intros Hpos Hfuel Fl. unfold CompareSparseFile.
  destruct (GetSparseFilePages_returns fd file_size Hseek fuel Hpos Hfuel)
    as (ok & l & -> & _ & Hl).
  destruct ok; [|eexists; reflexivity].
  destruct (Hl eq_refl) as (_ & _ & Fs).
  destruct (compare_loop_returns (pages pl) l Fl Fs (mkcmp true [] []))
    as [r Er].
  destruct l as [|s sl]; [destruct (pages pl) as [|p ps]|].
  - eexists. reflexivity.
  - exists r. exact Er.
  - exists r. exact Er.
Qed.

End SparseCompare.

(** X17.  On a file of file_size > 0 bytes on which lseek moves forward
    inside the file and at no offset finds both data and a hole, and
    every pread inside the file fails or delivers at least one byte,
    with stored pages that lie inside the file, CompareSparseFile returns
    (two turns of the probe per byte of the file are enough), and it
    returns false exactly when one of its two lists is not empty.  After a failed probe the error list is the
    single area (0, file size).  After a probe that succeeded, every
    error area carries the flags (false, false) and every warning area
    (true, false); a list whose pages are all loaded or modified gets no
    warning area, and a list with no such page gets no error area. *)
Theorem X17_compare_sparse_file_report :
  forall (fuel : nat) (fd : cache_fd) (file_size : Z) (pl : PageList),
    seeks_forward fd file_size -> reads_forward fd file_size ->
    0 < file_size -> 2 * file_size + 2 <= Z.of_nat fuel ->
    Forall (in_file file_size) (pages pl) ->
    exists r,
      CompareSparseFile fuel fd file_size pl = Some r /\
      (cmp_result r = false <->
       err_area_list r <> [] \/ warn_area_list r <> []) /\
      (forall l, GetSparseFilePages fuel fd file_size [] = Some (false, l) ->
                 r = mkcmp false [mkpage 0 file_size false false] []) /\
      (forall l, GetSparseFilePages fuel fd file_size [] = Some (true, l) ->
         Forall (fun a => loaded a = false /\ modified a = false)
                (err_area_list r) /\
         Forall (fun a => loaded a = true /\ modified a = false)
                (warn_area_list r) /\
         (forallb claims_data (pages pl) = true -> warn_area_list r = []) /\
         (existsb claims_data (pages pl) = false -> err_area_list r = [])).
Proof.
  intros fuel fd file_size pl Hseek Hread Hpos Hfuel Fl.
  destruct (CompareSparseFile_returns fd file_size Hread Hseek fuel pl
              Hpos Hfuel Fl) as [r H].
  exists r. split; [exact H|].
  destruct (CompareSparseFile_false_iff fuel fd file_size pl r H)
    as [H1 H2].
  split; [exact H1|]. split; [exact H2|].
  intros l Hl. unfold CompareSparseFile in H. rewrite Hl in H.
  assert (compare_loop (pages pl) l fd (mkcmp true [] []) = Some r) as Hc.
  { destruct l as [|s sl]; [|exact H].
    destruct (pages pl) as [|p ps]; [|exact H].
    injection H as <-. reflexivity. }
  apply compare_loop_areas in Hc. cbn [err_area_list warn_area_list app] in Hc.
  destruct Hc as (e & w & -> & -> & Fe & Fw & C1 & C2).
  auto.
Qed.

Lemma X17_compare_sparse_file_report_witness :
  exists r,
    CompareSparseFile (Z.to_nat 32770) half_hole_file 16384
      (mkPageList [mkpage 0 16384 true false] false) = Some r /\
    (cmp_result r = false <->
     err_area_list r <> [] \/ warn_area_list r <> []).
Proof.
  destruct (X17_compare_sparse_file_report (Z.to_nat 32770)
              half_hole_file 16384
              (mkPageList [mkpage 0 16384 true false] false))
    as (r & H1 & H2 & _).
  - exact half_hole_file_seeks.
  - intros count pos Hc Hp. cbn [pread half_hole_file].
    destruct (Z.to_nat (Z.min count (16384 - pos))) eqn:E; [lia|].
    discriminate.
  - lia.
  - lia.
  - constructor; [|constructor].
    unfold in_file, next. cbn [offset bytes]. lia.
  - exists r. split; [exact H1|exact H2].
Defined.

Lemma check_area_loop_agree checkpage fd sparse_list : forall acc,
  (forall seg, In seg sparse_list ->
     offset checkpage < next seg -> offset seg < next checkpage ->
     loaded seg = claims_data checkpage) ->
  check_area_loop checkpage fd sparse_list acc = Some acc.
Proof.
  unfold claims_data, next.
  induction sparse_list as [|seg rest IH]; intros acc Hag; [reflexivity|].
  cbn [check_area_loop].
  destruct (Z.leb_spec (offset seg + bytes seg) (offset checkpage)).
  { apply IH. intros s Hs. apply Hag. right. exact Hs. }
  destruct (Z.leb_spec (offset checkpage + bytes checkpage) (offset seg));
    [reflexivity|].
  destruct (check_area checkpage seg) as [check_start check_bytes].
  rewrite (Hag seg (or_introl eq_refl)) by lia.
  destruct (loaded checkpage || modified checkpage); cbn [negb];
    apply IH; intros s Hs; apply Hag; right; exact Hs.
Qed.

(** X18.  When the probe succeeds and every segment that shares bytes
    with a stored page is a data segment for a page that is loaded or
    modified and a hole for a page that is neither, CompareSparseFile
    returns true with both lists empty, and reads no byte of the file. *)
Theorem X18_compare_sparse_file_agreement :
  forall (fuel : nat) (fd : cache_fd) (file_size : Z) (pl : PageList)
         (sparse_list : list fdpage),
    GetSparseFilePages fuel fd file_size [] = Some (true, sparse_list) ->
    (forall p seg, In p (pages pl) -> In seg sparse_list ->
       offset p < next seg -> offset seg < next p ->
       loaded seg = claims_data p) ->
    forall pread',
      CompareSparseFile fuel (mkfd (lseek fd) pread') file_size pl
      = Some (mkcmp true [] []).
Proof.
  intros fuel fd file_size pl sparse_list Hp Hag pread'.
  assert (forall fuel' fs acc,
             GetSparseFilePages fuel' (mkfd (lseek fd) pread') fs acc
             = GetSparseFilePages fuel' fd fs acc) as Hsame.
  { intros fuel' fs acc. unfold GetSparseFilePages. cbn [lseek].
    assert (forall n c h a,
               sparse_loop n (mkfd (lseek fd) pread') fs c h a
               = sparse_loop n fd fs c h a) as ->; [|reflexivity].
    induction n as [|n IH]; intros c h a; cbn [sparse_loop lseek];
      [reflexivity|].
    destruct (0 <=? c); [apply IH|reflexivity]. }
  unfold CompareSparseFile. rewrite Hsame, Hp.
  assert (forall l acc, cmp_result acc = true ->
             (forall p, In p l -> In p (pages pl)) ->
             compare_loop l sparse_list (mkfd (lseek fd) pread') acc
             = Some acc) as Hloop.
  { induction l as [|p ps IH]; intros acc Ha Hin; [reflexivity|].
    cbn [compare_loop]. unfold CheckAreaInSparseFile.
    rewrite check_area_loop_agree.
    - cbn [cmp_result err_area_list warn_area_list negb].
      replace (mkcmp (cmp_result acc) (err_area_list acc)
                     (warn_area_list acc)) with acc by (destruct acc; auto).
      apply IH; [exact Ha|]. intros q Hq. apply Hin. right. exact Hq.
    - intros seg Hs. apply Hag; [apply Hin; left; reflexivity|exact Hs]. }
  destruct sparse_list as [|s sl]; [destruct (pages pl) as [|p ps] eqn:Ep|].
  - reflexivity.
  - change (compare_loop (p :: ps) [] (mkfd (lseek fd) pread')
                          (mkcmp true [] []) = Some (mkcmp true [] [])).
    apply Hloop; auto.
  - apply Hloop; auto.
Qed.

Lemma X18_compare_sparse_file_agreement_witness :
  CompareSparseFile 4 (mkfd (lseek half_hole_file) (fun _ _ => None)) 16384
    (mkPageList [mkpage 0 8192 true false; mkpage 8192 8192 false false]
                false)
  = Some (mkcmp true [] []).
Proof.
  apply (X18_compare_sparse_file_agreement 4 half_hole_file 16384
           (mkPageList [mkpage 0 8192 true false;
                        mkpage 8192 8192 false false] false)
           [mkpage 0 8192 true false; mkpage 8192 8192 false false]).
  - reflexivity.
  - intros p seg Hp Hs. cbn [pages] in Hp.
    destruct Hp as [<-|[<-|[]]]; destruct Hs as [<-|[<-|[]]];
      unfold next, claims_data; cbn; intros; try reflexivity; lia.
Defined.

Lemma all_zero_file_bytes f off n :
  all_zero (file_bytes f off n) = true <->
  forall i, (i < n)%nat -> f (off + Z.of_nat i) = Byte.x00.
Proof.
  unfold all_zero, file_bytes. rewrite forallb_forall. split.
  - intros H i Hi. apply Byte.byte_dec_bl. apply H.
    apply in_map_iff. exists i. split; [reflexivity|].
    apply in_seq. lia.
  - intros H b Hb. apply in_map_iff in Hb. destruct Hb as (i & <- & Hi).
    apply in_seq in Hi. apply Byte.byte_dec_lb. apply H. lia.
Qed.

Lemma file_bytes_length f off n : List.length (file_bytes f off n) = n.
Proof. unfold file_bytes. rewrite length_map, length_seq. reflexivity. Qed.

Lemma check_zero_loop_spec fd f start bytes_ :
  (forall count off, 0 < count ->
     exists n, (0 < n)%nat /\ Z.of_nat n <= count /\
               pread fd count off = Some (file_bytes f off n)) ->
  forall fuel comp_bytes,
    0 <= comp_bytes -> bytes_ - comp_bytes <= Z.of_nat fuel ->
    (forall pos, start <= pos < start + comp_bytes -> f pos = Byte.x00) ->
    exists b,
      check_zero_loop fuel fd start bytes_ comp_bytes = Some b /\
      (b = true <->
       forall pos, start <= pos < start + bytes_ -> f pos = Byte.x00).
Proof.
  intros Hread. induction fuel as [|fuel IH]; intros comp Hc Hf Hz.
  - cbn [check_zero_loop].
    destruct (Z.ltb_spec comp bytes_); [lia|].
    exists true. split; [reflexivity|]. split; [|reflexivity].
    intros _ pos Hp. apply Hz. lia.
  - cbn [check_zero_loop].
    destruct (Z.ltb_spec comp bytes_) as [Hlt|Hge].
    + cbv zeta.
      set (check_bytes := if CHECK_CACHEFILE_PART_SIZE <? bytes_ - comp
                          then CHECK_CACHEFILE_PART_SIZE
                          else bytes_ - comp).
      assert (0 < check_bytes <= bytes_ - comp) as Hcb.
      { unfold check_bytes, CHECK_CACHEFILE_PART_SIZE.
        destruct (Z.ltb_spec (1024 * 16) (bytes_ - comp)); lia. }
      destruct (Hread check_bytes (start + comp)) as (n & Hn & Hle & ->);
        [lia|].
      destruct (all_zero (file_bytes f (start + comp) n)) eqn:Ez.
      * rewrite file_bytes_length.
        apply IH; [lia|lia|].
        intros pos Hp.
        destruct (Z.lt_ge_cases pos (start + comp)) as [Hlo|Hhi];
          [apply Hz; lia|].
        pose proof (proj1 (all_zero_file_bytes f (start + comp) n) Ez
                          (Z.to_nat (pos - (start + comp)))) as Hi.
        rewrite Z2Nat.id in Hi by lia.
        replace (start + comp + (pos - (start + comp))) with pos in Hi
          by lia.
        apply Hi. lia.
      * exists false. split; [reflexivity|]. split; [discriminate|].
        intros Hall. exfalso.
        assert (all_zero (file_bytes f (start + comp) n) = true) as Ht.
        { apply all_zero_file_bytes. intros i Hi. apply Hall. lia. }
        rewrite Ht in Ez. discriminate.
    + exists true. split; [reflexivity|]. split; [|reflexivity].
      intros _ pos Hp. apply Hz. lia.
Qed.

(** X19.  On a file whose reads succeed and deliver at least one byte
    each (short reads included), CheckZeroAreaInFile returns, and it
    returns true exactly when every byte of the area is zero. *)
Theorem X19_check_zero_area :
  forall (fd : cache_fd) (f : Z -> Byte.byte) (start bytes_ : Z),
    (forall count off, 0 < count ->
       exists n, (0 < n)%nat /\ Z.of_nat n <= count /\
                 pread fd count off = Some (file_bytes f off n)) ->
    0 <= bytes_ ->
    exists b,
      CheckZeroAreaInFile fd start bytes_ = Some b /\
      (b = true <->
       forall pos, start <= pos < start + bytes_ -> f pos = Byte.x00).
Proof.
  intros fd f start bytes_ Hread Hb. unfold CheckZeroAreaInFile.
  apply (check_zero_loop_spec fd f start bytes_ Hread); [lia|lia|].
  intros pos Hp. lia.
Qed.

Lemma X19_check_zero_area_witness :
  exists b,
    CheckZeroAreaInFile
      (mkfd (fun _ _ => -1)
            (fun count off =>
               Some (file_bytes (fun pos => if pos =? 5 then Byte.x01
                                            else Byte.x00) off 1)))
      0 10 = Some b /\
    (b = true <->
     forall pos, 0 <= pos < 0 + 10 ->
       (if pos =? 5 then Byte.x01 else Byte.x00) = Byte.x00).
Proof.
  apply (X19_check_zero_area
           (mkfd (fun _ _ => -1)
                 (fun count off =>
                    Some (file_bytes (fun pos => if pos =? 5 then Byte.x01
                                                 else Byte.x00) off 1)))
           (fun pos => if pos =? 5 then Byte.x01 else Byte.x00) 0 10).
  - intros count off Hc. exists 1%nat. cbn [pread].
    split; [lia|]. split; [lia|reflexivity].
  - lia.
Defined.

(** X20.  A read that delivers no byte (the end of the file) leaves the
    loop of CheckZeroAreaInFile where it was: when every read at the
    offsets of the area delivers nothing, the loop gives no result,
    however many turns it is given. *)
Theorem X20_check_zero_area_end_of_file :
  forall (fd : cache_fd) (start bytes_ comp_bytes : Z) (fuel : nat),
    (forall count off, pread fd count off = Some []) ->
    comp_bytes < bytes_ ->
    check_zero_loop fuel fd start bytes_ comp_bytes = None.
Proof.
  intros fd start bytes_ comp fuel Hread Hlt. revert Hlt.
  induction fuel as [|fuel IH]; intros Hlt; cbn [check_zero_loop];
    destruct (Z.ltb_spec comp bytes_); try lia; [reflexivity|].
  cbv zeta. rewrite Hread. cbn [all_zero forallb List.length Z.of_nat].
  rewrite Z.add_0_r. apply IH. exact Hlt.
Qed.

Lemma X20_check_zero_area_end_of_file_witness :
  check_zero_loop 1000 (mkfd (fun _ _ => -1) (fun _ _ => Some [])) 0 10 0
  = None.
Proof.
  apply (X20_check_zero_area_end_of_file
           (mkfd (fun _ _ => -1) (fun _ _ => Some [])) 0 10 0 1000).
  - reflexivity.
  - lia.
Defined.

(* ================================================================== *)
(** * Further properties of the upload planner *)
(* ================================================================== *)

Section RawCompressFlags.

Variables ignore_load ignore_modify default_load default_modify : bool.

Variable P : fdpage -> Prop.
Hypothesis P_set_bytes : forall q b, P q -> P (set_bytes q b).
Hypothesis P_new : forall o b l m,
  P (mkpage o b (if ignore_load then default_load else l)
            (if ignore_modify then default_modify else m)).

Lemma raw_add_Forall st p :
  Forall P (compressed_list st) ->
  Forall P (compressed_list
              (raw_add_compress_fdpage_list
                 st p ignore_load ignore_modify
                 default_load default_modify)).
Proof.
  intros H. unfold raw_add_compress_fdpage_list.
  destruct (0 <? bytes p); [|exact H].
  cbn [compressed_list]. apply Forall_app. split; [exact H|].
  constructor; [apply P_new|constructor].
Qed.

Lemma snoc_set_bytes_Forall done lastpage b :
  Forall P (done ++ [lastpage]) ->
  Forall P (done ++ [set_bytes lastpage b]).
Proof.
  intros H. apply Forall_app in H. destruct H as [H1 H2].
  apply Forall_app. split; [exact H1|].
  inversion H2; subst. constructor; [apply P_set_bytes; assumption|].
  constructor.
Qed.

Lemma raw_compress_step_Forall st p :
  Forall P (compressed_list st) ->
  Forall P (compressed_list
              (raw_compress_step ignore_load ignore_modify
                                 default_load default_modify st p)).
Proof.
  intros H. unfold raw_compress_step.
  destruct (bytes p =? 0); [exact H|].
  destruct st as [[done lastpage]|]; [|apply raw_add_Forall; exact H].
  set (st1 := if negb (next lastpage =? offset p) then _ else _).
  assert (Forall P (compressed_list st1)) as H1.
  { unfold st1. destruct (negb (next lastpage =? offset p)); [|exact H].
    destruct ((negb ignore_load && loaded lastpage)
              || (negb ignore_modify && modified lastpage)).
    - apply raw_add_Forall. exact H.
    - cbn [compressed_list] in *. apply snoc_set_bytes_Forall. exact H. }
  destruct st1 as [[done1 last1]|]; [|constructor].
  destruct ((negb ignore_load
             && negb (Bool.eqb (loaded last1) (loaded p)))
            || (negb ignore_modify
                && negb (Bool.eqb (modified last1) (modified p)))).
  - apply raw_add_Forall. exact H1.
  - cbn [compressed_list] in *. apply snoc_set_bytes_Forall. exact H1.
Qed.

Lemma raw_compress_Forall l :
  Forall P (raw_compress_fdpage_list l ignore_load ignore_modify
                                     default_load default_modify).
Proof.
  unfold raw_compress_fdpage_list.
  assert (forall st, Forall P (compressed_list st) ->
            Forall P (compressed_list
                        (fold_left (raw_compress_step
                                      ignore_load ignore_modify
                                      default_load default_modify) l st)))
    as H.
  { induction l as [|p ps IH]; intros st Hst; [exact Hst|].
    cbn [fold_left]. apply IH. apply raw_compress_step_Forall. exact Hst. }
  apply H. constructor.
Qed.

End RawCompressFlags.

(** The pages of a list compressed with [ignore_load] all carry the
    default for [loaded]. *)
Lemma compress_ignore_load_loaded l default_load :
  Forall (fun p => loaded p = default_load)
         (compress_fdpage_list_ignore_load l default_load).
Proof.
  unfold compress_fdpage_list_ignore_load. apply raw_compress_Forall.
  - intros q b H. exact H.
  - intros o b ld m. reflexivity.
Qed.

Lemma ignore_modify_step_single st p :
  single_unloaded st -> loaded p = false ->
  single_unloaded (raw_compress_step false true false false st p).
Proof.
  intros H Hp. unfold raw_compress_step.
  destruct (bytes p =? 0); [exact H|].
  destruct H as [->|(lastpage & -> & Hl & Hm)].
  - unfold raw_add_compress_fdpage_list.
    destruct (0 <? bytes p); [|left; reflexivity].
    right. eexists. cbn [compressed_list app]. rewrite Hp.
    split; [reflexivity|split; reflexivity].
  - rewrite Hl, Hp. cbn [negb andb orb Bool.eqb].
    destruct (negb (next lastpage =? offset p));
      cbn [set_bytes loaded Bool.eqb negb andb orb]; rewrite ?Hl;
      cbn [Bool.eqb negb andb orb];
      right; eexists; (split; [reflexivity|split; assumption]).
Qed.

Lemma ignore_modify_fold_single l : forall st,
  single_unloaded st -> Forall (fun p => loaded p = false) l ->
  single_unloaded (fold_left (raw_compress_step false true false false)
                             l st).
Proof.
  induction l as [|p ps IH]; intros st H F; [exact H|].
  inversion F; subst. cbn [fold_left]. apply IH; [|assumption].
  apply ignore_modify_step_single; assumption.
Qed.

Lemma parse_partsize_unmodified l max_partsize :
  Forall (fun p => modified p = false) l ->
  parse_partsize_fdpage_list l max_partsize = Some l.
Proof.
  induction l as [|p ps IH]; intros F; [reflexivity|].
  inversion F as [|? ? Hp Hps]; subst. cbn [parse_partsize_fdpage_list].
  rewrite Hp, (IH Hps). reflexivity.
Qed.

Section WalkFlags.

Variable MIN : Z.

Lemma walk_step_unloaded st cur :
  loaded (prev_page st) = false ->
  Forall (fun p => loaded p = false) (download_pages st) ->
  loaded cur = false ->
  loaded (prev_page (walk_step MIN st cur)) = false /\
  Forall (fun p => loaded p = false)
         (download_pages (walk_step MIN st cur)).
Proof.
  intros Hp Hd Hc. unfold walk_step.
  destruct (modified cur); destruct (modified (prev_page st)); cbn [negb];
    repeat match goal with
           | |- context [if ?a <? ?b then _ else _] =>
               destruct (Z.ltb_spec a b)
           end;
    cbn [prev_page download_pages set_bytes set_flags loaded];
    (split; [assumption|]);
    try assumption;
    apply Forall_app; (split; [assumption|]);
    (constructor; [|constructor]); try assumption; reflexivity.
Qed.

Lemma walk_fold_unloaded l : forall st,
  loaded (prev_page st) = false ->
  Forall (fun p => loaded p = false) (download_pages st) ->
  Forall (fun p => loaded p = false) l ->
  Forall (fun p => loaded p = false)
         (download_pages (walk_finish (fold_left (walk_step MIN) l st))).
Proof.
  induction l as [|p ps IH]; intros st Hp Hd F.
  - cbn [fold_left]. unfold walk_finish.
    destruct (0 <? bytes (prev_page st)); exact Hd.
  - inversion F as [|? ? Hc Hps]; subst. cbn [fold_left].
    destruct (walk_step_unloaded st p Hp Hd Hc) as [H1 H2].
    apply IH; assumption.
Qed.

End WalkFlags.

(** The download list before it is split by the part size: nothing, or
    one single area that is neither loaded nor modified. *)
Lemma download_list_single MIN l :
  single_unloaded
    (fold_left (raw_compress_step false true false false)
       (download_pages
          (walk_finish
             (fold_left (walk_step MIN)
                        (compress_fdpage_list_ignore_load l false)
                        walk_init)))
       None).
Proof.
  apply ignore_modify_fold_single; [left; reflexivity|].
  apply walk_fold_unloaded; [reflexivity|constructor|].
  apply compress_ignore_load_loaded.
Qed.

(** X21.  The download list that GetPageListsForMultipartUpload returns
    is empty or holds one single area, neither loaded nor modified: the
    areas to download are merged into one, whatever lies between them,
    and that area is not split by the part size. *)
Theorem X21_download_list_is_one_area :
  forall (MIN max_partsize : Z) (pl : PageList)
         (dlpages mixuppages : list fdpage),
    snd (GetPageListsForMultipartUpload MIN max_partsize pl)
    = Some (dlpages, mixuppages) ->
    dlpages = [] \/
    exists start size, dlpages = [mkpage start size false false].
Proof.
  intros MIN mx pl dl mix H.
  unfold GetPageListsForMultipartUpload in H. cbn [snd] in H.
  unfold compress_fdpage_list_ignore_modify at 1 in H.
  unfold raw_compress_fdpage_list at 1 in H.
  pose proof (download_list_single MIN (pages (PL.Compress pl))) as S.
  destruct S as [E|(lastpage & E & Hl & Hm)]; rewrite E in H;
    cbn [compressed_list app] in H.
  - cbn [parse_partsize_fdpage_list] in H.
    destruct (parse_partsize_fdpage_list _ mx); [|discriminate].
    injection H as <- _. left. reflexivity.
  - rewrite (parse_partsize_unmodified [lastpage]) in H
      by (constructor; [exact Hm|constructor]).
    destruct (parse_partsize_fdpage_list _ mx); [|discriminate].
    injection H as <- _. right.
    exists (offset lastpage), (bytes lastpage).
    destruct lastpage as [o b ld m]. cbn in *. subst. reflexivity.
Qed.

Lemma X21_download_list_is_one_area_witness :
  [mkpage 0 37 false false] = [] \/
  exists start size,
    [mkpage 0 37 false false] = [mkpage start size false false].
Proof.
  apply (X21_download_list_is_one_area 5 10
           (mkPageList [mkpage 0 3 false false; mkpage 3 1 false true;
                        mkpage 4 30 true false; mkpage 34 1 true true;
                        mkpage 35 2 false false] false)
           [mkpage 0 37 false false]
           [mkpage 0 8 false true; mkpage 8 26 false false;
            mkpage 34 3 false true]).
  reflexivity.
Defined.

(** ** The flags of a byte through the planner *)

Lemma flags_at_app_first pos l1 l2 :
  flags_at pos (l1 ++ l2)
  = match flags_at pos l1 with
    | Some f => Some f
    | None => flags_at pos l2
    end.
Proof.
  induction l1 as [|p ps IH]; [reflexivity|]. cbn [app flags_at].
  destruct ((offset p <=? pos) && (pos <? next p)); [reflexivity|exact IH].
Qed.

Section RawCompressFlagsAt.

Variables ignore_load ignore_modify default_load default_modify : bool.

Lemma raw_compress_step_normal st p :
  Forall (normal_page ignore_load ignore_modify
                      default_load default_modify) (compressed_list st) ->
  Forall (normal_page ignore_load ignore_modify
                      default_load default_modify)
         (compressed_list
            (raw_compress_step ignore_load ignore_modify
                               default_load default_modify st p)).
Proof.
  apply raw_compress_step_Forall.
  - intros q b H. exact H.
  - intros o b l m. split; intros ->; reflexivity.
Qed.

Lemma raw_compress_step_flags lo mid st p pos :
  chain_end lo (compressed_list st) = Some mid ->
  Forall (normal_page ignore_load ignore_modify
                      default_load default_modify) (compressed_list st) ->
  offset p = mid -> 0 <= bytes p ->
  flags_at pos (compressed_list
                  (raw_compress_step ignore_load ignore_modify
                                     default_load default_modify st p))
  = match flags_at pos (compressed_list st) with
    | Some f => Some f
    | None =>
        if (offset p <=? pos) && (pos <? next p)
        then Some (compressed_flags ignore_load ignore_modify
                                    default_load default_modify
                                    (loaded p, modified p))
        else None
    end.
Proof.
  intros H N Ho Hb. unfold raw_compress_step, compressed_flags.
  cbn [fst snd].
  destruct (Z.eqb_spec (bytes p) 0) as [E|E].
  { destruct (flags_at pos (compressed_list st)); [reflexivity|].
    unfold next. rewrite E. zbool. }
  assert ((0 <? bytes p) = true) as Hpos by (apply Z.ltb_lt; lia).
  destruct st as [[done lastpage]|].
  - cbn [compressed_list] in *.
    pose proof H as H'. apply chain_end_snoc in H'.
    destruct H' as (H1 & H2 & H3).
    assert ((next lastpage =? offset p) = true) as ->
        by (apply Z.eqb_eq; congruence).
    cbn [negb].
    apply Forall_app in N. destruct N as [_ N].
    inversion N as [|? ? [N1 N2] _]; subst.
    destruct ((negb ignore_load
               && negb (Bool.eqb (loaded lastpage) (loaded p)))
              || (negb ignore_modify
                  && negb (Bool.eqb (modified lastpage) (modified p))))
      eqn:Ec.
    + unfold raw_add_compress_fdpage_list. rewrite Hpos.
      cbn [compressed_list]. rewrite flags_at_app_first.
      destruct (flags_at pos (done ++ [lastpage])); [reflexivity|].
      cbn [flags_at]. unfold next. cbn [offset bytes loaded modified].
      reflexivity.
    + apply orb_false_iff in Ec. destruct Ec as [Ec1 Ec2].
      assert (loaded lastpage
              = if ignore_load then default_load else loaded p) as El.
      { destruct ignore_load; [apply N1; reflexivity|].
        cbn [negb andb] in Ec1. apply negb_false_iff in Ec1.
        apply eqb_prop in Ec1. exact Ec1. }
      assert (modified lastpage
              = if ignore_modify then default_modify else modified p)
        as Em.
      { destruct ignore_modify; [apply N2; reflexivity|].
        cbn [negb andb] in Ec2. apply negb_false_iff in Ec2.
        apply eqb_prop in Ec2. exact Ec2. }
      cbn [compressed_list]. rewrite !flags_at_app_first.
      destruct (flags_at pos done); [reflexivity|].
      cbn [flags_at]. unfold next in *.
      cbn [set_bytes offset bytes loaded modified].
      rewrite <- El, <- Em. zbool.
  - unfold raw_add_compress_fdpage_list. rewrite Hpos.
    cbn [compressed_list app flags_at]. unfold next.
    cbn [offset bytes loaded modified]. reflexivity.
Qed.

Lemma raw_compress_fold_flags l pos : forall lo mid hi st,
  chain_end lo (compressed_list st) = Some mid ->
  Forall (normal_page ignore_load ignore_modify
                      default_load default_modify) (compressed_list st) ->
  wchain_end mid l = Some hi ->
  flags_at pos (compressed_list
                  (fold_left (raw_compress_step ignore_load ignore_modify
                                                default_load default_modify)
                             l st))
  = match flags_at pos (compressed_list st) with
    | Some f => Some f
    | None => option_map (compressed_flags ignore_load ignore_modify
                                           default_load default_modify)
                         (flags_at pos l)
    end.
Proof.
  induction l as [|p ps IH]; intros lo mid hi st H N Hl.
  - cbn [fold_left flags_at option_map].
    destruct (flags_at pos (compressed_list st)); reflexivity.
  - apply wchain_end_cons in Hl. destruct Hl as (H1 & H2 & H3).
    cbn [fold_left].
    rewrite (IH lo (next p) hi);
      [ | eapply raw_compress_step_chain; eassumption
        | apply raw_compress_step_normal; exact N
        | exact H3 ].
    rewrite (raw_compress_step_flags lo mid st p pos H N H1 H2).
    cbn [flags_at].
    destruct (flags_at pos (compressed_list st)); [reflexivity|].
    destruct ((offset p <=? pos) && (pos <? next p)); reflexivity.
Qed.

(** Compressing pages that follow one another leaves every byte its
    flags, an ignored flag replaced by its default. *)
Lemma raw_compress_flags l lo hi pos :
  wchain_end lo l = Some hi ->
  flags_at pos (raw_compress_fdpage_list l ignore_load ignore_modify
                                         default_load default_modify)
  = option_map (compressed_flags ignore_load ignore_modify
                                 default_load default_modify)
               (flags_at pos l).
Proof.
  intros H. unfold raw_compress_fdpage_list.
  rewrite (raw_compress_fold_flags l pos lo lo hi None);
    [reflexivity|reflexivity|constructor|exact H].
Qed.

End RawCompressFlagsAt.

Lemma split_modified_page_flags fuel pos :
  forall tmppage max_partsize start rest,
    0 < max_partsize -> (Z.to_nat rest <= fuel)%nat ->
    exists l,
      split_modified_page fuel tmppage max_partsize start rest = Some l /\
      flags_at pos l
      = if (start <=? pos) && (pos <? start + rest)
        then Some (loaded tmppage, modified tmppage) else None.
Proof.
  induction fuel as [|fuel IH]; intros tmppage mx start rest Hmx Hfuel.
  - assert (rest <= 0) as Hr by lia. cbn [split_modified_page].
    assert ((0 <? rest) = false) as -> by (apply Z.ltb_ge; exact Hr).
    exists []. split; [reflexivity|]. cbn [flags_at]. zbool.
  - cbn [split_modified_page]. destruct (Z.ltb_spec 0 rest) as [Hr|Hr].
    + destruct (Z.ltb_spec (mx * 2) rest) as [Hs|Hs].
      * destruct (IH tmppage mx (start + mx) (rest - mx) Hmx)
          as (l & E & F); [lia|].
        rewrite E. cbn [option_map]. eexists. split; [reflexivity|].
        cbn [flags_at]. rewrite F. unfold next.
        cbn [offset bytes loaded modified]. zbool.
      * eexists. split; [reflexivity|]. cbn [flags_at]. unfold next.
        cbn [offset bytes loaded modified]. zbool.
    + exists []. split; [reflexivity|]. cbn [flags_at]. zbool.
Qed.

(** Splitting by the part size leaves every byte its flags. *)
Lemma parse_partsize_flags l max_partsize :
  0 < max_partsize ->
  exists l',
    parse_partsize_fdpage_list l max_partsize = Some l' /\
    forall pos, flags_at pos l' = flags_at pos l.
Proof.
  intros Hmx. induction l as [|p ps (l2 & E2 & F2)].
  - exists []. split; [reflexivity|]. reflexivity.
  - cbn [parse_partsize_fdpage_list]. rewrite E2.
    destruct (modified p) eqn:Em.
    + destruct (split_modified_page_spec (Z.to_nat (bytes p)) p max_partsize
                  (offset p) (bytes p) Hmx (Nat.le_refl _))
        as (l1 & E1 & _ & _).
      rewrite E1. eexists. split; [reflexivity|]. intros pos.
      destruct (split_modified_page_flags (Z.to_nat (bytes p)) pos p
                  max_partsize (offset p) (bytes p) Hmx (Nat.le_refl _))
        as (l1' & E1' & F1).
      rewrite E1 in E1'. injection E1' as <-.
      rewrite flags_at_app_first, F1, F2. cbn [flags_at]. unfold next.
      destruct ((offset p <=? pos) && (pos <? offset p + bytes p));
        reflexivity.
    + eexists. split; [reflexivity|]. intros pos. cbn [app flags_at].
      rewrite F2. reflexivity.
Qed.

(** ** Modified bytes through the planner *)

Lemma in_modified_app pos l1 l2 :
  in_modified pos (l1 ++ l2) = in_modified pos l1 || in_modified pos l2.
Proof. apply existsb_app. Qed.

Lemma in_modified_below l : forall lo hi pos,
  wchain_end lo l = Some hi -> pos < lo -> in_modified pos l = false.
Proof.
  induction l as [|p ps IH]; intros lo hi pos H Hlt; [reflexivity|].
  apply wchain_end_cons in H. destruct H as (H1 & H2 & H3).
  cbn [in_modified existsb].
  assert ((offset p <=? pos) = false) as -> by (apply Z.leb_gt; lia).
  cbn [andb orb]. apply (IH (next p) hi); [exact H3|]. unfold next. lia.
Qed.

(** On pages that follow one another, a byte lies in a modified page
    exactly when the page that holds it is modified. *)
Lemma in_modified_flags l : forall lo hi pos,
  wchain_end lo l = Some hi ->
  in_modified pos l = match flags_at pos l with
                      | Some (_, true) => true
                      | _ => false
                      end.
Proof.
  induction l as [|p ps IH]; intros lo hi pos H; [reflexivity|].
  apply wchain_end_cons in H. destruct H as (H1 & H2 & H3).
  cbn [in_modified existsb flags_at].
  destruct ((offset p <=? pos) && (pos <? next p)) eqn:E.
  - cbn [andb]. apply andb_true_iff in E. destruct E as [_ E].
    apply Z.ltb_lt in E.
    fold (in_modified pos ps).
    rewrite (in_modified_below ps (next p) hi pos H3 E).
    destruct (modified p); reflexivity.
  - cbn [andb orb]. apply (IH (next p) hi). exact H3.
Qed.

Lemma gapped_end_snoc l : forall lo e p,
  gapped_end lo l = Some e -> e <= offset p -> 0 <= bytes p ->
  gapped_end lo (l ++ [p]) = Some (next p).
Proof.
  induction l as [|q qs IH]; intros lo e p H He Hb.
  - injection H as <-. cbn [app gapped_end].
    assert ((lo <=? offset p) = true) as -> by (apply Z.leb_le; lia).
    assert ((0 <=? bytes p) = true) as -> by (apply Z.leb_le; lia).
    reflexivity.
  - cbn [app gapped_end] in *.
    destruct ((lo <=? offset q) && (0 <=? bytes q)); [|discriminate].
    apply (IH (next q) e); assumption.
Qed.

Ltac zcases :=
  repeat match goal with
         | H : context [?a <=? ?b] |- _ => destruct (Z.leb_spec a b)
         | H : context [?a <? ?b] |- _ => destruct (Z.ltb_spec a b)
         | |- context [?a <=? ?b] => destruct (Z.leb_spec a b)
         | |- context [?a <? ?b] => destruct (Z.ltb_spec a b)
         end;
  cbn [andb orb negb] in *.

Section WalkSound.

Variable MIN : Z.

Lemma walk_step_download st cur pos e :
  walk_covers st pos -> offset cur = pos -> 0 <= bytes cur ->
  gapped_end 0 (download_pages st) = Some e -> e <= pos ->
  (modified (prev_page st) = false -> e <= offset (prev_page st)) ->
  exists e',
    gapped_end 0 (download_pages (walk_step MIN st cur)) = Some e' /\
    e' <= next cur /\
    (modified (prev_page (walk_step MIN st cur)) = false ->
     e' <= offset (prev_page (walk_step MIN st cur))).
Proof.
  unfold walk_covers. intros H Ho Hb Hg He Hp.
  apply wchain_end_snoc in H. destruct H as (H1 & H2 & H3).
  unfold walk_step, next in *.
  destruct (modified cur) eqn:Emc; destruct (modified (prev_page st)) eqn:Emp;
    cbn [negb];
    repeat match goal with
           | |- context [if ?a <? ?b then _ else _] =>
               destruct (Z.ltb_spec a b)
           end;
    cbn [download_pages prev_page set_bytes set_flags offset bytes modified];
    try (exists e; split; [exact Hg|];
         split; [lia|]; rewrite ?Emc, ?Emp;
         intros X; try discriminate X; try (specialize (Hp eq_refl)); lia).
  - (* the carried area is short and not modified: it is downloaded *)
    eexists. split; [apply (gapped_end_snoc _ 0 e); [exact Hg|auto|lia]|].
    unfold next. split; [lia|]. rewrite Emc. discriminate.
  - (* the start of the current area is downloaded *)
    eexists. split.
    + apply (gapped_end_snoc _ 0 e); [exact Hg| |];
        cbn [offset bytes]; lia.
    + unfold next. cbn [offset bytes]. split; lia.
  - (* the current area is downloaded *)
    eexists. split; [apply (gapped_end_snoc _ 0 e); [exact Hg|lia|lia]|].
    unfold next. split; [lia|]. rewrite Emp. discriminate.
Qed.

Lemma walk_step_modified st cur pos seen x :
  walk_covers st pos -> offset cur = pos -> 0 <= bytes cur ->
  (in_modified x seen = true ->
   in_modified x (mixupload_pages st ++ [prev_page st]) = true) ->
  (in_modified x (mixupload_pages st ++ [prev_page st]) = true ->
   in_modified x seen = true \/ covered x (download_pages st) = true) ->
  (in_modified x (seen ++ [cur]) = true ->
   in_modified x (mixupload_pages (walk_step MIN st cur)
                  ++ [prev_page (walk_step MIN st cur)]) = true) /\
  (in_modified x (mixupload_pages (walk_step MIN st cur)
                  ++ [prev_page (walk_step MIN st cur)]) = true ->
   in_modified x (seen ++ [cur]) = true \/
   covered x (download_pages (walk_step MIN st cur)) = true).
Proof.
  unfold walk_covers. intros H Ho Hb I2 I3.
  apply wchain_end_snoc in H. destruct H as (H1 & H2 & H3).
  unfold walk_step.
  destruct (modified cur) eqn:Emc; destruct (modified (prev_page st)) eqn:Emp;
    cbn [negb];
    repeat match goal with
           | |- context [if ?a <? ?b then _ else _] =>
               destruct (Z.ltb_spec a b)
           end;
    cbn [mixupload_pages download_pages prev_page];
    rewrite ?in_modified_app, ?covered_app in *;
    cbn [in_modified covered existsb] in *;
    unfold next in *;
    cbn [set_bytes set_flags offset bytes modified loaded] in *;
    rewrite ?Emc, ?Emp in *;
    fold (in_modified x (mixupload_pages st)) in *;
    fold (in_modified x seen) in *;
    fold (covered x (download_pages st)) in *;
    destruct (in_modified x (mixupload_pages st));
    destruct (in_modified x seen);
    destruct (covered x (download_pages st));
    zcases;
    try lia;
    intuition (try discriminate; try lia).
Qed.

Lemma walk_step_sound st cur pos seen :
  walk_sound st pos seen -> offset cur = pos -> 0 <= bytes cur ->
  walk_sound (walk_step MIN st cur) (next cur) (seen ++ [cur]).
Proof.
  intros (Hc & (e & Hg & He & Hp) & Hx) Ho Hb.
  split; [apply walk_step_covers with (pos := pos); assumption|].
  split; [apply (walk_step_download st cur pos e); assumption|].
  intros x. destruct (Hx x) as [I2 I3].
  apply (walk_step_modified st cur pos seen x); assumption.
Qed.

Lemma walk_fold_sound l : forall st pos hi seen,
  walk_sound st pos seen -> wchain_end pos l = Some hi ->
  walk_sound (fold_left (walk_step MIN) l st) hi (seen ++ l).
Proof.
  induction l as [|p ps IH]; intros st pos hi seen H Hl.
  - simpl in Hl. injection Hl as <-. rewrite app_nil_r. exact H.
  - apply wchain_end_cons in Hl. destruct Hl as (H1 & H2 & H3).
    cbn [fold_left].
    replace (seen ++ p :: ps) with ((seen ++ [p]) ++ ps)
      by (rewrite <- app_assoc; reflexivity).
    apply (IH _ (next p)); [|exact H3].
    apply walk_step_sound with (pos := pos); assumption.
Qed.

End WalkSound.

(** Merging areas that are not loaded, flag [modified] ignored: the one
    area that is left spans all of them. *)
Lemma ignore_modify_fold_covers l x : forall st lo e,
  Forall (fun p => loaded p = false) l ->
  gapped_end lo l = Some e ->
  st = None \/
  (exists lastpage, st = Some ([], lastpage) /\ loaded lastpage = false /\
                    0 <= bytes lastpage /\ next lastpage <= lo) ->
  covered x (compressed_list st) || covered x l = true ->
  covered x (compressed_list
               (fold_left (raw_compress_step false true false false) l st))
  = true.
Proof.
  induction l as [|p ps IH]; intros st lo e F Hg Hst Hc.
  - cbn [fold_left]. rewrite orb_false_r in Hc. exact Hc.
  - inversion F as [|? ? Hp Hps]; subst. cbn [gapped_end] in Hg.
    destruct (Z.leb_spec lo (offset p)) as [Hlo|]; [|discriminate].
    destruct (Z.leb_spec 0 (bytes p)) as [Hb|]; [|discriminate].
    cbn [andb] in Hg. cbn [fold_left].
    apply (IH _ (next p) e Hps Hg).
    + (* the state after the step *)
      unfold raw_compress_step.
      destruct (Z.eqb_spec (bytes p) 0) as [E|E].
      { destruct Hst as [->|(lastpage & -> & Hl & Hn0 & Hn)];
          [left; reflexivity|].
        right. exists lastpage. split; [reflexivity|]. split; [exact Hl|].
        unfold next in *. lia. }
      destruct Hst as [->|(lastpage & -> & Hl & Hn0 & Hn)].
      * unfold raw_add_compress_fdpage_list.
        assert ((0 <? bytes p) = true) as -> by (apply Z.ltb_lt; lia).
        right. eexists. cbn [compressed_list app].
        split; [reflexivity|]. cbn [loaded]. split; [exact Hp|].
        unfold next. cbn [offset bytes]. lia.
      * rewrite Hl, Hp. cbn [negb andb orb Bool.eqb].
        destruct (Z.eqb_spec (next lastpage) (offset p)) as [En|En];
          cbn [negb set_bytes loaded]; rewrite ?Hl;
          cbn [Bool.eqb negb andb orb];
          right; eexists; (split; [reflexivity|]); cbn [loaded];
          (split; [exact Hl|]); unfold next in *;
          cbn [set_bytes offset bytes]; lia.
    + (* what the state covers after the step *)
      cbn [covered existsb] in Hc. fold (covered x ps) in Hc.
      destruct (covered x ps) eqn:Eps; [apply orb_true_r|].
      rewrite !orb_false_r in Hc. rewrite orb_false_r.
      unfold raw_compress_step.
      destruct (Z.eqb_spec (bytes p) 0) as [E|E].
      { apply orb_true_iff in Hc. destruct Hc as [Hc|Hc]; [exact Hc|].
        unfold next in Hc. rewrite E in Hc. exfalso. revert Hc. zbool. }
      destruct Hst as [->|(lastpage & -> & Hl & Hn0 & Hn)].
      * unfold raw_add_compress_fdpage_list.
        assert ((0 <? bytes p) = true) as -> by (apply Z.ltb_lt; lia).
        cbn [compressed_list app covered existsb orb] in *.
        unfold next in *. cbn [offset bytes]. rewrite orb_false_r.
        exact Hc.
      * rewrite Hl, Hp. cbn [negb andb orb Bool.eqb].
        cbn [compressed_list app covered existsb] in Hc.
        rewrite orb_false_r in Hc.
        destruct (Z.eqb_spec (next lastpage) (offset p)) as [En|En];
          cbn [negb set_bytes loaded]; rewrite ?Hl;
          cbn [Bool.eqb negb andb orb compressed_list app covered existsb];
          unfold next in *; cbn [set_bytes offset bytes];
          rewrite orb_false_r; revert Hc;
          repeat match goal with
                 | |- context [?a <=? ?b] => destruct (Z.leb_spec a b)
                 | |- context [?a <? ?b] => destruct (Z.ltb_spec a b)
                 end;
          cbn [andb orb]; intros Hc; try discriminate Hc;
          try reflexivity; exfalso; lia.
Qed.

(** What the plan uploads, for the two lists that the planner returns. *)
Lemma upload_plan_sound (MIN max_partsize : Z) (pl : PageList)
      (dlpages mixuppages : list fdpage) :
  wf_pages (pages pl) = true -> 0 < max_partsize ->
  snd (GetPageListsForMultipartUpload MIN max_partsize pl)
  = Some (dlpages, mixuppages) ->
  forall x,
    (in_modified x (pages pl) = true ->
     in_modified x mixuppages = true) /\
    (in_modified x mixuppages = true ->
     in_modified x (pages pl) = true \/ covered x dlpages = true).
Proof.
  revert MIN max_partsize pl dlpages mixuppages.
  intros MIN mx pl dl mix HW Hmx H x. apply wf_pages_WF in HW.
  unfold GetPageListsForMultipartUpload, PL.Compress in H.
  cbn [snd pages] in H.
  set (modified_pages :=
         compress_fdpage_list_ignore_load (PL.compress_pages (pages pl))
                                          false) in *.
  set (st := fold_left (walk_step MIN) modified_pages walk_init) in *.
  (* the areas by modified flag *)
  pose proof (WF_wchain_compress _ HW) as Hcw.
  assert (chain_end 0 modified_pages = Some (PL.size_of (pages pl))) as Hm
      by (apply raw_compress_chain; exact Hcw).
  assert (in_modified x modified_pages = in_modified x (pages pl)) as Hin.
  { rewrite (in_modified_flags modified_pages 0 _ x (chain_wchain _ _ _ Hm)).
    rewrite (in_modified_flags (pages pl) 0 _ x (WF_wchain _ HW)).
    unfold modified_pages, compress_fdpage_list_ignore_load.
    rewrite (raw_compress_flags _ _ _ _ _ 0 _ x Hcw).
    rewrite (flags_at_compress _ x HW).
    destruct (flags_at x (pages pl)) as [[a b]|]; reflexivity. }
  (* the walk *)
  assert (walk_sound st (PL.size_of (pages pl)) modified_pages) as Hs.
  { apply (walk_fold_sound MIN modified_pages walk_init 0 _ []).
    - split; [reflexivity|]. split.
      + exists 0. cbn. split; [reflexivity|]. split; [lia|]. intros _. lia.
      + intros y. cbn. rewrite andb_false_r. cbn [orb].
        split; [discriminate|discriminate].
    - apply chain_wchain. exact Hm. }
  destruct Hs as (Hc & (e & Hg & He & Hp) & Hx).
  destruct (Hx x) as [I2 I3]. rewrite Hin in I2, I3.
  pose proof (walk_finish_covers st _ Hc) as Hf.
  assert (in_modified x (mixupload_pages (walk_finish st))
          = in_modified x (mixupload_pages st ++ [prev_page st])) as Hfin.
  { unfold walk_finish.
    destruct (Z.ltb_spec 0 (bytes (prev_page st))) as [E|E];
      cbn [mixupload_pages]; [reflexivity|].
    rewrite in_modified_app. cbn [in_modified existsb]. unfold next.
    fold (in_modified x (mixupload_pages st)).
    destruct (in_modified x (mixupload_pages st)); [reflexivity|].
    zbool. }
  assert (download_pages (walk_finish st) = download_pages st) as Hdl.
  { unfold walk_finish. destruct (0 <? bytes (prev_page st)); reflexivity. }
  (* the two lists that are returned *)
  destruct (parse_partsize_flags
              (compress_fdpage_list_ignore_load
                 (mixupload_pages (walk_finish st)) false) mx Hmx)
    as (mix' & Emix & Fmix).
  destruct (parse_partsize_chain
              (compress_fdpage_list_ignore_load
                 (mixupload_pages (walk_finish st)) false) mx 0 _ Hmx
              (raw_compress_chain _ _ _ _ _ _ _ Hf))
    as (mix'' & Emix' & Cmix).
  rewrite Emix in Emix'. injection Emix' as <-.
  pose proof (download_list_single MIN (PL.compress_pages (pages pl))) as S.
  fold modified_pages in S. fold st in S.
  assert (covered x (download_pages st) = true -> covered x dl = true
          /\ mix = mix') as Hcov.
  { intros Hd.
    pose proof (ignore_modify_fold_covers (download_pages st) x None 0 e)
      as Hspan.
    unfold compress_fdpage_list_ignore_modify at 1 in H.
    unfold raw_compress_fdpage_list at 1 in H.
    rewrite Hdl in H, S.
    assert (covered x (compressed_list
              (fold_left (raw_compress_step false true false false)
                         (download_pages st) None)) = true) as Hcd.
    { apply Hspan; [|exact Hg|left; reflexivity|cbn; exact Hd].
      rewrite <- Hdl. apply walk_fold_unloaded;
        [reflexivity|constructor|apply compress_ignore_load_loaded]. }
    destruct S as [E0|(lastpage & E0 & Hl & Hmo)]; rewrite E0 in H, Hcd.
    - discriminate Hcd.
    - cbn [compressed_list app] in H, Hcd.
      rewrite (parse_partsize_unmodified [lastpage]) in H
        by (constructor; [exact Hmo|constructor]).
      rewrite Emix in H. injection H as <- <-. split; [exact Hcd|reflexivity]. }
  assert (mix = mix') as ->.
  { destruct (parse_partsize_fdpage_list
                (compress_fdpage_list_ignore_modify
                   (download_pages (walk_finish st)) false) mx);
      [|discriminate].
    rewrite Emix in H. injection H as _ <-. reflexivity. }
  assert (in_modified x mix'
          = in_modified x (mixupload_pages st ++ [prev_page st])) as Hmix.
  { rewrite <- Hfin.
    rewrite (in_modified_flags mix' 0 _ x (chain_wchain _ _ _ Cmix)).
    rewrite (in_modified_flags _ 0 _ x Hf).
    rewrite Fmix. unfold compress_fdpage_list_ignore_load.
    rewrite (raw_compress_flags _ _ _ _ _ 0 _ x Hf).
    destruct (flags_at x (mixupload_pages (walk_finish st))) as [[a b]|];
      reflexivity. }
  rewrite Hmix. split; [exact I2|].
  intros Hu. destruct (I3 Hu) as [Hl|Hr]; [left; exact Hl|].
  right. apply Hcov. exact Hr.
Qed.

(** X22.  The plan of GetPageListsForMultipartUpload uploads what was
    modified and nothing it does not have: for a page list that satisfies
    the invariants and a positive maximum part size below 2^62 (so that
    max_partsize * 2 is the product of the off_t arithmetic), the planner
    returns its two lists, every byte that lies in a modified page of the
    list lies in a modified part of mixuppages, and every byte of a
    modified part of mixuppages lies in a modified page of the list or in
    the area of dlpages. *)
Theorem X22_upload_plan_is_sound :
  forall (MIN max_partsize : Z) (pl : PageList),
    wf_pages (pages pl) = true -> 0 < max_partsize ->
    max_partsize < 2 ^ 62 ->
    exists dlpages mixuppages,
      snd (GetPageListsForMultipartUpload MIN max_partsize pl)
      = Some (dlpages, mixuppages) /\
      forall x,
        (in_modified x (pages pl) = true ->
         in_modified x mixuppages = true) /\
        (in_modified x mixuppages = true ->
         in_modified x (pages pl) = true \/ covered x dlpages = true).
Proof.
  intros MIN mx pl HW Hmx _.
  destruct (snd (GetPageListsForMultipartUpload MIN mx pl))
    as [[dl mix]|] eqn:E.
  - exists dl, mix. split; [reflexivity|].
    exact (upload_plan_sound MIN mx pl dl mix HW Hmx E).
  - exfalso. unfold GetPageListsForMultipartUpload in E. cbn [snd] in E.
    set (st := walk_finish _) in E.
    destruct (parse_partsize_bound
                (compress_fdpage_list_ignore_modify (download_pages st)
                                                    false)
                mx Hmx) as (dl & Edl & _).
    destruct (parse_partsize_bound
                (compress_fdpage_list_ignore_load (mixupload_pages st)
                                                  false)
                mx Hmx) as (mix & Emix & _).
    rewrite Edl, Emix in E. discriminate E.
Qed.

Lemma X22_upload_plan_is_sound_witness :
  exists dlpages mixuppages,
    snd (GetPageListsForMultipartUpload 5 10
           (mkPageList [mkpage 0 3 false false; mkpage 3 1 false true;
                        mkpage 4 30 true false; mkpage 34 1 true true;
                        mkpage 35 2 false false] false))
    = Some (dlpages, mixuppages) /\
    forall x,
      (in_modified x
         [mkpage 0 3 false false; mkpage 3 1 false true;
          mkpage 4 30 true false; mkpage 34 1 true true;
          mkpage 35 2 false false] = true ->
       in_modified x mixuppages = true) /\
      (in_modified x mixuppages = true ->
       in_modified x
         [mkpage 0 3 false false; mkpage 3 1 false true;
          mkpage 4 30 true false; mkpage 34 1 true true;
          mkpage 35 2 false false] = true \/
       covered x dlpages = true).
Proof.
  apply (X22_upload_plan_is_sound 5 10
           (mkPageList [mkpage 0 3 false false; mkpage 3 1 false true;
                        mkpage 4 30 true false; mkpage 34 1 true true;
                        mkpage 35 2 false false] false));
    [reflexivity | lia | lia].
Defined.

(** ** The length of the parts *)

Lemma ready_snoc2 n l p q :
  ready n (l ++ [p; q]) = ready n (l ++ [p]) && long_or_same n p q.
Proof.
  induction l as [|a l' IH].
  - cbn. rewrite andb_true_r. reflexivity.
  - destruct l' as [|b l''].
    + cbn. rewrite !andb_true_r. reflexivity.
    + change (long_or_same n a b && ready n ((b :: l'') ++ [p; q])
              = long_or_same n a b && ready n ((b :: l'') ++ [p])
                && long_or_same n p q).
      rewrite IH, andb_assoc. reflexivity.
Qed.

Lemma ready_rev_spec n l : ready_rev n l = ready n (rev l).
Proof.
  induction l as [|q tl IH]; [reflexivity|].
  destruct tl as [|p tl']; [reflexivity|].
  change (long_or_same n p q && ready_rev n (p :: tl')
          = ready n ((rev tl' ++ [p]) ++ [q])).
  rewrite <- app_assoc. cbn [app]. rewrite ready_snoc2, IH.
  cbn [rev]. apply andb_comm.
Qed.

Lemma ready_skip_zero n q z rest :
  0 < n -> bytes z = 0 ->
  ready n (q :: z :: rest) = true -> ready n (q :: rest) = true.
Proof.
  intros Hn Hz H. destruct rest as [|y rest']; [reflexivity|].
  cbn [ready] in *. unfold long_or_same in *. rewrite Hz in H.
  apply andb_true_iff in H. destruct H as [H1 H2].
  apply andb_true_iff in H2. destruct H2 as [H2 H3].
  rewrite H3, andb_true_r.
  assert ((n <=? 0) = false) as E by (apply Z.leb_gt; exact Hn).
  rewrite E, orb_false_r in H2. apply eqb_prop in H2. rewrite <- H2.
  exact H1.
Qed.

Lemma ready_tail n p l : ready n (p :: l) = true -> ready n l = true.
Proof.
  destruct l as [|q l']; [reflexivity|]. cbn [ready]. intros H.
  apply andb_true_iff in H. exact (proj2 H).
Qed.

Lemma all_but_last_ge_app n l1 l2 :
  Forall (fun q => n <= bytes q) l1 ->
  all_but_last_ge n l2 = true -> all_but_last_ge n (l1 ++ l2) = true.
Proof.
  intros F H. induction F as [|a l1 Ha F IH]; [exact H|].
  cbn [app]. destruct (l1 ++ l2) as [|b tl] eqn:E; [reflexivity|].
  cbn [all_but_last_ge].
  assert ((n <=? bytes a) = true) as -> by (apply Z.leb_le; exact Ha).
  exact IH.
Qed.

Lemma ignore_load_step_parts n st mid p rest :
  0 < n -> offset p = mid -> 0 <= bytes p ->
  parts_state n st mid (p :: rest) ->
  parts_state n (raw_compress_step true false false false st p)
              (next p) rest.
Proof.
  intros Hn Ho Hb H. unfold raw_compress_step.
  destruct (Z.eqb_spec (bytes p) 0) as [E|E].
  - destruct st as [[done lastpage]|]; cbn [parts_state] in *.
    + destruct H as (F & Hnx & Hl & q & Hq1 & Hq2 & Hq3).
      split; [exact F|]. split; [unfold next in *; lia|].
      split; [exact Hl|]. exists q. split; [exact Hq1|].
      split; [exact Hq2|]. apply (ready_skip_zero n q p rest Hn E Hq3).
    + apply (ready_tail n p). exact H.
  - assert ((0 <? bytes p) = true) as Hpos by (apply Z.ltb_lt; lia).
    destruct st as [[done lastpage]|]; cbn [parts_state] in H.
    + destruct H as (F & Hnx & Hl & q & Hq1 & Hq2 & Hq3).
      assert ((next lastpage =? offset p) = true) as ->
          by (apply Z.eqb_eq; congruence).
      cbn [negb andb orb].
      destruct (Bool.eqb (modified lastpage) (modified p)) eqn:Em;
        cbn [negb].
      * cbn [parts_state]. split; [exact F|].
        unfold next in *. cbn [set_bytes offset bytes modified].
        split; [lia|]. split; [lia|]. exists p.
        apply eqb_prop in Em. split; [auto|]. split; [lia|].
        apply (ready_tail n q). exact Hq3.
      * unfold raw_add_compress_fdpage_list. rewrite Hpos.
        cbn [compressed_list parts_state].
        cbn [ready] in Hq3. apply andb_true_iff in Hq3.
        destruct Hq3 as [Hq3 Hq4]. unfold long_or_same in Hq3.
        rewrite Hq1, Em in Hq3. cbn [orb] in Hq3. apply Z.leb_le in Hq3.
        split.
        { apply Forall_app. split; [exact F|].
          constructor; [lia|constructor]. }
        unfold next. cbn [offset bytes modified].
        split; [reflexivity|]. split; [lia|]. exists p.
        split; [reflexivity|]. split; [lia|exact Hq4].
    + unfold raw_add_compress_fdpage_list. rewrite Hpos.
      cbn [compressed_list app parts_state].
      split; [constructor|]. unfold next. cbn [offset bytes modified].
      split; [reflexivity|]. split; [lia|]. exists p.
      split; [reflexivity|]. split; [lia|exact H].
Qed.

Lemma ignore_load_fold_parts n l : forall st mid hi,
  0 < n -> wchain_end mid l = Some hi ->
  parts_state n st mid l ->
  all_but_last_ge n
    (compressed_list
       (fold_left (raw_compress_step true false false false) l st)) = true.
Proof.
  induction l as [|p ps IH]; intros st mid hi Hn Hl H.
  - cbn [fold_left]. destruct st as [[done lastpage]|]; [|reflexivity].
    cbn [parts_state compressed_list] in *. destruct H as (F & _).
    apply all_but_last_ge_app; [exact F|reflexivity].
  - apply wchain_end_cons in Hl. destruct Hl as (H1 & H2 & H3).
    cbn [fold_left]. apply (IH _ (next p) hi Hn H3).
    apply (ignore_load_step_parts n st mid); assumption.
Qed.

Lemma split_modified_page_parts n fuel :
  forall tmppage max_partsize start rest,
    0 < max_partsize -> n <= max_partsize ->
    (Z.to_nat rest <= fuel)%nat ->
    exists l,
      split_modified_page fuel tmppage max_partsize start rest = Some l /\
      all_but_last_ge n l = true /\
      (n <= rest -> Forall (fun q => n <= bytes q) l).
Proof.
  induction fuel as [|fuel IH]; intros tmppage mx start rest Hmx Hn Hfuel.
  - assert (rest <= 0) as Hr by lia. cbn [split_modified_page].
    assert ((0 <? rest) = false) as -> by (apply Z.ltb_ge; exact Hr).
    exists []. split; [reflexivity|]. split; [reflexivity|constructor].
  - cbn [split_modified_page]. destruct (Z.ltb_spec 0 rest) as [Hr|Hr].
    + destruct (Z.ltb_spec (mx * 2) rest) as [Hs|Hs].
      * destruct (IH tmppage mx (start + mx) (rest - mx) Hmx Hn)
          as (l & E & A & F); [lia|].
        rewrite E. cbn [option_map]. eexists. split; [reflexivity|].
        assert (Forall (fun q => n <= bytes q)
                       (mkpage start mx (loaded tmppage) (modified tmppage)
                        :: l)) as Fall.
        { constructor; [cbn [bytes]; lia|]. apply F. lia. }
        split; [|intros _; exact Fall].
        rewrite <- (app_nil_r (_ :: l)).
        apply all_but_last_ge_app; [exact Fall|reflexivity].
      * eexists. split; [reflexivity|]. split; [reflexivity|].
        intros Hge. constructor; [cbn [bytes]; lia|constructor].
    + exists []. split; [reflexivity|]. split; [reflexivity|constructor].
Qed.

Lemma parse_partsize_parts n l max_partsize :
  0 < max_partsize -> n <= max_partsize ->
  all_but_last_ge n l = true ->
  exists l',
    parse_partsize_fdpage_list l max_partsize = Some l' /\
    all_but_last_ge n l' = true /\
    (Forall (fun q => n <= bytes q) l ->
     Forall (fun q => n <= bytes q) l').
Proof.
  intros Hmx Hn. induction l as [|p ps IH]; intros H.
  - exists []. split; [reflexivity|]. split; [reflexivity|constructor].
  - assert (all_but_last_ge n ps = true) as Hps.
    { destruct ps as [|q ps']; [reflexivity|]. cbn [all_but_last_ge] in H.
      apply andb_true_iff in H. exact (proj2 H). }
    destruct (IH Hps) as (l2 & E2 & A2 & F2).
    cbn [parse_partsize_fdpage_list]. rewrite E2.
    destruct (split_modified_page_parts n (Z.to_nat (bytes p)) p
                max_partsize (offset p) (bytes p) Hmx Hn (Nat.le_refl _))
      as (l1 & E1 & A1 & F1).
    assert (ps <> [] -> n <= bytes p) as Hp.
    { intros Hne. destruct ps as [|q ps']; [contradiction|].
      cbn [all_but_last_ge] in H. apply andb_true_iff in H.
      apply Z.leb_le. exact (proj1 H). }
    destruct (modified p) eqn:Em.
    + rewrite E1. eexists. split; [reflexivity|]. split.
      * destruct ps as [|q ps'].
        -- cbn in E2. injection E2 as <-. rewrite app_nil_r. exact A1.
        -- apply all_but_last_ge_app; [|exact A2].
           apply F1. apply Hp. discriminate.
      * intros F. inversion F as [|? ? Fp Fps]; subst.
        apply Forall_app. split; [apply F1; exact Fp|apply F2; exact Fps].
    + eexists. split; [reflexivity|]. split.
      * destruct ps as [|q ps'].
        -- cbn in E2. injection E2 as <-. reflexivity.
        -- apply (all_but_last_ge_app n [p]); [|exact A2].
           constructor; [|constructor]. apply Hp. discriminate.
      * intros F. inversion F as [|? ? Fp Fps]; subst.
        constructor; [exact Fp|apply F2; exact Fps].
Qed.

Section WalkReady.

Variable MIN : Z.

Lemma ready_rev_head p p' tl :
  ready_rev MIN (p :: tl) = true -> modified p' = modified p ->
  ready_rev MIN (p' :: tl) = true.
Proof.
  destruct tl as [|z zs]; [reflexivity|]. cbn [ready_rev].
  unfold long_or_same. intros H ->. exact H.
Qed.

Lemma ready_rev_head_long p p' tl :
  ready_rev MIN (p :: tl) = true ->
  match tl with
  | z :: _ => MIN <= bytes z
  | [] => True
  end ->
  ready_rev MIN (p' :: tl) = true.
Proof.
  destruct tl as [|z zs]; [reflexivity|]. cbn [ready_rev].
  unfold long_or_same. intros H Hz.
  apply andb_true_iff in H. destruct H as [_ H]. rewrite H.
  assert ((MIN <=? bytes z) = true) as -> by (apply Z.leb_le; exact Hz).
  rewrite orb_true_r. reflexivity.
Qed.

Lemma ready_rev_push p q tl :
  ready_rev MIN (p :: tl) = true -> long_or_same MIN p q = true ->
  ready_rev MIN (q :: p :: tl) = true.
Proof. intros H1 H2. cbn [ready_rev]. rewrite H2. exact H1. Qed.

Lemma walk_step_ready st cur :
  walk_ready MIN st -> walk_ready MIN (walk_step MIN st cur).
Proof.
  unfold walk_ready. intros [R A]. unfold walk_step.
  destruct (modified cur) eqn:Emc;
    destruct (modified (prev_page st)) eqn:Emp; cbn [negb].
  - (* both modified *)
    cbn [mixupload_pages prev_page]. split.
    + apply (ready_rev_head (prev_page st)); [exact R|reflexivity].
    + cbn [set_bytes modified]. rewrite Emp. discriminate.
  - (* a modified area after one that is not *)
    destruct (Z.ltb_spec (bytes (prev_page st)) MIN) as [Hs|Hs];
      cbn [mixupload_pages prev_page]; rewrite rev_unit;
      (split; [|rewrite Emc; discriminate]);
      apply ready_rev_push.
    + apply (ready_rev_head_long (prev_page st)); [exact R|].
      apply A. reflexivity.
    + unfold long_or_same. cbn [set_flags modified]. rewrite Emc.
      reflexivity.
    + apply (ready_rev_head (prev_page st)); [exact R|].
      cbn [set_flags modified]. symmetry. exact Emp.
    + unfold long_or_same. cbn [set_flags bytes].
      assert ((MIN <=? bytes (prev_page st)) = true) as ->
          by (apply Z.leb_le; exact Hs).
      apply orb_true_r.
  - (* an area that is not modified after a modified one *)
    destruct (Z.ltb_spec (bytes (prev_page st)) MIN) as [Hs|Hs].
    + destruct (Z.ltb_spec (MIN - bytes (prev_page st) + MIN) (bytes cur))
        as [Hb|Hb]; cbn [mixupload_pages prev_page].
      * rewrite rev_unit. split.
        -- apply ready_rev_push.
           ++ apply (ready_rev_head (prev_page st)); [exact R|reflexivity].
           ++ unfold long_or_same. cbn [set_bytes bytes].
              rewrite Z.leb_refl. apply orb_true_r.
        -- intros _. cbn [set_bytes bytes]. lia.
      * split.
        -- apply (ready_rev_head (prev_page st)); [exact R|reflexivity].
        -- cbn [set_bytes modified]. rewrite Emp. discriminate.
    + cbn [mixupload_pages prev_page]. rewrite rev_unit. split.
      * apply ready_rev_push; [exact R|]. unfold long_or_same.
        assert ((MIN <=? bytes (prev_page st)) = true) as ->
            by (apply Z.leb_le; exact Hs).
        apply orb_true_r.
      * intros _. exact Hs.
  - (* neither is modified *)
    cbn [mixupload_pages prev_page]. split.
    + apply (ready_rev_head (prev_page st)); [exact R|reflexivity].
    + intros _. apply A. reflexivity.
Qed.

Lemma walk_fold_ready l : forall st,
  walk_ready MIN st -> walk_ready MIN (fold_left (walk_step MIN) l st).
Proof.
  induction l as [|p ps IH]; intros st H; [exact H|].
  cbn [fold_left]. apply IH. apply walk_step_ready. exact H.
Qed.

Lemma walk_finish_ready st :
  walk_ready MIN st ->
  ready MIN (mixupload_pages (walk_finish st)) = true.
Proof.
  intros [R _]. unfold walk_finish.
  destruct (0 <? bytes (prev_page st)); cbn [mixupload_pages].
  - rewrite <- (rev_involutive (mixupload_pages st ++ [prev_page st])).
    rewrite <- ready_rev_spec, rev_unit. exact R.
  - rewrite <- (rev_involutive (mixupload_pages st)).
    rewrite <- ready_rev_spec.
    destruct (rev (mixupload_pages st)) as [|z zs]; [reflexivity|].
    cbn [ready_rev] in R. apply andb_true_iff in R. exact (proj2 R).
Qed.

End WalkReady.

(** X23.  Every part of the upload plan but the last is long enough: for
    a page list that satisfies the invariants and 0 < MIN <= maximum part
    size, GetPageListsForMultipartUpload returns, and every page of
    mixuppages except the last one has at least MIN bytes. *)
Theorem X23_upload_parts_reach_the_minimum :
  forall (MIN max_partsize : Z) (pl : PageList),
    wf_pages (pages pl) = true -> 0 < MIN -> MIN <= max_partsize ->
    exists dlpages mixuppages,
      snd (GetPageListsForMultipartUpload MIN max_partsize pl)
      = Some (dlpages, mixuppages) /\
      all_but_last_ge MIN mixuppages = true.
Proof.
  intros MIN mx pl HW Hmin Hmax. apply wf_pages_WF in HW.
  assert (0 < mx) as Hmx by lia.
  unfold GetPageListsForMultipartUpload, PL.Compress. cbn [snd pages].
  set (modified_pages :=
         compress_fdpage_list_ignore_load (PL.compress_pages (pages pl))
                                          false).
  set (st := fold_left (walk_step MIN) modified_pages walk_init).
  assert (chain_end 0 modified_pages = Some (PL.size_of (pages pl))) as Hm.
  { apply raw_compress_chain. apply WF_wchain_compress. exact HW. }
  assert (wchain_end 0 (mixupload_pages (walk_finish st))
          = Some (PL.size_of (pages pl))) as Hw.
  { apply walk_finish_covers.
    apply walk_fold_covers with (pos := 0);
      [reflexivity | apply chain_wchain; exact Hm]. }
  assert (ready MIN (mixupload_pages (walk_finish st)) = true) as Hr.
  { apply walk_finish_ready. apply walk_fold_ready.
    split; [reflexivity|]. intros _. exact I. }
  assert (all_but_last_ge MIN
            (compress_fdpage_list_ignore_load
               (mixupload_pages (walk_finish st)) false) = true) as Hc.
  { unfold compress_fdpage_list_ignore_load, raw_compress_fdpage_list.
    apply (ignore_load_fold_parts MIN _ None 0 _ Hmin Hw). exact Hr. }
  destruct (parse_partsize_bound
              (compress_fdpage_list_ignore_modify
                 (download_pages (walk_finish st)) false) mx Hmx)
    as (dl & Edl & _).
  destruct (parse_partsize_parts MIN _ mx Hmx Hmax Hc)
    as (mix & Emix & Amix & _).
  exists dl, mix. rewrite Edl, Emix. split; [reflexivity|exact Amix].
Qed.

Lemma X23_upload_parts_reach_the_minimum_witness :
  exists dlpages mixuppages,
    snd (GetPageListsForMultipartUpload 5 10
           (mkPageList [mkpage 0 3 false false; mkpage 3 1 false true;
                        mkpage 4 30 true false; mkpage 34 1 true true;
                        mkpage 35 2 false false] false))
    = Some (dlpages, mixuppages) /\
    all_but_last_ge 5 mixuppages = true.
Proof.
  apply (X23_upload_parts_reach_the_minimum 5 10
           (mkPageList [mkpage 0 3 false false; mkpage 3 1 false true;
                        mkpage 4 30 true false; mkpage 34 1 true true;
                        mkpage 35 2 false false] false));
    [reflexivity | lia | lia].
Defined.

(** ** The static list utilities *)

Section RawCompressMinimal.

Variables ignore_load ignore_modify default_load default_modify : bool.

Lemma neighbours_differ_snoc2 l p q :
  neighbours_differ ignore_load ignore_modify (l ++ [p; q])
  = neighbours_differ ignore_load ignore_modify (l ++ [p])
    && flags_differ ignore_load ignore_modify p q.
Proof.
  induction l as [|a l' IH].
  - cbn. rewrite andb_true_r. reflexivity.
  - destruct l' as [|b l''].
    + cbn. rewrite !andb_true_r. reflexivity.
    + change (flags_differ ignore_load ignore_modify a b
              && neighbours_differ ignore_load ignore_modify
                   ((b :: l'') ++ [p; q])
              = flags_differ ignore_load ignore_modify a b
                && neighbours_differ ignore_load ignore_modify
                     ((b :: l'') ++ [p])
                && flags_differ ignore_load ignore_modify p q).
      rewrite IH, andb_assoc. reflexivity.
Qed.

Lemma neighbours_differ_set_bytes l p b :
  neighbours_differ ignore_load ignore_modify (l ++ [set_bytes p b])
  = neighbours_differ ignore_load ignore_modify (l ++ [p]).
Proof.
  induction l as [|a l' IH]; [reflexivity|].
  destruct l' as [|c l'']; [reflexivity|].
  change (flags_differ ignore_load ignore_modify a c
          && neighbours_differ ignore_load ignore_modify
               ((c :: l'') ++ [set_bytes p b])
          = flags_differ ignore_load ignore_modify a c
            && neighbours_differ ignore_load ignore_modify
                 ((c :: l'') ++ [p])).
  rewrite IH. reflexivity.
Qed.

Lemma raw_compress_step_differ lo mid st p :
  chain_end lo (compressed_list st) = Some mid ->
  Forall (normal_page ignore_load ignore_modify
                      default_load default_modify) (compressed_list st) ->
  neighbours_differ ignore_load ignore_modify (compressed_list st) = true ->
  offset p = mid ->
  neighbours_differ ignore_load ignore_modify
    (compressed_list
       (raw_compress_step ignore_load ignore_modify
                          default_load default_modify st p)) = true.
Proof.
  intros H N D Ho. unfold raw_compress_step.
  destruct (bytes p =? 0); [exact D|].
  destruct st as [[done lastpage]|].
  - cbn [compressed_list] in *.
    pose proof H as H'. apply chain_end_snoc in H'.
    destruct H' as (H1 & H2 & H3).
    assert ((next lastpage =? offset p) = true) as ->
        by (apply Z.eqb_eq; congruence).
    cbn [negb].
    apply Forall_app in N. destruct N as [_ N].
    inversion N as [|? ? [N1 N2] _]; subst.
    destruct ((negb ignore_load
               && negb (Bool.eqb (loaded lastpage) (loaded p)))
              || (negb ignore_modify
                  && negb (Bool.eqb (modified lastpage) (modified p))))
      eqn:Ec.
    + unfold raw_add_compress_fdpage_list.
      destruct (0 <? bytes p); [|exact D].
      cbn [compressed_list]. rewrite <- app_assoc. cbn [app].
      rewrite neighbours_differ_snoc2, D. cbn [andb].
      unfold flags_differ. cbn [loaded modified].
      destruct ignore_load, ignore_modify; cbn [negb andb orb] in *;
        try discriminate; exact Ec.
    + cbn [compressed_list]. rewrite neighbours_differ_set_bytes. exact D.
  - unfold raw_add_compress_fdpage_list.
    destruct (0 <? bytes p); reflexivity.
Qed.

Lemma raw_compress_fold_differ l : forall lo mid hi st,
  chain_end lo (compressed_list st) = Some mid ->
  Forall (normal_page ignore_load ignore_modify
                      default_load default_modify) (compressed_list st) ->
  neighbours_differ ignore_load ignore_modify (compressed_list st) = true ->
  wchain_end mid l = Some hi ->
  neighbours_differ ignore_load ignore_modify
    (compressed_list
       (fold_left (raw_compress_step ignore_load ignore_modify
                                     default_load default_modify) l st))
  = true.
Proof.
  induction l as [|p ps IH]; intros lo mid hi st H N D Hl; [exact D|].
  apply wchain_end_cons in Hl. destruct Hl as (H1 & H2 & H3).
  cbn [fold_left]. apply (IH lo (next p) hi).
  - eapply raw_compress_step_chain; eassumption.
  - apply raw_compress_step_normal. exact N.
  - eapply raw_compress_step_differ; eassumption.
  - exact H3.
Qed.

End RawCompressMinimal.

(** X24.  raw_compress_fdpage_list on pages that follow one another from
    lo to hi (empty pages allowed), for every choice of the flags to
    ignore: the result tiles [lo, hi) with pages that have bytes; every
    byte keeps its flags, an ignored flag replaced by its default; and no
    two neighbours of the result agree in all the flags that are
    compared. *)
Theorem X24_raw_compress_fdpage_list :
  forall (ignore_load ignore_modify default_load default_modify : bool)
         (l : list fdpage) (lo hi : Z),
    wchain_end lo l = Some hi ->
    is_partition lo hi
      (raw_compress_fdpage_list l ignore_load ignore_modify
                                default_load default_modify) /\
    (forall pos,
       flags_at pos (raw_compress_fdpage_list l ignore_load ignore_modify
                                              default_load default_modify)
       = option_map (compressed_flags ignore_load ignore_modify
                                      default_load default_modify)
                    (flags_at pos l)) /\
    neighbours_differ ignore_load ignore_modify
      (raw_compress_fdpage_list l ignore_load ignore_modify
                                default_load default_modify) = true.
Proof.
  intros il im dl dm l lo hi H. split; [|split].
  - apply raw_compress_chain. exact H.
  - intros pos. apply (raw_compress_flags il im dl dm l lo hi pos H).
  - unfold raw_compress_fdpage_list.
    apply (raw_compress_fold_differ il im dl dm l lo lo hi None);
      [reflexivity|constructor|reflexivity|exact H].
Qed.

Lemma X24_raw_compress_fdpage_list_witness :
  is_partition 0 12
    (raw_compress_fdpage_list
       [mkpage 0 4 true false; mkpage 4 0 false true;
        mkpage 4 6 false false; mkpage 10 2 true true]
       true false false false) /\
  (forall pos,
     flags_at pos
       (raw_compress_fdpage_list
          [mkpage 0 4 true false; mkpage 4 0 false true;
           mkpage 4 6 false false; mkpage 10 2 true true]
          true false false false)
     = option_map (compressed_flags true false false false)
         (flags_at pos
            [mkpage 0 4 true false; mkpage 4 0 false true;
             mkpage 4 6 false false; mkpage 10 2 true true])) /\
  neighbours_differ true false
    (raw_compress_fdpage_list
       [mkpage 0 4 true false; mkpage 4 0 false true;
        mkpage 4 6 false false; mkpage 10 2 true true]
       true false false false) = true.
Proof.
  apply (X24_raw_compress_fdpage_list true false false false
           [mkpage 0 4 true false; mkpage 4 0 false true;
            mkpage 4 6 false false; mkpage 10 2 true true] 0 12).
  reflexivity.
Defined.

Lemma split_modified_page_whole fuel tmppage max_partsize start rest :
  0 < rest -> rest <= 2 * max_partsize -> (0 < fuel)%nat ->
  split_modified_page fuel tmppage max_partsize start rest
  = Some [mkpage start rest (loaded tmppage) (modified tmppage)].
Proof.
  intros Hr Hm Hf. destruct fuel as [|fuel]; [lia|].
  cbn [split_modified_page].
  assert ((0 <? rest) = true) as -> by (apply Z.ltb_lt; exact Hr).
  assert ((max_partsize * 2 <? rest) = false) as ->
      by (apply Z.ltb_ge; lia).
  reflexivity.
Qed.

Lemma parse_partsize_fixed l max_partsize :
  Forall (fun q => modified q = true ->
                   0 < bytes q /\ bytes q <= 2 * max_partsize) l ->
  parse_partsize_fdpage_list l max_partsize = Some l.
Proof.
  induction l as [|p ps IH]; intros F; [reflexivity|].
  inversion F as [|? ? Hp Hps]; subst. cbn [parse_partsize_fdpage_list].
  rewrite (IH Hps). destruct (modified p) eqn:Em; [|reflexivity].
  destruct (Hp eq_refl) as [H1 H2].
  rewrite split_modified_page_whole; [|lia|lia|lia].
  destruct p as [o b ld m]. cbn in *. subst. reflexivity.
Qed.

Lemma chain_end_pages_positive l : forall lo hi,
  chain_end lo l = Some hi -> Forall (fun q => 0 < bytes q) l.
Proof.
  induction l as [|p ps IH]; intros lo hi H; [constructor|].
  apply chain_end_cons in H. destruct H as (H1 & H2 & H3).
  constructor; [exact H2|]. apply (IH _ _ H3).
Qed.

(** X25.  parse_partsize_fdpage_list with a positive maximum part size
    below 2^62 (so that max_partsize * 2 is the product of the off_t
    arithmetic) on pages that tile [lo, hi): it returns a list that tiles
    [lo, hi), in
    which every byte has the flags it had, no modified page is longer
    than twice the maximum, and pages that are not modified are left as
    they were; splitting the result again changes nothing. *)
Theorem X25_parse_partsize_fdpage_list :
  forall (l : list fdpage) (max_partsize lo hi : Z),
    0 < max_partsize -> max_partsize < 2 ^ 62 -> is_partition lo hi l ->
    exists l',
      parse_partsize_fdpage_list l max_partsize = Some l' /\
      is_partition lo hi l' /\
      (forall pos, flags_at pos l' = flags_at pos l) /\
      (forall q, In q l' -> modified q = true ->
                 bytes q <= 2 * max_partsize) /\
      (forall q, In q l' -> modified q = false -> In q l) /\
      parse_partsize_fdpage_list l' max_partsize = Some l'.
Proof.
  intros l mx lo hi Hmx _ H.
  destruct (parse_partsize_chain l mx lo hi Hmx H) as (l' & E & C).
  destruct (parse_partsize_flags l mx Hmx) as (l1 & E1 & F).
  destruct (parse_partsize_bound l mx Hmx) as (l2 & E2 & B).
  rewrite E in E1, E2. injection E1 as <-. injection E2 as <-.
  exists l'. split; [exact E|]. split; [exact C|]. split; [exact F|].
  rewrite Forall_forall in B. split; [exact B|]. split.
  - clear H C F B. revert l' E.
    induction l as [|p ps IH]; intros l' E q Hq Hm.
    + injection E as <-. destruct Hq.
    + cbn [parse_partsize_fdpage_list] in E.
      destruct (parse_partsize_fdpage_list ps mx) as [l2|] eqn:E2.
      * destruct (modified p) eqn:Em.
        -- destruct (split_modified_page_spec (Z.to_nat (bytes p)) p mx
                       (offset p) (bytes p) Hmx (Nat.le_refl _))
             as (l1 & E1 & _ & F1).
           rewrite E1 in E. injection E as <-.
           apply in_app_iff in Hq. destruct Hq as [Hq|Hq].
           ++ rewrite Forall_forall in F1. destruct (F1 q Hq) as [_ F2].
              congruence.
           ++ right. apply (IH l2 eq_refl q Hq Hm).
        -- injection E as <-. destruct Hq as [<-|Hq]; [left; reflexivity|].
           right. apply (IH l2 eq_refl q Hq Hm).
      * destruct (if modified p then _ else _); discriminate.
  - apply parse_partsize_fixed. apply Forall_forall. intros q Hq Hm.
    pose proof (chain_end_pages_positive l' lo hi C) as Pos.
    rewrite Forall_forall in Pos. split; [apply Pos; exact Hq|].
    apply B; assumption.
Qed.

Lemma X25_parse_partsize_fdpage_list_witness :
  exists l',
    parse_partsize_fdpage_list
      [mkpage 0 25 false true; mkpage 25 40 true false] 10 = Some l' /\
    is_partition 0 65 l' /\
    (forall pos,
       flags_at pos l'
       = flags_at pos [mkpage 0 25 false true; mkpage 25 40 true false]) /\
    (forall q, In q l' -> modified q = true -> bytes q <= 2 * 10) /\
    (forall q, In q l' -> modified q = false ->
               In q [mkpage 0 25 false true; mkpage 25 40 true false]) /\
    parse_partsize_fdpage_list l' 10 = Some l'.
Proof.
  apply (X25_parse_partsize_fdpage_list
           [mkpage 0 25 false true; mkpage 25 40 true false] 10 0 65);
    [lia | lia | reflexivity].
Defined.

(** ** C3: the length of the parts *)

Lemma inner_pieces_cons n p q l :
  inner_pieces_are n (p :: q :: l)
  = (negb (modified p && modified q) || (bytes p =? n))
    && inner_pieces_are n (q :: l).
Proof. reflexivity. Qed.

Lemma split_modified_page_inner fuel :
  forall tmppage max_partsize start rest l,
    split_modified_page fuel tmppage max_partsize start rest = Some l ->
    inner_pieces_are max_partsize l = true /\
    Forall (fun q => modified q = modified tmppage) l.
Proof.
  induction fuel as [|fuel IH]; intros tmppage mx start rest l H;
    cbn [split_modified_page] in H.
  - destruct (0 <? rest); [discriminate|]. injection H as <-.
    split; [reflexivity|constructor].
  - destruct (0 <? rest).
    + destruct (mx * 2 <? rest).
      * destruct (split_modified_page fuel tmppage mx (start + mx)
                    (rest - mx)) as [l'|] eqn:E; [|discriminate].
        cbn [option_map] in H. injection H as <-.
        destruct (IH _ _ _ _ _ E) as [I F].
        split; [|constructor; [reflexivity|exact F]].
        destruct l' as [|q l'']; [reflexivity|].
        rewrite inner_pieces_cons. cbn [bytes].
        rewrite Z.eqb_refl, orb_true_r. exact I.
      * injection H as <-. split; [reflexivity|].
        constructor; [reflexivity|constructor].
    + injection H as <-. split; [reflexivity|constructor].
Qed.

Lemma inner_pieces_app n l1 : forall q l2,
  inner_pieces_are n l1 = true ->
  modified q = false ->
  inner_pieces_are n (q :: l2) = true ->
  inner_pieces_are n (l1 ++ q :: l2) = true.
Proof.
  induction l1 as [|a l1' IH]; intros q l2 H1 Hq H2; [exact H2|].
  destruct l1' as [|b l1''].
  - cbn [app]. rewrite inner_pieces_cons, Hq, andb_false_r. exact H2.
  - cbn [app] in *. rewrite inner_pieces_cons in *.
    apply andb_true_iff in H1. destruct H1 as [H1 H1'].
    rewrite H1. apply (IH q l2 H1' Hq H2).
Qed.

(** Splitting a list in which no two neighbours are both modified: only
    the pieces of one modified page follow one another. *)
Lemma parse_partsize_inner max_partsize l : forall l',
  neighbours_differ true false l = true ->
  parse_partsize_fdpage_list l max_partsize = Some l' ->
  inner_pieces_are max_partsize l' = true /\
  (forall p ps, l = p :: ps -> modified p = false ->
                exists t, l' = p :: t).
Proof.
  induction l as [|p ps IH]; intros l' D H.
  - injection H as <-. split; [reflexivity|]. intros p ps E. discriminate E.
  - cbn [parse_partsize_fdpage_list] in H.
    assert (neighbours_differ true false ps = true /\
            (modified p = true ->
             forall q qs, ps = q :: qs -> modified q = false)) as [D1 D2].
    { destruct ps as [|q qs]; [split; [reflexivity|]|].
      - intros _ q qs E. discriminate E.
      - cbn [neighbours_differ] in D. apply andb_true_iff in D.
        destruct D as [D D']. split; [exact D'|].
        intros Hp q' qs' E. injection E as <- <-.
        unfold flags_differ in D. cbn [negb andb orb] in D.
        rewrite Hp in D. destruct (modified q); [discriminate D|reflexivity]. }
    destruct (parse_partsize_fdpage_list ps max_partsize) as [l2|] eqn:E2.
    + destruct (IH l2 D1 eq_refl) as [I2 Hd2].
      destruct (modified p) eqn:Em.
      * destruct (split_modified_page (Z.to_nat (bytes p)) p max_partsize
                    (offset p) (bytes p)) as [l1|] eqn:E1; [|discriminate].
        injection H as <-.
        destruct (split_modified_page_inner _ _ _ _ _ _ E1) as [I1 _].
        split; [|intros p' ps' E; injection E as <- <-; congruence].
        destruct ps as [|q qs].
        -- injection E2 as <-. rewrite app_nil_r. exact I1.
        -- destruct (Hd2 q qs eq_refl (D2 eq_refl q qs eq_refl)) as [t ->].
           apply inner_pieces_app;
             [exact I1 | exact (D2 eq_refl q qs eq_refl) | exact I2].
      * injection H as <-. cbn [app]. split.
        -- destruct l2 as [|r l2']; [reflexivity|].
           rewrite inner_pieces_cons, Em. exact I2.
        -- intros p' ps' E _. injection E as <- <-. exists l2. reflexivity.
    + destruct (if modified p then _ else _); discriminate.
Qed.

(** C3, as the code has it.  For every page list, MIN > 0 and
    MAX >= 2 MIN, GetPageListsForMultipartUpload returns, and every
    modified page of mixuppages has at most 2 MAX bytes: the last piece
    of a split area is left with up to twice the maximum.  On a page list
    that satisfies the invariants, a modified part that is followed by
    another modified part has exactly MAX bytes, so only the last piece
    of a modified area can be longer than MAX.  (Parts that are not
    modified are not split at all.) *)
Theorem C3_modified_parts_at_most_twice_max :
  forall (MIN MAX : Z) (pl : PageList),
    0 < MIN -> 2 * MIN <= MAX ->
    exists dlpages mixuppages,
      snd (GetPageListsForMultipartUpload MIN MAX pl)
      = Some (dlpages, mixuppages) /\
      (forall p, In p mixuppages ->
                 modified p = true -> bytes p <= 2 * MAX) /\
      (wf_pages (pages pl) = true ->
       inner_pieces_are MAX mixuppages = true).
Proof.
  intros MIN MAX pl Hmin Hmax. assert (0 < MAX) as Hmx by lia.
  unfold GetPageListsForMultipartUpload, PL.Compress. cbn [snd pages].
  set (modified_pages :=
         compress_fdpage_list_ignore_load (PL.compress_pages (pages pl))
                                          false).
  set (st := walk_finish (fold_left (walk_step MIN) modified_pages walk_init)).
  destruct (parse_partsize_bound
              (compress_fdpage_list_ignore_modify (download_pages st) false)
              MAX Hmx) as (dl & Edl & _).
  destruct (parse_partsize_bound
              (compress_fdpage_list_ignore_load (mixupload_pages st) false)
              MAX Hmx) as (mix & Emix & Fmix).
  exists dl, mix. rewrite Edl, Emix. split; [reflexivity|].
  rewrite Forall_forall in Fmix. split; [exact Fmix|].
  intros HW. apply wf_pages_WF in HW.
  assert (chain_end 0 modified_pages = Some (PL.size_of (pages pl))) as Hm.
  { apply raw_compress_chain. apply WF_wchain_compress. exact HW. }
  assert (wchain_end 0 (mixupload_pages st) = Some (PL.size_of (pages pl)))
    as Hw.
  { apply walk_finish_covers.
    apply walk_fold_covers with (pos := 0);
      [reflexivity | apply chain_wchain; exact Hm]. }
  apply (parse_partsize_inner MAX
           (compress_fdpage_list_ignore_load (mixupload_pages st) false));
    [|exact Emix].
  unfold compress_fdpage_list_ignore_load, raw_compress_fdpage_list.
  apply (raw_compress_fold_differ true false false false
           (mixupload_pages st) 0 0 (PL.size_of (pages pl)) None);
    [reflexivity | constructor | reflexivity | exact Hw].
Qed.

Lemma C3_modified_parts_at_most_twice_max_witness :
  exists dlpages mixuppages,
    snd (GetPageListsForMultipartUpload 1 2
           (mkPageList [mkpage 0 7 false true] false))
    = Some (dlpages, mixuppages) /\
    (forall p, In p mixuppages ->
               modified p = true -> bytes p <= 2 * 2) /\
    inner_pieces_are 2 mixuppages = true.
Proof.
  destruct (C3_modified_parts_at_most_twice_max 1 2
              (mkPageList [mkpage 0 7 false true] false))
    as (dl & mix & E & B & I); [lia | lia |].
  exists dl, mix. split; [exact E|]. split; [exact B|].
  apply I. reflexivity.
Defined.

(** C3 as stated fails, for a modified and for an unmodified part.  With
    MIN = 1 and MAX = 2, the single modified page (0, 3) is not split:
    mixuppages holds a modified part of 3 bytes.  With the same sizes the
    single loaded page (0, 100), which is not modified, becomes one part
    of 100 bytes that is not modified. *)
Lemma C3_part_longer_than_max :
  (snd (GetPageListsForMultipartUpload 1 2
          (mkPageList [mkpage 0 3 false true] false))
   = Some ([], [mkpage 0 3 false true]) /\
   ~ (forall p, In p [mkpage 0 3 false true] -> bytes p <= 2)) /\
  (snd (GetPageListsForMultipartUpload 1 2
          (mkPageList [mkpage 0 100 true false] false))
   = Some ([], [mkpage 0 100 false false]) /\
   ~ (forall p, In p [mkpage 0 100 false false] -> bytes p <= 2)).
Proof.
  split; (split; [reflexivity|]); intros H.
  - specialize (H (mkpage 0 3 false true) (or_introl eq_refl)).
    simpl in H. lia.
  - specialize (H (mkpage 0 100 false false) (or_introl eq_refl)).
    simpl in H. lia.
Qed.

(* ================================================================== *)
(** * Further properties of the worker pool *)
(* ================================================================== *)

Lemma SetWorkerCount_positive count w :
  1 <= ThreadPoolMan.worker_count w ->
  1 <= ThreadPoolMan.worker_count (snd (ThreadPoolMan.SetWorkerCount count w))
  /\ ThreadPoolMan.singleton (snd (ThreadPoolMan.SetWorkerCount count w))
     = ThreadPoolMan.singleton w.
Proof.
  intros H. unfold ThreadPoolMan.SetWorkerCount.
  destruct (Z.geb_spec 0 count); [auto|].
  destruct (count =? ThreadPoolMan.worker_count w); [auto|].
  cbn. split; [lia|reflexivity].
Qed.

Lemma Initialize_outcome count w :
  1 <= ThreadPoolMan.worker_count w ->
  ThreadPoolMan.singleton w = None ->
  ThreadPoolMan.Initialize count w
  = ThreadPoolMan.Returned true
      (ThreadPoolMan.mkworld
         (if 0 <? count then count else ThreadPoolMan.worker_count w)
         (Some (ThreadPoolMan.mkpool false 0 []
                  (Z.to_nat (if 0 <? count then count
                             else ThreadPoolMan.worker_count w))))).
Proof.
  intros H Hs. unfold ThreadPoolMan.Initialize. rewrite Hs.
  assert (ThreadPoolMan.worker_count
            (if negb (count =? -1)
             then snd (ThreadPoolMan.SetWorkerCount count w) else w)
          = if 0 <? count then count else ThreadPoolMan.worker_count w)
    as E.
  { unfold ThreadPoolMan.SetWorkerCount.
    destruct (Z.eqb_spec count (-1)) as [->|Hn]; [reflexivity|].
    cbn [negb].
    destruct (Z.geb_spec 0 count); destruct (Z.ltb_spec 0 count); try lia;
      [reflexivity|].
    destruct (Z.eqb_spec count (ThreadPoolMan.worker_count w));
      cbn [snd ThreadPoolMan.worker_count]; [lia|reflexivity]. }
  cbv zeta. rewrite E.
  assert (((if 0 <? count then count else ThreadPoolMan.worker_count w) <? 1)
          = false) as ->.
  { apply Z.ltb_ge. destruct (Z.ltb_spec 0 count); lia. }
  reflexivity.
Qed.

Lemma run_call_keeps c w w' :
  run_call c w = Some w' ->
  1 <= ThreadPoolMan.worker_count w ->
  (forall p, ThreadPoolMan.singleton w = Some p ->
             ThreadPoolMan.is_exit p = false /\
             (1 <= ThreadPoolMan.thread_list p)%nat) ->
  1 <= ThreadPoolMan.worker_count w' /\
  (forall p, ThreadPoolMan.singleton w' = Some p ->
             ThreadPoolMan.is_exit p = false /\
             (1 <= ThreadPoolMan.thread_list p)%nat).
Proof.
  intros H Hw Hp. destruct c as [count|count| |param|await_sem param];
    cbn [run_call] in H.
  - injection H as <-.
    destruct (SetWorkerCount_positive count w Hw) as [H1 H2].
    split; [exact H1|]. rewrite H2. exact Hp.
  - destruct (ThreadPoolMan.singleton w) as [p|] eqn:Es.
    + unfold ThreadPoolMan.Initialize in H. rewrite Es in H. discriminate.
    + rewrite (Initialize_outcome count w Hw Es) in H.
      cbn [world_after] in H. injection H as <-.
      cbn [ThreadPoolMan.worker_count ThreadPoolMan.singleton].
      assert (1 <= (if 0 <? count then count
                    else ThreadPoolMan.worker_count w)) as Hc
          by (destruct (Z.ltb_spec 0 count); lia).
      split; [exact Hc|]. intros p Ep. injection Ep as <-.
      cbn [ThreadPoolMan.is_exit ThreadPoolMan.thread_list].
      split; [reflexivity|lia].
  - injection H as <-. cbn. split; [exact Hw|discriminate].
  - unfold ThreadPoolMan.Instruct in H.
    destruct (ThreadPoolMan.singleton w) as [p|] eqn:Es.
    + destruct (ThreadPoolMan.psem param); cbn [world_after] in H;
        injection H as <-.
      * cbn [ThreadPoolMan.worker_count ThreadPoolMan.singleton].
        split; [exact Hw|]. intros q Eq. injection Eq as <-.
        cbn. apply Hp. reflexivity.
      * split; [exact Hw|]. rewrite Es. exact Hp.
    + cbn [world_after] in H. injection H as <-.
      split; [exact Hw|]. rewrite Es. discriminate.
  - unfold ThreadPoolMan.AwaitInstruct in H.
    destruct (ThreadPoolMan.singleton w) as [p|] eqn:Es.
    + destruct (ThreadPoolMan.psem param); cbn [world_after] in H;
        injection H as <-.
      * split; [exact Hw|]. rewrite Es. exact Hp.
      * cbn [ThreadPoolMan.worker_count ThreadPoolMan.singleton].
        split; [exact Hw|]. intros q Eq. injection Eq as <-.
        cbn. apply Hp. reflexivity.
    + cbn [world_after] in H. injection H as <-.
      split; [exact Hw|]. rewrite Es. discriminate.
Qed.

Lemma run_calls_keeps cs : forall w w',
  run_calls cs w = Some w' ->
  1 <= ThreadPoolMan.worker_count w ->
  (forall p, ThreadPoolMan.singleton w = Some p ->
             ThreadPoolMan.is_exit p = false /\
             (1 <= ThreadPoolMan.thread_list p)%nat) ->
  1 <= ThreadPoolMan.worker_count w' /\
  (forall p, ThreadPoolMan.singleton w' = Some p ->
             ThreadPoolMan.is_exit p = false /\
             (1 <= ThreadPoolMan.thread_list p)%nat).
Proof.
  induction cs as [|c cs IH]; intros w w' H Hw Hp.
  - injection H as <-. auto.
  - cbn [run_calls] in H. destruct (run_call c w) as [w1|] eqn:E;
      [|discriminate].
    destruct (run_call_keeps c w w1 E Hw Hp) as [H1 H2].
    apply (IH w1 w' H H1 H2).
Qed.

(** X26.  After any sequence of public calls (SetWorkerCount, Initialize,
    Destroy, Instruct, AwaitInstruct) that starts before Initialize and in
    which no call aborts, the worker count is at least 1 and a pool that
    exists has at least one thread and its exit flag off.  In such a
    state Initialize aborts exactly when a pool exists already, never for
    its count: a count that is 0 or negative is not taken, and the pool is
    started with the worker count that is set. *)
Theorem X26_pool_lifecycle :
  forall (cs : list pool_call) (w : ThreadPoolMan.world),
    run_calls cs ThreadPoolMan.initial = Some w ->
    1 <= ThreadPoolMan.worker_count w /\
    (forall p, ThreadPoolMan.singleton w = Some p ->
               ThreadPoolMan.is_exit p = false /\
               (1 <= ThreadPoolMan.thread_list p)%nat) /\
    (forall count,
       ThreadPoolMan.Initialize count w = ThreadPoolMan.Aborted <->
       ThreadPoolMan.singleton w <> None) /\
    (forall count,
       ThreadPoolMan.singleton w = None ->
       ThreadPoolMan.Initialize count w
       = ThreadPoolMan.Returned true
           (ThreadPoolMan.mkworld
              (if 0 <? count then count else ThreadPoolMan.worker_count w)
              (Some (ThreadPoolMan.mkpool false 0 []
                       (Z.to_nat (if 0 <? count then count
                                  else ThreadPoolMan.worker_count w)))))).
Proof.
  intros cs w H.
  destruct (run_calls_keeps cs ThreadPoolMan.initial w H) as [H1 H2].
  - cbn. lia.
  - cbn. discriminate.
  - split; [exact H1|]. split; [exact H2|]. split.
    + intros count. split.
      * intros Ha Hs. rewrite (Initialize_outcome count w H1 Hs) in Ha.
        discriminate.
      * intros Hs. unfold ThreadPoolMan.Initialize.
        destruct (ThreadPoolMan.singleton w); [reflexivity|contradiction].
    + intros count Hs. apply Initialize_outcome; assumption.
Qed.

Lemma X26_pool_lifecycle_witness :
  1 <= ThreadPoolMan.worker_count
         (ThreadPoolMan.mkworld 3
            (Some (ThreadPoolMan.mkpool false 1
                     [ThreadPoolMan.mkparam 7 (Some 1%nat) 9] 3%nat))).
Proof.
  apply (X26_pool_lifecycle
           [CallSetWorkerCount 0; CallSetWorkerCount 3; CallInitialize (-1);
            CallAwaitInstruct 5 (ThreadPoolMan.mkparam 7 (Some 1%nat) 9);
            CallInstruct (ThreadPoolMan.mkparam 7 (Some 1%nat) 9)]).
  reflexivity.
Defined.

(** ** The worker threads *)

Lemma set_worker_split (l : list worker_pc) i old new :
  nth_error l i = Some old ->
  exists l1 l2,
    l = l1 ++ old :: l2 /\
    firstn i l ++ new :: skipn (S i) l = l1 ++ new :: l2.
Proof.
  revert i. induction l as [|a l IH]; intros i H.
  - destruct i; discriminate.
  - destruct i as [|i].
    + injection H as <-. exists [], l. split; reflexivity.
    + cbn [nth_error] in H. destruct (IH i H) as (l1 & l2 & E1 & E2).
      exists (a :: l1), l2. split.
      * cbn [app]. f_equal. exact E1.
      * cbn [firstn skipn app] in *. f_equal. exact E2.
Qed.

Lemma holding_app l1 l2 : holding (l1 ++ l2) = (holding l1 + holding l2)%nat.
Proof. unfold holding. rewrite filter_app, length_app. reflexivity. Qed.

Lemma running_in_taken_set (l : list worker_pc) taken i old new :
  nth_error l i = Some old ->
  (forall param, In (Running param) l -> In param taken) ->
  (forall param, new = Running param -> In param taken) ->
  forall param,
    In (Running param) (firstn i l ++ new :: skipn (S i) l) ->
    In param taken.
Proof.
  intros H Hall Hnew param Hin.
  destruct (set_worker_split l i old new H) as (l1 & l2 & E1 & E2).
  rewrite E2 in Hin. apply in_app_iff in Hin.
  destruct Hin as [Hin|[Hin|Hin]].
  - apply Hall. rewrite E1. apply in_app_iff. left. exact Hin.
  - apply Hnew. exact Hin.
  - apply Hall. rewrite E1. apply in_app_iff. right. right. exact Hin.
Qed.

(** What every state of a pool at work satisfies. *)
Lemma pool_reaches_invariant count s :
  pool_reaches count s ->
  ThreadPoolMan.is_exit (members s) = false /\
  List.length (workers s) = count /\
  (ThreadPoolMan.thpoolman_sem (members s) + holding (workers s)
   <= List.length (ThreadPoolMan.instruction_list (members s)))%nat /\
  taken s ++ ThreadPoolMan.instruction_list (members s) = dispatched s /\
  (forall param, In (Running param) (workers s) -> In param (taken s)) /\
  (forall sem, In sem (released s) ->
     exists param, In param (taken s) /\
                   ThreadPoolMan.psem param = Some sem).
Proof.
  induction 1 as [|s s' Hr IH Hstep].
  - cbn. rewrite repeat_length. split; [reflexivity|].
    split; [reflexivity|]. split.
    + unfold holding. induction count as [|n IHn]; [cbn; lia|exact IHn].
    + split; [reflexivity|]. split.
      * intros param Hin. apply repeat_spec in Hin. discriminate.
      * intros sem [].
  - destruct IH as (I1 & I2 & I3 & I4 & I5 & I6).
    inversion Hstep as
        [s0 param
        |s0 i Hi
        |s0 i n Hi Hsem
        |s0 i Hi Hex
        |s0 i Hi Hex
        |s0 i Hi Hex Hl
        |s0 i param rest Hi Hex Hl
        |s0 i param Hi]; subst s0 s';
      cbn [members workers dispatched taken released
           ThreadPoolMan.is_exit ThreadPoolMan.thpoolman_sem
           ThreadPoolMan.instruction_list ThreadPoolMan.SetInstruction];
      unfold set_worker.
    + (* SetInstruction *)
      split; [exact I1|]. split; [exact I2|]. split.
      * rewrite length_app. cbn [List.length]. lia.
      * split; [rewrite app_assoc, I4; reflexivity|]. split; assumption.
    + (* the loop test *)
      destruct (set_worker_split (workers s) i _ (if ThreadPoolMan.is_exit (members s)
                                                  then Finished else AtAcquire) Hi)
        as (l1 & l2 & E1 & E2).
      split; [exact I1|]. rewrite E2. rewrite E1 in I2, I3.
      rewrite length_app in *. cbn [List.length] in *.
      split; [exact I2|]. split.
      * rewrite holding_app in *. rewrite I1.
        change (holding (AtLoopTest :: l2)) with (holding l2) in I3.
        change (holding (AtAcquire :: l2)) with (holding l2). exact I3.
      * split; [exact I4|]. split; [|exact I6].
        rewrite <- E2.
        apply (running_in_taken_set _ _ _ AtLoopTest _ Hi I5).
        intros param Hp. rewrite I1 in Hp. discriminate.
    + (* acquire *)
      destruct (set_worker_split (workers s) i _ (AfterAcquire) Hi)
        as (l1 & l2 & E1 & E2).
      split; [exact I1|]. rewrite E2. rewrite E1 in I2, I3.
      rewrite length_app in *. cbn [List.length] in *.
      split; [exact I2|]. split.
      * rewrite holding_app in *. rewrite Hsem in I3.
        change (holding (AtAcquire :: l2)) with (holding l2) in I3.
        change (holding (AfterAcquire :: l2)) with (S (holding l2)). lia.
      * split; [exact I4|]. split; [|exact I6].
        rewrite <- E2.
        apply (running_in_taken_set _ _ _ AtAcquire _ Hi I5).
        intros param Hp. discriminate.
    + (* the exit flag is set *)
      rewrite I1 in Hex. discriminate.
    + (* CreateCurlHandle fails *)
      destruct (set_worker_split (workers s) i _ (Finished) Hi)
        as (l1 & l2 & E1 & E2).
      split; [exact I1|]. rewrite E2. rewrite E1 in I2, I3.
      rewrite length_app in *. cbn [List.length] in *.
      split; [exact I2|]. split.
      * rewrite holding_app in *.
        change (holding (AfterAcquire :: l2)) with (S (holding l2)) in I3.
        change (holding (Finished :: l2)) with (holding l2). lia.
      * split; [exact I4|]. split; [|exact I6].
        rewrite <- E2.
        apply (running_in_taken_set _ _ _ AfterAcquire _ Hi I5).
        intros param Hp. discriminate.
    + (* the list is empty *)
      destruct (set_worker_split (workers s) i _ (AtLoopTest) Hi)
        as (l1 & l2 & E1 & E2).
      exfalso. rewrite E1, holding_app, Hl in I3.
      change (holding (AfterAcquire :: l2)) with (S (holding l2)) in I3.
      cbn [List.length] in I3. lia.
    + (* an instruction is taken *)
      destruct (set_worker_split (workers s) i _ (Running param) Hi)
        as (l1 & l2 & E1 & E2).
      split; [exact I1|]. rewrite E2. rewrite E1 in I2, I3.
      rewrite length_app in *. cbn [List.length] in *.
      split; [exact I2|]. rewrite Hl in I3, I4. cbn [List.length] in I3.
      split.
      * rewrite holding_app in *.
        change (holding (AfterAcquire :: l2)) with (S (holding l2)) in I3.
        change (holding (Running param :: l2)) with (holding l2). lia.
      * split; [rewrite <- app_assoc; exact I4|]. split.
        -- rewrite <- E2.
           apply (running_in_taken_set _ _ _ AfterAcquire _ Hi).
           ++ intros q Hq. apply in_app_iff. left. apply I5. exact Hq.
           ++ intros q Hq. injection Hq as <-. apply in_app_iff.
              right. left. reflexivity.
        -- intros sem Hs. destruct (I6 sem Hs) as (q & Hq1 & Hq2).
           exists q. split; [apply in_app_iff; left; exact Hq1|exact Hq2].
    + (* the function returns *)
      destruct (set_worker_split (workers s) i _ (AtLoopTest) Hi)
        as (l1 & l2 & E1 & E2).
      split; [exact I1|]. rewrite E2. rewrite E1 in I2, I3.
      rewrite length_app in *. cbn [List.length] in *.
      split; [exact I2|]. split.
      * rewrite holding_app in *.
        change (holding (Running param :: l2)) with (holding l2) in I3.
        change (holding (AtLoopTest :: l2)) with (holding l2). exact I3.
      * split; [exact I4|]. split.
        -- rewrite <- E2.
           apply (running_in_taken_set _ _ _ (Running param) _ Hi I5).
           intros q Hq. discriminate.
        -- intros sem Hs. apply in_app_iff in Hs. destruct Hs as [Hs|Hs].
           ++ apply I6. exact Hs.
           ++ exists param. split.
              ** apply I5. apply nth_error_In with (n := i). exact Hi.
              ** destruct (ThreadPoolMan.psem param) as [sem'|];
                   [|destruct Hs].
                 destruct Hs as [<-|[]]. reflexivity.
Qed.

(** X27.  In a pool at work (started with any number of workers; callers
    set instructions and workers run in any interleaving, the pool is not
    being stopped): the instructions that workers took, followed by those
    still in the list, are the instructions that were set, in the order in
    which they were set; a worker that got through the semaphore finds the
    list not empty, so the branch for an empty list is never taken; and
    every completion semaphore that was released belongs to an
    instruction that a worker took. *)
Theorem X27_pool_at_work :
  forall (count : nat) (s : pool_run),
    pool_reaches count s ->
    taken s ++ ThreadPoolMan.instruction_list (members s) = dispatched s /\
    (forall i, nth_error (workers s) i = Some AfterAcquire ->
               ThreadPoolMan.instruction_list (members s) <> []) /\
    (ThreadPoolMan.thpoolman_sem (members s)
     <= List.length (ThreadPoolMan.instruction_list (members s)))%nat /\
    List.length (workers s) = count /\
    (forall sem, In sem (released s) ->
       exists param, In param (taken s) /\
                     ThreadPoolMan.psem param = Some sem).
Proof.
  intros count s H.
  destruct (pool_reaches_invariant count s H)
    as (I1 & I2 & I3 & I4 & I5 & I6).
  split; [exact I4|]. split; [|split; [lia|split; [exact I2|exact I6]]].
  intros i Hi Hl.
  destruct (set_worker_split (workers s) i AfterAcquire Finished Hi)
    as (l1 & l2 & E1 & _).
  rewrite E1, holding_app, Hl in I3.
  change (holding (AfterAcquire :: l2)) with (S (holding l2)) in I3.
  cbn [List.length] in I3. lia.
Qed.

Lemma X27_pool_at_work_witness :
  taken (mkrun (ThreadPoolMan.mkpool false 0 [] 2)
               [AtLoopTest; Running (ThreadPoolMan.mkparam 7 (Some 1%nat) 9)]
               [ThreadPoolMan.mkparam 7 (Some 1%nat) 9]
               [ThreadPoolMan.mkparam 7 (Some 1%nat) 9] [])
  ++ ThreadPoolMan.instruction_list
       (members (mkrun (ThreadPoolMan.mkpool false 0 [] 2)
                  [AtLoopTest;
                   Running (ThreadPoolMan.mkparam 7 (Some 1%nat) 9)]
                  [ThreadPoolMan.mkparam 7 (Some 1%nat) 9]
                  [ThreadPoolMan.mkparam 7 (Some 1%nat) 9] []))
  = dispatched (mkrun (ThreadPoolMan.mkpool false 0 [] 2)
                  [AtLoopTest;
                   Running (ThreadPoolMan.mkparam 7 (Some 1%nat) 9)]
                  [ThreadPoolMan.mkparam 7 (Some 1%nat) 9]
                  [ThreadPoolMan.mkparam 7 (Some 1%nat) 9] []).
Proof.
  apply (X27_pool_at_work 2).
  apply (ReachesStep 2
           (mkrun (ThreadPoolMan.mkpool false 0 [ThreadPoolMan.mkparam 7 (Some 1%nat) 9] 2)
                  [AtLoopTest; AfterAcquire]
                  [ThreadPoolMan.mkparam 7 (Some 1%nat) 9] [] []));
    [|exact (StepTake
               (mkrun (ThreadPoolMan.mkpool false 0 [ThreadPoolMan.mkparam 7 (Some 1%nat) 9] 2)
                  [AtLoopTest; AfterAcquire]
                  [ThreadPoolMan.mkparam 7 (Some 1%nat) 9] [] [])
               1 (ThreadPoolMan.mkparam 7 (Some 1%nat) 9) []
               eq_refl eq_refl eq_refl)].
  apply (ReachesStep 2
           (mkrun (ThreadPoolMan.mkpool false 1 [ThreadPoolMan.mkparam 7 (Some 1%nat) 9] 2)
                  [AtLoopTest; AtAcquire]
                  [ThreadPoolMan.mkparam 7 (Some 1%nat) 9] [] []));
    [|exact (StepAcquire
               (mkrun (ThreadPoolMan.mkpool false 1 [ThreadPoolMan.mkparam 7 (Some 1%nat) 9] 2)
                  [AtLoopTest; AtAcquire]
                  [ThreadPoolMan.mkparam 7 (Some 1%nat) 9] [] [])
               1 0 eq_refl eq_refl)].
  apply (ReachesStep 2
           (mkrun (ThreadPoolMan.mkpool false 1 [ThreadPoolMan.mkparam 7 (Some 1%nat) 9] 2)
                  [AtLoopTest; AtLoopTest]
                  [ThreadPoolMan.mkparam 7 (Some 1%nat) 9] [] []));
    [|exact (StepLoopTest
               (mkrun (ThreadPoolMan.mkpool false 1 [ThreadPoolMan.mkparam 7 (Some 1%nat) 9] 2)
                  [AtLoopTest; AtLoopTest]
                  [ThreadPoolMan.mkparam 7 (Some 1%nat) 9] [] [])
               1 eq_refl)].
  apply (ReachesStep 2 (pool_started 2));
    [apply ReachesStart
    |exact (StepSetInstruction (pool_started 2)
              (ThreadPoolMan.mkparam 7 (Some 1%nat) 9))].
Defined.

(* ================================================================== *)
(** * Further properties: the areas without data *)
(* ================================================================== *)

Lemma gapped_end_le l : forall lo e,
  gapped_end lo l = Some e -> lo <= e.
Proof.
  induction l as [|p ps IH]; intros lo e H.
  - injection H as <-. lia.
  - cbn [gapped_end] in H.
    destruct (Z.leb_spec lo (offset p)); [|discriminate].
    destruct (Z.leb_spec 0 (bytes p)); [|discriminate].
    cbn [andb] in H. apply IH in H. unfold next in H. lia.
Qed.

Lemma flags_at_gapped_below l : forall lo e pos,
  gapped_end lo l = Some e -> pos < lo -> flags_at pos l = None.
Proof.
  induction l as [|p ps IH]; intros lo e pos H Hlt; [reflexivity|].
  cbn [gapped_end] in H.
  destruct (Z.leb_spec lo (offset p)); [|discriminate].
  destruct (Z.leb_spec 0 (bytes p)); [|discriminate].
  cbn [andb] in H. cbn [flags_at].
  assert ((offset p <=? pos) = false) as -> by (apply Z.leb_gt; lia).
  cbn [andb]. apply (IH (next p) e); [exact H|]. unfold next. lia.
Qed.

Lemma flags_at_gapped_above l : forall lo e pos,
  gapped_end lo l = Some e -> e <= pos -> flags_at pos l = None.
Proof.
  induction l as [|p ps IH]; intros lo e pos H Hle; [reflexivity|].
  cbn [gapped_end] in H.
  destruct (Z.leb_spec lo (offset p)); [|discriminate].
  destruct (Z.leb_spec 0 (bytes p)); [|discriminate].
  cbn [andb] in H. cbn [flags_at].
  pose proof (gapped_end_le _ _ _ H) as Hn.
  assert ((pos <? next p) = false) as -> by (apply Z.ltb_ge; lia).
  rewrite andb_false_r. apply (IH (next p) e); assumption.
Qed.

(** One turn of [compress_fdpage_list] on a page that lies at or after
    the end of the list built so far: the gap, if there is one, becomes
    an area that is neither loaded nor modified. *)
Lemma compress_step_gap a mid done lastpage p pos :
  chain_end a (done ++ [lastpage]) = Some mid ->
  mid <= offset p -> 0 < bytes p ->
  exists done' lastpage',
    raw_compress_step false false false false (Some (done, lastpage)) p
    = Some (done', lastpage') /\
    chain_end a (done' ++ [lastpage']) = Some (next p) /\
    flags_at pos (done' ++ [lastpage'])
    = match flags_at pos (done ++ [lastpage]) with
      | Some f => Some f
      | None =>
          if (offset p <=? pos) && (pos <? next p)
          then Some (loaded p, modified p)
          else if (mid <=? pos) && (pos <? offset p)
               then Some (false, false) else None
      end.
Proof.
  intros H Hmid Hb. pose proof H as H'. apply chain_end_snoc in H'.
  destruct H' as (H1 & H2 & H3). subst mid. unfold raw_compress_step.
  assert ((bytes p =? 0) = false) as -> by (apply Z.eqb_neq; lia).
  assert ((0 <? bytes p) = true) as Hpos by (apply Z.ltb_lt; lia).
  cbn [negb andb].
  destruct (Z.eqb_spec (next lastpage) (offset p)) as [En|En]; cbn [negb].
  - (* no gap *)
    destruct (negb (Bool.eqb (loaded lastpage) (loaded p))
              || negb (Bool.eqb (modified lastpage) (modified p))) eqn:Ec.
    + unfold raw_add_compress_fdpage_list. rewrite Hpos.
      cbn [compressed_list]. eexists. eexists. split; [reflexivity|].
      split.
      * apply chain_end_snoc. cbn [set_bytes offset bytes]. rewrite H.
        split; [f_equal; lia|]. split; [lia|reflexivity].
      * rewrite flags_at_app_first.
        destruct (flags_at pos (done ++ [lastpage])); [reflexivity|].
        cbn [flags_at]. unfold next. cbn [set_bytes offset bytes loaded modified].
        zbool.
    + apply orb_false_iff in Ec. destruct Ec as [Ec1 Ec2].
      apply negb_false_iff in Ec1, Ec2. apply eqb_prop in Ec1, Ec2.
      eexists. eexists. split; [reflexivity|]. split.
      * apply chain_end_snoc. unfold next in *.
        cbn [set_bytes offset bytes]. split; [exact H1|]. split; lia.
      * rewrite !flags_at_app_first.
        destruct (flags_at pos done); [reflexivity|].
        cbn [flags_at]. unfold next in *.
        cbn [set_bytes offset bytes loaded modified].
        rewrite <- Ec1, <- Ec2. zbool.
  - (* a gap *)
    assert (next lastpage < offset p) as Hgap by lia.
    destruct (loaded lastpage || modified lastpage) eqn:El.
    + assert (raw_add_compress_fdpage_list
                (Some (done, lastpage))
                (mkpage (next lastpage) (offset p - next lastpage)
                        false false) false false false false
              = Some (done ++ [lastpage],
                      mkpage (next lastpage) (offset p - next lastpage)
                             false false)) as ->.
      { unfold raw_add_compress_fdpage_list. cbn [bytes].
        assert ((0 <? offset p - next lastpage) = true) as ->
            by (apply Z.ltb_lt; lia).
        reflexivity. }
      cbn [loaded modified].
      destruct (negb (Bool.eqb false (loaded p))
                || negb (Bool.eqb false (modified p))) eqn:Ec.
      * unfold raw_add_compress_fdpage_list. rewrite Hpos.
        cbn [compressed_list]. eexists. eexists. split; [reflexivity|].
        split.
        -- apply chain_end_snoc. cbn [set_bytes offset bytes].
           split; [|split; [lia|reflexivity]].
           apply chain_end_snoc. unfold next in *. cbn [set_bytes offset bytes].
           split; [exact H|]. split; lia.
        -- rewrite !flags_at_app_first.
           destruct (flags_at pos done); [reflexivity|].
           cbn [flags_at]. unfold next in *.
           cbn [set_bytes offset bytes loaded modified]. zbool.
      * apply orb_false_iff in Ec. destruct Ec as [Ec1 Ec2].
        apply negb_false_iff in Ec1, Ec2. apply eqb_prop in Ec1, Ec2.
        eexists. eexists. split; [reflexivity|]. split.
        -- apply chain_end_snoc. unfold next in *.
           cbn [set_bytes offset bytes]. split; [exact H|]. split; lia.
        -- rewrite !flags_at_app_first.
           destruct (flags_at pos done); [reflexivity|].
           cbn [flags_at]. unfold next in *.
           cbn [set_bytes offset bytes loaded modified].
           rewrite <- Ec1, <- Ec2. zbool.
    + apply orb_false_iff in El. destruct El as [El1 El2].
      cbn [set_bytes loaded modified bytes offset]. rewrite El1, El2.
      destruct (negb (Bool.eqb false (loaded p))
                || negb (Bool.eqb false (modified p))) eqn:Ec.
      * unfold raw_add_compress_fdpage_list. rewrite Hpos.
        cbn [compressed_list]. eexists. eexists. split; [reflexivity|].
        split.
        -- apply chain_end_snoc. cbn [set_bytes offset bytes].
           split; [|split; [lia|reflexivity]].
           apply chain_end_snoc. unfold next in *. cbn [set_bytes offset bytes].
           split; [exact H1|]. split; lia.
        -- rewrite !flags_at_app_first.
           destruct (flags_at pos done); [reflexivity|].
           cbn [flags_at]. unfold next in *.
           cbn [set_bytes offset bytes loaded modified]. rewrite El1, El2. zbool.
      * apply orb_false_iff in Ec. destruct Ec as [Ec1 Ec2].
        apply negb_false_iff in Ec1, Ec2. apply eqb_prop in Ec1, Ec2.
        eexists. eexists. split; [reflexivity|]. split.
        -- apply chain_end_snoc. unfold next in *.
           cbn [set_bytes offset bytes]. split; [exact H1|]. split; lia.
        -- rewrite !flags_at_app_first.
           destruct (flags_at pos done); [reflexivity|].
           cbn [flags_at]. unfold next in *.
           cbn [set_bytes offset bytes loaded modified].
           rewrite El1, El2, <- Ec1, <- Ec2. zbool.
Qed.

Lemma compress_fold_gap l pos : forall a mid e done lastpage,
  chain_end a (done ++ [lastpage]) = Some mid ->
  gapped_end mid l = Some e -> Forall (fun q => 0 < bytes q) l ->
  chain_end a (compressed_list
                 (fold_left (raw_compress_step false false false false)
                            l (Some (done, lastpage)))) = Some e /\
  flags_at pos (compressed_list
                  (fold_left (raw_compress_step false false false false)
                             l (Some (done, lastpage))))
  = match flags_at pos (done ++ [lastpage]) with
    | Some f => Some f
    | None =>
        match flags_at pos l with
        | Some f => Some f
        | None => if (mid <=? pos) && (pos <? e)
                  then Some (false, false) else None
        end
    end.
Proof.
  induction l as [|p ps IH]; intros a mid e done lastpage H Hg F.
  - injection Hg as <-. cbn [fold_left compressed_list flags_at].
    split; [exact H|].
    destruct (flags_at pos (done ++ [lastpage])); [reflexivity|]. zbool.
  - cbn [gapped_end] in Hg.
    destruct (Z.leb_spec mid (offset p)) as [Hmid|]; [|discriminate].
    destruct (Z.leb_spec 0 (bytes p)) as [Hb0|]; [|discriminate].
    cbn [andb] in Hg. inversion F as [|? ? Hb Fps]; subst.
    destruct (compress_step_gap a mid done lastpage p pos H Hmid Hb)
      as (done' & lastpage' & Es & Hc & Hf).
    cbn [fold_left]. rewrite Es.
    destruct (IH a (next p) e done' lastpage' Hc Hg Fps) as [IH1 IH2].
    split; [exact IH1|]. rewrite IH2, Hf.
    destruct (flags_at pos (done ++ [lastpage])); [reflexivity|].
    cbn [flags_at]. pose proof (gapped_end_le _ _ _ Hg) as Hle.
    destruct (Z.leb_spec (offset p) pos) as [C1|C1];
      destruct (Z.ltb_spec pos (next p)) as [C2|C2]; cbn [andb];
      try reflexivity.
    + (* after the page *)
      assert ((mid <=? pos) = true) as -> by (apply Z.leb_le; lia).
      assert ((pos <? offset p) = false) as -> by (apply Z.ltb_ge; lia).
      cbn [andb].
      assert ((next p <=? pos) = true) as -> by (apply Z.leb_le; lia).
      reflexivity.
    + (* before the page *)
      rewrite (flags_at_gapped_below ps (next p) e pos Hg C2).
      assert ((pos <? offset p) = true) as -> by (apply Z.ltb_lt; lia).
      assert ((next p <=? pos) = false) as -> by (apply Z.leb_gt; lia).
      assert ((pos <? e) = true) as -> by (apply Z.ltb_lt; lia).
      rewrite !andb_true_r. cbn [andb].
      destruct (mid <=? pos); reflexivity.
    + unfold next in *. lia.
Qed.

Section RawCompressKeeps.

Variables ignore_load ignore_modify default_load default_modify : bool.

Variable P : fdpage -> Prop.
Hypothesis P_set_bytes : forall q b, P q -> P (set_bytes q b).
Hypothesis P_gap : forall o b,
  P (mkpage o b (if ignore_load then default_load else false)
            (if ignore_modify then default_modify else false)).

Lemma raw_add_keeps st p :
  Forall P (compressed_list st) ->
  P (mkpage (offset p) (bytes p)
            (if ignore_load then default_load else loaded p)
            (if ignore_modify then default_modify else modified p)) ->
  Forall P (compressed_list
              (raw_add_compress_fdpage_list
                 st p ignore_load ignore_modify
                 default_load default_modify)).
Proof.
  intros H Hp. unfold raw_add_compress_fdpage_list.
  destruct (0 <? bytes p); [|exact H].
  cbn [compressed_list]. apply Forall_app. split; [exact H|].
  constructor; [exact Hp|constructor].
Qed.

Lemma snoc_set_bytes_keeps done lastpage b :
  Forall P (done ++ [lastpage]) ->
  Forall P (done ++ [set_bytes lastpage b]).
Proof.
  intros H. apply Forall_app in H. destruct H as [H1 H2].
  apply Forall_app. split; [exact H1|].
  inversion H2; subst. constructor; [apply P_set_bytes; assumption|].
  constructor.
Qed.

Lemma raw_compress_step_keeps st p :
  Forall P (compressed_list st) ->
  P (mkpage (offset p) (bytes p)
            (if ignore_load then default_load else loaded p)
            (if ignore_modify then default_modify else modified p)) ->
  Forall P (compressed_list
              (raw_compress_step ignore_load ignore_modify
                                 default_load default_modify st p)).
Proof.
  intros H Hp. unfold raw_compress_step.
  destruct (bytes p =? 0); [exact H|].
  destruct st as [[done lastpage]|]; [|apply raw_add_keeps; assumption].
  set (st1 := if negb (next lastpage =? offset p) then _ else _).
  assert (Forall P (compressed_list st1)) as H1.
  { unfold st1. destruct (negb (next lastpage =? offset p)); [|exact H].
    destruct ((negb ignore_load && loaded lastpage)
              || (negb ignore_modify && modified lastpage)).
    - apply raw_add_keeps; [exact H|]. cbn [offset bytes loaded modified].
      apply P_gap.
    - cbn [compressed_list] in *. apply snoc_set_bytes_keeps. exact H. }
  destruct st1 as [[done1 last1]|]; [|constructor].
  destruct ((negb ignore_load
             && negb (Bool.eqb (loaded last1) (loaded p)))
            || (negb ignore_modify
                && negb (Bool.eqb (modified last1) (modified p)))).
  - apply raw_add_keeps; assumption.
  - cbn [compressed_list] in *. apply snoc_set_bytes_keeps. exact H1.
Qed.

Lemma raw_compress_keeps l :
  Forall (fun p =>
            P (mkpage (offset p) (bytes p)
                      (if ignore_load then default_load else loaded p)
                      (if ignore_modify then default_modify
                       else modified p))) l ->
  Forall P (raw_compress_fdpage_list l ignore_load ignore_modify
                                     default_load default_modify).
Proof.
  unfold raw_compress_fdpage_list. intros F.
  assert (forall st, Forall P (compressed_list st) ->
            Forall P (compressed_list
                        (fold_left (raw_compress_step
                                      ignore_load ignore_modify
                                      default_load default_modify) l st)))
    as H.
  { induction F as [|p ps Hp Fps IH]; intros st Hst; [exact Hst|].
    cbn [fold_left]. apply IH. apply raw_compress_step_keeps; assumption. }
  apply H. constructor.
Qed.

End RawCompressKeeps.

Lemma gapped_end_lower l : forall lo lo' e,
  gapped_end lo' l = Some e -> lo <= lo' ->
  exists e', gapped_end lo l = Some e' /\ e' <= e.
Proof.
  destruct l as [|p ps]; intros lo lo' e H Hle.
  - injection H as <-. exists lo. split; [reflexivity|exact Hle].
  - cbn [gapped_end] in *.
    destruct (Z.leb_spec lo' (offset p)); [|discriminate].
    destruct (Z.leb_spec 0 (bytes p)); [|discriminate].
    cbn [andb] in H.
    assert ((lo <=? offset p) = true) as -> by (apply Z.leb_le; lia).
    cbn [andb]. exists e. split; [exact H|lia].
Qed.

(** The areas that the loop of GetNoDataPageLists collects from pages
    that tile [lo, hi), from a start at or before [lo]. *)
Lemma nodata_loop_spec start stop_pos l : forall lo hi,
  chain_end lo l = Some hi -> start <= lo ->
  exists e,
    gapped_end lo (nodata_loop start stop_pos l) = Some e /\ e <= hi /\
    Forall (fun q => 0 < bytes q) (nodata_loop start stop_pos l) /\
    Forall (fun q => modified q = false) (nodata_loop start stop_pos l) /\
    Forall (fun q => (stop_pos =? -1) = false -> next q <= stop_pos)
           (nodata_loop start stop_pos l) /\
    forall pos,
      flags_at pos (nodata_loop start stop_pos l)
      = if (stop_pos =? -1) || (pos <? stop_pos)
        then match flags_at pos l with
             | Some (ld, false) => Some (ld, false)
             | _ => None
             end
        else None.
Proof.
  induction l as [|p ps IH]; intros lo hi H Hs.
  - injection H as <-. exists lo. cbn [nodata_loop flags_at gapped_end].
    split; [reflexivity|]. split; [lia|]. split; [constructor|].
    split; [constructor|]. split; [constructor|]. intros pos.
    destruct ((stop_pos =? -1) || (pos <? stop_pos)); reflexivity.
  - pose proof (chain_end_le _ _ _ H) as Hlh.
    apply chain_end_cons in H. destruct H as (H1 & H2 & H3).
    pose proof (chain_end_le _ _ _ H3) as Hnh.
    destruct (IH (next p) hi H3) as (e & G & Ge & Fp & Fm & Fs & Fl);
      [unfold next; lia|].
    cbn [nodata_loop].
    assert ((offset p + bytes p <? start) = false) as ->
        by (apply Z.ltb_ge; lia).
    destruct (negb (stop_pos =? -1) && (stop_pos <=? offset p)) eqn:Eb.
    + (* the range ends before this page *)
      apply andb_true_iff in Eb. destruct Eb as [Eb1 Eb2].
      apply negb_true_iff in Eb1. apply Z.leb_le in Eb2.
      exists lo. cbn [gapped_end flags_at].
      split; [reflexivity|]. split; [lia|]. split; [constructor|].
      split; [constructor|]. split; [constructor|].
      intros pos. rewrite Eb1. cbn [orb].
      destruct (Z.ltb_spec pos stop_pos); [|reflexivity].
      assert ((offset p <=? pos) = false) as -> by (apply Z.leb_gt; lia).
      cbn [andb].
      rewrite (flags_at_below (next p) hi ps pos H3) by (unfold next; lia).
      reflexivity.
    + destruct (modified p) eqn:Em.
      * (* a modified page is left out *)
        destruct (gapped_end_lower _ lo (next p) e G) as (e' & G' & Ge');
          [unfold next; lia|].
        exists e'. split; [exact G'|]. split; [lia|].
        split; [exact Fp|]. split; [exact Fm|]. split; [exact Fs|].
        intros pos. rewrite Fl. cbn [flags_at]. rewrite Em.
        destruct ((stop_pos =? -1) || (pos <? stop_pos)); [|reflexivity].
        destruct ((offset p <=? pos) && (pos <? next p)) eqn:Ein;
          [|reflexivity].
        apply andb_true_iff in Ein. destruct Ein as [_ Ein].
        apply Z.ltb_lt in Ein.
        rewrite (flags_at_below (next p) hi ps pos H3 Ein). reflexivity.
      * (* a page that is not modified *)
        cbv zeta. rewrite Z.max_l by lia.
        set (b := if stop_pos =? -1 then bytes p
                  else Z.min (bytes p) (stop_pos - offset p)).
        assert (0 < b /\ b <= bytes p /\
                ((stop_pos =? -1) = false -> offset p + b <= stop_pos) /\
                (b < bytes p -> (stop_pos =? -1) = false
                                /\ offset p + b = stop_pos)) as Hbb.
        { unfold b. destruct (Z.eqb_spec stop_pos (-1)) as [E|E].
          - split; [lia|]. split; [lia|]. split; [discriminate|lia].
          - cbn [negb andb] in Eb. apply Z.leb_gt in Eb.
            split; [lia|]. split; [lia|]. split; [lia|].
            intros Hlt. split; [reflexivity|lia]. }
        destruct Hbb as (B1 & B2 & B3 & B4).
        destruct (gapped_end_lower _ (offset p + b) (next p) e G)
          as (e' & G' & Ge'); [unfold next; lia|].
        exists e'. cbn [gapped_end]. unfold next at 1. cbn [offset bytes].
        assert ((lo <=? offset p) = true) as -> by (apply Z.leb_le; lia).
        assert ((0 <=? b) = true) as -> by (apply Z.leb_le; lia).
        cbn [andb]. split; [exact G'|]. split; [lia|].
        split; [constructor; [exact B1|exact Fp]|].
        split; [constructor; [reflexivity|exact Fm]|].
        split; [constructor; [unfold next; cbn [offset bytes]; exact B3
                             |exact Fs]|].
        intros pos. cbn [flags_at]. unfold next at 1.
        cbn [offset bytes loaded modified]. rewrite Fl, Em.
        destruct (Z.leb_spec (offset p) pos) as [C1|C1];
          destruct (Z.ltb_spec pos (offset p + b)) as [C2|C2];
          destruct (Z.ltb_spec pos (next p)) as [C3|C3];
          cbn [andb]; unfold next in *; try lia; try reflexivity.
        -- destruct (Z.eqb_spec stop_pos (-1)) as [E|E]; cbn [orb];
             [reflexivity|].
           specialize (B3 eq_refl).
           assert ((pos <? stop_pos) = true) as -> by (apply Z.ltb_lt; lia).
           reflexivity.
        -- assert (b < bytes p) as Hlt by lia.
           destruct (B4 Hlt) as [B5 B6]. rewrite B5. cbn [orb].
           assert ((pos <? stop_pos) = false) as -> by (apply Z.ltb_ge; lia).
           reflexivity.
Qed.

(** [compress_fdpage_list] on areas in ascending order: one list without
    gap from the first area to the end of the last, in which the gaps are
    areas that are neither loaded nor modified. *)
Lemma compress_gapped_spec t ts lo e :
  gapped_end lo (t :: ts) = Some e ->
  Forall (fun q => 0 < bytes q) (t :: ts) ->
  chain_end (offset t) (compress_fdpage_list (t :: ts)) = Some e /\
  forall pos,
    flags_at pos (compress_fdpage_list (t :: ts))
    = match flags_at pos (t :: ts) with
      | Some f => Some f
      | None => if (next t <=? pos) && (pos <? e)
                then Some (false, false) else None
      end.
Proof.
  intros G F. inversion F as [|? ? Ht Fts]; subst.
  cbn [gapped_end] in G.
  destruct (Z.leb_spec lo (offset t)); [|discriminate].
  destruct (Z.leb_spec 0 (bytes t)); [|discriminate].
  cbn [andb] in G.
  unfold compress_fdpage_list, raw_compress_fdpage_list.
  cbn [fold_left].
  assert (raw_compress_step false false false false None t
          = Some ([], t)) as ->.
  { unfold raw_compress_step, raw_add_compress_fdpage_list.
    assert ((bytes t =? 0) = false) as -> by (apply Z.eqb_neq; lia).
    assert ((0 <? bytes t) = true) as -> by (apply Z.ltb_lt; lia).
    destruct t; reflexivity. }
  assert (chain_end (offset t) ([] ++ [t]) = Some (next t)) as Hc.
  { cbn [app chain_end]. rewrite Z.eqb_refl.
    assert ((0 <? bytes t) = true) as -> by (apply Z.ltb_lt; lia).
    reflexivity. }
  split.
  - apply (compress_fold_gap ts 0 (offset t) (next t) e [] t Hc G Fts).
  - intros pos.
    destruct (compress_fold_gap ts pos (offset t) (next t) e [] t Hc G Fts)
      as [_ Hf].
    rewrite Hf. cbn [app flags_at].
    destruct ((offset t <=? pos) && (pos <? next t)); reflexivity.
Qed.

Lemma gapped_end_last l : forall lo e,
  gapped_end lo l = Some e -> l <> [] -> exists q, In q l /\ next q = e.
Proof.
  induction l as [|p ps IH]; intros lo e H Hne; [contradiction|].
  cbn [gapped_end] in H.
  destruct ((lo <=? offset p) && (0 <=? bytes p)); [|discriminate].
  destruct ps as [|p' ps'].
  - injection H as <-. exists p. split; [left; reflexivity|reflexivity].
  - destruct (IH _ _ H) as (q & Hq & Hn); [discriminate|].
    exists q. split; [right; exact Hq|exact Hn].
Qed.

(** X28.  GetNoDataPageLists from the start of the file (start = 0, any
    size below 2^63) on a list that satisfies the invariants: it
    compresses the list and returns true; no page it returns is modified;
    the pages it returns follow one another without gap; every byte of the
    range that is not modified is returned with its loaded flag; and every
    byte it returns is such a byte, or a modified byte that it returns as
    not loaded and not modified.  This is the case of every modified byte
    that lies between two bytes of the range that are not modified. *)
Theorem X28_no_data_pages :
  forall (size : Z) (pl : PageList),
    wf_pages (pages pl) = true -> 0 <= size < 2 ^ 63 ->
    fst (GetNoDataPageLists 0 size pl) = PL.Compress pl /\
    fst (snd (GetNoDataPageLists 0 size pl)) = true /\
    Forall (fun q => modified q = false)
           (snd (snd (GetNoDataPageLists 0 size pl))) /\
    (snd (snd (GetNoDataPageLists 0 size pl)) = [] \/
     exists a e,
       is_partition a e (snd (snd (GetNoDataPageLists 0 size pl)))) /\
    (forall pos ld,
       flags_at pos (pages pl) = Some (ld, false) ->
       size = 0 \/ pos < size ->
       flags_at pos (snd (snd (GetNoDataPageLists 0 size pl)))
       = Some (ld, false)) /\
    (forall pos f,
       flags_at pos (snd (snd (GetNoDataPageLists 0 size pl))) = Some f ->
       (flags_at pos (pages pl) = Some f /\ snd f = false) \/
       (f = (false, false) /\
        exists ld, flags_at pos (pages pl) = Some (ld, true))) /\
    (forall before pos after l1 l2 ld,
       before < pos < after ->
       flags_at before (pages pl) = Some (l1, false) ->
       flags_at after (pages pl) = Some (l2, false) ->
       size = 0 \/ after < size ->
       flags_at pos (pages pl) = Some (ld, true) ->
       flags_at pos (snd (snd (GetNoDataPageLists 0 size pl)))
       = Some (false, false)).
Proof.
  intros size pl HW Hsz. apply wf_pages_WF in HW.
  unfold GetNoDataPageLists, PL.Compress. cbn [fst snd pages].
  split; [reflexivity|]. split; [reflexivity|].
  assert (forall pos, flags_at pos (PL.compress_pages (pages pl))
                      = flags_at pos (pages pl)) as HfL
      by (intros pos; apply flags_at_compress; exact HW).
  pose proof (WF_compress _ HW) as HWL.
  set (L := PL.compress_pages (pages pl)) in *.
  set (stop_pos := if size =? 0 then -1 else to_off_t (0 + size)).
  assert ((size = 0 /\ stop_pos = -1) \/ (0 < size /\ stop_pos = size))
    as Hstop.
  { unfold stop_pos. destruct (Z.eqb_spec size 0) as [E|E];
      [left; auto|right].
    split; [lia|]. unfold to_off_t. cbv zeta.
    rewrite Z.add_0_l, Z.mod_small by lia.
    destruct (Z.ltb_spec size (2 ^ 63)); lia. }
  assert (forall pos, size = 0 \/ pos < size ->
            (stop_pos =? -1) || (pos <? stop_pos) = true) as Hin.
  { intros pos [E|E]; destruct Hstop as [[S1 S2]|[S1 S2]]; rewrite S2;
      try lia; reflexivity. }
  destruct HWL as [[hi Hc]|(a & b & EL)].
  - (* pages with bytes *)
    destruct (nodata_loop_spec 0 stop_pos L 0 hi Hc (Z.le_refl 0))
      as (e & G & Ge & Fp & Fm & Fs & Fl).
    assert (forall pos ld,
              flags_at pos (pages pl) = Some (ld, false) ->
              size = 0 \/ pos < size ->
              flags_at pos (nodata_loop 0 stop_pos L) = Some (ld, false))
      as Hkeep.
    { intros pos ld Hf Hr. rewrite Fl, (Hin pos Hr), HfL, Hf. reflexivity. }
    assert (forall pos f,
              flags_at pos (nodata_loop 0 stop_pos L) = Some f ->
              flags_at pos (pages pl) = Some f /\ snd f = false) as Hfrom.
    { intros pos f Hf. rewrite Fl, HfL in Hf.
      destruct ((stop_pos =? -1) || (pos <? stop_pos)); [|discriminate].
      destruct (flags_at pos (pages pl)) as [[ld [|]]|]; try discriminate.
      injection Hf as <-. split; reflexivity. }
    destruct (nodata_loop 0 stop_pos L) as [|t ts] eqn:Et.
    + split; [constructor|]. split; [left; reflexivity|]. split.
      * intros pos ld Hf Hr. exact (Hkeep pos ld Hf Hr).
      * split; [intros pos f Hf; discriminate|].
        intros before pos after l1 l2 ld _ _ Ha Hr _.
        pose proof (Hkeep after l2 Ha Hr) as X. discriminate.
    + destruct (compress_gapped_spec t ts 0 e G Fp) as [Cc Cf].
      split.
      { unfold compress_fdpage_list.
        apply (raw_compress_keeps false false false false
                 (fun q => modified q = false)).
        - intros q b0 Hq. exact Hq.
        - intros o b0. reflexivity.
        - eapply Forall_impl; [|exact Fm]. intros q Hq. exact Hq. }
      split; [right; exists (offset t), e; exact Cc|].
      assert (gapped_end (offset t) (t :: ts) = Some e) as G'.
      { cbn [gapped_end] in G |- *. rewrite Z.leb_refl.
        destruct (0 <=? offset t); [|discriminate G].
        cbn [andb] in G |- *. exact G. }
      assert (forall pos, flags_at pos (t :: ts) = None ->
                offset t <= pos -> next t <= pos) as Hafter.
      { intros pos Hn Hle. cbn [flags_at] in Hn.
        destruct (Z.leb_spec (offset t) pos); [|lia].
        destruct (Z.ltb_spec pos (next t)); [discriminate|lia]. }
      split; [|split].
      * intros pos ld Hf Hr. rewrite Cf, (Hkeep pos ld Hf Hr). reflexivity.
      * intros pos f Hf. rewrite Cf in Hf.
        destruct (flags_at pos (t :: ts)) as [g|] eqn:Eg.
        -- injection Hf as <-. left. apply Hfrom. exact Eg.
        -- destruct (Z.leb_spec (next t) pos) as [C1|]; [|discriminate].
           destruct (Z.ltb_spec pos e) as [C2|]; [|discriminate].
           cbn [andb] in Hf. injection Hf as <-. right.
           split; [reflexivity|].
           inversion Fp as [|? ? Ht _]; subst.
           destruct (flags_at_inside 0 hi L pos Hc) as ([ld m] & Hl).
           { cbn [gapped_end] in G.
             destruct (Z.leb_spec 0 (offset t)); [|discriminate].
             unfold next in C1. lia. }
           rewrite HfL in Hl. exists ld. rewrite Hl.
           destruct m; [reflexivity|]. exfalso.
           assert ((stop_pos =? -1) || (pos <? stop_pos) = true) as Hs.
           { destruct (Z.eqb_spec stop_pos (-1)) as [|Hne]; [reflexivity|].
             cbn [orb]. apply Z.ltb_lt.
             destruct (gapped_end_last (t :: ts) 0 e G) as (q & Hq & Hqe);
               [discriminate|].
             rewrite Forall_forall in Fs. specialize (Fs q Hq eq_refl).
             lia. }
           rewrite Fl, Hs, HfL, Hl in Eg. discriminate.
      * intros before pos after l1 l2 ld Hord Hb Ha Hr Hm.
        assert (size = 0 \/ before < size) as Hrb by lia.
        pose proof (Hkeep before l1 Hb Hrb) as Kb.
        pose proof (Hkeep after l2 Ha Hr) as Ka.
        assert (flags_at pos (t :: ts) = None) as Kp.
        { rewrite Fl, HfL, Hm.
          destruct ((stop_pos =? -1) || (pos <? stop_pos)); reflexivity. }
        rewrite Cf, Kp.
        assert (offset t <= before) as Hlo.
        { destruct (Z.le_gt_cases (offset t) before) as [|Hlt]; [assumption|].
          rewrite (flags_at_gapped_below _ _ _ before G') in Kb by lia.
          discriminate. }
        assert (after < e) as Hhi.
        { destruct (Z.lt_ge_cases after e) as [|Hge]; [assumption|].
          rewrite (flags_at_gapped_above _ _ _ after G') in Ka by lia.
          discriminate. }
        assert (next t <= pos) as Hnt by (apply Hafter; [exact Kp|lia]).
        assert ((next t <=? pos) = true) as -> by (apply Z.leb_le; lia).
        assert ((pos <? e) = true) as -> by (apply Z.ltb_lt; lia).
        reflexivity.
  - (* the empty file *)
    assert (forall pos, flags_at pos (pages pl) = None) as Hnone.
    { intros pos. rewrite <- HfL, EL. cbn [flags_at]. unfold next.
      cbn [offset bytes]. zbool. }
    assert (match nodata_loop 0 stop_pos L with
            | [] => []
            | _ :: _ => compress_fdpage_list (nodata_loop 0 stop_pos L)
            end = []) as ->.
    { rewrite EL. cbn [nodata_loop offset bytes modified loaded].
      assert ((0 + 0 <? 0) = false) as -> by reflexivity.
      assert (negb (stop_pos =? -1) && (stop_pos <=? 0) = false) as ->.
      { destruct Hstop as [[S1 S2]|[S1 S2]]; rewrite S2;
          [reflexivity|].
        apply andb_false_iff. right. apply Z.leb_gt. lia. }
      destruct b; [reflexivity|].
      cbv zeta. rewrite Z.max_l by lia.
      assert ((if stop_pos =? -1 then 0 else Z.min 0 (stop_pos - 0)) = 0)
        as ->.
      { destruct Hstop as [[S1 S2]|[S1 S2]]; rewrite S2; [reflexivity|].
        destruct (Z.eqb_spec size (-1)); [lia|]. lia. }
      reflexivity. }
    split; [constructor|]. split; [left; reflexivity|]. split; [|split].
    + intros pos ld Hf. rewrite Hnone in Hf. discriminate.
    + intros pos f Hf. discriminate.
    + intros before pos after l1 l2 ld _ Hb. rewrite Hnone in Hb.
      discriminate.
Qed.

Lemma X28_no_data_pages_witness :
  flags_at 12
    (snd (snd (GetNoDataPageLists 0 0
                 (mkPageList [mkpage 0 10 true false; mkpage 10 5 true true;
                              mkpage 15 5 false false] false))))
  = Some (false, false).
Proof.
  apply (X28_no_data_pages 0
           (mkPageList [mkpage 0 10 true false; mkpage 10 5 true true;
                        mkpage 15 5 false false] false))
    with (before := 3) (after := 17) (l1 := true) (l2 := false)
         (ld := true);
    try reflexivity; lia.
Defined.

(* ================================================================== *)
(** * Further properties: marking ranges *)
(* ================================================================== *)

(** After SetPageLoadedStatus with its final Compress the list is in
    its shortest form. *)
Lemma SetPageLoadedStatus_canonical pl start size pstatus :
  WF (pages pl) -> 0 <= start -> 0 < size ->
  chain_end 0 (pages (PL.SetPageLoadedStatus start size pstatus true pl))
  = Some (Z.max (PL.Size pl) (start + size)) /\
  no_equal_neighbours
    (pages (PL.SetPageLoadedStatus start size pstatus true pl)) = true.
Proof.
  intros HW Hs Hsz.
  destruct (SetPageLoadedStatus_spec pl start size pstatus true HW Hs)
    as (R1 & R2 & _); [lia|].
  pose proof (WF_size_nonneg _ HW) as Hn. fold (PL.Size pl) in Hn.
  split.
  - rewrite <- R2. apply WF_size_nonzero; [exact R1|].
    fold (PL.Size (PL.SetPageLoadedStatus start size pstatus true pl)). lia.
  - destruct (SetPageLoadedStatus_spec pl start size pstatus false HW Hs)
      as (F1 & _); [lia|].
    change (pages (PL.SetPageLoadedStatus start size pstatus true pl)) with
      (PL.compress_pages
         (pages (PL.SetPageLoadedStatus start size pstatus false pl))).
    apply compress_pages_no_equal. exact F1.
Qed.

Lemma PageList_eq (a b : PageList) :
  pages a = pages b -> is_shrink a = is_shrink b -> a = b.
Proof. destruct a, b. cbn. intros -> ->. reflexivity. Qed.

(** Two page lists in their shortest form are equal when every byte has
    the same flags in both and their shrunk flags agree. *)
Lemma canonical_PageList_eq (x y : PageList) hi1 hi2 :
  chain_end 0 (pages x) = Some hi1 -> chain_end 0 (pages y) = Some hi2 ->
  no_equal_neighbours (pages x) = true ->
  no_equal_neighbours (pages y) = true ->
  (forall pos, flags_at pos (pages x) = flags_at pos (pages y)) ->
  is_shrink x = is_shrink y ->
  x = y.
Proof.
  intros C1 C2 N1 N2 Hf Hs. apply PageList_eq; [|exact Hs].
  apply (canonical_unique _ _ 0 _ _ C1 C2 N1 N2 Hf).
Qed.

(** X29.  Marking ranges that lie inside the file (with the final
    Compress): two ranges that do not overlap can be marked in either
    order, with any two statuses, and give the same page list; and
    marking a range after a range that it contains gives the list that
    marking it alone gives. *)
Theorem X29_set_page_loaded_status_order :
  forall (pl : PageList) (s1 n1 s2 n2 : Z) (st1 st2 : page_status),
    wf_pages (pages pl) = true ->
    0 <= s1 -> 0 < n1 -> s1 + n1 <= PL.Size pl ->
    0 <= s2 -> 0 < n2 -> s2 + n2 <= PL.Size pl ->
    (s1 + n1 <= s2 \/ s2 + n2 <= s1 ->
     PL.SetPageLoadedStatus s2 n2 st2 true
       (PL.SetPageLoadedStatus s1 n1 st1 true pl)
     = PL.SetPageLoadedStatus s1 n1 st1 true
         (PL.SetPageLoadedStatus s2 n2 st2 true pl)) /\
    (s2 <= s1 /\ s1 + n1 <= s2 + n2 ->
     PL.SetPageLoadedStatus s2 n2 st2 true
       (PL.SetPageLoadedStatus s1 n1 st1 true pl)
     = PL.SetPageLoadedStatus s2 n2 st2 true pl).
Proof.
  intros pl s1 n1 s2 n2 st1 st2 HW A1 A2 A3 B1 B2 B3.
  apply wf_pages_WF in HW.
  destruct (SetPageLoadedStatus_spec pl s1 n1 st1 true HW A1)
    as (W1 & Z1 & F1 & S1); [lia|].
  destruct (SetPageLoadedStatus_spec pl s2 n2 st2 true HW B1)
    as (W2 & Z2 & F2 & S2); [lia|].
  destruct (SetPageLoadedStatus_spec _ s2 n2 st2 true W1 B1)
    as (_ & _ & F21 & S21); [lia|].
  destruct (SetPageLoadedStatus_spec _ s1 n1 st1 true W2 A1)
    as (_ & _ & F12 & S12); [lia|].
  destruct (SetPageLoadedStatus_canonical _ s2 n2 st2 W1 B1 B2) as [C21 N21].
  destruct (SetPageLoadedStatus_canonical _ s1 n1 st1 W2 A1 A2) as [C12 N12].
  destruct (SetPageLoadedStatus_canonical _ s2 n2 st2 HW B1 B2) as [C2 N2].
  split.
  - intros Hd.
    apply (canonical_PageList_eq _ _ _ _ C21 C12 N21 N12); [|congruence].
    intros pos. rewrite F21, F12, F1, F2, Z1, Z2. zbool.
  - intros Hc.
    apply (canonical_PageList_eq _ _ _ _ C21 C2 N21 N2); [|congruence].
    intros pos. rewrite F21, F1, F2, Z1. zbool.
Qed.

Lemma X29_set_page_loaded_status_order_witness :
  PL.SetPageLoadedStatus 60 20 MODIFIED true
    (PL.SetPageLoadedStatus 10 20 LOADED true
       (mkPageList [mkpage 0 100 false false] false))
  = PL.SetPageLoadedStatus 10 20 LOADED true
      (PL.SetPageLoadedStatus 60 20 MODIFIED true
         (mkPageList [mkpage 0 100 false false] false)).
Proof.
  apply (X29_set_page_loaded_status_order
           (mkPageList [mkpage 0 100 false false] false)
           10 20 60 20 LOADED MODIFIED);
    try reflexivity; try (cbn; unfold next; cbn; lia); lia.
Defined.

(** X30.  On a page list that satisfies the invariants, after
    SetPageLoadedStatus(start, size, status) with 0 <= start, size > 0 and
    start + size below 2^63 (the sum is an off_t), IsPageLoaded(a, n)
    with 0 <= a and n > 0 answers the loaded flag of the status for every
    range [a, a + n) inside [start, start + size), and answers what it
    answered before for every range of the old file that does not meet
    [start, start + size). *)
Theorem X30_is_page_loaded_after_marking :
  forall (pl : PageList) (start size a n : Z) (pstatus : page_status)
         (is_compress : bool),
    wf_pages (pages pl) = true -> 0 <= start -> 0 < size ->
    start + size < 2 ^ 63 ->
    0 <= a -> 0 < n ->
    (start <= a /\ a + n <= start + size ->
     PL.IsPageLoaded a n
       (PL.SetPageLoadedStatus start size pstatus is_compress pl)
     = PL.status_loaded pstatus) /\
    (a + n <= PL.Size pl /\ (a + n <= start \/ start + size <= a) ->
     PL.IsPageLoaded a n
       (PL.SetPageLoadedStatus start size pstatus is_compress pl)
     = PL.IsPageLoaded a n pl).
Proof.
  intros pl start size a n st c HW Hs Hsz _ Ha Hn. apply wf_pages_WF in HW.
  pose proof (WF_size_nonneg _ HW) as Hnn. fold (PL.Size pl) in Hnn.
  destruct (SetPageLoadedStatus_spec pl start size st c HW Hs)
    as (W1 & Z1 & F1 & _); [lia|].
  set (pl1 := PL.SetPageLoadedStatus start size st c pl) in *.
  assert (chain_end 0 (pages pl1) = Some (PL.Size pl1)) as C1.
  { apply WF_size_nonzero; [exact W1|]. fold (PL.Size pl1). lia. }
  pose proof (is_page_loaded_loop_spec a n (pages pl1) 0 _ C1) as I1.
  fold (PL.IsPageLoaded a n pl1) in I1.
  specialize (I1 ltac:(lia) ltac:(lia)).
  split.
  - intros [R1 R2].
    destruct (PL.status_loaded st) eqn:El.
    + apply I1. intros pos x y Hp Hr Hf. rewrite F1 in Hf.
      assert ((start <=? pos) && (pos <? start + size) = true) as E
          by (apply andb_true_iff; split;
              [apply Z.leb_le|apply Z.ltb_lt]; lia).
      rewrite E in Hf. injection Hf as <- _. reflexivity.
    + destruct (PL.IsPageLoaded a n pl1) eqn:Ei; [|reflexivity].
      exfalso. destruct I1 as [I1 _].
      specialize (I1 eq_refl a false (PL.status_modified st)).
      assert (false = true) as X; [|discriminate X].
      apply I1; [lia|lia|]. rewrite F1.
      assert ((start <=? a) && (a <? start + size) = true) as ->
          by (apply andb_true_iff; split;
              [apply Z.leb_le|apply Z.ltb_lt]; lia).
      reflexivity.
  - intros [R1 R2].
    assert (chain_end 0 (pages pl) = Some (PL.Size pl)) as C0.
    { apply WF_size_nonzero; [exact HW|]. fold (PL.Size pl). lia. }
    pose proof (is_page_loaded_loop_spec a n (pages pl) 0 _ C0) as I0.
    fold (PL.IsPageLoaded a n pl) in I0.
    specialize (I0 ltac:(lia) ltac:(lia)).
    assert (forall pos, a <= pos < a + n ->
              flags_at pos (pages pl1) = flags_at pos (pages pl)) as Hsame.
    { intros pos Hp. rewrite F1.
      assert ((start <=? pos) && (pos <? start + size) = false) as ->.
      { apply andb_false_iff. destruct R2;
          [left; apply Z.leb_gt|right; apply Z.ltb_ge]; lia. }
      assert ((pos <? PL.Size pl) = true) as -> by (apply Z.ltb_lt; lia).
      reflexivity. }
    destruct (PL.IsPageLoaded a n pl) eqn:E0.
    + apply I1. intros pos x y Hp [Hr|Hr] Hf; [lia|].
      rewrite Hsame in Hf by lia.
      destruct I0 as [I0 _]. apply (I0 eq_refl pos x y); auto.
    + destruct (PL.IsPageLoaded a n pl1) eqn:Ei; [|reflexivity].
      exfalso. assert (false = true) as X; [|discriminate X].
      apply I0. intros pos x y Hp [Hr|Hr] Hf; [lia|].
      rewrite <- Hsame in Hf by lia.
      destruct I1 as [I1 _]. apply (I1 eq_refl pos x y); auto.
Qed.

Lemma X30_is_page_loaded_after_marking_witness :
  PL.IsPageLoaded 15 10
    (PL.SetPageLoadedStatus 10 20 LOADED true
       (mkPageList [mkpage 0 100 false false] false))
  = PL.status_loaded LOADED.
Proof.
  apply (X30_is_page_loaded_after_marking
           (mkPageList [mkpage 0 100 false false] false)
           10 20 15 10 LOADED true);
    try reflexivity; lia.
Defined.
